(** * nwnltr: the letter-transition-record (LTR) Markov table engine

    A shallow embedding of [nwnltr.c]: the binary table format
    ([load_ltr], the [fwrite] part of [build_ltr]), the repair pass
    ([fix_ltr]), the table builder ([build_ltr]) and the name sampler
    ([random_name]).

    C [float] values are kept as their 32-bit patterns; arithmetic on them
    goes through the IEEE-754 specification of the Standard Library
    ([SpecFloat], precision 24, emax 128), comparisons against [double]
    literals compare exact values. *)

From Stdlib Require Import ZArith QArith Qpower Lia Lqa List Bool.
From Stdlib Require Import Floats.SpecFloat.
From Stdlib Require Import Strings.Byte.
From stdpp Require Import base list.

Local Open Scope Z_scope.

(** ** Binary32 values as bit patterns *)

Module F32.

Definition prec : Z := 24.
Definition emax : Z := 128.

(** A C [float] is the 32-bit word that memory holds. *)
Definition f32 : Type := Z.

Definition sign_field (w : Z) : bool := Z.testbit w 31.
Definition exp_field (w : Z) : Z := (w / 2 ^ 23) mod 2 ^ 8.
Definition frac_field (w : Z) : Z := w mod 2 ^ 23.

(** Decoding of a bit pattern (sign, 8 exponent bits, 23 fraction bits). *)
Definition dec (w : f32) : spec_float :=
  let s := sign_field w in
  let ef := exp_field w in
  let fr := frac_field w in
  if ef =? 0 then
    match fr with
    | Zpos p => S754_finite s p (-149)
    | _ => S754_zero s
    end
  else if ef =? 255 then
    (if fr =? 0 then S754_infinity s else S754_nan)
  else
    match fr + 2 ^ 23 with
    | Zpos p => S754_finite s p (ef - 150)
    | _ => S754_nan
    end.

Definition sign_bit (s : bool) : Z := if s then 2 ^ 31 else 0.

(** Encoding.  The fields are masked to their widths, so that every result
    is a 32-bit word.  C leaves the payload of a NaN result open; the
    default quiet NaN is stored. *)
Definition enc (x : spec_float) : f32 :=
  match x with
  | S754_zero s => sign_bit s
  | S754_infinity s => sign_bit s + 255 * 2 ^ 23
  | S754_nan => 255 * 2 ^ 23 + 2 ^ 22
  | S754_finite s m e =>
      if Zpos (digits2_pos m) =? prec
      then sign_bit s + ((e + 150) mod 2 ^ 8) * 2 ^ 23 + (Zpos m) mod 2 ^ 23
      else sign_bit s + (Zpos m) mod 2 ^ 23
  end.

(** Exact rational value of a finite float (0 for the others). *)
Definition SF2Q (x : spec_float) : Q :=
  match x with
  | S754_finite s m e =>
      match e with
      | Zneg k => cond_Zopp s (Zpos m) # 2 ^ k
      | _ => inject_Z (cond_Zopp s (Zpos m) * 2 ^ e)
      end
  | _ => 0
  end.

(** Comparison of the values of two floats, whatever their formats: the
    comparison C performs after the usual arithmetic conversions, which are
    exact.  [SFcompare] of the Standard Library is right only between two
    floats of one format; its cases outside finite against finite do not
    look at the format. *)
Definition SFcompare_exact (x y : spec_float) : option comparison :=
  match x, y with
  | S754_finite _ _ _, S754_finite _ _ _ => Some (Qcompare (SF2Q x) (SF2Q y))
  | _, _ => SFcompare x y
  end.

Definition SFeqb_exact x y :=
  match SFcompare_exact x y with Some Eq => true | _ => false end.
Definition SFltb_exact x y :=
  match SFcompare_exact x y with Some Lt => true | _ => false end.
Definition SFleb_exact x y :=
  match SFcompare_exact x y with Some (Lt | Eq) => true | _ => false end.

(** [float + float] and [float / float]. *)
Definition add (a b : f32) : f32 := enc (SFadd prec emax (dec a) (dec b)).
Definition div (a b : f32) : f32 := enc (SFdiv prec emax (dec a) (dec b)).

(** [(float)n] for an [int] n. *)
Definition of_int (n : Z) : f32 := enc (binary_normalize prec emax n 0 false).

(** [(int)x]: truncation toward zero (C leaves it undefined outside the
    range of [int] and for NaN; 0 stands for those). *)
Definition to_int (x : f32) : Z :=
  match dec x with
  | S754_finite s m e =>
      cond_Zopp s (if 0 <=? e then Zpos m * 2 ^ e else Zpos m / 2 ^ (- e))
  | _ => 0
  end.

(** Conversion of a [double] to [float] (round to nearest even). *)
Definition of_double (d : spec_float) : f32 :=
  enc match d with
      | S754_finite s m e => binary_round prec emax s m e
      | _ => d
      end.

(** The [double] literals of the source. *)
Definition d_one : spec_float := S754_finite false 4503599627370496 (-52).
Definition d_zero : spec_float := S754_zero false.
Definition d_0_9999 : spec_float := S754_finite false 9006298534815518 (-53).
Definition d_1_0001 : spec_float := S754_finite false 4504049987333233 (-52).

(** The float is converted to [double] (exactly) before the operation with a
    [double] literal.  A binary32 value needs no rounding in binary64, so
    [SFadd] at precision 53 is applied to the same mantissa and exponent
    after [binary_round] brought it to the binary64 form. *)
Definition to_double (x : f32) : spec_float :=
  match dec x with
  | S754_finite s m e => binary_round 53 1024 s m e
  | y => y
  end.

(** [x += 1.0]: the sum is computed in [double] and converted back. *)
Definition add_one (x : f32) : f32 :=
  of_double (SFadd 53 1024 (to_double x) d_one).

(** [x == 0.0], [x != 0.0], [x > 0.0]. *)
Definition eq_zero (x : f32) : bool := SFeqb_exact (dec x) d_zero.
Definition ne_zero (x : f32) : bool := negb (eq_zero x).
Definition gt_zero (x : f32) : bool := SFltb_exact d_zero (dec x).

(** [x >= c], [x <= c], [x < c], [x > c] for a [double] literal c. *)
Definition ge_d (x : f32) (c : spec_float) : bool := SFleb_exact c (dec x).
Definition le_d (x : f32) (c : spec_float) : bool := SFleb_exact (dec x) c.
Definition lt_d (x : f32) (c : spec_float) : bool := SFltb_exact (dec x) c.
Definition gt_d (x : f32) (c : spec_float) : bool := SFltb_exact c (dec x).

(** [a < b] between two floats. *)
Definition lt (a b : f32) : bool := SFltb_exact (dec a) (dec b).

(** [(x >= 0.9999) && (x <= 1.0001)] *)
Definition near_one (x : f32) : bool := ge_d x d_0_9999 && le_d x d_1_0001.

Definition zero : f32 := 0.

(** The value of a float that is finite. *)
Definition value (x : f32) : option Q :=
  match dec x with
  | S754_zero _ => Some 0%Q
  | S754_finite s m e => Some (SF2Q (S754_finite s m e))
  | _ => None
  end.

(** [x] is finite and its value lies in [[lo, hi]]. *)
Definition within (lo hi : Q) (x : f32) : Prop :=
  match value x with
  | Some q => (lo <= q /\ q <= hi)%Q
  | None => False
  end.

End F32.

(** ** Characters *)

#[global] Instance byte_eq_decision : EqDecision byte := Byte.byte_eq_dec.
#[global] Instance byte_inhabited : Inhabited byte := populate x00.

Definition Z_of_byte (b : byte) : Z := Z.of_N (Byte.to_N b).

Definition byte_of_Z (z : Z) : byte :=
  match Byte.of_N (Z.to_N (z mod 256)) with
  | Some b => b
  | None => x00
  end.

(** [tolower] and [toupper] of the C locale. *)
Definition tolower (c : byte) : byte :=
  let n := Z_of_byte c in
  if (65 <=? n) && (n <=? 90) then byte_of_Z (n + 32) else c.

Definition toupper (c : byte) : byte :=
  let n := Z_of_byte c in
  if (97 <=? n) && (n <=? 122) then byte_of_Z (n - 32) else c.

(** ** The table *)

Definition NUM_LETTERS : Z := 28.

Definition letters : list byte :=
  [x61; x62; x63; x64; x65; x66; x67; x68; x69; x6a; x6b; x6c; x6d;
   x6e; x6f; x70; x71; x72; x73; x74; x75; x76; x77; x78; x79; x7a;
   x27; x2d].

(** The magic tag ["LTR V1.0"]. *)
Definition LTR_MAGIC : list byte := [x4c; x54; x52; x20; x56; x31; x2e; x30].

Record ltr_header := Build_ltr_header {
  magic : list byte;        (* char magic[8] *)
  num_letters : Z           (* uint8_t *)
}.

Record cdf := Build_cdf {
  start : list F32.f32;
  middle : list F32.f32;
  end_ : list F32.f32       (* field [end] of the source *)
}.

Record ltrdata := Build_ltrdata {
  singles : cdf;
  doubles : list cdf;
  triples : list (list cdf)
}.

Record ltrfile := Build_ltrfile {
  header : ltr_header;
  data : ltrdata
}.

Definition idx (letter : byte) : Z :=
  if Byte.eqb letter x27 then 26
  else if Byte.eqb letter x2d then 27
  else if (Z_of_byte x61 <=? Z_of_byte letter) && (Z_of_byte letter <=? Z_of_byte x7a)
       then Z_of_byte letter - Z_of_byte x61
  else -1.

#[global] Instance cdf_inhabited : Inhabited cdf := populate (Build_cdf [] [] []).

(** Array reads [a[i]] with an [int] index; an index outside the array (which
    the source never uses) reads the default. *)
Definition at_ {A} `{Inhabited A} (a : list A) (i : Z) : A := a !!! Z.to_nat i.

(** The float [a[i]] of an array of floats; outside the array it reads 0.0. *)
Definition elt (a : list F32.f32) (i : nat) : F32.f32 := default F32.zero (a !! i).

(** Well-formedness: what the C types guarantee of a table in memory. *)
Definition is_word (w : Z) : Prop := 0 <= w < 2 ^ 32.

Definition wf_array (a : list F32.f32) : Prop :=
  length a = Z.to_nat NUM_LETTERS /\ Forall is_word a.

Definition wf_cdf (c : cdf) : Prop :=
  wf_array (start c) /\ wf_array (middle c) /\ wf_array (end_ c).

Definition wf_data (d : ltrdata) : Prop :=
  wf_cdf (singles d) /\
  (length (doubles d) = Z.to_nat NUM_LETTERS /\ Forall wf_cdf (doubles d)) /\
  (length (triples d) = Z.to_nat NUM_LETTERS /\
   Forall (fun row => length row = Z.to_nat NUM_LETTERS /\ Forall wf_cdf row)
          (triples d)).

Definition wf_header (h : ltr_header) : Prop :=
  magic h = LTR_MAGIC /\ num_letters h = NUM_LETTERS.

Definition wf_ltrfile (t : ltrfile) : Prop :=
  wf_header (header t) /\ wf_data (data t).

(** ** Storage: the file image *)

Section Storage.

(** Byte order of the machine: the file is a memory image. *)
Variable big_endian : bool.

Definition float_bytes (w : F32.f32) : list byte :=
  let l := [byte_of_Z w; byte_of_Z (w / 2 ^ 8);
            byte_of_Z (w / 2 ^ 16); byte_of_Z (w / 2 ^ 24)] in
  if big_endian then rev l else l.

Definition float_of_bytes (b0 b1 b2 b3 : byte) : F32.f32 :=
  let join l0 l1 l2 l3 :=
    Z_of_byte l0 + 2 ^ 8 * Z_of_byte l1 + 2 ^ 16 * Z_of_byte l2
    + 2 ^ 24 * Z_of_byte l3 in
  if big_endian then join b3 b2 b1 b0 else join b0 b1 b2 b3.

Definition array_bytes (a : list F32.f32) : list byte :=
  concat (map float_bytes a).

Definition cdf_bytes (c : cdf) : list byte :=
  array_bytes (start c) ++ array_bytes (middle c) ++ array_bytes (end_ c).

Definition data_bytes (d : ltrdata) : list byte :=
  cdf_bytes (singles d)
  ++ concat (map cdf_bytes (doubles d))
  ++ concat (map (fun row => concat (map cdf_bytes row)) (triples d)).

(** [fwrite(&ltr->header, 9, 1, f); fwrite(&ltr->data, sizeof(ltr->data), 1, f)] *)
Definition header_bytes (h : ltr_header) : list byte :=
  magic h ++ [byte_of_Z (num_letters h)].

Definition write_ltr (t : ltrfile) : list byte :=
  header_bytes (header t) ++ data_bytes (data t).

(** Reading back: [n] objects from the front of the bytes, or [None] when
    the bytes run out. *)
Fixpoint read_many {A} (read : list byte -> option (A * list byte))
    (n : nat) (bs : list byte) : option (list A * list byte) :=
  match n with
  | O => Some ([], bs)
  | S n' =>
      match read bs with
      | Some (x, bs') =>
          match read_many read n' bs' with
          | Some (xs, bs'') => Some (x :: xs, bs'')
          | None => None
          end
      | None => None
      end
  end.

Definition read_float (bs : list byte) : option (F32.f32 * list byte) :=
  match bs with
  | b0 :: b1 :: b2 :: b3 :: rest => Some (float_of_bytes b0 b1 b2 b3, rest)
  | _ => None
  end.

Definition read_array (bs : list byte) : option (list F32.f32 * list byte) :=
  read_many read_float (Z.to_nat NUM_LETTERS) bs.

Definition read_cdf (bs : list byte) : option (cdf * list byte) :=
  match read_array bs with
  | Some (s, bs1) =>
      match read_array bs1 with
      | Some (m, bs2) =>
          match read_array bs2 with
          | Some (e, bs3) => Some (Build_cdf s m e, bs3)
          | None => None
          end
      | None => None
      end
  | None => None
  end.

Definition read_data (bs : list byte) : option (ltrdata * list byte) :=
  match read_cdf bs with
  | Some (s, bs1) =>
      match read_many read_cdf (Z.to_nat NUM_LETTERS) bs1 with
      | Some (d, bs2) =>
          match read_many (read_many read_cdf (Z.to_nat NUM_LETTERS))
                          (Z.to_nat NUM_LETTERS) bs2 with
          | Some (t, bs3) => Some (Build_ltrdata s d t, bs3)
          | None => None
          end
      | None => None
      end
  | None => None
  end.

(** The ways [load_ltr] dies (the file is taken as opened). *)
Inductive load_error :=
| No_valid_header                 (* short header or wrong magic *)
| Wrong_num_letters (n : Z)       (* built for another alphabet size *)
| Truncated_table.                (* the table could not be read in full *)

Definition load_ltr (file : list byte) : load_error + ltrfile :=
  match file with
  | m0 :: m1 :: m2 :: m3 :: m4 :: m5 :: m6 :: m7 :: nl :: rest =>
      let mg := [m0; m1; m2; m3; m4; m5; m6; m7] in
      if bool_decide (mg = LTR_MAGIC) then
        if Z_of_byte nl =? NUM_LETTERS then
          match read_data rest with
          | Some (d, _) => inr (Build_ltrfile (Build_ltr_header mg (Z_of_byte nl)) d)
          | None => inl Truncated_table
          end
        else inl (Wrong_num_letters (Z_of_byte nl))
      else inl No_valid_header
  | _ => inl No_valid_header
  end.

End Storage.

(** ** Loops *)

(** [for (i = 0; i < n; i++) body] on a state. *)
Definition for_loop {S : Type} (n : nat) (body : nat -> S -> S) (s : S) : S :=
  fold_left (fun s i => body i s) (seq 0 n) s.

(** ** Field updates *)

Definition set_start (a : list F32.f32) (c : cdf) : cdf :=
  Build_cdf a (middle c) (end_ c).
Definition set_middle (a : list F32.f32) (c : cdf) : cdf :=
  Build_cdf (start c) a (end_ c).
Definition set_end (a : list F32.f32) (c : cdf) : cdf :=
  Build_cdf (start c) (middle c) a.

Definition on_singles (f : cdf -> cdf) (d : ltrdata) : ltrdata :=
  Build_ltrdata (f (singles d)) (doubles d) (triples d).
Definition on_doubles (i : Z) (f : cdf -> cdf) (d : ltrdata) : ltrdata :=
  Build_ltrdata (singles d) (alter f (Z.to_nat i) (doubles d)) (triples d).
Definition on_triples (i j : Z) (f : cdf -> cdf) (d : ltrdata) : ltrdata :=
  Build_ltrdata (singles d) (doubles d)
    (alter (alter f (Z.to_nat j)) (Z.to_nat i) (triples d)).

Definition set_data (d : ltrdata) (t : ltrfile) : ltrfile :=
  Build_ltrfile (header t) d.

(** ** The repair pass: [fix_ltr] *)

Inductive position := Start | Middle | End.

(** What [fix_ltr] prints on stderr. *)
Inductive fix_msg :=
| Correcting (which : position)
| Fix_line (letter : byte) (original corrected acc offset : F32.f32)
| Fix_warning (acc : F32.f32)
| Corrections_completed.

(** One round of the detection loop: [iscorrupt &= ~2] when the middle entry
    is near one, [iscorrupt &= ~1] when the end entry is. *)
Definition detect_body (d : ltrdata) (i : nat) (iscorrupt : Z) : Z :=
  let c1 := if F32.near_one (elt (middle (singles d)) i)
            then Z.land iscorrupt (Z.lnot 2) else iscorrupt in
  if F32.near_one (elt (end_ (singles d)) i)
  then Z.land c1 (Z.lnot 1) else c1.

Definition detect (ltr : ltrfile) : Z :=
  for_loop (Z.to_nat (num_letters (header ltr))) (detect_body (data ltr)) 3.

(** The variables of a correction loop. *)
Record fix_state := Build_fix_state {
  fs_table : list F32.f32;
  fs_accumulator : F32.f32;
  fs_prevval : F32.f32;
  fs_correction : F32.f32;
  fs_log : list fix_msg
}.

(** The body of the correction loop; the source has it twice, once on
    [singles.middle] and once on [singles.end]. *)
Definition fix_body (i : nat) (st : fix_state) : fix_state :=
  let uncorrected := elt (fs_table st) i in
  let '(table, accumulator, correction) :=
    if F32.ne_zero (elt (fs_table st) i) then
      let correction :=
        if (0 <? i)%nat then
          if F32.eq_zero (fs_prevval st) then fs_accumulator st
          else fs_correction st
        else fs_correction st in
      let accumulator := F32.add (elt (fs_table st) i) correction in
      (<[i := accumulator]> (fs_table st), accumulator, correction)
    else (fs_table st, fs_accumulator st, fs_correction st) in
  Build_fix_state table accumulator uncorrected correction
    (fs_log st ++ [Fix_line (letters !!! i) uncorrected (elt table i)
                            accumulator correction]).

Definition fix_warns (accumulator : F32.f32) : bool :=
  F32.lt_d accumulator F32.d_0_9999 || F32.gt_d accumulator F32.d_1_0001.

Definition fix_run (which : position) (n : nat) (table : list F32.f32) : fix_state :=
  for_loop n fix_body
    (Build_fix_state table F32.zero F32.zero F32.zero [Correcting which]).

Definition fix_table (which : position) (n : nat) (table : list F32.f32)
  : list F32.f32 * list fix_msg :=
  let st := fix_run which n table in
  (fs_table st,
   fs_log st ++ (if fix_warns (fs_accumulator st)
                 then [Fix_warning (fs_accumulator st)] else [])).

(** [if (iscorrupt & mask)] *)
Definition judged_corrupt (mask : Z) (ltr : ltrfile) : bool :=
  negb (Z.land (detect ltr) mask =? 0).

Definition fix_ltr (ltr : ltrfile) : ltrfile * list fix_msg :=
  let n := Z.to_nat (num_letters (header ltr)) in
  let '(ltr1, log1) :=
    if judged_corrupt 2 ltr then
      let '(m, log) := fix_table Middle n (middle (singles (data ltr))) in
      (set_data (on_singles (set_middle m) (data ltr)) ltr, log)
    else (ltr, []) in
  let '(ltr2, log2) :=
    if judged_corrupt 1 ltr then
      let '(e, log) := fix_table End n (end_ (singles (data ltr1))) in
      (set_data (on_singles (set_end e) (data ltr1)) ltr1, log)
    else (ltr1, []) in
  (ltr2, log1 ++ log2 ++ (if negb (detect ltr =? 0) then [Corrections_completed] else [])).

(** The repaired table alone. *)
Definition repair (ltr : ltrfile) : ltrfile := fst (fix_ltr ltr).

(** ** The builder: [build_ltr] *)

(** What [build_ltr] prints on stderr. *)
Inductive build_msg :=
| Invalid_character (c : byte) (name : list byte)
| Name_too_short (name : list byte).

(** The loop that copies the valid characters of [buf] to [buf2].  [seen]
    is the part of [buf] before [r] (already lowercased in place), [rest]
    the part from [r] on; the strings are C strings, so their end is the
    terminating NUL. *)
Fixpoint clean_loop (seen rest buf2 : list byte) (log : list build_msg)
  : list byte * list build_msg :=
  match rest with
  | [] => (buf2, log)
  | r :: rest' =>
      if Byte.eqb r x23 then (buf2, log)            (* '#': break *)
      else
        let r' := tolower r in
        if idx r' =? -1 then
          clean_loop (seen ++ [r']) rest' buf2
            (log ++ [Invalid_character r' (seen ++ r' :: rest')])
        else clean_loop (seen ++ [r']) rest' (buf2 ++ [r']) log
  end.

Definition clean (buf : list byte) : list byte * list build_msg :=
  clean_loop [] buf [] [].

(** [a[i] += 1.0] *)
Definition incr (i : Z) (a : list F32.f32) : list F32.f32 :=
  alter F32.add_one (Z.to_nat i) a.

Definition on_start (f : list F32.f32 -> list F32.f32) (c : cdf) : cdf :=
  set_start (f (start c)) c.
Definition on_middle (f : list F32.f32 -> list F32.f32) (c : cdf) : cdf :=
  set_middle (f (middle c)) c.
Definition on_end (f : list F32.f32 -> list F32.f32) (c : cdf) : cdf :=
  set_end (f (end_ c)) c.

(** The three [+= 1.0] of one window of three characters [c0 c1 c2], on the
    arrays selected by [pos]. *)
Definition count3 (pos : (list F32.f32 -> list F32.f32) -> cdf -> cdf)
    (c0 c1 c2 : byte) (d : ltrdata) : ltrdata :=
  let d1 := on_singles (pos (incr (idx c0))) d in
  let d2 := on_doubles (idx c0) (pos (incr (idx c1))) d1 in
  on_triples (idx c0) (idx c1) (pos (incr (idx c2))) d2.

(** [while (++p != q-2) { ... }] with [p], [q] as offsets into [buf2].  The
    loop leaves after fewer rounds than [buf2] has characters. *)
Fixpoint middle_loop (fuel : nat) (buf2 : list byte) (p q : Z) (d : ltrdata)
  : ltrdata :=
  match fuel with
  | O => d
  | S fuel' =>
      let p := p + 1 in
      if p =? q - 2 then d
      else middle_loop fuel' buf2 p q
             (count3 on_middle (at_ buf2 p) (at_ buf2 (p + 1)) (at_ buf2 (p + 2)) d)
  end.

(** The counting of one name of at least three characters. *)
Definition count_name (buf2 : list byte) (d : ltrdata) : ltrdata :=
  let p := 0 in
  let q := Z.of_nat (length buf2) - 1 in
  let d1 := count3 on_start (at_ buf2 p) (at_ buf2 (p + 1)) (at_ buf2 (p + 2)) d in
  let d2 :=
    let d' := on_singles (on_end (incr (idx (at_ buf2 q)))) d1 in
    let d'' := on_doubles (idx (at_ buf2 (q - 1))) (on_end (incr (idx (at_ buf2 q)))) d' in
    on_triples (idx (at_ buf2 (q - 2))) (idx (at_ buf2 (q - 1)))
               (on_end (incr (idx (at_ buf2 q)))) d'' in
  if q - p =? 2 then d2
  else middle_loop (length buf2) buf2 p q d2.

(** One round of the reading loop, on the string [buf] that
    [scanf("%255s", buf)] delivered. *)
Definition read_name (st : ltrdata * list build_msg) (buf : list byte)
  : ltrdata * list build_msg :=
  let '(d, log) := st in
  let '(buf2, log') := clean buf in
  if Z.of_nat (length buf2) <? 3
  then (d, log ++ log' ++ [Name_too_short buf2])
  else (count_name buf2 d, log ++ log').

(** The table after [memset]: every float is the all-zero word. *)
Definition zero_array : list F32.f32 := replicate (Z.to_nat NUM_LETTERS) F32.zero.
Definition zero_cdf : cdf := Build_cdf zero_array zero_array zero_array.
Definition zero_data : ltrdata :=
  Build_ltrdata zero_cdf
    (replicate (Z.to_nat NUM_LETTERS) zero_cdf)
    (replicate (Z.to_nat NUM_LETTERS) (replicate (Z.to_nat NUM_LETTERS) zero_cdf)).

Definition count_names (names : list (list byte)) : ltrdata * list build_msg :=
  fold_left read_name names (zero_data, []).

(** The variables of a normalization loop: the CDF being rewritten, the
    running sums [s], [m], [e]; [ns_divisions] counts the [/=] executed (it
    is not a variable of the source). *)
Record norm_state := Build_norm_state {
  ns_cdf : cdf;
  ns_s : F32.f32;
  ns_m : F32.f32;
  ns_e : F32.f32;
  ns_divisions : nat
}.

(** One round of the first loop: the three totals, as [int]. *)
Definition total_body (c : cdf) (i : nat) (t : Z * Z * Z) : Z * Z * Z :=
  let '(startcount, midcount, endcount) := t in
  let startcount := startcount + F32.to_int (elt (start c) i) in
  let endcount := endcount + F32.to_int (elt (end_ c) i) in
  let midcount := midcount + F32.to_int (elt (middle c) i) in
  (startcount, midcount, endcount).

(** One round of the second loop. *)
Definition norm_body (startcount midcount endcount : Z) (i : nat)
    (st : norm_state) : norm_state :=
  let st1 :=
    if F32.gt_zero (elt (start (ns_cdf st)) i) then
      let quot := F32.div (elt (start (ns_cdf st)) i) (F32.of_int startcount) in
      let s := F32.add quot (ns_s st) in
      Build_norm_state (on_start (<[i := s]>) (ns_cdf st)) s (ns_m st) (ns_e st)
                       (S (ns_divisions st))
    else st in
  let st2 :=
    if F32.gt_zero (elt (end_ (ns_cdf st1)) i) then
      let quot := F32.div (elt (end_ (ns_cdf st1)) i) (F32.of_int endcount) in
      let e := F32.add quot (ns_e st1) in
      Build_norm_state (on_end (<[i := e]>) (ns_cdf st1)) (ns_s st1) (ns_m st1) e
                       (S (ns_divisions st1))
    else st1 in
  if F32.gt_zero (elt (middle (ns_cdf st2)) i) then
    let quot := F32.div (elt (middle (ns_cdf st2)) i) (F32.of_int midcount) in
    let m := F32.add quot (ns_m st2) in
    Build_norm_state (on_middle (<[i := m]>) (ns_cdf st2)) (ns_s st2) m (ns_e st2)
                     (S (ns_divisions st2))
  else st2.

(** The block that turns the counts of one CDF into cumulative values; the
    source has it for [singles], for each [doubles[i]] and for each
    [triples[i][j]].  The result comes with the number of divisions. *)
Definition normalize (n : nat) (c : cdf) : cdf * nat :=
  let '(startcount, midcount, endcount) := for_loop n (total_body c) (0, 0, 0) in
  let st := for_loop n (norm_body startcount midcount endcount)
              (Build_norm_state c F32.zero F32.zero F32.zero O) in
  (ns_cdf st, ns_divisions st).

Definition normalize_cdf (n : nat) (c : cdf) : cdf := fst (normalize n c).

(** [doubles[i]] is rewritten for [i < n], [triples[i][j]] for [i, j < n]. *)
Definition normalize_row (n : nat) (row : list cdf) : list cdf :=
  for_loop n (fun i row => alter (normalize_cdf n) i row) row.

Definition normalize_data (n : nat) (d : ltrdata) : ltrdata :=
  Build_ltrdata (normalize_cdf n (singles d))
    (normalize_row n (doubles d))
    (for_loop n (fun i t => alter (normalize_row n) i t) (triples d)).

(** The table that [build_ltr] leaves in memory, and its messages. *)
Definition build_table (names : list (list byte)) : ltrfile * list build_msg :=
  let '(d, log) := count_names names in
  let h := Build_ltr_header LTR_MAGIC NUM_LETTERS in
  (Build_ltrfile h (normalize_data (Z.to_nat (num_letters h)) d), log).

Definition built (names : list (list byte)) : ltrfile := fst (build_table names).

(** [build_ltr]: the table, the bytes written to the file, the messages. *)
Definition build_ltr (big_endian : bool) (names : list (list byte))
  : ltrfile * list byte * list build_msg :=
  let '(t, log) := build_table names in
  (t, write_ltr big_endian t, log).

(** ** The sampler: [random_name] *)

(** [for (i = 0; i < n; i++) if (prob < a[i]) break;] leaves [i] at the
    first index whose entry exceeds [prob], or at [n]. *)
Fixpoint scan_from (i fuel : nat) (prob : F32.f32) (a : list F32.f32) : nat :=
  match fuel with
  | O => i
  | S fuel' =>
      if F32.lt prob (elt a i) then i
      else scan_from (S i) fuel' prob a
  end.

Definition scan (n : nat) (prob : F32.f32) (a : list F32.f32) : nat :=
  scan_from 0 n prob a.

(** Size of [namebuf]. *)
Definition NAMEBUF_SIZE : Z := 256.

(** How a call of [random_name] ends: with the name in [namebuf], or by
    writing past the end of [namebuf] (which C leaves undefined). *)
Inductive outcome :=
| Returned (name : list byte)
| Buffer_overflow.

(** The variables of the walk: the characters [namebuf[0 .. p)] and
    [attempts]. *)
Record walk := Build_walk {
  name : list byte;
  attempts : Z
}.

Inductive step_result :=
| Again                        (* goto again *)
| Continue (w : walk)          (* next round of while (1) *)
| Done (o : outcome).

(** [p[-1]] and [p[-2]]. *)
Definition p_1 (w : walk) : byte := at_ (name w) (Z.of_nat (length (name w)) - 1).
Definition p_2 (w : walk) : byte := at_ (name w) (Z.of_nat (length (name w)) - 2).

Definition capitalize (s : list byte) : list byte :=
  match s with
  | [] => []
  | c :: s' => toupper c :: s'
  end.

Section Sampler.

(** [RAND_MAX] of the C library; [rand()] is a stream of draws. *)
Variable RAND_MAX : Z.

Definition nrand (r : Z) : F32.f32 := F32.div (F32.of_int r) (F32.of_int RAND_MAX).

Variable ltr : ltrfile.

(** From the label [again] to the loop: the first three letters. *)
Definition first_letters (rng : list Z) : option (step_result * list Z) :=
  let n := Z.to_nat (num_letters (header ltr)) in
  let d := data ltr in
  match rng with
  | [] => None
  | r1 :: rng1 =>
      let i := scan n (nrand r1) (start (singles d)) in
      if (i =? n)%nat then Some (Again, rng1)
      else
        let w1 := Build_walk [letters !!! i] 0 in
        match rng1 with
        | [] => None
        | r2 :: rng2 =>
            let i := scan n (nrand r2) (start (at_ (doubles d) (idx (p_1 w1)))) in
            if (i =? n)%nat then Some (Again, rng2)
            else
              let w2 := Build_walk (name w1 ++ [letters !!! i]) 0 in
              match rng2 with
              | [] => None
              | r3 :: rng3 =>
                  let i := scan n (nrand r3)
                             (start (at_ (at_ (triples d) (idx (p_2 w2))) (idx (p_1 w2)))) in
                  if (i =? n)%nat then Some (Again, rng3)
                  else Some (Continue (Build_walk (name w2 ++ [letters !!! i]) 0), rng3)
              end
        end
  end.

(** One round of [while (1)]. *)
Definition extend (w : walk) (rng : list Z) : option (step_result * list Z) :=
  let n := Z.to_nat (num_letters (header ltr)) in
  let d := data ltr in
  match rng with
  | r1 :: r2 :: rng' =>
      let prob := nrand r1 in
      let len := Z.of_nat (length (name w)) in
      let c := at_ (at_ (triples d) (idx (p_2 w))) (idx (p_1 w)) in
      let i := if Z.rem r2 12 <=? len then scan n prob (end_ c) else n in
      if (i <? n)%nat then
        (* namebuf[len] and the NUL at namebuf[len+1] are written *)
        if len + 1 <? NAMEBUF_SIZE
        then Some (Done (Returned (capitalize (name w ++ [letters !!! i]))), rng')
        else Some (Done Buffer_overflow, rng')
      else
        let i := scan n prob (middle c) in
        if (i <? n)%nat then
          if len <? NAMEBUF_SIZE
          then Some (Continue (Build_walk (name w ++ [letters !!! i]) (attempts w)), rng')
          else Some (Done Buffer_overflow, rng')
        else
          (* --p - namebuf < 3 || ++attempts > 100 *)
          if len - 1 <? 3 then Some (Again, rng')
          else if attempts w + 1 >? 100 then Some (Again, rng')
          else Some (Continue (Build_walk (removelast (name w)) (attempts w + 1)), rng')
  | _ => None
  end.

(** The control loop.  [None] for the walk is the label [again].  Every
    round takes at least one draw. *)
Fixpoint run (fuel : nat) (w : option walk) (rng : list Z)
  : option (outcome * list Z) :=
  match fuel with
  | O => None
  | S fuel' =>
      match (match w with
             | None => first_letters rng
             | Some w => extend w rng
             end) with
      | None => None
      | Some (Again, rng') => run fuel' None rng'
      | Some (Continue w', rng') => run fuel' (Some w') rng'
      | Some (Done o, rng') => Some (o, rng')
      end
  end.

(** [random_name] on the draws [rng]: the outcome and the draws left, or
    [None] when the draws run out first. *)
Definition random_name (rng : list Z) : option (outcome * list Z) :=
  run (S (length rng)) None rng.

End Sampler.

(** ** Notions used in the statements *)

(** Some entry among the first [n] is within the tolerance around one. *)
Definition reaches_one (n : nat) (a : list F32.f32) : bool :=
  existsb (fun i => F32.near_one (elt a i)) (seq 0 n).

(** The correction walk as a recursion over the raw entries: [first] tells
    the entry of index 0, [prev] is the raw entry before.  At a nonzero
    entry the offset is taken anew from the accumulator when the entry
    before was zero (and there is one); the accumulator BECOMES the raw entry
    plus the offset, and is the repaired entry. *)
Fixpoint repair_walk (first : bool) (acc prev off : F32.f32) (raw : list F32.f32)
  : list F32.f32 * F32.f32 :=
  match raw with
  | [] => ([], acc)
  | x :: raw' =>
      if F32.ne_zero x then
        let off' := if negb first && F32.eq_zero prev then acc else off in
        let acc' := F32.add x off' in
        let '(r, a) := repair_walk false acc' x off' raw' in
        (acc' :: r, a)
      else
        let '(r, a) := repair_walk false acc x off raw' in
        (x :: r, a)
  end.

(** The walk in the words of the specification: the raw entry plus the
    offset is ADDED to the accumulator. *)
Fixpoint repair_walk_spec (first : bool) (acc prev off : F32.f32) (raw : list F32.f32)
  : list F32.f32 * F32.f32 :=
  match raw with
  | [] => ([], acc)
  | x :: raw' =>
      if F32.ne_zero x then
        let off' := if negb first && F32.eq_zero prev then acc else off in
        let acc' := F32.add acc (F32.add x off') in
        let '(r, a) := repair_walk_spec false acc' x off' raw' in
        (acc' :: r, a)
      else
        let '(r, a) := repair_walk_spec false acc x off raw' in
        (x :: r, a)
  end.

(** [x] is a number within [[0.9999, 1.0001]]. *)
Definition in_tolerance (x : F32.f32) : Prop :=
  F32.within (9999 # 10000) (10001 # 10000) x.

(** ** Tables used as examples *)

(** A table whose [singles.middle] and [singles.end] are given and whose
    other arrays are zero. *)
Definition table_of (m e : list F32.f32) : ltrfile :=
  Build_ltrfile (Build_ltr_header LTR_MAGIC NUM_LETTERS)
    (Build_ltrdata (Build_cdf zero_array m e) (doubles zero_data) (triples zero_data)).

(** Some floats: 0.25, 0.5, 0.75, 1.0, 1.75, 3.0. *)
Definition f_0_25 : F32.f32 := 1048576000.
Definition f_0_5 : F32.f32 := 1056964608.
Definition f_0_75 : F32.f32 := 1061158912.
Definition f_1 : F32.f32 := 1065353216.
Definition f_1_75 : F32.f32 := 1071644672.
Definition f_3 : F32.f32 := 1077936128.

(** The cumulative values 0.25, 0.5, -, 0.75, 1.0 as the faulty generator
    left them: after the zero entry the sums start again from zero. *)
Definition restarted : list F32.f32 :=
  [f_0_25; f_0_5; F32.zero; f_0_25; f_0_5] ++ replicate 23 F32.zero.

(** An array that reaches one at once. *)
Definition complete : list F32.f32 := f_1 :: replicate 27 F32.zero.

(** An array that the correction cannot bring to one. *)
Definition short : list F32.f32 :=
  [f_0_25; F32.zero; f_0_25] ++ replicate 25 F32.zero.

(** The walk from the first entry, with the variables at their initial
    values: the repaired entries and the accumulator at the end. *)
Definition walked (raw : list F32.f32) : list F32.f32 * F32.f32 :=
  repair_walk true F32.zero F32.zero F32.zero raw.

Definition walked_spec (raw : list F32.f32) : list F32.f32 * F32.f32 :=
  repair_walk_spec true F32.zero F32.zero F32.zero raw.

(** Some entry among the first [n] is within the tolerance. *)
Definition has_one (n : nat) (a : list F32.f32) : Prop :=
  exists i, (i < n)%nat /\ in_tolerance (elt a i).

(** ** Notions used in the statements about the builder *)

(** The part of a string before its first ['#']. *)
Fixpoint before_hash (buf : list byte) : list byte :=
  match buf with
  | [] => []
  | c :: rest => if Byte.eqb c x23 then [] else c :: before_hash rest
  end.

(** [c] is in the alphabet. *)
Definition valid (c : byte) : bool := negb (idx c =? -1).


(** The character that a message reports as dropped. *)
Definition invalid_char (m : build_msg) : list byte :=
  match m with
  | Invalid_character c _ => [c]
  | Name_too_short _ => []
  end.

(** The [middle] arrays of a table: of [singles], of each [doubles[i]], of
    each [triples[i][j]]. *)
Definition middles (d : ltrdata)
  : list F32.f32 * list (list F32.f32) * list (list (list F32.f32)) :=
  (middle (singles d), map middle (doubles d), map (map middle) (triples d)).

(** One more occurrence of the window [c0 c1 c2], on three arrays taken
    alone: [single[c0]], [double[c0][c1]], [triple[c0][c1][c2]]. *)
Definition count3_arrays (c0 c1 c2 : byte)
    (m : list F32.f32 * list (list F32.f32) * list (list (list F32.f32)))
  : list F32.f32 * list (list F32.f32) * list (list (list F32.f32)) :=
  let '(s, d, t) := m in
  (incr (idx c0) s,
   alter (incr (idx c1)) (Z.to_nat (idx c0)) d,
   alter (alter (incr (idx c2)) (Z.to_nat (idx c1))) (Z.to_nat (idx c0)) t).

(** The window of three characters whose middle one is at position [c]. *)
Definition window_at (w : list byte) (c : nat) : byte * byte * byte :=
  (at_ w (Z.of_nat c - 1), at_ w (Z.of_nat c), at_ w (Z.of_nat c + 1)).

(** The positions of a name of [n] characters apart from the first two and
    the last two: 2, ..., n-3. *)
Definition inner_positions (n : nat) : list nat := seq 2 (n - 4).

(** ** Notions used in the statements about the sampler *)

(** [i] is the first of the [n] indices whose entry exceeds [prob]. *)
Definition first_over (n : nat) (prob : F32.f32) (a : list F32.f32) (i : nat) : Prop :=
  (i < n)%nat /\ F32.lt prob (elt a i) = true /\
  forall j, (j < i)%nat -> F32.lt prob (elt a j) = false.

(** None of the [n] entries exceeds [prob]. *)
Definition none_over (n : nat) (prob : F32.f32) (a : list F32.f32) : Prop :=
  forall i, (i < n)%nat -> F32.lt prob (elt a i) = false.

(** The CDF that conditions the next letter of a walk:
    [triples[idx(p[-2])][idx(p[-1])]]. *)
Definition context (ltr : ltrfile) (w : walk) : cdf :=
  at_ (at_ (triples (data ltr)) (idx (p_2 w))) (idx (p_1 w)).

(** A small table: the one built from the single name "anna"; and the walk
    that has drawn "ann". *)
Definition anna : list byte := [x61; x6e; x6e; x61].
Definition table_anna : ltrfile := built [anna].

(** [RAND_MAX] of the GNU C library. *)
Definition RAND_MAX_glibc : Z := 2147483647.

(** ** Notions used in the statements about built tables *)

(** The value of a float as a rational (0 for what is not finite). *)
Definition val (w : F32.f32) : Q := F32.SF2Q (F32.dec w).

(** [w] is a positive normal number. *)
Definition normal_pos (w : F32.f32) : Prop :=
  exists m e, F32.dec w = S754_finite false m e /\ Z.pos (digits2_pos m) = 24.

(** [w] holds the count [k]: it is the float of the integer [k]. *)
Definition counts_as (w : F32.f32) (k : Z) : Prop :=
  0 <= k <= 2 ^ 24 /\ w = F32.of_int k.

(** The unit roundoff used in the error bounds: [2^-23]. *)
Definition u23 : Q := 1 # 8388608.

(** ** Normalization, one array at a time *)

Definition array_of (p : position) (c : cdf) : list F32.f32 :=
  match p with
  | Start => start c
  | Middle => middle c
  | End => end_ c
  end.

(** The total of one array, as the first loop computes it. *)
Definition array_total (n : nat) (a : list F32.f32) : Z :=
  for_loop n (fun i t => t + F32.to_int (elt a i)) 0.

(** The second loop as far as it concerns one array: the array, its running
    sum and the number of divisions executed on it. *)
Definition norm_array_body (total : Z) (i : nat)
    (st : list F32.f32 * F32.f32 * nat) : list F32.f32 * F32.f32 * nat :=
  let '(a, s, nd) := st in
  if F32.gt_zero (elt a i) then
    let quot := F32.div (elt a i) (F32.of_int total) in
    let s := F32.add quot s in
    (<[i := s]> a, s, S nd)
  else st.

Definition normalize_array (n : nat) (a : list F32.f32) : list F32.f32 * nat :=
  let '(a', _, nd) :=
    for_loop n (norm_array_body (array_total n a)) (a, F32.zero, O) in
  (a', nd).

(** The [1 + L + L*L] CDFs of a table. *)
Inductive cdf_index :=
| Single
| Double (i : Z)
| Triple (i j : Z).

Definition cdf_at (d : ltrdata) (k : cdf_index) : cdf :=
  match k with
  | Single => singles d
  | Double i => at_ (doubles d) i
  | Triple i j => at_ (at_ (triples d) i) j
  end.

Definition in_table (k : cdf_index) : Prop :=
  match k with
  | Single => True
  | Double i => 0 <= i < NUM_LETTERS
  | Triple i j => 0 <= i < NUM_LETTERS /\ 0 <= j < NUM_LETTERS
  end.

(** Every float of a table satisfies [P]; the lengths are those of the C
    type. *)
Definition array_all (P : F32.f32 -> Prop) (a : list F32.f32) : Prop :=
  length a = Z.to_nat NUM_LETTERS /\ Forall P a.

Definition cdf_all (P : F32.f32 -> Prop) (c : cdf) : Prop :=
  array_all P (start c) /\ array_all P (middle c) /\ array_all P (end_ c).

Definition data_all (P : F32.f32 -> Prop) (d : ltrdata) : Prop :=
  cdf_all P (singles d) /\
  (length (doubles d) = Z.to_nat NUM_LETTERS /\ Forall (cdf_all P) (doubles d)) /\
  (length (triples d) = Z.to_nat NUM_LETTERS /\
   Forall (fun row => length row = Z.to_nat NUM_LETTERS /\ Forall (cdf_all P) row)
          (triples d)).

Definition is_count (w : F32.f32) : Prop := exists k, counts_as w k.

(** What holds of an array of a built table. *)
Definition all_zero (n : nat) (a : list F32.f32) : Prop :=
  forall i, (i < n)%nat -> elt a i = F32.zero.

Definition finite_entries (n : nat) (a : list F32.f32) : Prop :=
  forall i, (i < n)%nat -> elt a i = F32.zero \/ normal_pos (elt a i).

(** Non-decreasing over the entries that are not zero. *)
Definition nondecreasing_nonzero (n : nat) (a : list F32.f32) : Prop :=
  forall i j, (i <= j < n)%nat ->
    elt a i <> F32.zero -> elt a j <> F32.zero ->
    (val (elt a i) <= val (elt a j))%Q.

(** The last entry that is not zero is within the tolerance. *)
Definition ends_near_one (n : nat) (a : list F32.f32) : Prop :=
  exists last, (last < n)%nat /\ elt a last <> F32.zero /\
    in_tolerance (elt a last) /\
    forall j, (last < j < n)%nat -> elt a j = F32.zero.

Definition valid_cdf_array (n : nat) (a : list F32.f32) : Prop :=
  finite_entries n a /\
  (all_zero n a \/ (nondecreasing_nonzero n a /\ ends_near_one n a)).

(** The invariant of the second loop on an array [a] of counts, after [i]
    rounds: the entries from [i] on are still counts; the entries before
    are zero where the count was zero, and otherwise positive normal
    numbers that do not decrease and stay below the running sum [s]; the
    running sum times the float of the total is the sum of the counts so
    far, up to [4 * i] unit roundoffs of the total. *)
Definition norm_inv (a : list F32.f32) (n i : nat)
    (st : list F32.f32 * F32.f32 * nat) : Prop :=
  let '(a', s, nd) := st in
  let k j := F32.to_int (elt a j) in
  let T := array_total n a in
  let B := val (F32.of_int T) in
  let err := (4 * u23 * inject_Z (Z.of_nat i * T))%Q in
  length a' = length a /\
  (forall j, (i <= j)%nat -> elt a' j = elt a j) /\
  (forall j, (j < i)%nat -> k j = 0 -> elt a' j = F32.zero) /\
  (forall j, (j < i)%nat -> 0 < k j ->
     normal_pos (elt a' j) /\ (val (elt a' j) <= val s)%Q) /\
  (forall j1 j2, (j1 <= j2 < i)%nat -> 0 < k j1 -> 0 < k j2 ->
     (val (elt a' j1) <= val (elt a' j2))%Q) /\
  (inject_Z (array_total i a) - err <= val s * B)%Q /\
  (val s * B <= inject_Z (array_total i a) + err)%Q /\
  (array_total i a = 0 -> s = F32.zero /\ nd = O) /\
  (0 < array_total i a ->
     (exists m e, F32.dec s = S754_finite false m e /\
        Z.pos (digits2_pos m) = 24 /\ -54 <= e <= 3 + 2 * Z.of_nat i) /\
     exists last, (last < i)%nat /\ 0 < k last /\ elt a' last = s /\
       forall j, (last < j < i)%nat -> k j = 0).

(** A second name, "cody". *)
Definition cody : list byte := [x63; x6f; x64; x79].

(** * The rest of the program *)

(** ** The file image, byte by byte *)

(** A reader that takes exactly the first [k] bytes: it fails on fewer, and
    otherwise yields a value that [ser] writes as these [k] bytes. *)
Definition fixed_reader {A} (k : nat) (read : list byte -> option (A * list byte))
    (ser : A -> list byte) : Prop :=
  (forall bs, (length bs < k)%nat -> read bs = None) /\
  (forall bs, (k <= length bs)%nat ->
     exists x, read bs = Some (x, drop k bs) /\ ser x = take k bs).

(** [sizeof(struct ltrdata)] and the size of a file. *)
Definition DATA_SIZE : Z := 273168.
Definition FILE_SIZE : Z := 273177.

(** ** Counting *)

(** The names that [build_ltr] counts: those whose cleaned form has at least
    three characters. *)
Definition accepted (names : list (list byte)) : list (list byte) :=
  List.filter (fun w => negb (Z.of_nat (length w) <? 3)) (map (fun buf => fst (clean buf)) names).

(** The number of windows of a name that count as middle: the positions
    2, ..., n-3 of their middle character. *)
Definition middle_windows (w : list byte) : nat := length (inner_positions (length w)).

Definition total_middle_windows (ws : list (list byte)) : nat :=
  list_sum (map middle_windows ws).

(** ** The words of the sampler *)

(** A float that is not negative: +0, a positive number or +infinity; a NaN
    passes too (it compares with nothing). *)
Definition nonneg_sf (x : spec_float) : Prop :=
  match x with
  | S754_nan => True
  | S754_zero s | S754_infinity s | S754_finite s _ _ => s = false
  end.

(** The words that the tables support, letter by letter: the first three
    letters have positive entries in [singles.start], in [doubles[.].start]
    and in [triples[.][.].start]; each further letter has a positive entry
    in the [middle] array of the two letters before it. *)
Inductive drawn (ltr : ltrfile) : list byte -> Prop :=
| drawn_start (i j k : nat) :
    (i < Z.to_nat (num_letters (header ltr)))%nat ->
    (j < Z.to_nat (num_letters (header ltr)))%nat ->
    (k < Z.to_nat (num_letters (header ltr)))%nat ->
    F32.gt_zero (elt (start (singles (data ltr))) i) = true ->
    F32.gt_zero (elt (start (at_ (doubles (data ltr)) (idx (letters !!! i)))) j) = true ->
    F32.gt_zero
      (elt (start (context ltr (Build_walk [letters !!! i; letters !!! j] 0))) k) = true ->
    drawn ltr [letters !!! i; letters !!! j; letters !!! k]
| drawn_middle (w : list byte) (i : nat) :
    drawn ltr w ->
    (i < Z.to_nat (num_letters (header ltr)))%nat ->
    F32.gt_zero (elt (middle (context ltr (Build_walk w 0))) i) = true ->
    drawn ltr (w ++ [letters !!! i]).

(** The table of counts: what [build_ltr] holds before it normalizes. *)
Definition counts_table (names : list (list byte)) : ltrfile :=
  Build_ltrfile (Build_ltr_header LTR_MAGIC NUM_LETTERS) (fst (count_names names)).

(** ** The listing: [print_ltr] *)

(** [float - float] *)
Definition f32_sub (a b : F32.f32) : F32.f32 :=
  F32.enc (SFsub F32.prec F32.emax (F32.dec a) (F32.dec b)).

(** The two [double]s that a line shows for one array: the entry, promoted
    to [double], and [x == 0.0 ? 0.0 : x - s]. *)
Record print_cell := Build_print_cell {
  cell_cdf : spec_float;
  cell_p : spec_float
}.

(** What [print_ltr] passes to [printf] for a line of the table: the
    letters of the sequence and the cells of [start], [middle] and [end]. *)
Record print_row := Build_print_row {
  row_seq : list byte;
  row_start : print_cell;
  row_middle : print_cell;
  row_end : print_cell
}.

Inductive print_line :=
| Num_letters_line (n : Z)
| Column_titles
| Row (r : print_row).

Definition print_cell_of (x s : F32.f32) : print_cell :=
  Build_print_cell (F32.to_double x)
    (if F32.eq_zero x then F32.d_zero else F32.to_double (f32_sub x s)).

(** [if (x > 0.0) s = x;] *)
Definition keep (x s : F32.f32) : F32.f32 := if F32.gt_zero x then x else s.

(** The variables [s], [m], [e] and the lines printed so far. *)
Record print_state := Build_print_state {
  ps_s : F32.f32;
  ps_m : F32.f32;
  ps_e : F32.f32;
  ps_out : list print_line
}.

(** The body of the innermost loops: the line of [prefix] followed by
    [letters[i]], for the CDF [c]. *)
Definition print_body (prefix : list byte) (c : cdf) (i : nat) (st : print_state)
  : print_state :=
  let row :=
    Build_print_row (prefix ++ [letters !!! i])
      (print_cell_of (elt (start c) i) (ps_s st))
      (print_cell_of (elt (middle c) i) (ps_m st))
      (print_cell_of (elt (end_ c) i) (ps_e st)) in
  Build_print_state (keep (elt (start c) i) (ps_s st))
    (keep (elt (middle c) i) (ps_m st))
    (keep (elt (end_ c) i) (ps_e st))
    (ps_out st ++ [Row row]).

(** [s = m = e = 0.0;] *)
Definition print_reset (st : print_state) : print_state :=
  Build_print_state F32.zero F32.zero F32.zero (ps_out st).

Definition print_ltr (ltr : ltrfile) : list print_line :=
  let n := Z.to_nat (num_letters (header ltr)) in
  let d := data ltr in
  let st0 :=
    Build_print_state F32.zero F32.zero F32.zero
      [Num_letters_line (num_letters (header ltr)); Column_titles] in
  let st1 := for_loop n (print_body [] (singles d)) st0 in
  let st2 :=
    for_loop n
      (fun i st =>
         for_loop n (print_body [letters !!! i] (at_ (doubles d) (Z.of_nat i)))
           (print_reset st))
      st1 in
  let st3 :=
    for_loop n
      (fun i st =>
         for_loop n
           (fun j st =>
              for_loop n
                (print_body [letters !!! i; letters !!! j]
                   (at_ (at_ (triples d) (Z.of_nat i)) (Z.of_nat j)))
                (print_reset st))
           st)
      st2 in
  ps_out st3.

(** *** The listing in closed form *)

(** The value of [s] when the line of index [k] is printed: the nearest
    entry before [k] that is [> 0.0], or 0.0 when there is none. *)
Fixpoint last_positive (a : list F32.f32) (k : nat) : F32.f32 :=
  match k with
  | O => F32.zero
  | S k' => if F32.gt_zero (elt a k') then elt a k' else last_positive a k'
  end.

Definition row_of (prefix : list byte) (c : cdf) (k : nat) : print_row :=
  Build_print_row (prefix ++ [letters !!! k])
    (print_cell_of (elt (start c) k) (last_positive (start c) k))
    (print_cell_of (elt (middle c) k) (last_positive (middle c) k))
    (print_cell_of (elt (end_ c) k) (last_positive (end_ c) k)).

Definition rows_of (n : nat) (prefix : list byte) (c : cdf) : list print_row :=
  map (row_of prefix c) (seq 0 n).

Definition table_rows (ltr : ltrfile) : list print_row :=
  let n := Z.to_nat (num_letters (header ltr)) in
  let d := data ltr in
  rows_of n [] (singles d)
  ++ flat_map (fun i => rows_of n [letters !!! i] (at_ (doubles d) (Z.of_nat i)))
       (seq 0 n)
  ++ flat_map
       (fun i =>
          flat_map
            (fun j => rows_of n [letters !!! i; letters !!! j]
                        (at_ (at_ (triples d) (Z.of_nat i)) (Z.of_nat j)))
            (seq 0 n))
       (seq 0 n).

(** A [double] that is +0.0 or a positive number. *)
Definition plus_double (x : spec_float) : Prop :=
  x = S754_zero false \/ exists m e, x = S754_finite false m e.

(** ** The command line: [parse_cmdline] *)

From Stdlib Require Strings.String.

(** The string literals of [parse_cmdline], as C strings without the NUL. *)
Module Lit.
Import Stdlib.Strings.String.
Local Open Scope string_scope.
Definition p : list byte := list_byte_of_string "-p".
Definition print : list byte := list_byte_of_string "--print".
Definition b : list byte := list_byte_of_string "-b".
Definition build : list byte := list_byte_of_string "--build".
Definition n : list byte := list_byte_of_string "-n".
Definition nofix : list byte := list_byte_of_string "--nofix".
Definition s : list byte := list_byte_of_string "-s".
Definition g : list byte := list_byte_of_string "-g".
Definition generate : list byte := list_byte_of_string "--generate".
Definition seed_d : list byte := list_byte_of_string "--seed=%d".
Definition generate_d : list byte := list_byte_of_string "--generate=%d".
Definition d : list byte := list_byte_of_string "%d".
End Lit.

(** [struct cfg]; the global [cfg] starts zeroed. *)
Module cfg.
Record t := Build {
  build : Z;
  print : Z;
  nofix : Z;
  generate : Z;
  seed : Z;
  ltrfile : list byte
}.
Definition zero : t := Build 0 0 0 0 0 [].
Definition or_print (v : Z) (c : t) : t :=
  Build (build c) (Z.lor (print c) v) (nofix c) (generate c) (seed c) (ltrfile c).
Definition or_build (v : Z) (c : t) : t :=
  Build (Z.lor (build c) v) (print c) (nofix c) (generate c) (seed c) (ltrfile c).
Definition or_nofix (v : Z) (c : t) : t :=
  Build (build c) (print c) (Z.lor (nofix c) v) (generate c) (seed c) (ltrfile c).
Definition set_generate (v : Z) (c : t) : t :=
  Build (build c) (print c) (nofix c) v (seed c) (ltrfile c).
Definition set_seed (v : Z) (c : t) : t :=
  Build (build c) (print c) (nofix c) (generate c) v (ltrfile c).
Definition set_nofix (v : Z) (c : t) : t :=
  Build (build c) (print c) v (generate c) (seed c) (ltrfile c).
Definition set_ltrfile (v : list byte) (c : t) : t :=
  Build (build c) (print c) (nofix c) (generate c) (seed c) v.
End cfg.

(** [!strcmp(a, b)] *)
Definition streq (a b : list byte) : bool := bool_decide (a = b).

(** What a call [sscanf(str, format, &x)] does when [format] holds the one
    conversion [%d]: it stores an [int] and returns 1, or stores nothing and
    returns 0 (the input does not match) or [EOF] (the input ends before the
    conversion). *)
Inductive scanned :=
| Assigned (v : Z)
| Matching_failure
| Input_failure.

(** How [parse_cmdline] ends when it calls [exit]. *)
Inductive usage :=
| Help                       (* HELP *)
| Need_at_least_one.         (* "Need at least one of -p, -b, -g", HELP *)

Section CommandLine.

(** [sscanf] of the C library, on the string and the format. *)
Variable sscanf : list byte -> list byte -> scanned.

(** [argv[i]] *)
Definition arg (argv : list (list byte)) (i : nat) : list byte := argv !!! i.

(** One round of the loop over the options at [argv[i]]: the new [cfg] and
    the new [i] (before the [i++] of the loop). *)
Definition parse_body (argv : list (list byte)) (i : nat) (c : cfg.t) : cfg.t * nat :=
  let a := arg argv i in
  let c := cfg.or_print (Z.b2z (streq a Lit.p || streq a Lit.print)) c in
  let c := cfg.or_build (Z.b2z (streq a Lit.b || streq a Lit.build)) c in
  let c := cfg.or_nofix (Z.b2z (streq a Lit.n || streq a Lit.nofix)) c in
  let c :=
    match sscanf a Lit.seed_d with
    | Assigned v => cfg.set_seed v c
    | Input_failure => c                       (* EOF is not zero *)
    | Matching_failure =>
        if streq a Lit.s then
          match sscanf (arg argv (S i)) Lit.d with
          | Assigned v => cfg.set_seed v c
          | _ => c
          end
        else c
    end in
  match sscanf a Lit.generate_d with
  | Assigned v => (cfg.set_generate v c, i)
  | _ =>
      if streq a Lit.generate then (cfg.set_generate 100 c, i)
      else if streq a Lit.g then
        match sscanf (arg argv (S i)) Lit.d with
        | Assigned v => (cfg.set_generate v c, S i)
        | _ => (cfg.set_generate 100 c, i)
        end
      else (c, i)
  end.

(** [for (int i = 1; i < argc - 1; i++)], from [i] on. *)
Fixpoint parse_loop (fuel : nat) (argv : list (list byte)) (i : nat) (c : cfg.t)
  : cfg.t :=
  match fuel with
  | O => c
  | S fuel' =>
      if (S i <? length argv)%nat then
        let '(c', i') := parse_body argv i c in
        parse_loop fuel' argv (S i') c'
      else c
  end.

Definition parse_cmdline (argv : list (list byte)) : usage + cfg.t :=
  let argc := length argv in
  if (argc <? 3)%nat then inl Help
  else
    let c := parse_loop argc argv 1 cfg.zero in
    let c := cfg.set_ltrfile (arg argv (argc - 1)) c in
    if (cfg.print c =? 0) && (cfg.build c =? 0) && (cfg.generate c =? 0)
    then inl Need_at_least_one
    else inr c.

End CommandLine.

(** ** The program: [main] *)

(** The messages of [die]. *)
Inductive die_msg :=
| Unable_to_open
| Unable_to_create
| Load_error (e : load_error).

Inductive stdout_item :=
| Usage (u : usage)
| Listing (l : print_line)
| Name (s : list byte).

Inductive stderr_item :=
| Build_msg (m : build_msg)
| Fix_msg (m : fix_msg)
| Died (m : die_msg).

(** How a run ends: [exit] or [return] with a status, or not within the
    draws given, or in [random_name] writing past [namebuf]. *)
Inductive ending :=
| Exit (status : Z)
| Out_of_draws
| Overflowed.

Record run_result := Build_run_result {
  stdout : list stdout_item;
  stderr : list stderr_item;
  written : option (list byte);      (* what was written to [cfg.ltrfile] *)
  ended : ending
}.

Section Program.

Variable sscanf : list byte -> list byte -> scanned.
Variable big_endian : bool.
Variable RAND_MAX : Z.
(** [time(NULL)], and the values [rand()] gives after [srand(seed)]. *)
Variable time_NULL : Z.
Variable rand_after : Z -> list Z.
(** The words [scanf("%255s")] reads from stdin. *)
Variable stdin_words : list (list byte).
(** The content of the file [name] if it can be opened for reading, and
    whether it can be opened for writing. *)
Variable readable : list byte -> option (list byte).
Variable creatable : list byte -> bool.

(** [while (cfg.generate-- > 0) printf("%s\n", random_name(&ltr));] *)
Fixpoint generate_loop (fuel : nat) (generate : Z) (ltr : ltrfile) (rng : list Z)
  : list stdout_item * ending :=
  match fuel with
  | O => ([], Exit 0)
  | S fuel' =>
      if 0 <? generate then
        match random_name RAND_MAX ltr rng with
        | None => ([], Out_of_draws)
        | Some (Buffer_overflow, _) => ([], Overflowed)
        | Some (Returned s, rng') =>
            let '(out, e) := generate_loop fuel' (generate - 1) ltr rng' in
            (Name s :: out, e)
        end
      else ([], Exit 0)
  end.

(** [main] from [srand] on, with the table [ltr] in memory. *)
Definition main_table (c : cfg.t) (ltr : ltrfile) (rng : list Z)
  : list stdout_item * list stderr_item * ending :=
  let '(ltr, log) := if cfg.nofix c =? 0 then fix_ltr ltr else (ltr, []) in
  let listing := if cfg.print c =? 0 then [] else print_ltr ltr in
  let '(names, e) :=
    generate_loop (S (Z.to_nat (cfg.generate c))) (cfg.generate c) ltr rng in
  (map Listing listing ++ names, map Fix_msg log, e).

(** [main] after [parse_cmdline]. *)
Definition main_cfg (c : cfg.t) : run_result :=
  let rng := rand_after (if cfg.seed c =? 0 then time_NULL else cfg.seed c) in
  if cfg.build c =? 0 then
    match readable (cfg.ltrfile c) with
    | None => Build_run_result [] [Died Unable_to_open] None (Exit (Z.lnot 0))
    | Some file =>
        match load_ltr big_endian file with
        | inl e => Build_run_result [] [Died (Load_error e)] None (Exit (Z.lnot 0))
        | inr ltr =>
            let '(out, err, e) := main_table c ltr rng in
            Build_run_result out err None e
        end
    end
  else
    let '(ltr, file, log) := build_ltr big_endian stdin_words in
    if creatable (cfg.ltrfile c) then
      let '(out, err, e) := main_table c ltr rng in
      Build_run_result out (map Build_msg log ++ err) (Some file) e
    else
      Build_run_result [] (map Build_msg log ++ [Died Unable_to_create]) None
        (Exit (Z.lnot 0)).


End Program.

(** ** Notions used in the statements about the command line *)

(** The three options without a value, their field of [cfg] and their two
    spellings. *)
Inductive flag := Flag_print | Flag_build | Flag_nofix.

Definition flag_value (f : flag) (c : cfg.t) : Z :=
  match f with
  | Flag_print => cfg.print c
  | Flag_build => cfg.build c
  | Flag_nofix => cfg.nofix c
  end.

Definition flag_given (f : flag) (a : list byte) : bool :=
  match f with
  | Flag_print => streq a Lit.p || streq a Lit.print
  | Flag_build => streq a Lit.b || streq a Lit.build
  | Flag_nofix => streq a Lit.n || streq a Lit.nofix
  end.

(** [argv[i]] is taken as the number of a [-g] before it. *)
Definition taken_by_g (sscanf : list byte -> list byte -> scanned)
    (argv : list (list byte)) (i : nat) : Prop :=
  (2 <= i)%nat /\ arg argv (i - 1) = Lit.g /\
  exists v, sscanf (arg argv i) Lit.d = Assigned v.


(** A name as the sampler makes them: letters of the alphabet, at least
    four and at most 255, the first one passed through [toupper]. *)
Definition shaped_name (s : list byte) : Prop :=
  exists c rest,
    s = toupper c :: rest /\ In c letters /\ Forall (fun x => In x letters) rest /\
    (3 <= length rest <= 254)%nat.

(** The letters in [namebuf] during the walk: at least three, all of the
    alphabet. *)
Definition spelled (w : list byte) : Prop :=
  Forall (fun x => In x letters) w /\ (3 <= length w)%nat.

(** ** The counting as a sequence of increments *)

(** The array of a CDF that a statement [+= 1.0] of [build_ltr] writes. *)
Definition on_pos (p : position) : (list F32.f32 -> list F32.f32) -> cdf -> cdf :=
  match p with
  | Start => on_start
  | Middle => on_middle
  | End => on_end
  end.

(** One statement [+= 1.0]: on [singles.p[i]], on [doubles[i].p[j]] or on
    [triples[i][j].p[k]]. *)
Inductive increment :=
| Incr1 (p : position) (i : Z)
| Incr2 (p : position) (i j : Z)
| Incr3 (p : position) (i j k : Z).

Definition run_increment (o : increment) (d : ltrdata) : ltrdata :=
  match o with
  | Incr1 p i => on_singles (on_pos p (incr i)) d
  | Incr2 p i j => on_doubles i (on_pos p (incr j)) d
  | Incr3 p i j k => on_triples i j (on_pos p (incr k)) d
  end.

Definition run_increments (os : list increment) (d : ltrdata) : ltrdata :=
  fold_left (fun d o => run_increment o d) os d.

(** The increments of one window, of the middle loop and of one name, in
    the order of the source. *)
Definition increments3 (p : position) (c0 c1 c2 : byte) : list increment :=
  [Incr1 p (idx c0); Incr2 p (idx c0) (idx c1); Incr3 p (idx c0) (idx c1) (idx c2)].

Fixpoint middle_increments (fuel : nat) (buf2 : list byte) (p q : Z) : list increment :=
  match fuel with
  | O => []
  | S fuel' =>
      let p := p + 1 in
      if p =? q - 2 then []
      else increments3 Middle (at_ buf2 p) (at_ buf2 (p + 1)) (at_ buf2 (p + 2))
           ++ middle_increments fuel' buf2 p q
  end.

Definition name_increments (buf2 : list byte) : list increment :=
  let q := Z.of_nat (length buf2) - 1 in
  increments3 Start (at_ buf2 0) (at_ buf2 1) (at_ buf2 2)
  ++ [Incr1 End (idx (at_ buf2 q));
      Incr2 End (idx (at_ buf2 (q - 1))) (idx (at_ buf2 q));
      Incr3 End (idx (at_ buf2 (q - 2))) (idx (at_ buf2 (q - 1))) (idx (at_ buf2 q))]
  ++ (if q - 0 =? 2 then [] else middle_increments (length buf2) buf2 0 q).

(** The increments and the messages of one word of the input. *)
Definition word_increments (buf : list byte) : list increment :=
  let buf2 := fst (clean buf) in
  if Z.of_nat (length buf2) <? 3 then [] else name_increments buf2.

Definition word_messages (buf : list byte) : list build_msg :=
  let '(buf2, log) := clean buf in
  if Z.of_nat (length buf2) <? 3 then log ++ [Name_too_short buf2] else log.

(** ** The starts of the names that were counted *)

(** The float for letter [i] in the array [p] of the CDF [k]. *)
Definition cell (d : ltrdata) (k : cdf_index) (p : position) (i : nat) : F32.f32 :=
  elt (array_of p (cdf_at d k)) i.

(** The letter was counted there. *)
Definition counted_at (d : ltrdata) (k : cdf_index) (p : position) (i : nat) : Prop :=
  0 < F32.to_int (cell d k p i).

(** Where a first letter was counted, a second letter was counted after
    it; where a second letter was counted after a first, a third letter was
    counted after the two. *)
Definition starts_linked (d : ltrdata) : Prop :=
  (forall i, (i < 28)%nat -> counted_at d Single Start i ->
     exists j, (j < 28)%nat /\ counted_at d (Double (Z.of_nat i)) Start j) /\
  (forall i j, (i < 28)%nat -> (j < 28)%nat ->
     counted_at d (Double (Z.of_nat i)) Start j ->
     exists k, (k < 28)%nat /\ counted_at d (Triple (Z.of_nat i) (Z.of_nat j)) Start k).

(** The array, the CDF and the letter that an increment writes. *)
Definition increment_position (o : increment) : position :=
  match o with
  | Incr1 p _ | Incr2 p _ _ | Incr3 p _ _ _ => p
  end.

Definition increment_cdf (o : increment) : cdf_index :=
  match o with
  | Incr1 _ _ => Single
  | Incr2 _ i _ => Double i
  | Incr3 _ i j _ => Triple i j
  end.

Definition increment_letter (o : increment) : Z :=
  match o with
  | Incr1 _ i | Incr2 _ _ i | Incr3 _ _ _ i => i
  end.

(** The increment [o] writes the float for letter [i] in the array [p] of
    the CDF [k]. *)
Definition hits (o : increment) (k : cdf_index) (p : position) (i : nat) : Prop :=
  p = increment_position o /\ i = Z.to_nat (increment_letter o) /\
  match o, k with
  | Incr1 _ _, Single => True
  | Incr2 _ a _, Double a' => Z.to_nat a' = Z.to_nat a
  | Incr3 _ a b _, Triple a' b' => Z.to_nat a' = Z.to_nat a /\ Z.to_nat b' = Z.to_nat b
  | _, _ => False
  end.

(** The draw [r] of [rand()] gives a [prob] below 0.9999. *)
Definition below_0_9999 (RAND_MAX r : Z) : Prop :=
  0 <= r /\ F32.lt_d (nrand RAND_MAX r) F32.d_0_9999 = true.

(** ** Rounding to nearest, ties to even *)

(** The mantissa [m] shifted right by [n] bits, with the round and sticky
    bits, and rounded, as [binary_round_aux] does it. *)
Definition shifted (m n : Z) : shr_record :=
  fst (shr (Build_shr_record m false false) 0 n).

Definition rounded (m n : Z) : Z :=
  round_nearest_even (shr_m (shifted m n)) (loc_of_shr_record (shifted m n)).

(** The bits shifted out are more than half a unit, or half a unit and the
    mantissa left is odd. *)
Definition round_up (m n : Z) : bool :=
  (2 ^ n <? 2 * (m mod 2 ^ n)) || ((2 * (m mod 2 ^ n) =? 2 ^ n) && Z.odd (m / 2 ^ n)).

(** The value of [(float)k] for [0 <= k < 2^31]: [k] itself below [2^24],
    and above it [k] rounded to 24 bits. *)
Definition float_of (k : Z) : Z :=
  if k <? 2 ^ 24 then k
  else let n := Zdigits2 k - 24 in rounded k n * 2 ^ n.

(** ** The middle windows of a name, counted *)

(** The windows of three characters of a name that lie strictly between
    its start window (the first three characters) and its end window (the
    last three), from left to right. *)
Definition interior_windows (w : list byte) : list (byte * byte * byte) :=
  map (window_at w) (inner_positions (length w)).

(** The window begins with the characters [cs] (one, two or three). *)
Definition begins (cs : list byte) (win : byte * byte * byte) : bool :=
  let '(c0, c1, c2) := win in
  match cs with
  | [a] => Byte.eqb c0 a
  | [a; b] => Byte.eqb c0 a && Byte.eqb c1 b
  | [a; b; c] => Byte.eqb c0 a && Byte.eqb c1 b && Byte.eqb c2 c
  | _ => false
  end.

(** How many of the interior windows of [w] begin with [cs]. *)
Definition windows_with (cs : list byte) (w : list byte) : Z :=
  Z.of_nat (length (List.filter (begins cs) (interior_windows w))).

(** [hits], decided. *)
Definition hitb (k : cdf_index) (p : position) (i : nat) (o : increment) : bool :=
  match p, increment_position o with
  | Start, Start | Middle, Middle | End, End => true
  | _, _ => false
  end
  && (i =? Z.to_nat (increment_letter o))%nat
  && match o, k with
     | Incr1 _ _, Single => true
     | Incr2 _ a _, Double a' => (Z.to_nat a' =? Z.to_nat a)%nat
     | Incr3 _ a b _, Triple a' b' =>
         (Z.to_nat a' =? Z.to_nat a)%nat && (Z.to_nat b' =? Z.to_nat b)%nat
     | _, _ => false
     end.

(** ** A walk that fills [namebuf] *)




(** ** Reading the names from stdin *)









(** * Properties *)

(** ** Bytes and words *)

Lemma Z_of_byte_range (b : byte) : 0 <= Z_of_byte b < 256.
Proof.
  unfold Z_of_byte. pose proof (Byte.to_N_bounded b). lia.
Qed.

Lemma Z_of_byte_of_Z (z : Z) : Z_of_byte (byte_of_Z z) = z mod 256.
Proof.
  unfold Z_of_byte, byte_of_Z.
  assert (Hr : 0 <= z mod 256 < 256) by (apply Z.mod_pos_bound; lia).
  destruct (Byte.of_N (Z.to_N (z mod 256))) as [b|] eqn:E.
  - apply Byte.to_of_N in E. rewrite E. lia.
  - apply Byte.of_N_None_iff in E. lia.
Qed.

Lemma byte_of_Z_of_byte (b : byte) : byte_of_Z (Z_of_byte b) = b.
Proof.
  unfold byte_of_Z. pose proof (Z_of_byte_range b) as Hr.
  rewrite Z.mod_small by lia. unfold Z_of_byte.
  rewrite N2Z.id, Byte.of_to_N. reflexivity.
Qed.

Lemma Z_of_byte_inj (a b : byte) : Z_of_byte a = Z_of_byte b -> a = b.
Proof.
  intros E. rewrite <- (byte_of_Z_of_byte a), <- (byte_of_Z_of_byte b).
  now rewrite E.
Qed.

Section StorageFacts.

Variable big_endian : bool.

Lemma float_of_bytes_word (b0 b1 b2 b3 : byte) :
  is_word (float_of_bytes big_endian b0 b1 b2 b3).
Proof.
  pose proof (Z_of_byte_range b0). pose proof (Z_of_byte_range b1).
  pose proof (Z_of_byte_range b2). pose proof (Z_of_byte_range b3).
  unfold is_word, float_of_bytes. destruct big_endian; lia.
Qed.

Lemma float_bytes_of_bytes (b0 b1 b2 b3 : byte) :
  float_bytes big_endian (float_of_bytes big_endian b0 b1 b2 b3) = [b0; b1; b2; b3].
Proof.
  pose proof (Z_of_byte_range b0). pose proof (Z_of_byte_range b1).
  pose proof (Z_of_byte_range b2). pose proof (Z_of_byte_range b3).
  unfold float_bytes, float_of_bytes.
  destruct big_endian; simpl rev;
    repeat f_equal; apply Z_of_byte_inj; rewrite Z_of_byte_of_Z;
    change (2 ^ 8) with 256; change (2 ^ 16) with 65536;
    change (2 ^ 24) with 16777216; Z.div_mod_to_equations; lia.
Qed.

Lemma float_of_bytes_bytes (w : Z) (rest : list byte) :
  is_word w ->
  read_float big_endian (float_bytes big_endian w ++ rest) = Some (w, rest).
Proof.
  intros Hw. unfold is_word in Hw.
  unfold float_bytes, read_float, float_of_bytes.
  destruct big_endian; simpl; rewrite !Z_of_byte_of_Z; do 2 f_equal;
    change (2 ^ 8) with 256; change (2 ^ 16) with 65536;
    change (2 ^ 24) with 16777216; change (2 ^ 32) with 4294967296 in Hw;
    Z.div_mod_to_equations; lia.
Qed.

End StorageFacts.

(** ** Writing and reading back *)

Section RoundTrip.

Variable big_endian : bool.

Lemma read_many_write {A} (read : list byte -> option (A * list byte))
    (ser : A -> list byte) (P : A -> Prop) :
  (forall x rest, P x -> read (ser x ++ rest) = Some (x, rest)) ->
  forall xs rest, Forall P xs ->
    read_many read (length xs) (concat (map ser xs) ++ rest) = Some (xs, rest).
Proof.
  intros Hread xs. induction xs as [|x xs IH]; intros rest HP; simpl.
  - reflexivity.
  - inversion HP as [|? ? Hx Hxs]; subst.
    rewrite <- app_assoc, (Hread _ _ Hx), (IH _ Hxs). reflexivity.
Qed.

Lemma read_many_wf {A} (read : list byte -> option (A * list byte))
    (P : A -> Prop) :
  (forall bs x rest, read bs = Some (x, rest) -> P x) ->
  forall n bs xs rest, read_many read n bs = Some (xs, rest) ->
    length xs = n /\ Forall P xs.
Proof.
  intros Hread n. induction n as [|n IH]; intros bs xs rest; simpl.
  - intros [= <- _]. split; [reflexivity | constructor].
  - destruct (read bs) as [[x bs']|] eqn:E; [|discriminate].
    destruct (read_many read n bs') as [[xs' bs'']|] eqn:E'; [|discriminate].
    intros [= <- _]. destruct (IH _ _ _ E') as [Hlen Hall].
    split; [simpl; congruence | constructor; eauto].
Qed.

Lemma read_float_word bs w rest :
  read_float big_endian bs = Some (w, rest) -> is_word w.
Proof.
  unfold read_float.
  destruct bs as [|b0 [|b1 [|b2 [|b3 bs]]]]; try discriminate.
  intros [= <- _]. apply float_of_bytes_word.
Qed.

Lemma read_array_write a rest :
  wf_array a -> read_array big_endian (array_bytes big_endian a ++ rest) = Some (a, rest).
Proof.
  intros [Hlen Hw]. unfold read_array, array_bytes. rewrite <- Hlen.
  apply read_many_write with (P := is_word); [|exact Hw].
  intros; now apply float_of_bytes_bytes.
Qed.

Lemma read_array_wf bs a rest :
  read_array big_endian bs = Some (a, rest) -> wf_array a.
Proof.
  intros H. eapply read_many_wf in H; [exact H|].
  intros ? ? ?. apply read_float_word.
Qed.

Lemma read_cdf_write c rest :
  wf_cdf c -> read_cdf big_endian (cdf_bytes big_endian c ++ rest) = Some (c, rest).
Proof.
  intros (Hs & Hm & He). unfold read_cdf, cdf_bytes.
  rewrite <- !app_assoc.
  rewrite (read_array_write _ _ Hs), (read_array_write _ _ Hm),
    (read_array_write _ _ He).
  now destruct c.
Qed.

Lemma read_cdf_wf bs c rest :
  read_cdf big_endian bs = Some (c, rest) -> wf_cdf c.
Proof.
  unfold read_cdf.
  destruct (read_array big_endian bs) as [[s bs1]|] eqn:E1; [|discriminate].
  destruct (read_array big_endian bs1) as [[m bs2]|] eqn:E2; [|discriminate].
  destruct (read_array big_endian bs2) as [[e bs3]|] eqn:E3; [|discriminate].
  intros [= <- _]. repeat split; simpl; eapply read_array_wf; eassumption.
Qed.

Lemma read_data_write d rest :
  wf_data d -> read_data big_endian (data_bytes big_endian d ++ rest) = Some (d, rest).
Proof.
  intros (Hs & (Hdl & Hd) & (Htl & Ht)). unfold read_data, data_bytes.
  rewrite <- !app_assoc, (read_cdf_write _ _ Hs).
  rewrite <- Hdl at 1.
  rewrite (read_many_write _ (cdf_bytes big_endian) wf_cdf read_cdf_write _ _ Hd).
  rewrite <- Htl at 2.
  rewrite (read_many_write _ (fun row => concat (map (cdf_bytes big_endian) row))
             (fun row => length row = Z.to_nat NUM_LETTERS /\ Forall wf_cdf row)).
  - now destruct d.
  - intros row rest' [Hl Hrow]. rewrite <- Hl.
    now apply read_many_write with (P := wf_cdf); [apply read_cdf_write|].
  - exact Ht.
Qed.

Lemma read_data_wf bs d rest :
  read_data big_endian bs = Some (d, rest) -> wf_data d.
Proof.
  unfold read_data.
  destruct (read_cdf big_endian bs) as [[s bs1]|] eqn:E1; [|discriminate].
  destruct (read_many _ _ bs1) as [[dd bs2]|] eqn:E2; [|discriminate].
  destruct (read_many _ _ bs2) as [[tt bs3]|] eqn:E3; [|discriminate].
  intros [= <- _]. split; [|split]; simpl.
  - eapply read_cdf_wf; eassumption.
  - eapply read_many_wf in E2; [exact E2|]. intros ? ? ?; apply read_cdf_wf.
  - eapply read_many_wf in E3; [exact E3|].
    intros ? ? ? H. eapply read_many_wf in H; [exact H|].
    intros ? ? ?; apply read_cdf_wf.
Qed.

(** A well-formed table is read back from its file image, whatever bytes
    follow the image. *)
Lemma load_write_wf_app (t : ltrfile) (rest : list byte) :
  wf_ltrfile t -> load_ltr big_endian (write_ltr big_endian t ++ rest) = inr t.
Proof.
  intros [[Hm Hn] Hd]. destruct t as [[mg nl] d]; simpl in *. subst mg nl.
  unfold write_ltr, header_bytes; simpl.
  rewrite (read_data_write _ _ Hd).
  reflexivity.
Qed.

Lemma load_write_wf (t : ltrfile) :
  wf_ltrfile t -> load_ltr big_endian (write_ltr big_endian t) = inr t.
Proof.
  intros H. rewrite <- (app_nil_r (write_ltr big_endian t)).
  now apply load_write_wf_app.
Qed.

(** Whatever [load_ltr] accepts is a well-formed table. *)
Lemma load_wf (file : list byte) (t : ltrfile) :
  load_ltr big_endian file = inr t -> wf_ltrfile t.
Proof.
  unfold load_ltr.
  destruct file as [|m0 [|m1 [|m2 [|m3 [|m4 [|m5 [|m6 [|m7 [|nl rest]]]]]]]]];
    try discriminate.
  case_bool_decide as Hmg; [|discriminate].
  destruct (Z_of_byte nl =? NUM_LETTERS) eqn:Hnl; [|discriminate].
  destruct (read_data big_endian rest) as [[d rest']|] eqn:Hd; [|discriminate].
  intros [= <-]. apply Z.eqb_eq in Hnl.
  split; [split; simpl; assumption | simpl; eapply read_data_wf; eassumption].
Qed.

End RoundTrip.

(** ** Loops *)

Lemma for_loop_S {S : Type} (n : nat) (body : nat -> S -> S) (s : S) :
  for_loop (Datatypes.S n) body s = body n (for_loop n body s).
Proof.
  unfold for_loop. rewrite seq_S, fold_left_app. reflexivity.
Qed.

Lemma for_loop_ind {S : Type} (P : nat -> S -> Prop) (n : nat)
    (body : nat -> S -> S) (s : S) :
  P O s ->
  (forall i s, (i < n)%nat -> P i s -> P (Datatypes.S i) (body i s)) ->
  P n (for_loop n body s).
Proof.
  intros H0 Hstep.
  assert (forall k, (k <= n)%nat -> P k (for_loop k body s)) as H.
  { induction k as [|k IH]; intros Hk; [exact H0|].
    rewrite for_loop_S. apply Hstep; [lia | apply IH; lia]. }
  apply H. lia.
Qed.

Lemma for_loop_inv {S : Type} (P : S -> Prop) (n : nat)
    (body : nat -> S -> S) (s : S) :
  P s -> (forall i s, (i < n)%nat -> P s -> P (body i s)) ->
  P (for_loop n body s).
Proof.
  intros H0 Hstep. apply (for_loop_ind (fun _ => P)); auto.
Qed.

(** ** Every value the engine stores is a 32-bit word *)

Lemma enc_word (x : spec_float) : is_word (F32.enc x).
Proof.
  unfold is_word, F32.enc, F32.sign_bit.
  change (2 ^ 32) with 4294967296. change (2 ^ 31) with 2147483648.
  change (2 ^ 23) with 8388608. change (2 ^ 22) with 4194304.
  change (2 ^ 8) with 256.
  destruct x as [s|s| |s m e]; try (destruct s; lia); try lia.
  pose proof (Z.mod_pos_bound (e + 150) 256 ltac:(lia)).
  pose proof (Z.mod_pos_bound (Z.pos m) 8388608 ltac:(lia)).
  destruct (Z.pos (digits2_pos m) =? F32.prec); destruct s; lia.
Qed.

Lemma add_one_word x : is_word (F32.add_one x).
Proof. apply enc_word. Qed.

Lemma add_word x y : is_word (F32.add x y).
Proof. apply enc_word. Qed.

Lemma zero_word : is_word F32.zero.
Proof. unfold is_word, F32.zero. lia. Qed.

Create HintDb ltr.
#[local] Hint Resolve enc_word add_one_word add_word zero_word : ltr.

Lemma wf_array_incr i a : wf_array a -> wf_array (incr i a).
Proof.
  intros [Hl Hw]. split; unfold incr.
  - now rewrite length_alter.
  - apply Forall_alter; auto with ltr.
Qed.

Lemma wf_array_insert (i : nat) x a :
  is_word x -> wf_array a -> wf_array (<[i := x]> a).
Proof.
  intros Hx [Hl Hw]. split.
  - now rewrite length_insert.
  - now apply Forall_insert.
Qed.

Lemma wf_cdf_on_start f c :
  (forall a, wf_array a -> wf_array (f a)) -> wf_cdf c -> wf_cdf (on_start f c).
Proof. intros Hf (Hs & Hm & He). split; [|split]; simpl; auto. Qed.

Lemma wf_cdf_on_middle f c :
  (forall a, wf_array a -> wf_array (f a)) -> wf_cdf c -> wf_cdf (on_middle f c).
Proof. intros Hf (Hs & Hm & He). split; [|split]; simpl; auto. Qed.

Lemma wf_cdf_on_end f c :
  (forall a, wf_array a -> wf_array (f a)) -> wf_cdf c -> wf_cdf (on_end f c).
Proof. intros Hf (Hs & Hm & He). split; [|split]; simpl; auto. Qed.

Lemma wf_data_on_singles f d :
  (forall c, wf_cdf c -> wf_cdf (f c)) -> wf_data d -> wf_data (on_singles f d).
Proof.
  intros Hf (Hs & Hd & Ht). split; [|split]; simpl; [apply Hf, Hs| exact Hd | exact Ht].
Qed.

Lemma wf_data_on_doubles i f d :
  (forall c, wf_cdf c -> wf_cdf (f c)) -> wf_data d -> wf_data (on_doubles i f d).
Proof.
  intros Hf (Hs & [Hdl Hd] & Ht). split; [|split]; simpl; [exact Hs| |exact Ht].
  split; [now rewrite length_alter | apply Forall_alter; auto].
Qed.

Lemma wf_data_on_triples i j f d :
  (forall c, wf_cdf c -> wf_cdf (f c)) -> wf_data d -> wf_data (on_triples i j f d).
Proof.
  intros Hf (Hs & Hd & [Htl Ht]). split; [|split]; simpl; [exact Hs|exact Hd|].
  split; [now rewrite length_alter|].
  apply Forall_alter; [exact Ht|].
  intros row _ [Hl Hrow]. split; [now rewrite length_alter|].
  apply Forall_alter; auto.
Qed.

Lemma wf_data_count3 pos c0 c1 c2 d :
  (forall f c, (forall a, wf_array a -> wf_array (f a)) -> wf_cdf c -> wf_cdf (pos f c)) ->
  wf_data d -> wf_data (count3 pos c0 c1 c2 d).
Proof.
  intros Hpos Hd. unfold count3.
  apply wf_data_on_triples; [intros; apply Hpos; auto using wf_array_incr|].
  apply wf_data_on_doubles; [intros; apply Hpos; auto using wf_array_incr|].
  apply wf_data_on_singles; [intros; apply Hpos; auto using wf_array_incr|].
  exact Hd.
Qed.

Lemma wf_data_middle_loop fuel buf2 p q d :
  wf_data d -> wf_data (middle_loop fuel buf2 p q d).
Proof.
  revert p d. induction fuel as [|fuel IH]; intros p d Hd; simpl; [exact Hd|].
  destruct (p + 1 =? q - 2); [exact Hd|].
  apply IH, wf_data_count3; [apply wf_cdf_on_middle | exact Hd].
Qed.

Lemma wf_data_count_name buf2 d : wf_data d -> wf_data (count_name buf2 d).
Proof.
  intros Hd. unfold count_name.
  assert (forall x y z d', wf_data d' ->
            wf_data (on_triples x y (on_end (incr z))
                       (on_doubles y (on_end (incr z))
                          (on_singles (on_end (incr z)) d')))) as Hend.
  { intros. apply wf_data_on_triples; [intros; apply wf_cdf_on_end; auto using wf_array_incr|].
    apply wf_data_on_doubles; [intros; apply wf_cdf_on_end; auto using wf_array_incr|].
    apply wf_data_on_singles; [intros; apply wf_cdf_on_end; auto using wf_array_incr|].
    assumption. }
  destruct (_ =? 2).
  - apply Hend, wf_data_count3; [apply wf_cdf_on_start | exact Hd].
  - apply wf_data_middle_loop, Hend, wf_data_count3; [apply wf_cdf_on_start | exact Hd].
Qed.

Lemma wf_zero_array : wf_array zero_array.
Proof.
  split; [apply length_replicate|].
  apply Forall_replicate, zero_word.
Qed.

Lemma wf_zero_cdf : wf_cdf zero_cdf.
Proof. repeat split; apply wf_zero_array. Qed.

Lemma wf_zero_data : wf_data zero_data.
Proof.
  split; [apply wf_zero_cdf|]. split.
  - split; [apply length_replicate | apply Forall_replicate, wf_zero_cdf].
  - split; [apply length_replicate|]. apply Forall_replicate.
    split; [apply length_replicate | apply Forall_replicate, wf_zero_cdf].
Qed.

Lemma wf_count_names names : wf_data (fst (count_names names)).
Proof.
  unfold count_names.
  generalize (@nil build_msg). generalize wf_zero_data. generalize zero_data.
  induction names as [|buf names IH]; intros d Hd log; simpl; [exact Hd|].
  destruct (clean buf) as [buf2 log']. destruct (_ <? 3); apply IH; auto.
  now apply wf_data_count_name.
Qed.

Lemma wf_norm_body sc mc ec i st :
  wf_cdf (ns_cdf st) -> wf_cdf (ns_cdf (norm_body sc mc ec i st)).
Proof.
  intros H. unfold norm_body.
  repeat match goal with
         | |- context [if ?b then _ else _] => destruct b; simpl
         end;
    repeat first [ apply wf_cdf_on_start | apply wf_cdf_on_middle
                 | apply wf_cdf_on_end
                 | intros; apply wf_array_insert; auto with ltr ];
    assumption.
Qed.

Lemma wf_normalize_cdf n c : wf_cdf c -> wf_cdf (normalize_cdf n c).
Proof.
  intros H. unfold normalize_cdf, normalize.
  destruct (for_loop n (total_body c) (0, 0, 0)) as [[sc mc] ec]. simpl.
  apply (for_loop_inv (fun st => wf_cdf (ns_cdf st))); [exact H|].
  intros; now apply wf_norm_body.
Qed.

Lemma wf_normalize_row n row :
  length row = Z.to_nat NUM_LETTERS /\ Forall wf_cdf row ->
  length (normalize_row n row) = Z.to_nat NUM_LETTERS /\
  Forall wf_cdf (normalize_row n row).
Proof.
  intros H. unfold normalize_row.
  apply (for_loop_inv (fun r => length r = Z.to_nat NUM_LETTERS /\ Forall wf_cdf r));
    [exact H|].
  intros i r _ [Hl Hr]. split; [now rewrite length_alter|].
  apply Forall_alter; auto using wf_normalize_cdf.
Qed.

Lemma wf_normalize_data n d : wf_data d -> wf_data (normalize_data n d).
Proof.
  intros (Hs & Hd & Ht). split; [|split]; simpl.
  - now apply wf_normalize_cdf.
  - now apply wf_normalize_row.
  - apply (for_loop_inv
             (fun t => length t = Z.to_nat NUM_LETTERS /\
                       Forall (fun row => length row = Z.to_nat NUM_LETTERS /\
                                          Forall wf_cdf row) t)); [exact Ht|].
    intros i t _ [Hl Hr]. split; [now rewrite length_alter|].
    apply Forall_alter; auto using wf_normalize_row.
Qed.

(** Every table that [build_ltr] makes is well formed. *)
Lemma wf_built names : wf_ltrfile (built names).
Proof.
  unfold built, build_table. pose proof (wf_count_names names) as H.
  destruct (count_names names) as [d log]. simpl in *.
  split; [split; reflexivity | now apply wf_normalize_data].
Qed.

(** C1. Round trip: a table made by [build_ltr] (whose file is written by
    the same call) or accepted by [load_ltr] is read back, bit for bit, from
    the bytes that writing it produces; this holds for either byte order of
    the machine. *)
Theorem load_write_roundtrip (big_endian : bool) :
  (forall names,
      let '(t, file, _) := build_ltr big_endian names in
      t = built names /\ load_ltr big_endian file = inr t) /\
  (forall file t,
      load_ltr big_endian file = inr t ->
      load_ltr big_endian (write_ltr big_endian t) = inr t).
Proof.
  split.
  - intros names. unfold build_ltr, built.
    pose proof (wf_built names) as H. unfold built in H.
    destruct (build_table names) as [t log]. simpl in *.
    split; [reflexivity | now apply load_write_wf].
  - intros file t H. apply load_write_wf. eapply load_wf; eassumption.
Qed.

(** A file that holds the image of the empty training set's table and one
    more byte is accepted; the table read from it is read back from its own
    image. *)
Lemma load_write_roundtrip_witness :
  load_ltr true (write_ltr true (built []) ++ [x00]) = inr (built []) /\
  load_ltr true (write_ltr true (built [])) = inr (built []).
Proof.
  assert (H : load_ltr true (write_ltr true (built []) ++ [x00]) = inr (built []))
    by apply load_write_wf_app, wf_built.
  split; [exact H|].
  exact (proj2 (load_write_roundtrip true) _ _ H).
Defined.

(** ** Arrays of floats *)

Lemma elt_middle (l1 l2 : list F32.f32) x n :
  n = length l1 -> elt (l1 ++ x :: l2) n = x.
Proof. intros ->. unfold elt. now rewrite list_lookup_middle. Qed.

Lemma elt_insert_eq (a : list F32.f32) i x :
  (i < length a)%nat -> elt (<[i := x]> a) i = x.
Proof. intros H. unfold elt. now rewrite list_lookup_insert_eq. Qed.

Lemma elt_insert_ne (a : list F32.f32) i j x :
  i <> j -> elt (<[i := x]> a) j = elt a j.
Proof. intros H. unfold elt. now rewrite list_lookup_insert_ne. Qed.

Lemma elt_ge (a : list F32.f32) i : (length a <= i)%nat -> elt a i = F32.zero.
Proof. intros H. unfold elt. now rewrite lookup_ge_None_2. Qed.

Lemma elt_lookup (a : list F32.f32) i x : a !! i = Some x -> elt a i = x.
Proof. intros H. unfold elt. now rewrite H. Qed.

Lemma elt_cons_S x (a : list F32.f32) i : elt (x :: a) (S i) = elt a i.
Proof. reflexivity. Qed.

(** ** The repair pass *)

Lemma reaches_one_S n a :
  reaches_one (S n) a = reaches_one n a || F32.near_one (elt a n).
Proof.
  unfold reaches_one. rewrite seq_S, existsb_app. simpl.
  now rewrite orb_false_r.
Qed.

Lemma reaches_one_false n a :
  reaches_one n a = false <->
  forall i, (i < n)%nat -> F32.near_one (elt a i) = false.
Proof.
  induction n as [|n IH].
  - split; [intros _ i Hi; lia | reflexivity].
  - rewrite reaches_one_S, orb_false_iff, IH. split.
    + intros [H1 H2] i Hi. destruct (decide (i = n)) as [->|]; [exact H2|].
      apply H1. lia.
    + intros H. split; [intros i Hi; apply H; lia | apply H; lia].
Qed.

Lemma reaches_one_true n a :
  reaches_one n a = true <->
  exists i, (i < n)%nat /\ F32.near_one (elt a i) = true.
Proof.
  unfold reaches_one. rewrite existsb_exists. split.
  - intros (i & Hi & H). apply in_seq in Hi. exists i. split; [lia | exact H].
  - intros (i & Hi & H). exists i. split; [apply in_seq; lia | exact H].
Qed.

Lemma detect_loop d k :
  for_loop k (detect_body d) 3 =
  (if reaches_one k (middle (singles d)) then 0 else 2)
  + (if reaches_one k (end_ (singles d)) then 0 else 1).
Proof.
  induction k as [|k IH]; [reflexivity|].
  rewrite for_loop_S, IH, !reaches_one_S. unfold detect_body.
  destruct (reaches_one k (middle (singles d))),
           (reaches_one k (end_ (singles d))),
           (F32.near_one (elt (middle (singles d)) k)),
           (F32.near_one (elt (end_ (singles d)) k)); reflexivity.
Qed.

Lemma judged_corrupt_middle ltr :
  judged_corrupt 2 ltr =
  negb (reaches_one (Z.to_nat (num_letters (header ltr))) (middle (singles (data ltr)))).
Proof.
  unfold judged_corrupt, detect. rewrite detect_loop.
  destruct (reaches_one _ (middle _)), (reaches_one _ (end_ _)); reflexivity.
Qed.

Lemma judged_corrupt_end ltr :
  judged_corrupt 1 ltr =
  negb (reaches_one (Z.to_nat (num_letters (header ltr))) (end_ (singles (data ltr)))).
Proof.
  unfold judged_corrupt, detect. rewrite detect_loop.
  destruct (reaches_one _ (middle _)), (reaches_one _ (end_ _)); reflexivity.
Qed.

Lemma detect_zero ltr :
  detect ltr = 0 <-> judged_corrupt 2 ltr = false /\ judged_corrupt 1 ltr = false.
Proof.
  rewrite judged_corrupt_middle, judged_corrupt_end.
  unfold detect. rewrite detect_loop.
  destruct (reaches_one _ (middle _)), (reaches_one _ (end_ _)); simpl;
    split; try tauto; try lia; intros [? ?]; discriminate.
Qed.

(** What [fix_ltr] leaves alone. *)
Lemma fix_ltr_frame ltr :
  header (repair ltr) = header ltr /\
  start (singles (data (repair ltr))) = start (singles (data ltr)) /\
  doubles (data (repair ltr)) = doubles (data ltr) /\
  triples (data (repair ltr)) = triples (data ltr).
Proof.
  unfold repair, fix_ltr.
  destruct (judged_corrupt 2 ltr), (judged_corrupt 1 ltr);
    repeat match goal with
           | |- context [fix_table ?w ?n ?a] => destruct (fix_table w n a)
           end; simpl; auto.
Qed.

Lemma fix_ltr_middle ltr :
  middle (singles (data (repair ltr))) =
  if judged_corrupt 2 ltr
  then fst (fix_table Middle (Z.to_nat (num_letters (header ltr)))
                      (middle (singles (data ltr))))
  else middle (singles (data ltr)).
Proof.
  unfold repair, fix_ltr.
  destruct (judged_corrupt 2 ltr), (judged_corrupt 1 ltr);
    repeat match goal with
           | |- context [fix_table ?w ?n ?a] => destruct (fix_table w n a)
           end; simpl; auto.
Qed.

Lemma fix_ltr_end ltr :
  end_ (singles (data (repair ltr))) =
  if judged_corrupt 1 ltr
  then fst (fix_table End (Z.to_nat (num_letters (header ltr)))
                      (end_ (singles (data ltr))))
  else end_ (singles (data ltr)).
Proof.
  unfold repair, fix_ltr.
  destruct (judged_corrupt 2 ltr), (judged_corrupt 1 ltr); simpl;
    repeat match goal with
           | |- context [fix_table ?w ?n ?a] => destruct (fix_table w n a)
           end; simpl; auto.
Qed.

(** ** Floats: decoding and exact comparisons *)

Lemma exp_field_range w : 0 <= F32.exp_field w < 256.
Proof. unfold F32.exp_field. change (2 ^ 8) with 256. apply Z.mod_pos_bound. lia. Qed.

Lemma frac_field_range w : 0 <= F32.frac_field w < 2 ^ 23.
Proof. unfold F32.frac_field. apply Z.mod_pos_bound. lia. Qed.

(** A decoded finite float has a mantissa below [2^24] and an exponent of
    binary32; above the least exponent the mantissa has its leading bit. *)
Lemma dec_finite w s m e :
  F32.dec w = S754_finite s m e ->
  Z.pos m < 2 ^ 24 /\ -149 <= e <= 104 /\ (-149 < e -> 2 ^ 23 <= Z.pos m).
Proof.
  unfold F32.dec.
  pose proof (exp_field_range w) as He. pose proof (frac_field_range w) as Hf.
  change (2 ^ 23) with 8388608 in *. change (2 ^ 24) with 16777216.
  destruct (F32.exp_field w =? 0) eqn:E0.
  - destruct (F32.frac_field w) as [|p|p] eqn:Ef; try discriminate.
    intros [= <- <- <-]. lia.
  - destruct (F32.exp_field w =? 255) eqn:E1.
    + destruct (F32.frac_field w =? 0); discriminate.
    + destruct (F32.frac_field w + 8388608) as [|p|p] eqn:Ef; try discriminate.
      intros [= <- <- <-]. lia.
Qed.

Lemma SFleb_exact_finite s1 m1 e1 s2 m2 e2 :
  F32.SFleb_exact (S754_finite s1 m1 e1) (S754_finite s2 m2 e2) = true <->
  (F32.SF2Q (S754_finite s1 m1 e1) <= F32.SF2Q (S754_finite s2 m2 e2))%Q.
Proof.
  unfold F32.SFleb_exact, F32.SFcompare_exact. rewrite Qle_alt.
  destruct (_ ?= _)%Q; split; congruence.
Qed.

Lemma SFltb_exact_finite s1 m1 e1 s2 m2 e2 :
  F32.SFltb_exact (S754_finite s1 m1 e1) (S754_finite s2 m2 e2) = true <->
  (F32.SF2Q (S754_finite s1 m1 e1) < F32.SF2Q (S754_finite s2 m2 e2))%Q.
Proof.
  unfold F32.SFltb_exact, F32.SFcompare_exact. rewrite Qlt_alt.
  destruct (_ ?= _)%Q; split; congruence.
Qed.

Lemma pow2_cases (k : positive) :
  (Z.pos (2 ^ k) = 2 ^ Z.pos k) /\
  ((Z.pos k <= 24 /\ (Z.pos (2 ^ k) = 2 \/ Z.pos (2 ^ k) = 4 \/ Z.pos (2 ^ k) = 8 \/ Z.pos (2 ^ k) = 16
    \/ Z.pos (2 ^ k) = 32 \/ Z.pos (2 ^ k) = 64 \/ Z.pos (2 ^ k) = 128 \/ Z.pos (2 ^ k) = 256
    \/ Z.pos (2 ^ k) = 512 \/ Z.pos (2 ^ k) = 1024 \/ Z.pos (2 ^ k) = 2048 \/ Z.pos (2 ^ k) = 4096
    \/ Z.pos (2 ^ k) = 8192 \/ Z.pos (2 ^ k) = 16384 \/ Z.pos (2 ^ k) = 32768 \/ Z.pos (2 ^ k) = 65536
    \/ Z.pos (2 ^ k) = 131072 \/ Z.pos (2 ^ k) = 262144 \/ Z.pos (2 ^ k) = 524288
    \/ Z.pos (2 ^ k) = 1048576 \/ Z.pos (2 ^ k) = 2097152 \/ Z.pos (2 ^ k) = 4194304
    \/ Z.pos (2 ^ k) = 8388608 \/ Z.pos (2 ^ k) = 16777216))
   \/ 2 ^ 25 <= Z.pos (2 ^ k)).
Proof.
  split; [apply Pos2Z.inj_pow|].
  rewrite Pos2Z.inj_pow.
  destruct (Z_le_gt_dec (Z.pos k) 24) as [H|H].
  - left. split; [exact H|].
    assert (Hk : Z.pos k = 1 \/ Z.pos k = 2 \/ Z.pos k = 3 \/ Z.pos k = 4 \/ Z.pos k = 5 \/ Z.pos k = 6
            \/ Z.pos k = 7 \/ Z.pos k = 8 \/ Z.pos k = 9 \/ Z.pos k = 10 \/ Z.pos k = 11 \/ Z.pos k = 12
            \/ Z.pos k = 13 \/ Z.pos k = 14 \/ Z.pos k = 15 \/ Z.pos k = 16 \/ Z.pos k = 17 \/ Z.pos k = 18
            \/ Z.pos k = 19 \/ Z.pos k = 20 \/ Z.pos k = 21 \/ Z.pos k = 22 \/ Z.pos k = 23 \/ Z.pos k = 24) by lia.
    repeat (destruct Hk as [Hk|Hk]; [rewrite Hk; vm_compute; tauto|]).
    rewrite Hk; vm_compute; tauto.
  - right. apply Z.pow_le_mono_r; lia.
Qed.

(** Between binary32 values, the [double] literals [0.9999] and [1.0001]
    decide exactly as the decimal numbers do. *)
Lemma tolerance_exact s m e :
  Z.pos m < 2 ^ 24 ->
  ((F32.SF2Q F32.d_0_9999 <= F32.SF2Q (S754_finite s m e))%Q <->
   (9999 # 10000 <= F32.SF2Q (S754_finite s m e))%Q) /\
  ((F32.SF2Q (S754_finite s m e) <= F32.SF2Q F32.d_1_0001)%Q <->
   (F32.SF2Q (S754_finite s m e) <= 10001 # 10000)%Q) /\
  ((F32.SF2Q (S754_finite s m e) < F32.SF2Q F32.d_0_9999)%Q <->
   (F32.SF2Q (S754_finite s m e) < 9999 # 10000)%Q) /\
  ((F32.SF2Q F32.d_1_0001 < F32.SF2Q (S754_finite s m e))%Q <->
   (10001 # 10000 < F32.SF2Q (S754_finite s m e))%Q).
Proof.
  intros Hm. change (2 ^ 24) with 16777216 in Hm.
  change (F32.SF2Q F32.d_0_9999) with (9006298534815518 # 9007199254740992).
  change (F32.SF2Q F32.d_1_0001) with (4504049987333233 # 4503599627370496).
  unfold F32.SF2Q. destruct e as [|p|k].
  - unfold Qle, Qlt, inject_Z; simpl Qnum; simpl Qden. destruct s; simpl cond_Zopp; lia.
  - assert (HP : 2 <= 2 ^ Z.pos p).
    { change 2 with (2 ^ 1) at 1. apply Z.pow_le_mono_r; lia. }
    unfold Qle, Qlt, inject_Z; simpl Qnum; simpl Qden.
    destruct s; simpl cond_Zopp; nia.
  - unfold Qle, Qlt; simpl Qnum; simpl Qden.
    destruct (pow2_cases k) as [_ [[_ H]|H]].
    + destruct s; simpl cond_Zopp;
        repeat (destruct H as [H|H]; [rewrite H; lia|]); rewrite H; lia.
    + change (2 ^ 25) with 33554432 in H. destruct s; simpl cond_Zopp; lia.
Qed.

Lemma near_one_within (x : F32.f32) :
  F32.near_one x = true <-> F32.within (9999 # 10000) (10001 # 10000) x.
Proof.
  unfold F32.near_one, F32.ge_d, F32.le_d, F32.within, F32.value.
  destruct (F32.dec x) as [s|s| |s m e] eqn:E.
  - split; [destruct s; discriminate | intros [H _]; now apply Qle_bool_iff in H].
  - split; [destruct s; discriminate | tauto].
  - split; [discriminate | tauto].
  - destruct (dec_finite _ _ _ _ E) as [Hm _].
    destruct (tolerance_exact s m e Hm) as (H1 & H2 & _).
    unfold F32.d_0_9999 at 1, F32.d_1_0001 at 1.
    rewrite andb_true_iff, !SFleb_exact_finite.
    fold F32.d_0_9999 F32.d_1_0001. tauto.
Qed.

(** The warning of the correction loop: the accumulator is a number (or an
    infinity) outside the tolerance; a NaN raises none. *)
Lemma fix_warns_spec (acc : F32.f32) :
  fix_warns acc = true <->
  F32.dec acc <> S754_nan /\ ~ F32.within (9999 # 10000) (10001 # 10000) acc.
Proof.
  unfold fix_warns, F32.lt_d, F32.gt_d, F32.within, F32.value.
  destruct (F32.dec acc) as [s|s| |s m e] eqn:E.
  - split; [intros _; split; [discriminate|] | destruct s; reflexivity].
    intros [H _]. now apply Qle_bool_iff in H.
  - split; [intros _; split; [discriminate | tauto] | destruct s; reflexivity].
  - split; [discriminate | intros [H _]; congruence].
  - destruct (dec_finite _ _ _ _ E) as [Hm _].
    destruct (tolerance_exact s m e Hm) as (_ & _ & H1 & H2).
    unfold F32.d_0_9999 at 1, F32.d_1_0001 at 1.
    rewrite orb_true_iff, !SFltb_exact_finite.
    fold F32.d_0_9999 F32.d_1_0001. rewrite H1, H2.
    split.
    + intros H. split; [discriminate|]. intros [Ha Hb].
      destruct H as [H|H]; [apply Qlt_not_le in H | apply Qlt_not_le in H]; tauto.
    + intros [_ H].
      destruct (Qlt_le_dec (F32.SF2Q (S754_finite s m e)) (9999 # 10000)) as [Hl|Hl];
        [now left|].
      destruct (Qlt_le_dec (10001 # 10000) (F32.SF2Q (S754_finite s m e))) as [Hr|Hr];
        [now right|].
      exfalso. apply H. split; assumption.
Qed.

Lemma near_one_in_tolerance x : F32.near_one x = true <-> in_tolerance x.
Proof. apply near_one_within. Qed.

Lemma near_one_not_in_tolerance x : F32.near_one x = false <-> ~ in_tolerance x.
Proof.
  rewrite <- near_one_in_tolerance. destruct (F32.near_one x); split; congruence.
Qed.

Lemma fix_run_log which n a w :
  In (Correcting w) (fs_log (fix_run which n a)) <-> w = which.
Proof.
  unfold fix_run.
  apply (for_loop_inv (fun st => In (Correcting w) (fs_log st) <-> w = which)).
  - simpl. split; [intros [[= ->]|[]]; reflexivity | intros ->; now left].
  - intros i st _ IH. unfold fix_body.
    destruct (F32.ne_zero _); simpl; rewrite in_app_iff; simpl;
      rewrite IH; split; try tauto; intros [H|[H|[]]]; auto; discriminate.
Qed.

Lemma fix_table_log which n a w :
  In (Correcting w) (snd (fix_table which n a)) <-> w = which.
Proof.
  unfold fix_table. simpl. rewrite in_app_iff, fix_run_log.
  destruct (fix_warns _); simpl; split; try tauto; intros [H|[H|[]]]; auto; discriminate.
Qed.

Lemma fix_ltr_snd ltr :
  snd (fix_ltr ltr) =
  (if judged_corrupt 2 ltr
   then snd (fix_table Middle (Z.to_nat (num_letters (header ltr)))
                       (middle (singles (data ltr))))
   else [])
  ++ (if judged_corrupt 1 ltr
      then snd (fix_table End (Z.to_nat (num_letters (header ltr)))
                          (end_ (singles (data ltr))))
      else [])
  ++ (if negb (detect ltr =? 0) then [Corrections_completed] else []).
Proof.
  unfold fix_ltr.
  destruct (judged_corrupt 2 ltr), (judged_corrupt 1 ltr);
    try destruct (fix_table Middle _ _); cbn -[fix_table];
    try destruct (fix_table End _ _); reflexivity.
Qed.

Lemma fix_ltr_log ltr :
  (In (Correcting Middle) (snd (fix_ltr ltr)) <-> judged_corrupt 2 ltr = true) /\
  (In (Correcting End) (snd (fix_ltr ltr)) <-> judged_corrupt 1 ltr = true).
Proof.
  rewrite fix_ltr_snd, !in_app_iff.
  set (n := Z.to_nat (num_letters (header ltr))).
  pose proof (fix_table_log Middle n (middle (singles (data ltr))) Middle) as H1.
  pose proof (fix_table_log Middle n (middle (singles (data ltr))) End) as H2.
  pose proof (fix_table_log End n (end_ (singles (data ltr))) Middle) as H3.
  pose proof (fix_table_log End n (end_ (singles (data ltr))) End) as H4.
  destruct (judged_corrupt 2 ltr), (judged_corrupt 1 ltr),
    (negb (detect ltr =? 0)); simpl;
    intuition (try discriminate; try congruence).
Qed.

(** C4. For every loaded table: [fix_ltr] judges [singles.middle] corrupt
    (and announces its correction) exactly when none of its 28 entries is a
    number within [[0.9999, 1.0001]]; the same, independently, for
    [singles.end]; the judgement reads no other array, and the pass changes
    no other array. *)
Theorem detection_spec (big_endian : bool) (file : list byte) (ltr : ltrfile) :
  load_ltr big_endian file = inr ltr ->
  (judged_corrupt 2 ltr = true <->
   forall i, (i < 28)%nat -> ~ in_tolerance (elt (middle (singles (data ltr))) i)) /\
  (judged_corrupt 1 ltr = true <->
   forall i, (i < 28)%nat -> ~ in_tolerance (elt (end_ (singles (data ltr))) i)) /\
  (In (Correcting Middle) (snd (fix_ltr ltr)) <-> judged_corrupt 2 ltr = true) /\
  (In (Correcting End) (snd (fix_ltr ltr)) <-> judged_corrupt 1 ltr = true) /\
  (forall ltr',
      header ltr' = header ltr ->
      middle (singles (data ltr')) = middle (singles (data ltr)) ->
      end_ (singles (data ltr')) = end_ (singles (data ltr)) ->
      detect ltr' = detect ltr) /\
  start (singles (data (repair ltr))) = start (singles (data ltr)) /\
  doubles (data (repair ltr)) = doubles (data ltr) /\
  triples (data (repair ltr)) = triples (data ltr).
Proof.
  intros Hload. apply load_wf in Hload. destruct Hload as [[_ Hn] _].
  assert (Hn' : Z.to_nat (num_letters (header ltr)) = 28%nat) by (rewrite Hn; reflexivity).
  split; [|split; [|split; [|split; [|split]]]].
  - rewrite judged_corrupt_middle, negb_true_iff, reaches_one_false, Hn'.
    split; intros H i Hi; apply near_one_not_in_tolerance; auto.
  - rewrite judged_corrupt_end, negb_true_iff, reaches_one_false, Hn'.
    split; intros H i Hi; apply near_one_not_in_tolerance; auto.
  - apply fix_ltr_log.
  - apply fix_ltr_log.
  - intros ltr' Hh Hm He. unfold detect. rewrite Hh, !detect_loop, Hm, He.
    reflexivity.
  - pose proof (fix_ltr_frame ltr). tauto.
Qed.

Lemma detection_spec_witness :
  load_ltr false (write_ltr false (built [])) = inr (built []) /\
  (judged_corrupt 2 (built []) = true <->
   forall i, (i < 28)%nat -> ~ in_tolerance (elt (middle (singles (data (built [])))) i)).
Proof.
  assert (H : load_ltr false (write_ltr false (built [])) = inr (built []))
    by apply load_write_wf, wf_built.
  split; [exact H|].
  exact (proj1 (detection_spec false _ _ H)).
Defined.

(** One round of the correction loop at the entry [x] of index
    [length pre]. *)
Lemma fix_body_at (st : fix_state) (pre : list F32.f32) (x : F32.f32)
    (suf : list F32.f32) :
  fs_table st = pre ++ x :: suf ->
  let off' := if negb (length pre =? 0)%nat && F32.eq_zero (fs_prevval st)
              then fs_accumulator st else fs_correction st in
  let st1 := fix_body (length pre) st in
  fs_prevval st1 = x /\
  if F32.ne_zero x
  then fs_table st1 = (pre ++ [F32.add x off']) ++ suf /\
       fs_accumulator st1 = F32.add x off' /\ fs_correction st1 = off'
  else fs_table st1 = (pre ++ [x]) ++ suf /\
       fs_accumulator st1 = fs_accumulator st /\
       fs_correction st1 = fs_correction st.
Proof.
  intros Ht. simpl.
  assert (Hx : elt (fs_table st) (length pre) = x)
    by (rewrite Ht; now apply elt_middle).
  unfold fix_body. rewrite Hx.
  destruct (F32.ne_zero x); simpl; (split; [reflexivity|]).
  - repeat split.
    + rewrite Ht, insert_app_r_alt, Nat.sub_diag, <- app_assoc by lia.
      simpl. do 3 f_equal. destruct (length pre), (F32.eq_zero _); reflexivity.
    + f_equal. destruct (length pre), (F32.eq_zero _); reflexivity.
    + destruct (length pre), (F32.eq_zero _); reflexivity.
  - rewrite Ht, <- app_assoc. auto.
Qed.

(** The correction loop, from index [length pre] on, is the walk over the
    entries that are left. *)
Lemma fix_fold_walk (suf : list F32.f32) :
  forall (pre : list F32.f32) (st : fix_state),
    fs_table st = pre ++ suf ->
    fs_table (fold_left (fun s i => fix_body i s)
                        (seq (length pre) (length suf)) st)
    = pre ++ fst (repair_walk (length pre =? 0)%nat (fs_accumulator st)
                              (fs_prevval st) (fs_correction st) suf) /\
    fs_accumulator (fold_left (fun s i => fix_body i s)
                              (seq (length pre) (length suf)) st)
    = snd (repair_walk (length pre =? 0)%nat (fs_accumulator st)
                       (fs_prevval st) (fs_correction st) suf).
Proof.
  induction suf as [|x suf IH]; intros pre st Ht.
  - simpl. split; [now rewrite app_nil_r in * | reflexivity].
  - destruct (fix_body_at st pre x suf Ht) as [Hp Hb].
    cbn [length seq fold_left repair_walk].
    set (st1 := fix_body (length pre) st) in *.
    destruct (F32.ne_zero x).
    + destruct Hb as (Htab & Hacc & Hcorr).
      specialize (IH _ _ Htab).
      rewrite length_app, Nat.add_1_r, Hacc, Hp, Hcorr in IH. simpl Nat.eqb in IH.
      destruct (repair_walk false _ x _ suf) as [r a].
      simpl in *. rewrite <- app_assoc in IH. exact IH.
    + destruct Hb as (Htab & Hacc & Hcorr).
      specialize (IH _ _ Htab).
      rewrite length_app, Nat.add_1_r, Hacc, Hp, Hcorr in IH. simpl Nat.eqb in IH.
      destruct (repair_walk false _ x _ suf) as [r a].
      simpl in *. rewrite <- app_assoc in IH. exact IH.
Qed.

Lemma fix_run_walk which (a : list F32.f32) :
  fs_table (fix_run which (length a) a)
  = fst (repair_walk true F32.zero F32.zero F32.zero a) /\
  fs_accumulator (fix_run which (length a) a)
  = snd (repair_walk true F32.zero F32.zero F32.zero a).
Proof.
  exact (fix_fold_walk a [] (Build_fix_state a F32.zero F32.zero F32.zero
                                             [Correcting which]) eq_refl).
Qed.

Lemma fix_run_table which (a : list F32.f32) :
  fs_table (fix_run which (length a) a) = fst (walked a).
Proof. apply fix_run_walk. Qed.

Lemma fix_run_accumulator which (a : list F32.f32) :
  fs_accumulator (fix_run which (length a) a) = snd (walked a).
Proof. apply fix_run_walk. Qed.

Lemma repair_walk_length raw :
  forall first acc prev off,
    length (fst (repair_walk first acc prev off raw)) = length raw.
Proof.
  induction raw as [|x raw IH]; intros first acc prev off; simpl; [reflexivity|].
  destruct (F32.ne_zero x).
  - specialize (IH false (F32.add x (if negb first && F32.eq_zero prev then acc else off))
                   x (if negb first && F32.eq_zero prev then acc else off)).
    destruct (repair_walk _ _ _ _ raw). simpl in *. now rewrite IH.
  - specialize (IH false acc x off).
    destruct (repair_walk _ _ _ _ raw). simpl in *. now rewrite IH.
Qed.

(** Entries whose raw value is zero are not rewritten. *)
Lemma repair_walk_zero raw :
  forall first acc prev off i,
    F32.ne_zero (elt raw i) = false ->
    elt (fst (repair_walk first acc prev off raw)) i = elt raw i.
Proof.
  induction raw as [|x raw IH]; intros first acc prev off i Hz; simpl; [reflexivity|].
  destruct (F32.ne_zero x) eqn:Ex.
  - specialize (IH false (F32.add x (if negb first && F32.eq_zero prev then acc else off))
                   x (if negb first && F32.eq_zero prev then acc else off)).
    destruct (repair_walk _ _ _ _ raw). simpl in *.
    destruct i as [|i]; [unfold elt in Hz; simpl in Hz; congruence|].
    rewrite !elt_cons_S in *. now apply IH.
  - specialize (IH false acc x off).
    destruct (repair_walk _ _ _ _ raw). simpl in *.
    destruct i as [|i]; [reflexivity|].
    rewrite !elt_cons_S in *. now apply IH.
Qed.

(** The accumulator at the end is the one at the start, or an entry of the
    repaired array. *)
Lemma repair_walk_stored raw :
  forall first acc prev off,
    snd (repair_walk first acc prev off raw) = acc \/
    exists i, (i < length raw)%nat /\
              elt (fst (repair_walk first acc prev off raw)) i
              = snd (repair_walk first acc prev off raw).
Proof.
  induction raw as [|x raw IH]; intros first acc prev off; simpl; [now left|].
  destruct (F32.ne_zero x) eqn:Ex.
  - specialize (IH false (F32.add x (if negb first && F32.eq_zero prev then acc else off))
                   x (if negb first && F32.eq_zero prev then acc else off)).
    destruct (repair_walk _ _ _ _ raw) as [r a]. simpl in *. right.
    destruct IH as [->|(i & Hi & IH)].
    + exists O. split; [lia | reflexivity].
    + exists (S i). split; [lia | now rewrite elt_cons_S].
  - specialize (IH false acc x off).
    destruct (repair_walk _ _ _ _ raw) as [r a]. simpl in *.
    destruct IH as [->|(i & Hi & IH)]; [now left|]. right.
    exists (S i). split; [lia | now rewrite elt_cons_S].
Qed.

Lemma fix_run_messages which n a m :
  In m (fs_log (fix_run which n a)) ->
  m = Correcting which \/ exists l o c acc off, m = Fix_line l o c acc off.
Proof.
  unfold fix_run.
  apply (for_loop_inv
           (fun st => In m (fs_log st) ->
                      m = Correcting which \/
                      exists l o c acc off, m = Fix_line l o c acc off)).
  - simpl. intros [<-|[]]. now left.
  - intros i st _ IH. unfold fix_body.
    destruct (F32.ne_zero _); simpl; rewrite in_app_iff; simpl;
      (intros [H|[<-|[]]]; [auto | right; eauto 6]).
Qed.

Lemma fix_table_warning which n a x :
  In (Fix_warning x) (snd (fix_table which n a)) <->
  x = fs_accumulator (fix_run which n a) /\ fix_warns x = true.
Proof.
  unfold fix_table. simpl. rewrite in_app_iff. split.
  - intros [H|H].
    + apply fix_run_messages in H.
      destruct H as [H|(? & ? & ? & ? & ? & H)]; discriminate.
    + destruct (fix_warns (fs_accumulator _)) eqn:E; simpl in H;
        [destruct H as [[= <-]|[]]; auto | contradiction].
  - intros [-> H]. right. rewrite H. now left.
Qed.

(** *** Example tables *)

Ltac concrete_words :=
  unfold restarted, complete, short; simpl;
  repeat (apply List.Forall_cons; [vm_compute; split; [discriminate | reflexivity]|]);
  apply List.Forall_nil.

Lemma wf_restarted : wf_array restarted.
Proof. split; [reflexivity | concrete_words]. Qed.

Lemma wf_complete : wf_array complete.
Proof. split; [reflexivity | concrete_words]. Qed.

Lemma wf_short : wf_array short.
Proof. split; [reflexivity | concrete_words]. Qed.

Lemma wf_table_of m e : wf_array m -> wf_array e -> wf_ltrfile (table_of m e).
Proof.
  intros Hm He. split; [split; reflexivity|].
  split; [|apply wf_zero_data]. split; [apply wf_zero_array|]. split; assumption.
Qed.

Lemma load_table_of big_endian m e :
  wf_array m -> wf_array e ->
  load_ltr big_endian (write_ltr big_endian (table_of m e)) = inr (table_of m e).
Proof. intros. now apply load_write_wf, wf_table_of. Qed.

(** *** The correction walk *)

Lemma loaded_lengths big_endian file ltr :
  load_ltr big_endian file = inr ltr ->
  Z.to_nat (num_letters (header ltr)) = 28%nat /\
  length (middle (singles (data ltr))) = 28%nat /\
  length (end_ (singles (data ltr))) = 28%nat.
Proof.
  intros H. apply load_wf in H.
  destruct H as [[_ Hn] ((_ & [Hm _] & [He _]) & _)].
  rewrite Hn. auto.
Qed.

(** C5 (amended). For every loaded table, an array that is judged corrupt
    is replaced by the result of the walk [walked]: in increasing index
    order, with an accumulator and an offset; at an entry whose raw value is
    nonzero the offset is first set to the accumulator if the entry is not
    the first and the raw value before it was zero, then the accumulator is
    SET TO the raw value plus the offset and stored as the repaired entry;
    entries whose raw value is zero are left as they are.  An array that is
    not judged corrupt is left as it is.  After the walk a warning with the
    final accumulator is printed exactly when that accumulator is a number
    (or an infinity) outside [[0.9999, 1.0001]]; the pass yields the table
    in every case. *)
Theorem correction_spec (big_endian : bool) (file : list byte) (ltr : ltrfile) :
  load_ltr big_endian file = inr ltr ->
  let m := middle (singles (data ltr)) in
  let e := end_ (singles (data ltr)) in
  middle (singles (data (repair ltr)))
  = (if judged_corrupt 2 ltr then fst (walked m) else m) /\
  end_ (singles (data (repair ltr)))
  = (if judged_corrupt 1 ltr then fst (walked e) else e) /\
  (forall raw i, F32.ne_zero (elt raw i) = false ->
                 elt (fst (walked raw)) i = elt raw i) /\
  (forall x, In (Fix_warning x) (snd (fix_ltr ltr)) <->
             (F32.dec x <> S754_nan /\ ~ in_tolerance x) /\
             ((judged_corrupt 2 ltr = true /\ x = snd (walked m)) \/
              (judged_corrupt 1 ltr = true /\ x = snd (walked e)))).
Proof.
  intros Hload m e. destruct (loaded_lengths _ _ _ Hload) as (Hn & Hm & He).
  split; [|split; [|split]].
  - rewrite fix_ltr_middle, Hn, <- Hm. unfold fix_table. simpl.
    now rewrite fix_run_table.
  - rewrite fix_ltr_end, Hn, <- He. unfold fix_table. simpl.
    now rewrite fix_run_table.
  - intros raw i. apply repair_walk_zero.
  - intros x. rewrite fix_ltr_snd, !in_app_iff, Hn.
    pose proof (fix_table_warning Middle 28 m x) as HM.
    pose proof (fix_table_warning End 28 e x) as HE.
    rewrite <- Hm in HM at 2. rewrite <- He in HE at 2.
    rewrite fix_run_accumulator, fix_warns_spec in HM, HE.
    fold m e. unfold in_tolerance.
    assert (HC : ~ In (Fix_warning x) [Corrections_completed])
      by (intros [H|[]]; discriminate).
    assert (HN : ~ In (Fix_warning x) []) by (intros []).
    set (P := F32.dec x <> S754_nan /\ ~ F32.within (9999 # 10000) (10001 # 10000) x) in *.
    set (WM := snd (fix_table Middle 28 m)) in *.
    set (WE := snd (fix_table End 28 e)) in *.
    set (am := snd (walked m)) in *. set (ae := snd (walked e)) in *.
    clearbody P WM WE am ae.
    destruct (judged_corrupt 2 ltr), (judged_corrupt 1 ltr),
      (negb (detect ltr =? 0));
      intuition (try discriminate; try congruence).
Qed.

Lemma correction_spec_witness :
  load_ltr false (write_ltr false (table_of restarted complete))
  = inr (table_of restarted complete) /\
  middle (singles (data (repair (table_of restarted complete))))
  = [f_0_25; f_0_5; F32.zero; f_0_75; f_1] ++ replicate 23 F32.zero.
Proof.
  assert (H : load_ltr false (write_ltr false (table_of restarted complete))
              = inr (table_of restarted complete))
    by (apply load_table_of; [apply wf_restarted | apply wf_complete]).
  split; [exact H|].
  rewrite (proj1 (correction_spec false _ _ H)). vm_compute. reflexivity.
Defined.

(** C5, as the specification words it, fails: on the array 0.25, 0.5, 0,
    0.25, 0.5 (the cumulative values 0.25, 0.5, -, 0.75, 1.0 with the sums
    started again after the zero entry) [fix_ltr] stores 0.25, 0.5, 0, 0.75,
    1.0, whereas adding each raw value plus the offset to the accumulator
    gives 0.25, 0.75, 0, 1.75, 3.0. *)
Lemma correction_is_not_additive :
  judged_corrupt 2 (table_of restarted complete) = true /\
  middle (singles (data (repair (table_of restarted complete))))
  = [f_0_25; f_0_5; F32.zero; f_0_75; f_1] ++ replicate 23 F32.zero /\
  fst (walked_spec restarted)
  = [f_0_25; f_0_75; F32.zero; f_1_75; f_3] ++ replicate 23 F32.zero /\
  middle (singles (data (repair (table_of restarted complete))))
  <> fst (walked_spec restarted).
Proof.
  repeat split; try (vm_compute; reflexivity).
  intros H. vm_compute in H. discriminate.
Qed.

(** *** Repairing twice *)

Lemma has_one_reaches n a : has_one n a <-> reaches_one n a = true.
Proof.
  rewrite reaches_one_true. unfold has_one.
  split; intros (i & Hi & H); exists i; (split; [exact Hi|]);
    now apply near_one_in_tolerance.
Qed.

(** A table whose two arrays reach one goes through [fix_ltr] untouched and
    without a message. *)
Lemma fix_ltr_complete ltr :
  has_one (Z.to_nat (num_letters (header ltr))) (middle (singles (data ltr))) ->
  has_one (Z.to_nat (num_letters (header ltr))) (end_ (singles (data ltr))) ->
  fix_ltr ltr = (ltr, []).
Proof.
  intros Hm He. apply has_one_reaches in Hm, He.
  assert (H2 : judged_corrupt 2 ltr = false)
    by (now rewrite judged_corrupt_middle, Hm).
  assert (H1 : judged_corrupt 1 ltr = false)
    by (now rewrite judged_corrupt_end, He).
  assert (H0 : detect ltr = 0) by (apply detect_zero; auto).
  unfold fix_ltr. rewrite H2, H1, H0. reflexivity.
Qed.

Lemma near_one_zero : F32.near_one F32.zero = false.
Proof. reflexivity. Qed.

(** A walk that ends with its accumulator within the tolerance has stored
    it: the repaired array reaches one. *)
Lemma walked_has_one (raw : list F32.f32) :
  in_tolerance (snd (walked raw)) -> has_one (length raw) (fst (walked raw)).
Proof.
  intros H. unfold walked in *.
  destruct (repair_walk_stored raw true F32.zero F32.zero F32.zero)
    as [E|(i & Hi & E)].
  - rewrite E in H. apply near_one_in_tolerance in H.
    rewrite near_one_zero in H. discriminate.
  - exists i. split; [exact Hi | now rewrite E].
Qed.

(** C3 (amended). [fix_ltr] changes nothing in a table whose
    [singles.middle] and [singles.end] each have an entry within
    [[0.9999, 1.0001]]; so repairing twice is the same as repairing once
    whenever the two arrays of the repaired table each have such an entry,
    and this is the case for a well-formed table when every correction that
    the first pass made ended with its accumulator within
    [[0.9999, 1.0001]]. *)
Theorem repair_twice (ltr : ltrfile) :
  let n := Z.to_nat (num_letters (header ltr)) in
  (has_one n (middle (singles (data ltr))) ->
   has_one n (end_ (singles (data ltr))) ->
   fix_ltr ltr = (ltr, [])) /\
  (has_one n (middle (singles (data (repair ltr)))) ->
   has_one n (end_ (singles (data (repair ltr)))) ->
   repair (repair ltr) = repair ltr) /\
  (wf_ltrfile ltr ->
   (judged_corrupt 2 ltr = true ->
    in_tolerance (snd (walked (middle (singles (data ltr)))))) ->
   (judged_corrupt 1 ltr = true ->
    in_tolerance (snd (walked (end_ (singles (data ltr)))))) ->
   repair (repair ltr) = repair ltr).
Proof.
  intros n.
  assert (Hh : Z.to_nat (num_letters (header (repair ltr))) = n)
    by (now rewrite (proj1 (fix_ltr_frame ltr))).
  assert (Htwice : has_one n (middle (singles (data (repair ltr)))) ->
                   has_one n (end_ (singles (data (repair ltr)))) ->
                   repair (repair ltr) = repair ltr).
  { intros Hm He. unfold repair at 1.
    rewrite fix_ltr_complete; [reflexivity | now rewrite Hh | now rewrite Hh]. }
  split; [apply fix_ltr_complete|]. split; [exact Htwice|].
  intros [[_ Hn] ((_ & [Hlm _] & [Hle _]) & _)] Hm He.
  assert (Hn' : n = 28%nat) by (unfold n; rewrite Hn; reflexivity).
  change (Z.to_nat NUM_LETTERS) with 28%nat in Hlm, Hle.
  apply Htwice.
  - rewrite fix_ltr_middle. fold n.
    destruct (judged_corrupt 2 ltr) eqn:E.
    + unfold fix_table. simpl. rewrite Hn', <- Hlm, fix_run_table.
      apply walked_has_one; auto.
    + apply has_one_reaches. rewrite judged_corrupt_middle in E. fold n in E.
      now destruct (reaches_one n _).
  - rewrite fix_ltr_end. fold n.
    destruct (judged_corrupt 1 ltr) eqn:E.
    + unfold fix_table. simpl. rewrite Hn', <- Hle, fix_run_table.
      apply walked_has_one; auto.
    + apply has_one_reaches. rewrite judged_corrupt_end in E. fold n in E.
      now destruct (reaches_one n _).
Qed.

(** On the array with the sums started again after the zero entry the
    correction ends at one, and the repaired table is repaired to itself. *)
Lemma repair_twice_witness :
  wf_ltrfile (table_of restarted complete) /\
  in_tolerance (snd (walked restarted)) /\
  judged_corrupt 1 (table_of restarted complete) = false /\
  repair (repair (table_of restarted complete)) = repair (table_of restarted complete).
Proof.
  assert (Hw : wf_ltrfile (table_of restarted complete))
    by (apply wf_table_of; [apply wf_restarted | apply wf_complete]).
  assert (Ht : in_tolerance (snd (walked restarted)))
    by (apply (proj1 (near_one_in_tolerance _)); vm_compute; reflexivity).
  assert (Hj : judged_corrupt 1 (table_of restarted complete) = false)
    by (vm_compute; reflexivity).
  split; [exact Hw|]. split; [exact Ht|]. split; [exact Hj|].
  pose proof (proj2 (proj2 (repair_twice (table_of restarted complete))) Hw) as HH.
  apply HH.
  - intros _. exact Ht.
  - intros H. rewrite Hj in H. inversion H.
Defined.

(** C3 fails as stated: on 0.25, 0, 0.25 the first pass stores 0.25, 0, 0.5
    (and warns), the second pass stores 0.25, 0, 0.75. *)
Lemma repair_not_idempotent :
  middle (singles (data (repair (table_of short complete))))
  = [f_0_25; F32.zero; f_0_5] ++ replicate 25 F32.zero /\
  middle (singles (data (repair (repair (table_of short complete)))))
  = [f_0_25; F32.zero; f_0_75] ++ replicate 25 F32.zero /\
  repair (repair (table_of short complete)) <> repair (table_of short complete).
Proof.
  assert (H1 : middle (singles (data (repair (table_of short complete))))
               = [f_0_25; F32.zero; f_0_5] ++ replicate 25 F32.zero)
    by (vm_compute; reflexivity).
  assert (H2 : middle (singles (data (repair (repair (table_of short complete)))))
               = [f_0_25; F32.zero; f_0_75] ++ replicate 25 F32.zero)
    by (vm_compute; reflexivity).
  split; [exact H1|]. split; [exact H2|].
  intros H. rewrite H, H1 in H2. apply (f_equal (fun a => elt a 2)) in H2.
  vm_compute in H2. discriminate H2.
Qed.

(** ** The builder: cleaning of a name *)

Lemma clean_loop_spec (rest : list byte) :
  forall seen buf2 log,
    fst (clean_loop seen rest buf2 log)
    = buf2 ++ List.filter valid (map tolower (before_hash rest)) /\
    exists msgs,
      snd (clean_loop seen rest buf2 log) = log ++ msgs /\
      flat_map invalid_char msgs
      = List.filter (fun c => negb (valid c)) (map tolower (before_hash rest)) /\
      length msgs
      = length (List.filter (fun c => negb (valid c)) (map tolower (before_hash rest))).
Proof.
  induction rest as [|r rest IH]; intros seen buf2 log; simpl.
  - rewrite app_nil_r. split; [reflexivity|]. exists []. now rewrite app_nil_r.
  - destruct (Byte.eqb r x23); simpl.
    + rewrite app_nil_r. split; [reflexivity|]. exists []. now rewrite app_nil_r.
    + assert (Hv : (idx (tolower r) =? -1) = negb (valid (tolower r)))
        by (unfold valid; now rewrite negb_involutive).
      rewrite Hv. destruct (valid (tolower r)); simpl.
      * destruct (IH (seen ++ [tolower r]) (buf2 ++ [tolower r]) log)
          as [H1 (msgs & H2 & H3 & H4)].
        rewrite H1, <- app_assoc. split; [reflexivity|].
        exists msgs. auto.
      * destruct (IH (seen ++ [tolower r]) buf2
                     (log ++ [Invalid_character (tolower r) (seen ++ tolower r :: rest)]))
          as [H1 (msgs & H2 & H3 & H4)].
        split; [exact H1|].
        exists (Invalid_character (tolower r) (seen ++ tolower r :: rest) :: msgs).
        rewrite H2, <- app_assoc. simpl. rewrite H3, H4. auto.
Qed.







(** ** The builder: the middle counts *)

Lemma middles_on_singles_start f d :
  middles (on_singles (on_start f) d) = middles d.
Proof. reflexivity. Qed.

Lemma middles_on_singles_end f d :
  middles (on_singles (on_end f) d) = middles d.
Proof. reflexivity. Qed.

Lemma map_alter_same {A B} (g : A -> B) (f : A -> A) i (l : list A) :
  (forall x, g (f x) = g x) -> map g (alter f i l) = map g l.
Proof.
  intros H. revert i. induction l as [|x l IH]; intros [|i]; simpl;
    try reflexivity; [now rewrite H | f_equal; apply IH].
Qed.

Lemma map_alter_comm {A B} (g : A -> B) (f : A -> A) (h : B -> B) i (l : list A) :
  (forall x, g (f x) = h (g x)) -> map g (alter f i l) = alter h i (map g l).
Proof.
  intros H. revert i. induction l as [|x l IH]; intros [|i]; simpl;
    try reflexivity; [now rewrite H | f_equal; apply IH].
Qed.

Lemma middles_on_doubles_other i f d :
  (forall c, middle (f c) = middle c) ->
  middles (on_doubles i f d) = middles d.
Proof.
  intros H. unfold middles, on_doubles. simpl. now rewrite map_alter_same.
Qed.

Lemma middles_on_triples_other i j f d :
  (forall c, middle (f c) = middle c) ->
  middles (on_triples i j f d) = middles d.
Proof.
  intros H. unfold middles, on_triples. simpl.
  rewrite map_alter_same; [reflexivity|].
  intros row. now apply map_alter_same.
Qed.

(** The start and end windows leave the middle arrays alone. *)
Lemma middles_count3_start c0 c1 c2 d :
  middles (count3 on_start c0 c1 c2 d) = middles d.
Proof.
  unfold count3.
  rewrite middles_on_triples_other, middles_on_doubles_other by reflexivity.
  reflexivity.
Qed.

(** A middle window counts once in each of the three middle arrays. *)
Lemma middles_count3_middle c0 c1 c2 d :
  middles (count3 on_middle c0 c1 c2 d) = count3_arrays c0 c1 c2 (middles d).
Proof.
  unfold count3, middles, count3_arrays, on_triples, on_doubles, on_singles. simpl.
  f_equal; [f_equal|].
  - now apply map_alter_comm.
  - apply map_alter_comm. intros row. now apply map_alter_comm.
Qed.

Lemma middle_loop_windows (buf2 : list byte) (q : Z) (k : nat) :
  forall (fuel : nat) (p : Z) (d : ltrdata),
    0 <= p -> p + 1 + Z.of_nat k = q - 2 -> (k < fuel)%nat ->
    middles (middle_loop fuel buf2 p q d)
    = fold_left (fun m c => let '(c0, c1, c2) := window_at buf2 c in
                            count3_arrays c0 c1 c2 m)
                (seq (Z.to_nat p + 2) k) (middles d).
Proof.
  induction k as [|k IH]; intros fuel p d Hp Hq Hf;
    (destruct fuel as [|fuel]; [lia|]); simpl.
  - replace (p + 1 =? q - 2) with true by (symmetry; apply Z.eqb_eq; lia).
    reflexivity.
  - replace (p + 1 =? q - 2) with false by (symmetry; apply Z.eqb_neq; lia).
    rewrite IH by lia.
    rewrite middles_count3_middle.
    replace (Z.to_nat (p + 1) + 2)%nat with (S (Z.to_nat p + 2)) by lia.
    f_equal. unfold window_at.
    replace (Z.of_nat (Z.to_nat p + 2) - 1) with (p + 1) by lia.
    replace (Z.of_nat (Z.to_nat p + 2)) with (p + 1 + 1) by lia.
    replace (p + 1 + 1 + 1) with (p + 1 + 2) by lia.
    reflexivity.
Qed.

(** The middle arrays after a name: one occurrence of each window whose
    middle character is at a position other than the first two and the last
    two. *)
Lemma middles_count_name (w : list byte) (d : ltrdata) :
  (3 <= length w)%nat ->
  middles (count_name w d)
  = fold_left (fun m c => let '(c0, c1, c2) := window_at w c in
                          count3_arrays c0 c1 c2 m)
              (inner_positions (length w)) (middles d) /\
  (forall c, In c (inner_positions (length w)) <-> (2 <= c /\ c + 3 <= length w)%nat) /\
  (length w = 3%nat -> middles (count_name w d) = middles d).
Proof.
  intros Hn.
  assert (Hend : forall x y z d',
             middles (on_triples x y (on_end (incr z))
                        (on_doubles y (on_end (incr z))
                           (on_singles (on_end (incr z)) d'))) = middles d').
  { intros. rewrite middles_on_triples_other, middles_on_doubles_other by reflexivity.
    reflexivity. }
  assert (Hmain : middles (count_name w d)
            = fold_left (fun m c => let '(c0, c1, c2) := window_at w c in
                                    count3_arrays c0 c1 c2 m)
                        (inner_positions (length w)) (middles d)).
  { unfold count_name, inner_positions.
    destruct (Z.of_nat (length w) - 1 - 0 =? 2) eqn:E.
    - apply Z.eqb_eq in E. replace (length w - 4)%nat with O by lia.
      simpl. now rewrite Hend, middles_count3_start.
    - apply Z.eqb_neq in E.
      rewrite (middle_loop_windows w _ (length w - 4)) by lia.
      now rewrite Hend, middles_count3_start. }
  split; [exact Hmain|]. split.
  - intros c. unfold inner_positions. rewrite in_seq. lia.
  - intros H3. rewrite Hmain, H3. reflexivity.
Qed.


(** ** The sampler *)

Lemma scan_from_spec fuel :
  forall i prob a,
    (i <= scan_from i fuel prob a <= i + fuel)%nat /\
    (forall j, (i <= j < scan_from i fuel prob a)%nat -> F32.lt prob (elt a j) = false) /\
    ((scan_from i fuel prob a < i + fuel)%nat ->
     F32.lt prob (elt a (scan_from i fuel prob a)) = true).
Proof.
  induction fuel as [|fuel IH]; intros i prob a; simpl.
  - split; [lia|]. split; intros; lia.
  - destruct (F32.lt prob (elt a i)) eqn:E.
    + split; [lia|]. split; [intros; lia | auto].
    + destruct (IH (S i) prob a) as (H1 & H2 & H3).
      split; [lia|]. split.
      * intros j Hj. destruct (decide (j = i)) as [->|]; [exact E|].
        apply H2. lia.
      * intros H. apply H3. lia.
Qed.

(** The scan stops at the first index whose entry exceeds [prob], and runs
    to [n] exactly when there is none. *)
Lemma scan_first n prob a i :
  first_over n prob a i <-> (scan n prob a = i /\ (i < n)%nat).
Proof.
  unfold first_over, scan.
  destruct (scan_from_spec n 0 prob a) as (H1 & H2 & H3). simpl in *.
  split.
  - intros (Hi & Ht & Hf). split; [|exact Hi].
    destruct (lt_eq_lt_dec (scan_from 0 n prob a) i) as [[H|H]|H]; [|exact H|].
    + rewrite Hf in H3 by lia. specialize (H3 ltac:(lia)). discriminate.
    + rewrite H2 in Ht by lia. discriminate.
  - intros [<- Hi]. repeat split; [exact Hi | auto | intros; apply H2; lia].
Qed.

Lemma scan_none n prob a : none_over n prob a <-> scan n prob a = n.
Proof.
  unfold none_over, scan.
  destruct (scan_from_spec n 0 prob a) as (H1 & H2 & H3). simpl in *.
  split.
  - intros H. destruct (decide (scan_from 0 n prob a = n)) as [|Hne]; [assumption|].
    specialize (H3 ltac:(lia)). rewrite H in H3 by lia. discriminate.
  - intros E i Hi. apply H2. lia.
Qed.

Lemma scan_le n prob a : (scan n prob a <= n)%nat.
Proof. destruct (scan_from_spec n 0 prob a) as (H1 & _). simpl in H1. unfold scan. lia. Qed.


Lemma first_over_unique n prob a i j :
  first_over n prob a i -> first_over n prob a j -> i = j.
Proof. intros Hi Hj. apply scan_first in Hi, Hj. destruct Hi, Hj. congruence. Qed.

Lemma first_over_not_none n prob a i :
  first_over n prob a i -> ~ none_over n prob a.
Proof.
  intros Hi Hn. apply scan_first in Hi. apply scan_none in Hn.
  destruct Hi. lia.
Qed.

Lemma capitalize_length s : length (capitalize s) = length s.
Proof. destruct s; reflexivity. Qed.

Section SamplerFacts.

Variable RAND_MAX : Z.
Variable ltr : ltrfile.

Let n := Z.to_nat (num_letters (header ltr)).


Lemma extend_no_end w r1 r2 rng :
  Z.of_nat (length (name w)) < Z.rem r2 12 \/
  none_over n (nrand RAND_MAX r1) (end_ (context ltr w)) ->
  extend RAND_MAX ltr w (r1 :: r2 :: rng)
  = let prob := nrand RAND_MAX r1 in
    let len := Z.of_nat (length (name w)) in
    let i := scan n prob (middle (context ltr w)) in
    if (i <? n)%nat then
      if len <? NAMEBUF_SIZE
      then Some (Continue (Build_walk (name w ++ [letters !!! i]) (attempts w)), rng)
      else Some (Done Buffer_overflow, rng)
    else if len - 1 <? 3 then Some (Again, rng)
    else if attempts w + 1 >? 100 then Some (Again, rng)
    else Some (Continue (Build_walk (removelast (name w)) (attempts w + 1)), rng).
Proof.
  intros H. unfold extend. fold n. fold (context ltr w).
  assert (E : Nat.ltb (if Z.rem r2 12 <=? Z.of_nat (length (name w))
                       then scan n (nrand RAND_MAX r1) (end_ (context ltr w))
                       else n) n = false).
  { apply Nat.ltb_ge. destruct H as [H|H].
    - replace (Z.rem r2 12 <=? Z.of_nat (length (name w))) with false
        by (symmetry; apply Z.leb_gt; exact H). lia.
    - apply scan_none in H. rewrite H. destruct (_ <=? _); lia. }
  rewrite E. reflexivity.
Qed.

Lemma extend_middle w r1 r2 rng i :
  Z.of_nat (length (name w)) < Z.rem r2 12 \/
  none_over n (nrand RAND_MAX r1) (end_ (context ltr w)) ->
  first_over n (nrand RAND_MAX r1) (middle (context ltr w)) i ->
  extend RAND_MAX ltr w (r1 :: r2 :: rng)
  = Some (if Z.of_nat (length (name w)) <? NAMEBUF_SIZE
          then Continue (Build_walk (name w ++ [letters !!! i]) (attempts w))
          else Done Buffer_overflow, rng).
Proof.
  intros H Hi. rewrite extend_no_end by exact H. cbv zeta.
  apply scan_first in Hi. destruct Hi as [Hs Hi]. rewrite Hs.
  replace (i <? n)%nat with true by (symmetry; apply Nat.ltb_lt; exact Hi).
  destruct (_ <? NAMEBUF_SIZE); reflexivity.
Qed.


Lemma length_removelast {A} (l : list A) : length (removelast l) = (length l - 1)%nat.
Proof.
  induction l as [|x [|y l] IH]; try reflexivity.
  change (removelast (x :: y :: l)) with (x :: removelast (y :: l)).
  simpl length in *. rewrite IH. lia.
Qed.

(** What a round makes of a walk of at least three letters. *)
Lemma extend_result w rng res rng' :
  (3 <= length (name w))%nat ->
  extend RAND_MAX ltr w rng = Some (res, rng') ->
  match res with
  | Again => True
  | Continue w' => (3 <= length (name w'))%nat
  | Done (Returned s) => (4 <= length s <= 255)%nat
  | Done Buffer_overflow => True
  end.
Proof.
  intros Hw. unfold extend, NAMEBUF_SIZE.
  destruct rng as [|r1 [|r2 rng]]; try discriminate.
  repeat match goal with
         | |- context [if ?b then _ else _] => destruct b eqn:?
         end; intros [= <- <-]; try exact I;
    repeat match goal with
           | H : (_ <? _) = true |- _ => apply Z.ltb_lt in H
           | H : (_ <? _) = false |- _ => apply Z.ltb_ge in H
           end;
    cbn [name];
    rewrite ?capitalize_length, ?length_app, ?length_removelast; simpl; lia.
Qed.

Lemma first_letters_result rng res rng' :
  first_letters RAND_MAX ltr rng = Some (res, rng') ->
  res = Again \/
  exists w, res = Continue w /\ length (name w) = 3%nat /\ attempts w = 0.
Proof.
  unfold first_letters.
  destruct rng as [|r1 rng]; [discriminate|].
  destruct (_ =? _)%nat; [intros [= <- <-]; now left|].
  destruct rng as [|r2 rng]; [discriminate|].
  destruct (_ =? _)%nat; [intros [= <- <-]; now left|].
  destruct rng as [|r3 rng]; [discriminate|].
  destruct (_ =? _)%nat; [intros [= <- <-]; now left|].
  intros [= <- <-]. right. eexists. split; [reflexivity|]. split; reflexivity.
Qed.

(** Whatever [random_name] returns came out of a round of the loop on a
    walk of at least three letters. *)
Lemma run_returned fuel :
  forall w rng s rng',
    (forall w', w = Some w' -> (3 <= length (name w'))%nat) ->
    run RAND_MAX ltr fuel w rng = Some (Returned s, rng') ->
    (4 <= length s <= 255)%nat.
Proof.
  induction fuel as [|fuel IH]; intros w rng s rng' Hw; simpl; [discriminate|].
  destruct w as [w|].
  - destruct (extend RAND_MAX ltr w rng) as [[res rng1]|] eqn:E; [|discriminate].
    apply extend_result in E; [|now apply Hw].
    destruct res as [|w1|[s1|]].
    + apply IH. intros ? [=].
    + apply IH. intros ? [= <-]. exact E.
    + intros [= <- <-]. exact E.
    + discriminate.
  - destruct (first_letters RAND_MAX ltr rng) as [[res rng1]|] eqn:E; [|discriminate].
    apply first_letters_result in E.
    destruct E as [->|(w1 & -> & Hl & _)].
    + apply IH. intros ? [=].
    + apply IH. intros ? [= <-]. lia.
Qed.

End SamplerFacts.



(** Every round takes at least one draw, so the fuel that [random_name]
    gives to the loop never runs out before the draws do. *)
Lemma extend_consumes RAND_MAX ltr w rng res rng' :
  extend RAND_MAX ltr w rng = Some (res, rng') ->
  (length rng' < length rng)%nat.
Proof.
  unfold extend. destruct rng as [|r1 [|r2 rng]]; try discriminate.
  repeat match goal with
         | |- context [if ?b then _ else _] => destruct b
         end; intros [= _ <-]; simpl; lia.
Qed.

Lemma first_letters_consumes RAND_MAX ltr rng res rng' :
  first_letters RAND_MAX ltr rng = Some (res, rng') ->
  (length rng' < length rng)%nat.
Proof.
  unfold first_letters.
  destruct rng as [|r1 rng]; [discriminate|].
  destruct (_ =? _)%nat; [intros [= _ <-]; simpl; lia|].
  destruct rng as [|r2 rng]; [discriminate|].
  destruct (_ =? _)%nat; [intros [= _ <-]; simpl; lia|].
  destruct rng as [|r3 rng]; [discriminate|].
  destruct (_ =? _)%nat; intros [= _ <-]; simpl; lia.
Qed.

Lemma run_fuel_enough RAND_MAX ltr fuel1 :
  forall fuel2 w rng,
    (length rng < fuel1)%nat -> (length rng < fuel2)%nat ->
    run RAND_MAX ltr fuel1 w rng = run RAND_MAX ltr fuel2 w rng.
Proof.
  induction fuel1 as [|fuel1 IH]; intros fuel2 w rng H1 H2; [lia|].
  destruct fuel2 as [|fuel2]; [lia|]. simpl.
  destruct w as [w|].
  - destruct (extend RAND_MAX ltr w rng) as [[res rng1]|] eqn:E; [|reflexivity].
    apply extend_consumes in E.
    destruct res as [|w1|o]; [apply IH; lia | apply IH; lia | reflexivity].
  - destruct (first_letters RAND_MAX ltr rng) as [[res rng1]|] eqn:E; [|reflexivity].
    apply first_letters_consumes in E.
    destruct res as [|w1|o]; [apply IH; lia | apply IH; lia | reflexivity].
Qed.


(** C10. Every name that [random_name] returns has at least 4 letters,
    never exactly 3 (and at most 255, the room of [namebuf]): the three
    scans of the start arrays place three letters before the loop is
    entered, the loop keeps at least three, and the only return appends one
    more. *)
Theorem returned_length (RAND_MAX : Z) (ltr : ltrfile) (draws : list Z)
    (s : list byte) (rng' : list Z) :
  random_name RAND_MAX ltr draws = Some (Returned s, rng') ->
  (4 <= length s)%nat /\ length s <> 3%nat /\ (length s <= 255)%nat.
Proof.
  intros H. unfold random_name in H.
  apply run_returned in H; [lia|]. intros ? [=].
Qed.

Lemma returned_length_witness :
  random_name RAND_MAX_glibc table_anna [0; 0; 0; 0; 0]
  = Some (Returned [x41; x6e; x6e; x61], []) /\
  (4 <= length [x41; x6e; x6e; x61])%nat.
Proof.
  assert (Hr : random_name RAND_MAX_glibc table_anna [0; 0; 0; 0; 0]
               = Some (Returned [x41; x6e; x6e; x61], []))
    by (vm_compute; reflexivity).
  split; [exact Hr|].
  exact (proj1 (returned_length _ _ _ _ _ Hr)).
Defined.

(** * Built tables: the cumulative distributions *)

(** ** Rounding in [SpecFloat] *)

Lemma digits_bounds (p : positive) :
  2 ^ (Z.pos (digits2_pos p) - 1) <= Z.pos p < 2 ^ Z.pos (digits2_pos p).
Proof.
  induction p as [p IH|p IH|]; simpl digits2_pos;
    rewrite ?Pos2Z.inj_succ; [| |simpl; lia].
  - replace (Z.succ (Z.pos (digits2_pos p)) - 1) with (Z.succ (Z.pos (digits2_pos p) - 1)) by lia.
    rewrite !Z.pow_succ_r by lia. lia.
  - replace (Z.succ (Z.pos (digits2_pos p)) - 1) with (Z.succ (Z.pos (digits2_pos p) - 1)) by lia.
    rewrite !Z.pow_succ_r by lia. lia.
Qed.

Lemma digits_unique (p : positive) (k : Z) :
  2 ^ (k - 1) <= Z.pos p < 2 ^ k -> Z.pos (digits2_pos p) = k.
Proof.
  intros [Hl Hu]. pose proof (digits_bounds p) as [Dl Du].
  destruct (Z.lt_trichotomy (Z.pos (digits2_pos p)) k) as [H|[H|H]]; [|exact H|].
  - assert (2 ^ Z.pos (digits2_pos p) <= 2 ^ (k - 1)) by (apply Z.pow_le_mono_r; lia).
    lia.
  - assert (0 <= k).
    { destruct (Z_lt_le_dec k 0) as [Hk|Hk]; [|exact Hk].
      rewrite (Z.pow_neg_r 2 k Hk) in Hu. lia. }
    assert (2 ^ k <= 2 ^ (Z.pos (digits2_pos p) - 1)) by (apply Z.pow_le_mono_r; lia).
    lia.
Qed.

Lemma iter_pos_nat {A} (f : A -> A) (n : positive) (x : A) :
  SpecFloat.iter_pos f n x = Nat.iter (Pos.to_nat n) f x.
Proof.
  revert x. induction n as [n IH|n IH|]; intros x; simpl SpecFloat.iter_pos.
  - rewrite !IH, <- Nat.iter_succ_r, <- Nat.iter_add. f_equal.
    rewrite Pos2Nat.inj_xI. lia.
  - rewrite !IH, <- Nat.iter_add. f_equal. rewrite Pos2Nat.inj_xO. lia.
  - reflexivity.
Qed.

Lemma shr_1_m (mrs : shr_record) :
  0 <= shr_m mrs -> shr_m (shr_1 mrs) = shr_m mrs / 2 /\ 0 <= shr_m (shr_1 mrs).
Proof.
  destruct mrs as [m r s]. cbn [shr_m]. intros Hm.
  destruct m as [|[p|p|]|p]; cbn [shr_1 shr_m]; try lia;
    (split; [|lia]); try reflexivity.
  - rewrite Pos2Z.inj_xI. apply (Z.div_unique_pos _ _ _ 1); lia.
  - rewrite Pos2Z.inj_xO. apply (Z.div_unique_pos _ _ _ 0); lia.
Qed.

Lemma shr_1_exact (mrs : shr_record) :
  0 <= shr_m mrs -> shr_r mrs = false -> shr_s mrs = false ->
  shr_m mrs mod 2 = 0 ->
  shr_r (shr_1 mrs) = false /\ shr_s (shr_1 mrs) = false.
Proof.
  destruct mrs as [m r s]. cbn [shr_m shr_r shr_s]. intros Hm -> ->.
  destruct m as [|[p|p|]|p]; cbn [shr_1 shr_r shr_s orb]; try lia; auto.
  - rewrite Pos2Z.inj_xI. intros H. exfalso.
    replace (2 * Z.pos p + 1) with (1 + Z.pos p * 2) in H by lia.
    rewrite Z.mod_add in H by lia. discriminate.
  - intros H. discriminate.
Qed.

Lemma iter_shr_m (k : nat) (mrs : shr_record) :
  0 <= shr_m mrs ->
  shr_m (Nat.iter k shr_1 mrs) = shr_m mrs / 2 ^ Z.of_nat k /\
  0 <= shr_m (Nat.iter k shr_1 mrs).
Proof.
  intros Hm. induction k as [|k [IH1 IH2]].
  - simpl. rewrite Z.div_1_r. auto.
  - rewrite Nat2Z.inj_succ, Z.pow_succ_r by lia. simpl Nat.iter.
    destruct (shr_1_m _ IH2) as [H1 H2]. split; [|exact H2].
    rewrite H1, IH1, Z.div_div by lia. f_equal. lia.
Qed.

Lemma iter_shr_exact (k : nat) (mrs : shr_record) :
  0 <= shr_m mrs -> shr_r mrs = false -> shr_s mrs = false ->
  shr_m mrs mod 2 ^ Z.of_nat k = 0 ->
  shr_r (Nat.iter k shr_1 mrs) = false /\ shr_s (Nat.iter k shr_1 mrs) = false.
Proof.
  intros Hm Hr Hs. induction k as [|k IH]; intros Hk; [simpl; auto|].
  rewrite Nat2Z.inj_succ, Z.pow_succ_r in Hk by lia.
  assert (Hpow : 0 < 2 ^ Z.of_nat k) by (apply Z.pow_pos_nonneg; lia).
  assert (Hk' : shr_m mrs mod 2 ^ Z.of_nat k = 0).
  { apply Z.mod_divide in Hk; [|lia]. destruct Hk as [c Hc].
    apply Z.mod_divide; [lia|]. exists (c * 2). lia. }
  destruct (IH Hk') as [IHr IHs].
  destruct (iter_shr_m k mrs Hm) as [Hmk Hpos].
  simpl Nat.iter. apply shr_1_exact; auto.
  rewrite Hmk.
  apply Z.mod_divide in Hk; [|lia]. destruct Hk as [c Hc].
  rewrite Hc. replace (c * (2 * 2 ^ Z.of_nat k)) with (c * 2 * 2 ^ Z.of_nat k) by lia.
  rewrite Z.div_mul by lia. replace (c * 2) with (0 + c * 2) by lia.
  now rewrite Z.mod_add by lia.
Qed.

Lemma round_nearest_even_cases (m : Z) (l : location) :
  round_nearest_even m l = m \/ round_nearest_even m l = m + 1.
Proof.
  destruct l as [|[]]; simpl; auto. destruct (Z.even m); auto.
Qed.

Lemma shr_record_of_loc_m m l : shr_m (shr_record_of_loc m l) = m.
Proof. destruct l as [|[]]; reflexivity. Qed.

Lemma shr_spec (mrs : shr_record) (e n : Z) :
  0 <= n -> 0 <= shr_m mrs ->
  snd (shr mrs e n) = e + n /\
  shr_m (fst (shr mrs e n)) = shr_m mrs / 2 ^ n /\
  (shr_r mrs = false -> shr_s mrs = false -> shr_m mrs mod 2 ^ n = 0 ->
   loc_of_shr_record (fst (shr mrs e n)) = loc_Exact).
Proof.
  intros Hn Hm. unfold shr. destruct n as [|p|p]; [| |lia].
  - simpl. rewrite Z.add_0_r, Z.div_1_r. repeat split.
    intros Hr Hs _. destruct mrs as [m r s]. simpl in *. now subst.
  - cbn [fst snd]. rewrite iter_pos_nat.
    destruct (iter_shr_m (Pos.to_nat p) mrs Hm) as [H1 _].
    rewrite positive_nat_Z in H1. repeat split; [exact H1|].
    intros Hr Hs Hmod.
    destruct (iter_shr_exact (Pos.to_nat p) mrs Hm Hr Hs) as [Hr' Hs'];
      [now rewrite positive_nat_Z|].
    destruct (Nat.iter _ _ _) as [m' r' s']. simpl in *. now subst.
Qed.

Section Round.

Variables prec emax : Z.
Hypothesis Hprec : 0 < prec.

Lemma fexp_normal (k : Z) :
  3 - emax - prec <= k - prec -> fexp prec emax k = k - prec.
Proof. unfold fexp, emin. lia. Qed.

(** Rounding of [m * 2^e], m of at least [prec] digits, in the range of the
    normal numbers: the result is a normal number, one of the two
    neighbours of the exact value in the format, and the value itself where
    it fits. *)
Lemma binary_round_aux_spec (m : positive) (e : Z) (loc : location) :
  let d := Z.pos (digits2_pos m) in
  let E := d + e - prec in
  let M := Z.pos m / 2 ^ (d - prec) in
  prec <= d ->
  3 - emax - prec <= E ->
  E + 1 <= emax - prec ->
  exists m2 e2,
    binary_round_aux prec emax false (Z.pos m) e loc = S754_finite false m2 e2 /\
    Z.pos (digits2_pos m2) = prec /\ E <= e2 <= E + 1 /\
    2 ^ (prec - 1) <= M < 2 ^ prec /\
    (Z.pos m2 * 2 ^ (e2 - E) = M \/ Z.pos m2 * 2 ^ (e2 - E) = M + 1) /\
    (loc = loc_Exact -> Z.pos m mod 2 ^ (d - prec) = 0 ->
     Z.pos m2 * 2 ^ (e2 - E) = M).
Proof.
  intros d E M Hd Hmin Hmax.
  pose proof (digits_bounds m) as [Dl Du]. fold d in Dl, Du.
  assert (Hn : 0 <= d - prec) by lia.
  assert (Hpn : 0 < 2 ^ (d - prec)) by (apply Z.pow_pos_nonneg; lia).
  assert (HM : 2 ^ (prec - 1) <= M < 2 ^ prec).
  { unfold M. split.
    - apply Z.div_le_lower_bound; [lia|].
      rewrite <- Z.pow_add_r by lia.
      replace (d - prec + (prec - 1)) with (d - 1) by lia. exact Dl.
    - apply Z.div_lt_upper_bound; [lia|].
      rewrite <- Z.pow_add_r by lia.
      replace (d - prec + prec) with d by lia. exact Du. }
  assert (Hp1 : 0 < 2 ^ (prec - 1)) by (apply Z.pow_pos_nonneg; lia).
  unfold binary_round_aux, shr_fexp.
  change (Zdigits2 (Z.pos m)) with d.
  rewrite (fexp_normal (d + e)) by (fold E; lia).
  replace (d + e - prec - e) with (d - prec) by lia.
  destruct (shr_spec (shr_record_of_loc (Z.pos m) loc) e (d - prec) Hn)
    as (He' & Hm' & Hex'); [rewrite shr_record_of_loc_m; lia|].
  rewrite shr_record_of_loc_m in Hm', Hex'. fold M in Hm'.
  destruct (shr (shr_record_of_loc (Z.pos m) loc) e (d - prec)) as [mrs' e'].
  cbn [fst snd] in He', Hm', Hex'. subst e'.
  replace (e + (d - prec)) with E by (unfold E; lia).
  rewrite Hm'.
  set (r := round_nearest_even M (loc_of_shr_record mrs')).
  assert (Hr : r = M \/ r = M + 1) by apply round_nearest_even_cases.
  assert (Hrex : loc = loc_Exact -> Z.pos m mod 2 ^ (d - prec) = 0 -> r = M).
  { intros -> Hmod. unfold r. rewrite Hex'; auto. }
  clearbody r.
  destruct r as [|pr|pr]; [lia| |lia].
  destruct (Z_lt_le_dec (Z.pos pr) (2 ^ prec)) as [Hlt|Hge].
  - (* no carry *)
    assert (Hdr : Z.pos (digits2_pos pr) = prec) by (apply digits_unique; lia).
    cbn [Zdigits2]. rewrite Hdr.
    rewrite (fexp_normal (prec + E)) by lia.
    replace (prec + E - prec - E) with 0 by lia.
    cbn [shr shr_record_of_loc shr_m].
    replace (E <=? emax - prec) with true by (symmetry; apply Z.leb_le; lia).
    exists pr, E. rewrite Z.sub_diag, Z.pow_0_r, Z.mul_1_r.
    repeat split; try lia; auto.
  - (* the mantissa was rounded up to 2^prec *)
    assert (Hpr : Z.pos pr = 2 ^ prec) by lia.
    assert (Hdr : Z.pos (digits2_pos pr) = prec + 1).
    { apply digits_unique. replace (prec + 1 - 1) with prec by lia.
      rewrite Z.pow_add_r by lia. lia. }
    cbn [Zdigits2]. rewrite Hdr.
    rewrite (fexp_normal (prec + 1 + E)) by lia.
    replace (prec + 1 + E - prec - E) with 1 by lia.
    cbn [shr shr_record_of_loc SpecFloat.iter_pos].
    assert (Hhalf : shr_m (shr_1 {| shr_m := Z.pos pr; shr_r := false; shr_s := false |})
                    = 2 ^ (prec - 1)).
    { destruct (shr_1_m {| shr_m := Z.pos pr; shr_r := false; shr_s := false |})
        as [H _]; [cbn; lia|].
      rewrite H. cbn [shr_m]. rewrite Hpr.
      replace prec with (prec - 1 + 1) at 1 by lia.
      rewrite Z.pow_add_r by lia. now rewrite Z.div_mul by lia. }
    rewrite Hhalf.
    destruct (2 ^ (prec - 1)) as [|ph|ph] eqn:Eh; [lia| |lia].
    replace (E + 1 <=? emax - prec) with true by (symmetry; apply Z.leb_le; lia).
    exists ph, (E + 1).
    replace (E + 1 - E) with 1 by lia.
    assert (Hph : Z.pos ph * 2 ^ 1 = 2 ^ prec).
    { rewrite <- Eh, <- Z.pow_add_r by lia. f_equal. lia. }
    repeat split; try lia; auto.
    + apply digits_unique. rewrite <- Eh.
      split; [lia|]. apply Z.pow_lt_mono_r; lia.
    + intros Hl Hmod. specialize (Hrex Hl Hmod). lia.
Qed.

End Round.

(** ** Values as rationals *)

Lemma pow2_pos (e : Z) : (0 < 2 ^ e)%Q.
Proof. apply Qpower_0_lt. reflexivity. Qed.

Lemma pow2_add (a b : Z) : (2 ^ (a + b) == 2 ^ a * 2 ^ b)%Q.
Proof. apply Qpower_plus. discriminate. Qed.

Lemma pow2_Z (k : Z) : 0 <= k -> (2 ^ k == inject_Z (2 ^ k))%Q.
Proof. intros H. now rewrite Zpower_Qpower. Qed.

Lemma pow2_le (a b : Z) : a <= b -> (2 ^ a <= 2 ^ b)%Q.
Proof. intros H. apply Qpower_le_compat_l; [exact H | discriminate]. Qed.

(** [a * 2^(e+k) = (a * 2^k) * 2^e] *)
Lemma scale_pow2 (a e k : Z) :
  0 <= k -> (inject_Z a * 2 ^ (e + k) == inject_Z (a * 2 ^ k) * 2 ^ e)%Q.
Proof.
  intros Hk. rewrite pow2_add, inject_Z_mult, (pow2_Z k Hk). ring.
Qed.

Lemma scale_le (a b e : Z) :
  a <= b -> (inject_Z a * 2 ^ e <= inject_Z b * 2 ^ e)%Q.
Proof.
  intros H. apply Qmult_le_compat_r; [|apply Qlt_le_weak, pow2_pos].
  now rewrite <- Zle_Qle.
Qed.

Lemma scale_lt (a b e : Z) :
  a < b -> (inject_Z a * 2 ^ e < inject_Z b * 2 ^ e)%Q.
Proof.
  intros H. apply Qmult_lt_compat_r; [apply pow2_pos|].
  now rewrite <- Zlt_Qlt.
Qed.

Lemma scale_inj (a b e : Z) :
  (inject_Z a * 2 ^ e == inject_Z b * 2 ^ e)%Q -> a = b.
Proof.
  intros H. apply inject_Z_injective.
  apply (Qmult_inj_r _ _ (2 ^ e)%Q); [|exact H].
  intros E. pose proof (pow2_pos e) as P. rewrite E in P. discriminate.
Qed.

Lemma SF2Q_pow (m : positive) (e : Z) :
  (F32.SF2Q (S754_finite false m e) == inject_Z (Z.pos m) * 2 ^ e)%Q.
Proof.
  unfold F32.SF2Q. cbn [cond_Zopp]. destruct e as [|p|p].
  - rewrite Z.pow_0_r, Z.mul_1_r. simpl Qpower. ring.
  - rewrite inject_Z_mult, <- (pow2_Z (Z.pos p)) by lia. reflexivity.
  - change (Z.neg p) with (- Z.pos p). rewrite Qpower_opp, (pow2_Z (Z.pos p)) by lia.
    rewrite Qmake_Qdiv. rewrite Pos2Z.inj_pow. reflexivity.
Qed.

Lemma pos_iter_xO (m d : positive) :
  Z.pos (Pos.iter xO m d) = Z.pos m * 2 ^ Z.pos d.
Proof.
  induction d as [|d IH] using Pos.peano_ind.
  - simpl. lia.
  - rewrite Pos.iter_succ, Pos2Z.inj_xO, IH, Pos2Z.inj_succ, Z.pow_succ_r by lia.
    lia.
Qed.

Lemma digits_shift (m : positive) (k : Z) (mz : positive) :
  0 <= k -> Z.pos mz = Z.pos m * 2 ^ k ->
  Z.pos (digits2_pos mz) = Z.pos (digits2_pos m) + k.
Proof.
  intros Hk E. pose proof (digits_bounds m) as [Dl Du].
  assert (0 < 2 ^ k) by (apply Z.pow_pos_nonneg; lia).
  apply digits_unique. rewrite E. split.
  - replace (Z.pos (digits2_pos m) + k - 1) with (Z.pos (digits2_pos m) - 1 + k) by lia.
    rewrite Z.pow_add_r by lia. nia.
  - rewrite Z.pow_add_r by lia. nia.
Qed.

Section RoundQ.

Variables prec emax : Z.
Hypothesis Hprec : 0 < prec.

(** Rounding of the positive number [m * 2^e] to the format, in the range
    of its normal numbers. *)
Lemma binary_round_spec (m : positive) (e : Z) :
  let d := Z.pos (digits2_pos m) in
  let E := d + e - prec in
  3 - emax - prec <= E ->
  E + 1 <= emax - prec ->
  exists m2 e2 M,
    binary_round prec emax false m e = S754_finite false m2 e2 /\
    Z.pos (digits2_pos m2) = prec /\ E <= e2 <= E + 1 /\
    2 ^ (prec - 1) <= M < 2 ^ prec /\
    (inject_Z M * 2 ^ E <= inject_Z (Z.pos m) * 2 ^ e)%Q /\
    (inject_Z (Z.pos m) * 2 ^ e < inject_Z (M + 1) * 2 ^ E)%Q /\
    ((inject_Z (Z.pos m2) * 2 ^ e2 == inject_Z M * 2 ^ E)%Q \/
     (inject_Z (Z.pos m2) * 2 ^ e2 == inject_Z (M + 1) * 2 ^ E)%Q) /\
    ((inject_Z (Z.pos m) * 2 ^ e == inject_Z M * 2 ^ E)%Q ->
     (inject_Z (Z.pos m2) * 2 ^ e2 == inject_Z (Z.pos m) * 2 ^ e)%Q).
Proof.
  intros d E Hmin Hmax. unfold binary_round.
  change (Z.pos (digits2_pos m)) with d.
  rewrite (fexp_normal prec emax (d + e)) by (fold E; lia). fold E.
  assert (Hval : forall m2 e2 K, E <= e2 -> Z.pos m2 * 2 ^ (e2 - E) = K ->
            (inject_Z (Z.pos m2) * 2 ^ e2 == inject_Z K * 2 ^ E)%Q).
  { intros m2 e2 K He2 <-. replace e2 with (E + (e2 - E)) at 1 by lia.
    apply scale_pow2. lia. }
  unfold shl_align. destruct (E - e) as [|p|p] eqn:En.
  - (* E = e *)
    destruct (binary_round_aux_spec prec emax Hprec m e loc_Exact)
      as (m2 & e2 & Hr & Hd2 & He2 & HM & Hv & Hex); fold d; fold E; try lia.
    fold d E in Hr, He2, HM, Hv, Hex.
    replace (d - prec) with 0 in * by lia.
    rewrite Z.pow_0_r, Z.div_1_r in *.
    assert (Hx : (inject_Z (Z.pos m) * 2 ^ e == inject_Z (Z.pos m) * 2 ^ E)%Q)
      by (replace e with E by lia; reflexivity).
    exists m2, e2, (Z.pos m). rewrite Hr.
    repeat split; try lia.
    + rewrite Hx. apply Qle_refl.
    + rewrite Hx. apply scale_lt. lia.
    + left. apply Hval; [lia|]. apply Hex; [reflexivity | apply Z.mod_1_r].
    + intros _. rewrite Hx. apply Hval; [lia|].
      apply Hex; [reflexivity | apply Z.mod_1_r].
  - (* E > e: the mantissa is rounded *)
    destruct (binary_round_aux_spec prec emax Hprec m e loc_Exact)
      as (m2 & e2 & Hr & Hd2 & He2 & HM & Hv & Hex); fold d; fold E; try lia.
    fold d E in Hr, He2, HM, Hv, Hex.
    replace (d - prec) with (E - e) in * by lia.
    assert (Hn : 0 < 2 ^ (E - e)) by (apply Z.pow_pos_nonneg; lia).
    set (M := Z.pos m / 2 ^ (E - e)) in *.
    assert (Hdiv : M * 2 ^ (E - e) <= Z.pos m < (M + 1) * 2 ^ (E - e)).
    { unfold M. pose proof (Z.mul_div_le (Z.pos m) _ Hn).
      pose proof (Z.mul_succ_div_gt (Z.pos m) _ Hn). lia. }
    assert (HE : forall K, (inject_Z K * 2 ^ E == inject_Z (K * 2 ^ (E - e)) * 2 ^ e)%Q).
    { intros K. replace E with (e + (E - e)) at 1 by lia. apply scale_pow2. lia. }
    exists m2, e2, M. rewrite Hr.
    repeat split; try lia.
    + rewrite HE. apply scale_le. lia.
    + rewrite HE. apply scale_lt. lia.
    + destruct Hv as [Hv|Hv]; [left | right]; apply Hval; lia.
    + intros Hx. rewrite Hx. apply Hval; [lia|]. apply Hex; [reflexivity|].
      rewrite HE in Hx. apply scale_inj in Hx. rewrite Hx.
      apply Z.mod_mul. lia.
  - (* E < e: the mantissa is shifted left *)
    assert (Hmz : Z.pos (Pos.iter xO m p) = Z.pos m * 2 ^ (e - E)).
    { rewrite pos_iter_xO. f_equal. f_equal. lia. }
    set (mz := Pos.iter xO m p) in *.
    assert (Hdz : Z.pos (digits2_pos mz) = prec).
    { rewrite (digits_shift m (e - E) mz) by (lia || assumption). fold d. lia. }
    destruct (binary_round_aux_spec prec emax Hprec mz E loc_Exact)
      as (m2 & e2 & Hr & Hd2 & He2 & HM & Hv & Hex); rewrite ?Hdz; try lia.
    rewrite Hdz in *.
    replace (prec + E - prec) with E in * by lia.
    replace (prec - prec) with 0 in * by lia.
    rewrite Z.pow_0_r, Z.div_1_r in *.
    assert (Hx : (inject_Z (Z.pos m) * 2 ^ e == inject_Z (Z.pos mz) * 2 ^ E)%Q).
    { replace e with (E + (e - E)) at 1 by lia. rewrite Hmz. apply scale_pow2. lia. }
    exists m2, e2, (Z.pos mz). rewrite Hr.
    repeat split; try lia.
    + rewrite Hx. apply Qle_refl.
    + rewrite Hx. apply scale_lt. lia.
    + left. apply Hval; [lia|]. apply Hex; [reflexivity | apply Z.mod_1_r].
    + intros _. rewrite Hx. apply Hval; [lia|].
      apply Hex; [reflexivity | apply Z.mod_1_r].
Qed.

End RoundQ.

(** The exact case of rounding: a value that is a multiple of the unit in
    the last place comes out unchanged. *)
Lemma binary_round_exact prec emax (Hprec : 0 < prec) (m : positive) (e K : Z) :
  let d := Z.pos (digits2_pos m) in
  let E := d + e - prec in
  3 - emax - prec <= E ->
  E + 1 <= emax - prec ->
  (inject_Z (Z.pos m) * 2 ^ e == inject_Z K * 2 ^ E)%Q ->
  exists m2 e2,
    binary_round prec emax false m e = S754_finite false m2 e2 /\
    Z.pos (digits2_pos m2) = prec /\ E <= e2 <= E + 1 /\
    (inject_Z (Z.pos m2) * 2 ^ e2 == inject_Z (Z.pos m) * 2 ^ e)%Q.
Proof.
  intros d E Hmin Hmax HK.
  destruct (binary_round_spec prec emax Hprec m e Hmin Hmax)
    as (m2 & e2 & M & Hr & Hd & He & HM & Hl & Hu & Hv & Hex).
  fold d E in He, Hl, Hu, Hv, Hex.
  exists m2, e2. repeat split; try assumption; try lia.
  apply Hex. rewrite HK in *.
  assert (K = M); [|now subst].
  destruct (Z.lt_trichotomy K M) as [H|[H|H]]; [|exact H|].
  - apply (scale_lt _ _ E) in H. exfalso. apply (Qlt_not_le _ _ H), Hl.
  - assert (M + 1 <= K) as H' by lia. apply (scale_le _ _ E) in H'.
    exfalso. apply (Qlt_not_le _ _ Hu), H'.
Qed.

(** Two mantissas of [prec] digits with the same value are the same float. *)
Lemma canonical_unique (prec : Z) (m1 m2 : positive) (e1 e2 : Z) :
  Z.pos (digits2_pos m1) = prec -> Z.pos (digits2_pos m2) = prec ->
  (inject_Z (Z.pos m1) * 2 ^ e1 == inject_Z (Z.pos m2) * 2 ^ e2)%Q ->
  m1 = m2 /\ e1 = e2.
Proof.
  assert (Hle : forall a b ea eb,
             Z.pos (digits2_pos a) = prec -> Z.pos (digits2_pos b) = prec ->
             ea <= eb ->
             (inject_Z (Z.pos a) * 2 ^ ea == inject_Z (Z.pos b) * 2 ^ eb)%Q ->
             a = b /\ ea = eb).
  { intros a b ea eb Ha Hb Hle H.
    replace eb with (ea + (eb - ea)) in H by lia.
    rewrite scale_pow2 in H by lia. apply scale_inj in H.
    pose proof (digits_shift b (eb - ea) a ltac:(lia) H) as Hd.
    assert (eb = ea) by lia. subst eb.
    rewrite Z.sub_diag, Z.pow_0_r, Z.mul_1_r in H. split; [congruence | reflexivity]. }
  intros H1 H2 H. destruct (Z_le_gt_dec e1 e2) as [L|L].
  - now apply Hle.
  - destruct (Hle m2 m1 e2 e1 H2 H1 ltac:(lia) ltac:(now symmetry)). auto.
Qed.

(** ** Encoding of normal numbers *)

Lemma dec_enc_normal (m : positive) (e : Z) :
  Z.pos (digits2_pos m) = 24 -> -149 <= e <= 104 ->
  F32.dec (F32.enc (S754_finite false m e)) = S754_finite false m e.
Proof.
  intros Hd He. pose proof (digits_bounds m) as [Dl Du]. rewrite Hd in Dl, Du.
  change (2 ^ (24 - 1)) with 8388608 in Dl. change (2 ^ 24) with 16777216 in Du.
  unfold F32.enc, F32.prec. rewrite Hd, Z.eqb_refl.
  unfold F32.sign_bit. change (2 ^ 8) with 256. change (2 ^ 23) with 8388608.
  rewrite (Z.mod_small (e + 150)) by lia.
  assert (Hfr : Z.pos m mod 8388608 = Z.pos m - 8388608).
  { symmetry. apply (Z.mod_unique_pos _ _ 1); lia. }
  rewrite Hfr.
  set (w := 0 + (e + 150) * 8388608 + (Z.pos m - 8388608)).
  assert (Hw : 0 <= w < 2147483648) by (unfold w; lia).
  unfold F32.dec, F32.sign_field, F32.exp_field, F32.frac_field.
  change (2 ^ 8) with 256. change (2 ^ 23) with 8388608.
  assert (Hs : Z.testbit w 31 = false).
  { apply Z.testbit_false; [lia|]. change (2 ^ 31) with 2147483648.
    rewrite Z.div_small by lia. reflexivity. }
  assert (Hq : w / 8388608 = e + 150).
  { symmetry. apply (Z.div_unique_pos _ _ _ (Z.pos m - 8388608)); unfold w; lia. }
  assert (Hf : w mod 8388608 = Z.pos m - 8388608).
  { symmetry. apply (Z.mod_unique_pos _ _ (e + 150)); unfold w; lia. }
  rewrite Hs, Hq, Hf, (Z.mod_small (e + 150)) by lia.
  replace (e + 150 =? 0) with false by (symmetry; apply Z.eqb_neq; lia).
  replace (e + 150 =? 255) with false by (symmetry; apply Z.eqb_neq; lia).
  replace (Z.pos m - 8388608 + 8388608) with (Z.pos m) by lia.
  f_equal. lia.
Qed.

(** ** Floats of the engine *)

Lemma val_finite w m e :
  F32.dec w = S754_finite false m e -> (val w == inject_Z (Z.pos m) * 2 ^ e)%Q.
Proof. intros H. unfold val. rewrite H. apply SF2Q_pow. Qed.

Lemma normal_pos_enc (m : positive) (e : Z) :
  Z.pos (digits2_pos m) = 24 -> -149 <= e <= 104 ->
  normal_pos (F32.enc (S754_finite false m e)) /\
  (val (F32.enc (S754_finite false m e)) == inject_Z (Z.pos m) * 2 ^ e)%Q.
Proof.
  intros Hd He. pose proof (dec_enc_normal m e Hd He) as H.
  split; [exists m, e; auto | now apply val_finite].
Qed.

Lemma val_pos w : normal_pos w -> (0 < val w)%Q.
Proof.
  intros (m & e & H & _). rewrite (val_finite _ _ _ H).
  apply Qmult_lt_0_compat; [|apply pow2_pos].
  change 0%Q with (inject_Z 0). rewrite <- Zlt_Qlt. lia.
Qed.

(** [(float)k] for a positive [int]. *)
Lemma of_int_spec (k : positive) :
  Z.pos k < 2 ^ 30 ->
  let E := Z.pos (digits2_pos k) - 24 in
  exists m2 e2 M,
    F32.dec (F32.of_int (Z.pos k)) = S754_finite false m2 e2 /\
    Z.pos (digits2_pos m2) = 24 /\ E <= e2 <= E + 1 /\
    2 ^ 23 <= M < 2 ^ 24 /\
    (inject_Z M * 2 ^ E <= inject_Z (Z.pos k))%Q /\
    (inject_Z (Z.pos k) < inject_Z (M + 1) * 2 ^ E)%Q /\
    ((inject_Z (Z.pos m2) * 2 ^ e2 == inject_Z M * 2 ^ E)%Q \/
     (inject_Z (Z.pos m2) * 2 ^ e2 == inject_Z (M + 1) * 2 ^ E)%Q) /\
    ((inject_Z (Z.pos k) == inject_Z M * 2 ^ E)%Q ->
     (inject_Z (Z.pos m2) * 2 ^ e2 == inject_Z (Z.pos k))%Q).
Proof.
  intros Hk E. pose proof (digits_bounds k) as [Dl Du].
  assert (Hd : Z.pos (digits2_pos k) <= 30).
  { destruct (Z_le_gt_dec (Z.pos (digits2_pos k)) 30) as [H|H]; [exact H|].
    assert (2 ^ 30 <= 2 ^ (Z.pos (digits2_pos k) - 1)) by (apply Z.pow_le_mono_r; lia).
    lia. }
  destruct (binary_round_spec 24 128 ltac:(lia) k 0)
    as (m2 & e2 & M & Hr & Hd2 & He & HM & Hl & Hu & Hv & Hex); try lia.
  rewrite Z.add_0_r in *. fold E in He, Hl, Hu, Hv, Hex.
  assert (H1 : (inject_Z (Z.pos k) * 2 ^ 0 == inject_Z (Z.pos k))%Q)
    by (simpl Qpower; ring).
  rewrite H1 in Hl, Hu, Hex.
  exists m2, e2, M. unfold F32.of_int, binary_normalize, F32.prec, F32.emax.
  rewrite Hr, dec_enc_normal by (unfold E in He; lia).
  change (24 - 1) with 23 in HM.
  repeat split; try assumption; try lia.
Qed.

(** A count comes out of the conversion exactly. *)
Lemma of_int_count (k : Z) :
  0 < k <= 2 ^ 24 ->
  exists m e,
    F32.dec (F32.of_int k) = S754_finite false m e /\
    Z.pos (digits2_pos m) = 24 /\ -23 <= e <= 2 /\
    (inject_Z (Z.pos m) * 2 ^ e == inject_Z k)%Q.
Proof.
  intros Hk. destruct k as [|k|k]; try lia.
  destruct (of_int_spec k) as (m2 & e2 & M & Hr & Hd2 & He & HM & Hl & Hu & Hv & Hex);
    [change (2 ^ 24) with 16777216 in Hk; change (2 ^ 30) with 1073741824; lia|].
  pose proof (digits_bounds k) as [Dl Du].
  set (d := Z.pos (digits2_pos k)) in *.
  assert (Hd : 1 <= d <= 25).
  { split; [unfold d; lia|].
    destruct (Z_le_gt_dec d 25) as [H|H]; [exact H|].
    assert (2 ^ 25 <= 2 ^ (d - 1)) by (apply Z.pow_le_mono_r; lia).
    change (2 ^ 24) with 16777216 in Hk. change (2 ^ 25) with 33554432 in *. lia. }
  exists m2, e2. repeat split; try assumption; try lia.
  assert (HK : exists K, (inject_Z (Z.pos k) == inject_Z K * 2 ^ (d - 24))%Q).
  { destruct (Z_le_gt_dec d 24) as [H|H].
    - exists (Z.pos k * 2 ^ (24 - d)).
      rewrite <- (scale_pow2 (Z.pos k) (d - 24) (24 - d)) by lia.
      replace (d - 24 + (24 - d)) with 0 by lia. simpl Qpower. ring.
    - assert (d = 25) by lia.
      assert (Z.pos k = 2 ^ 24).
      { assert (2 ^ 24 <= Z.pos k); [|lia]. replace 24 with (d - 1) by lia. exact Dl. }
      exists (2 ^ 23). replace (d - 24) with 1 by lia.
      rewrite H1. reflexivity. }
  destruct HK as [K HK]. apply Hex. rewrite HK in *.
  assert (K = M); [|now subst].
  destruct (Z.lt_trichotomy K M) as [H|[H|H]]; [|exact H|].
  - apply (scale_lt _ _ (d - 24)) in H. exfalso. apply (Qlt_not_le _ _ H), Hl.
  - assert (M + 1 <= K) as H' by lia. apply (scale_le _ _ (d - 24)) in H'.
    exfalso. apply (Qlt_not_le _ _ Hu), H'.
Qed.

Lemma pow2_scale (e k : Z) : 0 <= k -> (2 ^ (e + k) == inject_Z (2 ^ k) * 2 ^ e)%Q.
Proof. intros Hk. rewrite pow2_add, (pow2_Z k Hk). ring. Qed.

(** The magnitude of [m * 2^e] is [digits m + e]. *)
Lemma magnitude (m : positive) (e : Z) :
  (2 ^ (Z.pos (digits2_pos m) + e - 1) <= inject_Z (Z.pos m) * 2 ^ e)%Q /\
  (inject_Z (Z.pos m) * 2 ^ e < 2 ^ (Z.pos (digits2_pos m) + e))%Q.
Proof.
  pose proof (digits_bounds m) as [Dl Du].
  set (d := Z.pos (digits2_pos m)) in *.
  assert (Hd : 1 <= d) by (unfold d; lia).
  split.
  - replace (d + e - 1) with (e + (d - 1)) by lia.
    rewrite pow2_scale by lia. now apply scale_le.
  - replace (d + e) with (e + d) by lia.
    rewrite pow2_scale by lia. now apply scale_lt.
Qed.

Lemma pow2_lt_inv (a b : Z) : (2 ^ a < 2 ^ b)%Q -> a < b.
Proof.
  intros H. destruct (Z_lt_le_dec a b) as [L|L]; [exact L|].
  exfalso. apply (Qlt_not_le _ _ H). now apply pow2_le.
Qed.

(** Rounding a positive integer of at most [prec] bits (or [2^prec]) is
    exact. *)
Lemma round_int (prec emax : Z) (m : positive) (e n : Z) :
  0 < prec -> prec + 3 <= emax ->
  0 < n <= 2 ^ prec ->
  (inject_Z (Z.pos m) * 2 ^ e == inject_Z n)%Q ->
  exists m2 e2,
    binary_round prec emax false m e = S754_finite false m2 e2 /\
    Z.pos (digits2_pos m2) = prec /\ 1 - prec <= e2 <= 2 /\
    (inject_Z (Z.pos m2) * 2 ^ e2 == inject_Z n)%Q.
Proof.
  intros Hprec Hemax Hn Hv.
  pose proof (magnitude m e) as [Ml Mu]. rewrite Hv in Ml, Mu.
  set (D := Z.pos (digits2_pos m) + e) in *.
  assert (Hn1 : (2 ^ 0 <= inject_Z n)%Q).
  { change (2 ^ 0)%Q with (inject_Z 1). rewrite <- Zle_Qle. lia. }
  assert (Hn2 : (inject_Z n <= 2 ^ prec)%Q).
  { rewrite (pow2_Z prec) by lia. rewrite <- Zle_Qle. lia. }
  assert (HD1 : 0 < D) by (apply pow2_lt_inv; eapply Qle_lt_trans; eassumption).
  assert (HD2 : D - 1 < prec + 1).
  { apply pow2_lt_inv. eapply Qle_lt_trans; [exact Ml|].
    eapply Qle_lt_trans; [exact Hn2|].
    rewrite (pow2_Z prec), (pow2_Z (prec + 1)) by lia. rewrite <- Zlt_Qlt.
    apply Z.pow_lt_mono_r; lia. }
  assert (HK : exists K, (inject_Z n == inject_Z K * 2 ^ (D - prec))%Q).
  { destruct (Z_le_gt_dec D prec) as [H|H].
    - exists (n * 2 ^ (prec - D)).
      rewrite <- (scale_pow2 n (D - prec) (prec - D)) by lia.
      replace (D - prec + (prec - D)) with 0 by lia.
      change (2 ^ 0)%Q with 1%Q. ring.
    - assert (D = prec + 1) by lia.
      assert (n = 2 ^ prec).
      { assert (2 ^ prec <= n); [|lia].
        rewrite Zle_Qle, <- (pow2_Z prec) by lia.
        replace prec with (D - 1) at 1 by lia. exact Ml. }
      exists (2 ^ (prec - 1)). replace (D - prec) with 1 by lia.
      subst n. rewrite <- (pow2_Z prec) by lia.
      replace prec with (1 + (prec - 1)) at 1 by lia.
      apply pow2_scale. lia. }
  destruct HK as [K HK].
  destruct (binary_round_exact prec emax Hprec m e K)
    as (m2 & e2 & Hr & Hd & He & Hval); fold D; try lia.
  { now rewrite Hv. }
  fold D in He.
  exists m2, e2. repeat split; try assumption; try lia.
  now rewrite Hval.
Qed.

Lemma shl_align_fst (m : positive) (e ez : Z) :
  ez <= e -> Z.pos (fst (shl_align m e ez)) = Z.pos m * 2 ^ (e - ez).
Proof.
  intros H. unfold shl_align. destruct (ez - e) as [|p|p] eqn:E; try lia.
  - replace (e - ez) with 0 by lia. simpl. lia.
  - cbn [fst]. rewrite pos_iter_xO. f_equal. f_equal. lia.
Qed.

(** ** Counts *)

Lemma counts_as_zero : counts_as F32.zero 0.
Proof. split; [change (2 ^ 24) with 16777216; lia | reflexivity]. Qed.

Lemma counts_as_dec (w : F32.f32) (k : Z) :
  counts_as w k ->
  (k = 0 /\ F32.dec w = S754_zero false) \/
  (0 < k /\ exists m e,
      F32.dec w = S754_finite false m e /\ Z.pos (digits2_pos m) = 24 /\
      -23 <= e <= 2 /\ (inject_Z (Z.pos m) * 2 ^ e == inject_Z k)%Q).
Proof.
  intros [Hk ->]. destruct (Z.eq_dec k 0) as [->|Hne].
  - left. split; reflexivity.
  - right. split; [lia|].
    destruct (of_int_count k ltac:(lia)) as (m & e & H1 & H2 & H3 & H4).
    exists m, e. auto.
Qed.

(** [(int)x] of a count is the count. *)
Lemma to_int_count (w : F32.f32) (k : Z) : counts_as w k -> F32.to_int w = k.
Proof.
  intros H. apply counts_as_dec in H.
  destruct H as [[-> Hd]|[Hk (m & e & Hd & _ & He & Hv)]];
    unfold F32.to_int; rewrite Hd; [reflexivity|].
  cbn [cond_Zopp]. destruct (Z.leb_spec 0 e) as [L|L].
  - apply (scale_inj _ _ 0). rewrite <- Hv.
    rewrite <- (scale_pow2 (Z.pos m) 0 e) by lia. rewrite Z.add_0_l.
    change (2 ^ 0)%Q with 1%Q. ring.
  - assert (Hm : Z.pos m = k * 2 ^ (- e)).
    { apply (scale_inj _ _ e). rewrite Hv.
      rewrite <- (scale_pow2 k e (- e)) by lia.
      replace (e + - e) with 0 by lia. change (2 ^ 0)%Q with 1%Q. ring. }
    rewrite Hm. apply Z.div_mul.
    assert (0 < 2 ^ (- e)) by (apply Z.pow_pos_nonneg; lia). lia.
Qed.

(** [x > 0.0] on a count. *)
Lemma gt_zero_count (w : F32.f32) (k : Z) :
  counts_as w k -> F32.gt_zero w = (0 <? k).
Proof.
  intros H. apply counts_as_dec in H.
  destruct H as [[-> Hd]|[Hk (m & e & Hd & _)]];
    unfold F32.gt_zero; rewrite Hd; [reflexivity|].
  symmetry. apply Z.ltb_lt in Hk. rewrite Hk. reflexivity.
Qed.

(** [x += 1.0] below [2^24] is exact. *)
Lemma add_one_of_int (k : Z) :
  0 < k < 2 ^ 24 ->
  F32.add_one (F32.of_int k) = F32.of_int (k + 1).
Proof.
  intros Hk.
  destruct (of_int_count k ltac:(lia)) as (m & e & Hd & Hm & He & Hv).
  assert (H24 : 2 ^ 24 < 2 ^ 53) by (apply Z.pow_lt_mono_r; lia).
  destruct (round_int 53 1024 m e k) as (m1 & e1 & Hr1 & Hd1 & He1 & Hv1);
    try lia; [exact Hv|].
  unfold F32.add_one, F32.to_double. rewrite Hd, Hr1.
  unfold SFadd, F32.d_one. cbn [cond_Zopp].
  set (ez := Z.min e1 (-52)).
  set (a := fst (shl_align m1 e1 ez)).
  set (b := fst (shl_align 4503599627370496 (-52) ez)).
  assert (Ha : Z.pos a = Z.pos m1 * 2 ^ (e1 - ez)) by (apply shl_align_fst; lia).
  assert (Hb : Z.pos b = 4503599627370496 * 2 ^ (-52 - ez))
    by (apply shl_align_fst; lia).
  change (Z.pos a + Z.pos b) with (Z.pos (a + b)). cbn [binary_normalize].
  assert (Hsum : (inject_Z (Z.pos (a + b)) * 2 ^ ez == inject_Z (k + 1))%Q).
  { rewrite Pos2Z.inj_add, Ha, Hb, !inject_Z_plus.
    rewrite Qmult_plus_distr_l.
    rewrite <- (scale_pow2 (Z.pos m1) ez (e1 - ez)) by lia.
    rewrite <- (scale_pow2 4503599627370496 ez (-52 - ez)) by lia.
    replace (ez + (e1 - ez)) with e1 by lia.
    replace (ez + (-52 - ez)) with (-52) by lia.
    rewrite Hv1. apply Qplus_comp; [reflexivity|]. reflexivity. }
  destruct (round_int 53 1024 (a + b) ez (k + 1)) as (m2 & e2 & Hr2 & Hd2 & He2 & Hv2);
    try lia; [exact Hsum|].
  rewrite Hr2. unfold F32.of_double.
  destruct (round_int 24 128 m2 e2 (k + 1)) as (m3 & e3 & Hr3 & Hd3 & He3 & Hv3);
    try lia; [exact Hv2|].
  unfold F32.prec, F32.emax. rewrite Hr3.
  destruct (k + 1) as [|k1|k1] eqn:Ek; try lia.
  unfold F32.of_int, binary_normalize, F32.prec, F32.emax.
  destruct (round_int 24 128 k1 0 (Z.pos k1)) as (m4 & e4 & Hr4 & Hd4 & He4 & Hv4);
    try lia; [change (2 ^ 0)%Q with 1%Q; ring|].
  rewrite Hr4.
  destruct (canonical_unique 24 m3 m4 e3 e4 Hd3 Hd4) as [-> ->];
    [now rewrite Hv3, Hv4 | reflexivity].
Qed.

Lemma add_one_count (w : F32.f32) (k : Z) :
  counts_as w k -> counts_as (F32.add_one w) (Z.min (k + 1) (2 ^ 24)).
Proof.
  intros [Hk ->]. split; [lia|].
  destruct (Z.eq_dec k 0) as [->|H0]; [reflexivity|].
  destruct (Z.eq_dec k (2 ^ 24)) as [->|H24]; [vm_compute; reflexivity|].
  rewrite Z.min_l by lia. apply add_one_of_int. lia.
Qed.

(** ** Addition and division of positive normal numbers *)

(** A result that is one of the two neighbours of [x] on a grid of step
    [ulp], above [2^23] steps, is within the relative error [2^-23]. *)
Lemma neighbours (Mq ulp v x : Q) :
  (8388608 * ulp <= Mq)%Q -> (0 < ulp)%Q ->
  (Mq <= x)%Q -> (x < Mq + ulp)%Q ->
  (v == Mq \/ v == Mq + ulp)%Q ->
  (x * (1 - u23) <= v)%Q /\ (v <= x * (1 + u23))%Q /\ (Mq <= v)%Q.
Proof.
  unfold u23. intros H1 H2 H3 H4 [E|E]; repeat split; lra.
Qed.

Lemma scale_lt_inv (a b e : Z) :
  (inject_Z a * 2 ^ e < inject_Z b * 2 ^ e)%Q -> a < b.
Proof.
  intros H. destruct (Z_lt_le_dec a b) as [L|L]; [exact L|].
  exfalso. apply (Qlt_not_le _ _ H). now apply scale_le.
Qed.

(** A number of at most 24 digits below [x] is at most the lower neighbour
    of [x]. *)
Lemma representable_below (m : positive) (e M E : Z) (x : Q) :
  Z.pos m < 2 ^ 24 -> 2 ^ 23 <= M ->
  (inject_Z (Z.pos m) * 2 ^ e <= x)%Q ->
  (x < inject_Z (M + 1) * 2 ^ E)%Q ->
  (inject_Z (Z.pos m) * 2 ^ e <= inject_Z M * 2 ^ E)%Q.
Proof.
  intros Hm HM Hl Hu. destruct (Z_le_gt_dec E e) as [L|L].
  - replace e with (E + (e - E)) in * by lia.
    rewrite scale_pow2 in * by lia.
    apply scale_le. apply Z.lt_succ_r. apply (scale_lt_inv _ _ E).
    eapply Qle_lt_trans; [exact Hl | exact Hu].
  - apply Qle_trans with (inject_Z (2 ^ 24) * 2 ^ e)%Q.
    + apply scale_le. lia.
    + rewrite <- (pow2_scale e 24) by lia.
      apply Qle_trans with (2 ^ (E + 23))%Q; [apply pow2_le; lia|].
      rewrite (pow2_scale E 23) by lia. now apply scale_le.
Qed.

Lemma normal_bounds (m : positive) (e : Z) :
  Z.pos (digits2_pos m) = 24 ->
  (2 ^ (23 + e) <= inject_Z (Z.pos m) * 2 ^ e)%Q /\
  (inject_Z (Z.pos m) * 2 ^ e < 2 ^ (24 + e))%Q.
Proof.
  intros Hd. pose proof (magnitude m e) as [Ml Mu]. rewrite Hd in Ml, Mu.
  replace (24 + e - 1) with (23 + e) in Ml by lia. now split.
Qed.

Lemma add_spec (a b : F32.f32) (m1 m2 : positive) (e1 e2 : Z) :
  F32.dec a = S754_finite false m1 e1 -> Z.pos (digits2_pos m1) = 24 ->
  F32.dec b = S754_finite false m2 e2 -> Z.pos (digits2_pos m2) = 24 ->
  -100 <= e1 <= 70 -> -100 <= e2 <= 70 ->
  (exists m3 e3, F32.dec (F32.add a b) = S754_finite false m3 e3 /\
     Z.pos (digits2_pos m3) = 24 /\ Z.max e1 e2 <= e3 <= Z.max e1 e2 + 2) /\
  ((val a + val b) * (1 - u23) <= val (F32.add a b))%Q /\
  (val (F32.add a b) <= (val a + val b) * (1 + u23))%Q /\
  (val a <= val (F32.add a b))%Q /\ (val b <= val (F32.add a b))%Q.
Proof.
  intros Ha Hd1 Hb Hd2 He1 He2.
  rewrite (val_finite _ _ _ Ha), (val_finite _ _ _ Hb).
  pose proof (normal_bounds m1 e1 Hd1) as [A1 A2].
  pose proof (normal_bounds m2 e2 Hd2) as [B1 B2].
  pose proof (digits_bounds m1) as [_ Dm1]. rewrite Hd1 in Dm1.
  pose proof (digits_bounds m2) as [_ Dm2]. rewrite Hd2 in Dm2.
  set (A := (inject_Z (Z.pos m1) * 2 ^ e1)%Q) in *.
  set (B := (inject_Z (Z.pos m2) * 2 ^ e2)%Q) in *.
  unfold F32.add. rewrite Ha, Hb. unfold SFadd. cbn [cond_Zopp].
  set (ez := Z.min e1 e2).
  set (a' := fst (shl_align m1 e1 ez)).
  set (b' := fst (shl_align m2 e2 ez)).
  assert (Ha' : Z.pos a' = Z.pos m1 * 2 ^ (e1 - ez)) by (apply shl_align_fst; lia).
  assert (Hb' : Z.pos b' = Z.pos m2 * 2 ^ (e2 - ez)) by (apply shl_align_fst; lia).
  change (Z.pos a' + Z.pos b') with (Z.pos (a' + b')). cbn [binary_normalize].
  assert (Hsum : (inject_Z (Z.pos (a' + b')) * 2 ^ ez == A + B)%Q).
  { rewrite Pos2Z.inj_add, Ha', Hb', !inject_Z_plus.
    rewrite Qmult_plus_distr_l.
    rewrite <- (scale_pow2 (Z.pos m1) ez (e1 - ez)) by lia.
    rewrite <- (scale_pow2 (Z.pos m2) ez (e2 - ez)) by lia.
    replace (ez + (e1 - ez)) with e1 by lia.
    replace (ez + (e2 - ez)) with e2 by lia. reflexivity. }
  pose proof (magnitude (a' + b') ez) as [Ml Mu]. rewrite Hsum in Ml, Mu.
  set (d := Z.pos (digits2_pos (a' + b'))) in *.
  pose proof (pow2_pos (23 + e1)) as P1. pose proof (pow2_pos (23 + e2)) as P2.
  assert (L1 : 23 + e1 < d + ez) by (apply pow2_lt_inv; lra).
  assert (L2 : 23 + e2 < d + ez) by (apply pow2_lt_inv; lra).
  assert (L3 : d + ez - 1 < 25 + Z.max e1 e2).
  { apply pow2_lt_inv. eapply Qle_lt_trans; [exact Ml|].
    assert (X1 : (2 ^ (24 + e1) <= 2 ^ (24 + Z.max e1 e2))%Q) by (apply pow2_le; lia).
    assert (X2 : (2 ^ (24 + e2) <= 2 ^ (24 + Z.max e1 e2))%Q) by (apply pow2_le; lia).
    replace (25 + Z.max e1 e2) with (24 + Z.max e1 e2 + 1) by lia.
    rewrite (pow2_add _ 1). change (2 ^ 1)%Q with 2%Q. lra. }
  destruct (binary_round_spec 24 128 ltac:(lia) (a' + b') ez)
    as (m3 & e3 & M & Hr & Hd3 & He3 & HM & Hl & Hu & Hv & _); fold d; try lia.
  fold d in He3, Hl, Hu, Hv. rewrite Hsum in Hl, Hu.
  set (E := d + ez - 24) in *.
  unfold F32.prec, F32.emax. rewrite Hr.
  pose proof (dec_enc_normal m3 e3 Hd3 ltac:(lia)) as Hdec.
  split; [exists m3, e3; repeat split; [exact Hdec | exact Hd3 | lia | lia]|].
  rewrite (val_finite _ _ _ Hdec).
  change (24 - 1) with 23 in HM.
  assert (HM1 : (inject_Z (M + 1) * 2 ^ E == inject_Z M * 2 ^ E + 2 ^ E)%Q)
    by (rewrite inject_Z_plus; ring).
  rewrite HM1 in Hv.
  destruct (neighbours (inject_Z M * 2 ^ E) (2 ^ E) (inject_Z (Z.pos m3) * 2 ^ e3) (A + B))
    as (N1 & N2 & N3).
  - apply (scale_le (2 ^ 23) M E). lia.
  - apply pow2_pos.
  - exact Hl.
  - now rewrite <- HM1.
  - exact Hv.
  - split; [exact N1|]. split; [exact N2|].
    pose proof (pow2_pos (23 + e1)). pose proof (pow2_pos (23 + e2)).
    split; (eapply Qle_trans; [|exact N3]).
    + apply (representable_below m1 e1 M E (A + B)); try lia; [|exact Hu].
      fold A. lra.
    + apply (representable_below m2 e2 M E (A + B)); try lia; [|exact Hu].
      fold B. lra.
Qed.

(** Adding to the zero the running sum starts from. *)
Lemma add_zero_r (a : F32.f32) (m : positive) (e : Z) :
  F32.dec a = S754_finite false m e -> Z.pos (digits2_pos m) = 24 ->
  F32.dec (F32.add a F32.zero) = S754_finite false m e.
Proof.
  intros Ha Hd.
  assert (He : -149 <= e <= 104).
  { exact (proj1 (proj2 (dec_finite a _ _ _ Ha))). }
  unfold F32.add. rewrite Ha. change (F32.dec F32.zero) with (S754_zero false).
  cbn [SFadd]. now apply dec_enc_normal.
Qed.

Lemma in_tolerance_val (w : F32.f32) (m : positive) (e : Z) :
  F32.dec w = S754_finite false m e ->
  (9999 # 10000 <= val w)%Q -> (val w <= 10001 # 10000)%Q -> in_tolerance w.
Proof.
  intros H Hl Hu. unfold in_tolerance, F32.within, F32.value.
  unfold val in Hl, Hu. rewrite H in *. now split.
Qed.

Lemma normal_not_zero (w : F32.f32) : normal_pos w -> w <> F32.zero.
Proof. intros (m & e & H & _) ->. discriminate H. Qed.

Lemma div_spec (a b : F32.f32) (m1 m2 : positive) (e1 e2 : Z) :
  F32.dec a = S754_finite false m1 e1 -> Z.pos (digits2_pos m1) = 24 ->
  F32.dec b = S754_finite false m2 e2 -> Z.pos (digits2_pos m2) = 24 ->
  -100 <= e1 - e2 <= 100 ->
  (exists m3 e3, F32.dec (F32.div a b) = S754_finite false m3 e3 /\
     Z.pos (digits2_pos m3) = 24 /\ e1 - e2 - 24 <= e3 <= e1 - e2 - 22) /\
  (val a * (1 - u23) <= val (F32.div a b) * val b)%Q /\
  (val (F32.div a b) * val b <= val a * (1 + u23))%Q.
Proof.
  intros Ha Hd1 Hb Hd2 He.
  rewrite (val_finite _ _ _ Ha), (val_finite _ _ _ Hb).
  pose proof (digits_bounds m1) as [Dl1 Du1]. rewrite Hd1 in Dl1, Du1.
  pose proof (digits_bounds m2) as [Dl2 Du2]. rewrite Hd2 in Dl2, Du2.
  change (2 ^ (24 - 1)) with 8388608 in *. change (2 ^ 24) with 16777216 in *.
  unfold F32.div. rewrite Ha, Hb. unfold SFdiv, SFdiv_core_binary.
  cbn [xorb Zdigits2]. rewrite Hd1, Hd2.
  unfold F32.prec, F32.emax.
  rewrite (fexp_normal 24 128) by lia.
  replace (Z.min (24 + e1 - (24 + e2) - 24) (e1 - e2)) with (e1 - e2 - 24) by lia.
  replace (e1 - e2 - (e1 - e2 - 24)) with 24 by lia.
  cbv iota. rewrite Z.shiftl_mul_pow2 by lia.
  change (2 ^ 24) with 16777216.
  set (e' := e1 - e2 - 24).
  pose proof (Z_div_mod_eq_full (Z.pos m1 * 16777216) (Z.pos m2)) as Hdm.
  pose proof (Z.mod_pos_bound (Z.pos m1 * 16777216) (Z.pos m2) ltac:(lia)) as Hmod.
  unfold Z.div, Z.modulo in Hdm, Hmod.
  destruct (Z.div_eucl (Z.pos m1 * 16777216) (Z.pos m2)) as [q r].
  assert (Hq : 8388608 <= q < 33554432) by nia.
  destruct q as [|q|q]; try lia.
  pose proof (digits_bounds q) as [Dlq Duq].
  set (d := Z.pos (digits2_pos q)) in *.
  assert (Hd : 24 <= d <= 25).
  { split.
    - destruct (Z_le_gt_dec 24 d) as [L|L]; [exact L|].
      assert (2 ^ d <= 2 ^ 23) by (apply Z.pow_le_mono_r; lia).
      change (2 ^ 23) with 8388608 in *. lia.
    - destruct (Z_le_gt_dec d 25) as [L|L]; [exact L|].
      assert (2 ^ 25 <= 2 ^ (d - 1)) by (apply Z.pow_le_mono_r; lia).
      change (2 ^ 25) with 33554432 in *. lia. }
  destruct (binary_round_aux_spec 24 128 ltac:(lia) q e' (new_location (Z.pos m2) r))
    as (m3 & e3 & Hr & Hd3 & He3 & HM & Hv & _); fold d; try lia.
  fold d in He3, HM, Hv. rewrite Hr.
  set (E := d + e' - 24) in *. set (M := Z.pos q / 2 ^ (d - 24)) in *.
  pose proof (dec_enc_normal m3 e3 Hd3 ltac:(unfold E, e' in *; lia)) as Hdec.
  split; [exists m3, e3; repeat split;
          [exact Hdec | exact Hd3 | unfold E, e' in *; lia | unfold E, e' in *; lia]|].
  rewrite (val_finite _ _ _ Hdec).
  set (A := (inject_Z (Z.pos m1) * 2 ^ e1)%Q).
  set (B := (inject_Z (Z.pos m2) * 2 ^ e2)%Q).
  set (v := (inject_Z (Z.pos m3) * 2 ^ e3)%Q).
  assert (HB : (0 < B)%Q).
  { apply Qmult_lt_0_compat; [|apply pow2_pos].
    change 0%Q with (inject_Z 0). rewrite <- Zlt_Qlt. lia. }
  assert (Hpd : 0 < 2 ^ (d - 24)) by (apply Z.pow_pos_nonneg; lia).
  assert (HMq : M * 2 ^ (d - 24) <= Z.pos q < (M + 1) * 2 ^ (d - 24)).
  { unfold M. pose proof (Z_div_mod_eq_full (Z.pos q) (2 ^ (d - 24))).
    pose proof (Z.mod_pos_bound (Z.pos q) (2 ^ (d - 24)) Hpd). lia. }
  assert (Hgrid : forall K : Z,
            (inject_Z K * 2 ^ E * B ==
             inject_Z (K * Z.pos m2 * 2 ^ (d - 24)) * 2 ^ (e1 - 24))%Q).
  { intros K. rewrite <- (scale_pow2 (K * Z.pos m2) (e1 - 24) (d - 24)) by lia.
    replace (e1 - 24 + (d - 24)) with (E + e2) by (unfold E, e'; lia).
    rewrite pow2_add, inject_Z_mult. unfold B. ring. }
  assert (HA : (A == inject_Z (Z.pos m1 * 16777216) * 2 ^ (e1 - 24))%Q).
  { unfold A. replace e1 with (e1 - 24 + 24) at 1 by lia.
    now rewrite (scale_pow2 (Z.pos m1) (e1 - 24) 24) by lia. }
  assert (Hlo : (inject_Z M * 2 ^ E * B <= A)%Q).
  { rewrite Hgrid, HA. apply scale_le. nia. }
  assert (Hhi : (A < inject_Z M * 2 ^ E * B + 2 ^ E * B)%Q).
  { assert (X : (inject_Z M * 2 ^ E * B + 2 ^ E * B == inject_Z (M + 1) * 2 ^ E * B)%Q)
      by (rewrite inject_Z_plus; ring).
    rewrite X, Hgrid, HA. apply scale_lt. nia. }
  assert (Hvv : (v * B == inject_Z M * 2 ^ E * B \/
                 v * B == inject_Z M * 2 ^ E * B + 2 ^ E * B)%Q).
  { assert (X : (v == inject_Z (Z.pos m3 * 2 ^ (e3 - E)) * 2 ^ E)%Q).
    { unfold v. replace e3 with (E + (e3 - E)) at 1 by lia.
      apply scale_pow2. lia. }
    destruct Hv as [Hv|Hv]; rewrite Hv in X; [left|right]; rewrite X.
    - reflexivity.
    - rewrite inject_Z_plus. ring. }
  destruct (neighbours (inject_Z M * 2 ^ E * B) (2 ^ E * B) (v * B) A)
    as (N1 & N2 & _); auto.
  - assert (X : (8388608 * 2 ^ E <= inject_Z M * 2 ^ E)%Q)
      by (apply (scale_le (2 ^ 23) M E); lia).
    apply (Qmult_le_compat_r _ _ B) in X; [|now apply Qlt_le_weak].
    now rewrite <- Qmult_assoc in X.
  - apply Qmult_lt_0_compat; [apply pow2_pos | exact HB].
Qed.

(** ** What counting preserves *)

Section Entries.
Variable P : F32.f32 -> Prop.
Hypothesis P_zero : P F32.zero.
Hypothesis P_add_one : forall w, P w -> P (F32.add_one w).

Lemma array_all_incr i a : array_all P a -> array_all P (incr i a).
Proof.
  intros [Hl Hw]. split; unfold incr.
  - now rewrite length_alter.
  - apply Forall_alter; auto.
Qed.

Lemma cdf_all_on_start f c :
  (forall a, array_all P a -> array_all P (f a)) ->
  cdf_all P c -> cdf_all P (on_start f c).
Proof. intros Hf (Hs & Hm & He). split; [|split]; simpl; auto. Qed.

Lemma cdf_all_on_middle f c :
  (forall a, array_all P a -> array_all P (f a)) ->
  cdf_all P c -> cdf_all P (on_middle f c).
Proof. intros Hf (Hs & Hm & He). split; [|split]; simpl; auto. Qed.

Lemma cdf_all_on_end f c :
  (forall a, array_all P a -> array_all P (f a)) ->
  cdf_all P c -> cdf_all P (on_end f c).
Proof. intros Hf (Hs & Hm & He). split; [|split]; simpl; auto. Qed.

Lemma data_all_on_singles f d :
  (forall c, cdf_all P c -> cdf_all P (f c)) ->
  data_all P d -> data_all P (on_singles f d).
Proof.
  intros Hf (Hs & Hd & Ht).
  split; [|split]; simpl; [apply Hf, Hs | exact Hd | exact Ht].
Qed.

Lemma data_all_on_doubles i f d :
  (forall c, cdf_all P c -> cdf_all P (f c)) ->
  data_all P d -> data_all P (on_doubles i f d).
Proof.
  intros Hf (Hs & [Hdl Hd] & Ht). split; [|split]; simpl; [exact Hs| |exact Ht].
  split; [now rewrite length_alter | apply Forall_alter; auto].
Qed.

Lemma data_all_on_triples i j f d :
  (forall c, cdf_all P c -> cdf_all P (f c)) ->
  data_all P d -> data_all P (on_triples i j f d).
Proof.
  intros Hf (Hs & Hd & [Htl Ht]). split; [|split]; simpl; [exact Hs|exact Hd|].
  split; [now rewrite length_alter|].
  apply Forall_alter; [exact Ht|].
  intros row _ [Hl Hrow]. split; [now rewrite length_alter|].
  apply Forall_alter; auto.
Qed.

Lemma data_all_incr3 (pos : (list F32.f32 -> list F32.f32) -> cdf -> cdf) x y z d :
  (forall f c, (forall a, array_all P a -> array_all P (f a)) ->
               cdf_all P c -> cdf_all P (pos f c)) ->
  data_all P d ->
  data_all P (on_triples x y (pos (incr z))
                (on_doubles y (pos (incr z)) (on_singles (pos (incr z)) d))).
Proof.
  intros Hpos Hd.
  apply data_all_on_triples; [intros; apply Hpos; auto using array_all_incr|].
  apply data_all_on_doubles; [intros; apply Hpos; auto using array_all_incr|].
  apply data_all_on_singles; [intros; apply Hpos; auto using array_all_incr|].
  exact Hd.
Qed.

Lemma data_all_count3 pos c0 c1 c2 d :
  (forall f c, (forall a, array_all P a -> array_all P (f a)) ->
               cdf_all P c -> cdf_all P (pos f c)) ->
  data_all P d -> data_all P (count3 pos c0 c1 c2 d).
Proof.
  intros Hpos Hd. unfold count3.
  apply data_all_on_triples; [intros; apply Hpos; auto using array_all_incr|].
  apply data_all_on_doubles; [intros; apply Hpos; auto using array_all_incr|].
  apply data_all_on_singles; [intros; apply Hpos; auto using array_all_incr|].
  exact Hd.
Qed.

Lemma data_all_middle_loop fuel buf2 p q d :
  data_all P d -> data_all P (middle_loop fuel buf2 p q d).
Proof.
  revert p d. induction fuel as [|fuel IH]; intros p d Hd; simpl; [exact Hd|].
  destruct (p + 1 =? q - 2); [exact Hd|].
  apply IH, data_all_count3; [apply cdf_all_on_middle | exact Hd].
Qed.

Lemma data_all_count_name buf2 d : data_all P d -> data_all P (count_name buf2 d).
Proof.
  intros Hd. unfold count_name.
  destruct (_ =? 2).
  - apply data_all_incr3; [apply cdf_all_on_end|].
    apply data_all_count3; [apply cdf_all_on_start | exact Hd].
  - apply data_all_middle_loop, data_all_incr3; [apply cdf_all_on_end|].
    apply data_all_count3; [apply cdf_all_on_start | exact Hd].
Qed.

Lemma data_all_zero : data_all P zero_data.
Proof.
  assert (Ha : array_all P zero_array)
    by (split; [apply length_replicate | now apply Forall_replicate]).
  assert (Hc : cdf_all P zero_cdf) by (repeat split; apply Ha).
  split; [exact Hc|]. split.
  - split; [apply length_replicate | now apply Forall_replicate].
  - split; [apply length_replicate|]. apply Forall_replicate.
    split; [apply length_replicate | now apply Forall_replicate].
Qed.

Lemma data_all_count_names names : data_all P (fst (count_names names)).
Proof.
  unfold count_names.
  generalize (@nil build_msg). generalize data_all_zero. generalize zero_data.
  induction names as [|buf names IH]; intros d Hd log; simpl; [exact Hd|].
  destruct (clean buf) as [buf2 log']. destruct (_ <? 3); apply IH; auto.
  now apply data_all_count_name.
Qed.

(** Each CDF of such a table. *)
Lemma cdf_all_at d k : data_all P d -> in_table k -> cdf_all P (cdf_at d k).
Proof.
  intros (Hs & [Hdl Hd] & [Htl Ht]) Hk. destruct k as [|i|i j]; simpl in *.
  - exact Hs.
  - unfold at_. unfold NUM_LETTERS in *.
    destruct (lookup_lt_is_Some_2 (doubles d) (Z.to_nat i) ltac:(lia)) as [c Hc].
    rewrite (list_lookup_total_correct _ _ _ Hc).
    exact (proj1 (Forall_lookup _ _) Hd _ _ Hc).
  - unfold at_. unfold NUM_LETTERS in *.
    destruct (lookup_lt_is_Some_2 (triples d) (Z.to_nat i) ltac:(lia)) as [row Hrow].
    rewrite (list_lookup_total_correct _ _ _ Hrow).
    destruct (proj1 (Forall_lookup _ _) Ht _ _ Hrow) as [Hl Hr].
    destruct (lookup_lt_is_Some_2 row (Z.to_nat j) ltac:(lia)) as [c Hc].
    rewrite (list_lookup_total_correct _ _ _ Hc).
    exact (proj1 (Forall_lookup _ _) Hr _ _ Hc).
Qed.
End Entries.

Lemma is_count_zero : is_count F32.zero.
Proof. exists 0. exact counts_as_zero. Qed.

Lemma is_count_add_one w : is_count w -> is_count (F32.add_one w).
Proof. intros [k Hk]. eexists. apply add_one_count, Hk. Qed.

(** Every float of the table of counts is a count. *)
Lemma counted names : data_all is_count (fst (count_names names)).
Proof. apply data_all_count_names; [exact is_count_zero | exact is_count_add_one]. Qed.

(** ** The CDFs of the normalized table *)

Lemma for_loop_alter {A} (f : A -> A) (n : nat) (l : list A) (i : nat) :
  for_loop n (fun i l => alter f i l) l !! i =
  if decide (i < n)%nat then f <$> l !! i else l !! i.
Proof.
  induction n as [|n IH]; [reflexivity|].
  rewrite for_loop_S. destruct (decide (i = n)) as [->|Hne].
  - rewrite list_lookup_alter_eq, IH.
    destruct (decide (n < n)%nat); [lia|]. destruct (decide (n < S n)%nat); [|lia].
    reflexivity.
  - rewrite list_lookup_alter_ne by auto. rewrite IH.
    destruct (decide (i < n)%nat), (decide (i < S n)%nat); try lia; reflexivity.
Qed.

Lemma at_for_loop_alter {A} `{Inhabited A} (f : A -> A) (n : nat) (l : list A) (i : Z) :
  (Z.to_nat i < n)%nat -> (Z.to_nat i < length l)%nat ->
  at_ (for_loop n (fun i l => alter f i l) l) i = f (at_ l i).
Proof.
  intros Hn Hl. unfold at_.
  destruct (lookup_lt_is_Some_2 l (Z.to_nat i) Hl) as [x Hx].
  rewrite (list_lookup_total_correct _ _ _ Hx).
  apply list_lookup_total_correct. rewrite for_loop_alter, Hx.
  destruct (decide (Z.to_nat i < n)%nat); [reflexivity | lia].
Qed.

Lemma cdf_at_normalize (P : F32.f32 -> Prop) d k :
  data_all P d -> in_table k ->
  cdf_at (normalize_data (Z.to_nat NUM_LETTERS) d) k =
  normalize_cdf (Z.to_nat NUM_LETTERS) (cdf_at d k).
Proof.
  intros (Hs & [Hdl Hd] & [Htl Ht]) Hk. destruct k as [|i|i j]; simpl in *.
  - reflexivity.
  - unfold normalize_row. apply at_for_loop_alter; unfold NUM_LETTERS in *; lia.
  - unfold NUM_LETTERS in *.
    rewrite at_for_loop_alter by lia.
    unfold normalize_row. apply at_for_loop_alter; [lia|].
    unfold at_.
    destruct (lookup_lt_is_Some_2 (triples d) (Z.to_nat i) ltac:(lia)) as [row Hrow].
    rewrite (list_lookup_total_correct _ _ _ Hrow).
    destruct (proj1 (Forall_lookup _ _) Ht _ _ Hrow) as [Hl Hr]. lia.
Qed.

(** ** The three arrays of a CDF are normalized independently *)

Lemma total_split (n : nat) (c : cdf) :
  for_loop n (total_body c) (0, 0, 0) =
  (array_total n (start c), array_total n (middle c), array_total n (end_ c)).
Proof.
  unfold array_total. induction n as [|n IH]; [reflexivity|].
  rewrite !for_loop_S, IH. reflexivity.
Qed.

Lemma norm_split (sc mc ec : Z) (n : nat) (c : cdf) :
  let st := for_loop n (norm_body sc mc ec)
              (Build_norm_state c F32.zero F32.zero F32.zero O) in
  let rs := for_loop n (norm_array_body sc) (start c, F32.zero, O) in
  let rm := for_loop n (norm_array_body mc) (middle c, F32.zero, O) in
  let re := for_loop n (norm_array_body ec) (end_ c, F32.zero, O) in
  start (ns_cdf st) = fst (fst rs) /\ ns_s st = snd (fst rs) /\
  middle (ns_cdf st) = fst (fst rm) /\ ns_m st = snd (fst rm) /\
  end_ (ns_cdf st) = fst (fst re) /\ ns_e st = snd (fst re) /\
  ns_divisions st = (snd rs + snd re + snd rm)%nat.
Proof.
  induction n as [|n IH]; [cbn; repeat split|].
  cbv zeta in *. rewrite !for_loop_S.
  destruct (for_loop n (norm_body sc mc ec) _) as [[cs cm ce] s m e nd].
  destruct (for_loop n (norm_array_body sc) _) as [[as_ ss] ns].
  destruct (for_loop n (norm_array_body mc) _) as [[am sm] nm].
  destruct (for_loop n (norm_array_body ec) _) as [[ae se] ne].
  cbn in IH. destruct IH as (-> & -> & -> & -> & -> & -> & ->).
  unfold norm_body, norm_array_body. cbn.
  destruct (F32.gt_zero (elt as_ n)); cbn;
    destruct (F32.gt_zero (elt ae n)); cbn;
      destruct (F32.gt_zero (elt am n)); cbn; repeat split; lia.
Qed.

Lemma normalize_split (n : nat) (c : cdf) :
  normalize n c =
  (Build_cdf (fst (normalize_array n (start c)))
             (fst (normalize_array n (middle c)))
             (fst (normalize_array n (end_ c))),
   (snd (normalize_array n (start c)) + snd (normalize_array n (end_ c)) +
    snd (normalize_array n (middle c)))%nat).
Proof.
  unfold normalize, normalize_array. rewrite total_split.
  pose proof (norm_split (array_total n (start c)) (array_total n (middle c))
                (array_total n (end_ c)) n c) as H.
  cbv zeta in H.
  destruct (for_loop n (norm_body _ _ _) _) as [[cs cm ce] s m e nd].
  destruct (for_loop n (norm_array_body (array_total n (start c))) _) as [[as_ ss] ns].
  destruct (for_loop n (norm_array_body (array_total n (middle c))) _) as [[am sm] nm].
  destruct (for_loop n (norm_array_body (array_total n (end_ c))) _) as [[ae se] ne].
  cbn in *. destruct H as (-> & _ & -> & _ & -> & _ & ->). reflexivity.
Qed.

(** ** One step of the running sum *)

Lemma val_zero : val F32.zero = 0%Q.
Proof. reflexivity. Qed.

Lemma val_normal_pos w m e :
  F32.dec w = S754_finite false m e -> (0 < val w)%Q.
Proof.
  intros H. rewrite (val_finite _ _ _ H).
  apply Qmult_lt_0_compat; [|apply pow2_pos].
  change 0%Q with (inject_Z 0). rewrite <- Zlt_Qlt. lia.
Qed.

Lemma add_running (q s : F32.f32) (mq : positive) (eq hi : Z) :
  F32.dec q = S754_finite false mq eq -> Z.pos (digits2_pos mq) = 24 ->
  -54 <= eq <= 3 -> 3 <= hi <= 60 ->
  (s = F32.zero \/
   exists m e, F32.dec s = S754_finite false m e /\
     Z.pos (digits2_pos m) = 24 /\ -54 <= e <= hi) ->
  (exists m' e', F32.dec (F32.add q s) = S754_finite false m' e' /\
     Z.pos (digits2_pos m') = 24 /\ -54 <= e' <= hi + 2) /\
  ((val q + val s) * (1 - u23) <= val (F32.add q s))%Q /\
  (val (F32.add q s) <= (val q + val s) * (1 + u23))%Q /\
  (val s <= val (F32.add q s))%Q.
Proof.
  intros Hq Hdq Heq Hhi [->|(m & e & Hs & Hds & He)].
  - pose proof (add_zero_r q mq eq Hq Hdq) as H.
    pose proof (val_normal_pos _ _ _ Hq) as Hpos.
    assert (Hv : val (F32.add q F32.zero) = val q) by (unfold val; now rewrite H, Hq).
    rewrite Hv, val_zero. unfold u23.
    split; [exists mq, eq; repeat split; [exact H | exact Hdq | lia | lia]|].
    repeat split; lra.
  - destruct (add_spec q s mq m eq e Hq Hdq Hs Hds ltac:(lia) ltac:(lia))
      as ((m' & e' & Hd & Hdd & He') & H1 & H2 & H3 & H4).
    split; [exists m', e'; repeat split; [exact Hd | exact Hdd | lia | lia]|].
    repeat split; assumption.
Qed.

(** ** The normalization of one array of counts *)

Section NormalizeArray.
Variable a : list F32.f32.
Variable n : nat.
Hypothesis Hlen : length a = n.
Hypothesis Hn : (n <= 28)%nat.
Hypothesis Hcount : Forall is_count a.

Lemma count_elt (i : nat) : counts_as (elt a i) (F32.to_int (elt a i)).
Proof.
  unfold elt. destruct (a !! i) as [w|] eqn:E; simpl.
  - destruct (proj1 (Forall_lookup _ _) Hcount _ _ E) as [k Hk].
    now rewrite (to_int_count _ _ Hk).
  - exact counts_as_zero.
Qed.

Lemma count_range (i : nat) : 0 <= F32.to_int (elt a i) <= 2 ^ 24.
Proof. exact (proj1 (count_elt i)). Qed.

Lemma array_total_S (i : nat) :
  array_total (S i) a = array_total i a + F32.to_int (elt a i).
Proof. unfold array_total. now rewrite for_loop_S. Qed.

Lemma array_total_range (i : nat) :
  0 <= array_total i a <= Z.of_nat i * 2 ^ 24.
Proof.
  induction i as [|i IH]; [cbn; lia|].
  rewrite array_total_S. pose proof (count_range i). lia.
Qed.

(** The totals fit the [int] they are summed in. *)
Lemma array_total_int : 0 <= array_total n a < 2 ^ 31.
Proof.
  pose proof (array_total_range n) as H.
  change (2 ^ 24) with 16777216 in H. change (2 ^ 31) with 2147483648. lia.
Qed.

Lemma array_total_mono (i j : nat) :
  (i <= j)%nat -> array_total i a <= array_total j a.
Proof.
  induction 1 as [|j _ IH]; [lia|].
  rewrite array_total_S. pose proof (count_range j). lia.
Qed.

Lemma array_total_zero (i j : nat) :
  array_total i a = 0 -> (j < i)%nat -> F32.to_int (elt a j) = 0.
Proof.
  intros H0 Hj. pose proof (array_total_mono (S j) i ltac:(lia)) as H.
  rewrite array_total_S in H. pose proof (array_total_range j).
  pose proof (count_range j). lia.
Qed.

Lemma gt_zero_elt (i : nat) :
  F32.gt_zero (elt a i) = (0 <? F32.to_int (elt a i)).
Proof. apply gt_zero_count, count_elt. Qed.

Lemma elt_zero_count (i : nat) : F32.to_int (elt a i) = 0 -> elt a i = F32.zero.
Proof. intros H. pose proof (count_elt i) as [_ E]. rewrite H in E. exact E. Qed.

(** *** A total of zero: nothing is divided, nothing changes *)

Lemma normalize_array_zero :
  array_total n a = 0 ->
  for_loop n (norm_array_body 0) (a, F32.zero, O) = (a, F32.zero, O) /\
  all_zero n a.
Proof.
  intros HT. split.
  - apply (for_loop_inv (fun st => st = (a, F32.zero, O))); [reflexivity|].
    intros i st Hi ->. unfold norm_array_body.
    rewrite gt_zero_elt, (array_total_zero n i HT Hi). reflexivity.
  - intros i Hi. apply elt_zero_count, (array_total_zero n i HT Hi).
Qed.

(** *** A positive total *)

Hypothesis HT : 0 < array_total n a.

Lemma total_float :
  exists mT eT,
    F32.dec (F32.of_int (array_total n a)) = S754_finite false mT eT /\
    Z.pos (digits2_pos mT) = 24 /\ -23 <= eT <= 7 /\
    (inject_Z (array_total n a) * (1 - u23)
       <= val (F32.of_int (array_total n a)))%Q /\
    (val (F32.of_int (array_total n a))
       <= inject_Z (array_total n a) * (1 + u23))%Q.
Proof.
  pose proof (array_total_range n) as HR.
  assert (H30 : array_total n a < 2 ^ 30).
  { change (2 ^ 24) with 16777216 in HR. change (2 ^ 30) with 1073741824. lia. }
  destruct (array_total n a) as [|t|t] eqn:Et; try lia.
  destruct (of_int_spec t H30)
    as (m2 & e2 & M & Hr & Hd2 & He & HM & Hl & Hu & Hv & _).
  pose proof (digits_bounds t) as [Dl Du].
  set (d := Z.pos (digits2_pos t)) in *.
  assert (Hd : 1 <= d <= 30).
  { split; [unfold d; lia|].
    destruct (Z_le_gt_dec d 30) as [L|L]; [exact L|].
    assert (2 ^ 30 <= 2 ^ (d - 1)) by (apply Z.pow_le_mono_r; lia). lia. }
  exists m2, e2. split; [exact Hr|]. split; [exact Hd2|]. split; [lia|].
  rewrite (val_finite _ _ _ Hr).
  assert (HM1 : (inject_Z (M + 1) * 2 ^ (d - 24)
                 == inject_Z M * 2 ^ (d - 24) + 2 ^ (d - 24))%Q)
    by (rewrite inject_Z_plus; ring).
  rewrite HM1 in Hv, Hu.
  destruct (neighbours (inject_Z M * 2 ^ (d - 24)) (2 ^ (d - 24))
              (inject_Z (Z.pos m2) * 2 ^ e2) (inject_Z (Z.pos t)))
    as (N1 & N2 & _); auto.
  - apply (scale_le (2 ^ 23) M (d - 24)). lia.
  - apply pow2_pos.
Qed.

Lemma norm_inv_start : norm_inv a n O (a, F32.zero, O).
Proof.
  unfold norm_inv. rewrite val_zero.
  split; [reflexivity|]. split; [reflexivity|].
  split; [intros; lia|]. split; [intros; lia|]. split; [intros; lia|].
  change (array_total 0 a) with 0. change (Z.of_nat 0 * array_total n a) with 0.
  change (inject_Z 0) with 0%Q. unfold u23. split; [lra|]. split; [lra|].
  split; [intros _; split; reflexivity | lia].
Qed.

Lemma norm_inv_step (i : nat) (st : list F32.f32 * F32.f32 * nat) :
  (i < n)%nat -> norm_inv a n i st ->
  norm_inv a n (S i) (norm_array_body (array_total n a) i st).
Proof.
  intros Hi. destruct st as [[a' s] nd]. unfold norm_inv.
  intros (L & Hrest & Hz & Hp & Hmono & El & Eu & H0 & Hpos).
  pose proof (count_range i) as Hk. pose proof (array_total_range i) as HR.
  pose proof (array_total_mono (S i) n ltac:(lia)) as HRT.
  pose proof (proj2 (count_elt i)) as Ec.
  pose proof (elt_zero_count i) as Ez.
  pose proof (gt_zero_elt i) as Eg.
  rewrite array_total_S in *.
  destruct total_float as (mT & eT & HdT & HdigT & HeT & BL & BU).
  pose proof (val_normal_pos _ _ _ HdT) as HB.
  set (T := array_total n a) in *. set (B := val (F32.of_int T)) in *.
  set (k := F32.to_int (elt a i)) in *. set (R := array_total i a) in *.
  assert (Herr : (4 * u23 * inject_Z (Z.of_nat (S i) * T) ==
                  4 * u23 * inject_Z (Z.of_nat i * T) + 4 * u23 * inject_Z T)%Q).
  { replace (Z.of_nat (S i) * T) with (Z.of_nat i * T + T) by lia.
    rewrite inject_Z_plus. ring. }
  assert (He0 : (0 <= inject_Z (Z.of_nat i * T))%Q)
    by (change 0%Q with (inject_Z 0); rewrite <- Zle_Qle; nia).
  assert (He1 : (inject_Z (Z.of_nat i * T) <= 28 * inject_Z T)%Q).
  { change 28%Q with (inject_Z 28). rewrite <- inject_Z_mult, <- Zle_Qle. nia. }
  assert (HkQ : (0 <= inject_Z k)%Q)
    by (change 0%Q with (inject_Z 0); rewrite <- Zle_Qle; lia).
  assert (HRQ : (0 <= inject_Z R)%Q)
    by (change 0%Q with (inject_Z 0); rewrite <- Zle_Qle; lia).
  assert (HRT' : (inject_Z R + inject_Z k <= inject_Z T)%Q)
    by (rewrite <- inject_Z_plus, <- Zle_Qle; exact HRT).
  unfold norm_array_body. rewrite (Hrest i (le_n _)), Eg.
  destruct (0 <? k) eqn:Ek.
  - apply Z.ltb_lt in Ek.
    destruct (of_int_count k ltac:(lia)) as (m1 & e1 & Hd1 & Hdig1 & He1' & Hv1).
    destruct (div_spec (F32.of_int k) (F32.of_int T) m1 mT e1 eT
                Hd1 Hdig1 HdT HdigT ltac:(lia))
      as ((mq & eq & Hq & Hdq & Heq) & Q1 & Q2).
    rewrite (val_finite _ _ _ Hd1), Hv1 in Q1, Q2. fold B in Q1, Q2.
    rewrite Ec.
    set (q := F32.div (F32.of_int k) (F32.of_int T)) in *.
    assert (Hs : s = F32.zero \/
                 exists m e, F32.dec s = S754_finite false m e /\
                   Z.pos (digits2_pos m) = 24 /\ -54 <= e <= 3 + 2 * Z.of_nat i).
    { destruct (Z.eq_dec R 0) as [E0|E0];
        [left; exact (proj1 (H0 E0)) | right; apply Hpos; lia]. }
    destruct (add_running q s mq eq (3 + 2 * Z.of_nat i) Hq Hdq ltac:(lia) ltac:(lia) Hs)
      as ((m' & e' & Hs' & Hds' & He') & A1 & A2 & A3).
    set (s' := F32.add q s) in *.
    assert (Hn' : normal_pos s') by (exists m', e'; now split).
    assert (Li : (i < length a')%nat) by lia.
    split; [rewrite length_insert; exact L|].
    split; [intros j Hj; rewrite elt_insert_ne by lia; apply Hrest; lia|].
    split.
    { intros j Hj Hkj. destruct (decide (j = i)) as [->|Hne]; [fold k in Hkj; lia|].
      rewrite elt_insert_ne by auto. apply Hz; [lia | exact Hkj]. }
    split.
    { intros j Hj Hkj. destruct (decide (j = i)) as [->|Hne].
      - rewrite elt_insert_eq by exact Li. split; [exact Hn' | apply Qle_refl].
      - rewrite elt_insert_ne by auto.
        destruct (Hp j ltac:(lia) Hkj) as [Hnj Hvj].
        split; [exact Hnj | eapply Qle_trans; [exact Hvj | exact A3]]. }
    split.
    { intros j1 j2 Hj Hk1 Hk2. destruct (decide (j2 = i)) as [->|Hne2].
      - rewrite (elt_insert_eq _ i) by exact Li.
        destruct (decide (j1 = i)) as [->|Hne1].
        + rewrite elt_insert_eq by exact Li. apply Qle_refl.
        + rewrite elt_insert_ne by auto.
          destruct (Hp j1 ltac:(lia) Hk1) as [_ Hvj].
          eapply Qle_trans; [exact Hvj | exact A3].
      - rewrite !elt_insert_ne by lia. apply Hmono; [lia | exact Hk1 | exact Hk2]. }
    assert (X1 : ((val q + val s) * (1 - u23) * B <= val s' * B)%Q)
      by (apply Qmult_le_compat_r; [exact A1 | now apply Qlt_le_weak]).
    assert (X2 : (val s' * B <= (val q + val s) * (1 + u23) * B)%Q)
      by (apply Qmult_le_compat_r; [exact A2 | now apply Qlt_le_weak]).
    assert (Hk1 : (1 <= inject_Z k)%Q)
      by (change 1%Q with (inject_Z 1); rewrite <- Zle_Qle; lia).
    rewrite inject_Z_plus, Herr.
    split; [unfold u23 in *; lra|]. split; [unfold u23 in *; lra|].
    split; [intros; lia|]. intros _. split.
    + exists m', e'. repeat split; [exact Hs' | exact Hds' | lia | lia].
    + exists i. split; [lia|]. split; [exact Ek|].
      split; [now rewrite elt_insert_eq by exact Li | intros; lia].
  - apply Z.ltb_ge in Ek. assert (Ek0 : k = 0) by lia.
    rewrite Ek0, Z.add_0_r in *.
    split; [exact L|].
    split; [intros j Hj; apply Hrest; lia|].
    split.
    { intros j Hj Hkj. destruct (decide (j = i)) as [->|Hne].
      - rewrite (Hrest i (le_n _)). now apply Ez.
      - apply Hz; [lia | exact Hkj]. }
    split.
    { intros j Hj Hkj. destruct (decide (j = i)) as [->|Hne]; [fold k in Hkj; lia|].
      apply Hp; [lia | exact Hkj]. }
    split.
    { intros j1 j2 Hj Hk1 Hk2.
      destruct (decide (j2 = i)) as [->|Hne]; [fold k in Hk2; lia|].
      apply Hmono; [lia | exact Hk1 | exact Hk2]. }
    rewrite Herr.
    assert (HTQ : (0 <= inject_Z T)%Q)
      by (change 0%Q with (inject_Z 0); rewrite <- Zle_Qle; lia).
    split; [unfold u23 in *; lra|]. split; [unfold u23 in *; lra|].
    split; [exact H0|]. intros HRpos.
    destruct (Hpos HRpos) as ((m & e & Hs & Hds & He) & last & Hl1 & Hl2 & Hl3 & Hl4).
    split.
    + exists m, e. repeat split; [exact Hs | exact Hds | lia | lia].
    + exists last. split; [lia|]. split; [exact Hl2|]. split; [exact Hl3|].
      intros j Hj. destruct (decide (j = i)) as [->|Hne]; [exact Ek0|].
      apply Hl4. lia.
Qed.
End NormalizeArray.

(** The array that the normalization of an array of counts leaves. *)
Lemma normalize_array_valid (a : list F32.f32) (n : nat) :
  length a = n -> (n <= 28)%nat -> Forall is_count a ->
  valid_cdf_array n (fst (normalize_array n a)) /\
  (array_total n a = 0 ->
   fst (normalize_array n a) = a /\ all_zero n a /\ snd (normalize_array n a) = O).
Proof.
  intros Hlen Hn Hcount. unfold normalize_array.
  destruct (Z.eq_dec (array_total n a) 0) as [H0|H0].
  - destruct (normalize_array_zero a n Hlen Hn Hcount H0) as [E Hz].
    rewrite H0, E. cbn [fst snd]. split.
    + split; [intros i Hi; left; now apply Hz | left; exact Hz].
    + intros _. repeat split. exact Hz.
  - pose proof (array_total_range a n Hlen Hn Hcount n) as HR.
    assert (HT : 0 < array_total n a) by lia.
    split; [|intros; lia].
    pose proof (for_loop_ind (norm_inv a n) n (norm_array_body (array_total n a))
                  (a, F32.zero, O) (norm_inv_start a n Hlen Hn)
                  (fun i st Hi => norm_inv_step a n Hlen Hn Hcount HT i st Hi)) as Hinv.
    destruct (total_float a n Hlen Hn Hcount HT) as (mT & eT & HdT & HdigT & HeT & BL & BU).
    pose proof (val_normal_pos _ _ _ HdT) as HB.
    destruct (for_loop n _ _) as [[a' s] nd]. cbn [fst snd].
    unfold norm_inv in Hinv.
    destruct Hinv as (L & Hrest & Hz & Hp & Hmono & El & Eu & _ & Hpos).
    destruct (Hpos HT) as ((m & e & Hs & Hds & He) & last & Hl1 & Hl2 & Hl3 & Hl4).
    set (T := array_total n a) in *. set (B := val (F32.of_int T)) in *.
    assert (HTQ : (1 <= inject_Z T)%Q)
      by (change 1%Q with (inject_Z 1); rewrite <- Zle_Qle; lia).
    assert (He1 : (inject_Z (Z.of_nat n * T) <= 28 * inject_Z T)%Q).
    { change 28%Q with (inject_Z 28). rewrite <- inject_Z_mult, <- Zle_Qle. nia. }
    assert (Hk : forall j, 0 <= F32.to_int (elt a j))
      by (intros j; apply (count_range a Hcount j)).
    assert (Hnz : forall j, (j < n)%nat -> elt a' j <> F32.zero ->
                            0 < F32.to_int (elt a j)).
    { intros j Hj Hne. destruct (Z.eq_dec (F32.to_int (elt a j)) 0) as [E|E].
      - exfalso. apply Hne. now apply Hz.
      - pose proof (Hk j). lia. }
    split.
    { intros j Hj. destruct (Z.eq_dec (F32.to_int (elt a j)) 0) as [E|E].
      - left. now apply Hz.
      - right. apply Hp; [exact Hj | pose proof (Hk j); lia]. }
    right. split.
    { intros i j Hij Hi Hj. apply Hmono; [lia | apply Hnz; [lia | exact Hi] |
                                          apply Hnz; [lia | exact Hj]]. }
    exists last. split; [exact Hl1|]. rewrite Hl3.
    split; [apply normal_not_zero; exists m, e; now split|].
    split.
    + apply (in_tolerance_val s m e Hs).
      * destruct (Qlt_le_dec (val s) (9999 # 10000)) as [Hlt|Hge]; [|exact Hge].
        exfalso. apply (Qmult_lt_compat_r _ _ B HB) in Hlt.
        unfold u23 in *. lra.
      * destruct (Qlt_le_dec (10001 # 10000) (val s)) as [Hlt|Hge]; [|exact Hge].
        exfalso. apply (Qmult_lt_compat_r _ _ B HB) in Hlt.
        unfold u23 in *. lra.
    + intros j Hj. apply Hz; [lia | apply Hl4; exact Hj].
Qed.

Lemma array_of_normalize (n : nat) (p : position) (c : cdf) :
  array_of p (normalize_cdf n c) = fst (normalize_array n (array_of p c)).
Proof. unfold normalize_cdf. rewrite normalize_split. now destruct p. Qed.

Lemma array_all_of (P : F32.f32 -> Prop) (p : position) (c : cdf) :
  cdf_all P c -> array_all P (array_of p c).
Proof. intros (Hs & Hm & He). now destruct p. Qed.

Lemma data_built names :
  data (built names) =
  normalize_data (Z.to_nat NUM_LETTERS) (fst (count_names names)).
Proof. unfold built, build_table. now destruct (count_names names). Qed.

(** C2.  In every table that [build_ltr] produces, each of the three arrays
    of each of the [1 + L + L*L] CDFs is computed from its own counts alone
    and is a cumulative distribution: every entry is +0.0 or a positive
    normal number, and either all entries are zero, or the entries that are
    not zero do not decrease and the last of them is within
    [0.9999, 1.0001], the entries behind it being zero.  An array whose
    total count is zero is left as it was, all zero, and no division is
    executed for it: the divisions of a block are those of its three
    arrays. *)
Theorem built_cdfs_valid (names : list (list byte)) (k : cdf_index) (p : position) :
  in_table k ->
  let n := Z.to_nat NUM_LETTERS in
  let c := cdf_at (fst (count_names names)) k in
  let a := array_of p (cdf_at (data (built names)) k) in
  a = fst (normalize_array n (array_of p c)) /\
  valid_cdf_array n a /\
  (array_total n (array_of p c) = 0 ->
   a = array_of p c /\ all_zero n a /\ snd (normalize_array n (array_of p c)) = O) /\
  snd (normalize n c) =
    (snd (normalize_array n (start c)) + snd (normalize_array n (end_ c)) +
     snd (normalize_array n (middle c)))%nat.
Proof.
  intros Hk n c a.
  assert (Ea : a = fst (normalize_array n (array_of p c))).
  { unfold a. rewrite data_built.
    rewrite (cdf_at_normalize is_count _ _ (counted names) Hk).
    apply array_of_normalize. }
  destruct (array_all_of is_count p c (cdf_all_at is_count _ k (counted names) Hk))
    as [Hlen Hcount].
  destruct (normalize_array_valid (array_of p c) n Hlen (le_n 28) Hcount)
    as [Hv H0].
  split; [exact Ea|]. rewrite Ea. split; [exact Hv|]. split.
  - intros HT. destruct (H0 HT) as (E & Hz & Hd).
    split; [exact E|]. split; [now rewrite E | exact Hd].
  - now rewrite normalize_split.
Qed.

Lemma built_cdfs_valid_witness :
  in_table (Double 2) /\
  valid_cdf_array 28 (array_of Start (cdf_at (data (built [anna; cody])) (Double 2))).
Proof.
  assert (H : in_table (Double 2)) by (unfold in_table, NUM_LETTERS; lia).
  split; [exact H|].
  exact (proj1 (proj2 (built_cdfs_valid [anna; cody] (Double 2) Start H))).
Defined.

(** * The rest of the program: properties *)

(** ** What [load_ltr] accepts *)

Section Readers.

Variable big_endian : bool.

Lemma fixed_read_many {A} (k : nat) (read : list byte -> option (A * list byte))
    (ser : A -> list byte) (n : nat) :
  fixed_reader k read ser ->
  fixed_reader (n * k) (read_many read n) (fun xs => concat (map ser xs)).
Proof.
  intros [Hshort Hlong]. induction n as [|n [IHs IHl]]; split; intros bs Hbs; simpl in *.
  - lia.
  - exists []. rewrite drop_0, take_0. split; reflexivity.
  - destruct (le_lt_dec k (length bs)) as [L|L].
    + destruct (Hlong bs L) as (x & -> & _).
      rewrite IHs; [reflexivity | rewrite length_drop; lia].
    + now rewrite (Hshort bs L).
  - destruct (Hlong bs ltac:(lia)) as (x & -> & Hx).
    destruct (IHl (drop k bs)) as (xs & -> & Hxs); [rewrite length_drop; lia|].
    exists (x :: xs). rewrite drop_drop. split; [reflexivity|].
    simpl. rewrite Hx, Hxs. apply take_take_drop.
Qed.

Lemma fixed_read_float :
  fixed_reader 4 (read_float big_endian) (float_bytes big_endian).
Proof.
  split; intros bs Hbs.
  - destruct bs as [|b0 [|b1 [|b2 [|b3 bs]]]]; simpl in *; try reflexivity; lia.
  - destruct bs as [|b0 [|b1 [|b2 [|b3 bs]]]]; simpl in *; try lia.
    eexists. split; [reflexivity|]. apply float_bytes_of_bytes.
Qed.

Lemma fixed_read_array :
  fixed_reader 112 (read_array big_endian) (array_bytes big_endian).
Proof. exact (fixed_read_many 4 _ _ 28 fixed_read_float). Qed.

Lemma take3 {A} (a b c : nat) (l : list A) :
  take a l ++ take b (drop a l) ++ take c (drop b (drop a l)) = take (a + (b + c)) l.
Proof. now rewrite (take_take_drop (drop a l)), take_take_drop. Qed.

Lemma fixed_read_cdf :
  fixed_reader (112 + (112 + 112)) (read_cdf big_endian) (cdf_bytes big_endian).
Proof.
  destruct fixed_read_array as [Hs Hl]. split; intros bs Hbs; unfold read_cdf.
  - destruct (le_lt_dec 112 (length bs)) as [L1|L1]; [|now rewrite Hs].
    destruct (Hl bs L1) as (s & -> & _).
    destruct (le_lt_dec 112 (length (drop 112 bs))) as [L2|L2]; [|now rewrite Hs].
    destruct (Hl _ L2) as (m & -> & _).
    rewrite Hs; [reflexivity|]. rewrite !length_drop in *. lia.
  - destruct (Hl bs ltac:(lia)) as (s & -> & Es).
    destruct (Hl (drop 112 bs)) as (m & -> & Em); [rewrite length_drop; lia|].
    destruct (Hl (drop 112 (drop 112 bs))) as (e & -> & Ee);
      [rewrite !length_drop; lia|].
    eexists. split; [now rewrite !drop_drop|].
    unfold cdf_bytes. cbn [start middle end_]. rewrite Es, Em, Ee.
    apply take3.
Qed.

Lemma fixed_read_data :
  fixed_reader (336 + (28 * 336 + 28 * (28 * 336)))
    (read_data big_endian) (data_bytes big_endian).
Proof.
  pose proof fixed_read_cdf as Hc.
  pose proof (fixed_read_many _ _ _ 28 Hc) as Hd.
  pose proof (fixed_read_many _ _ _ 28 Hd) as Ht.
  change (112 + (112 + 112))%nat with 336%nat in *.
  destruct Hc as [Hcs Hcl], Hd as [Hds Hdl], Ht as [Hts Htl].
  split; intros bs Hbs; unfold read_data; change (Z.to_nat NUM_LETTERS) with 28%nat.
  - destruct (le_lt_dec 336 (length bs)) as [L1|L1]; [|now rewrite Hcs].
    destruct (Hcl bs L1) as (s & -> & _).
    destruct (le_lt_dec (28 * 336) (length (drop 336 bs))) as [L2|L2];
      [|now rewrite Hds].
    destruct (Hdl _ L2) as (d & -> & _).
    rewrite Hts; [reflexivity|]. rewrite !length_drop in *. lia.
  - destruct (Hcl bs ltac:(lia)) as (s & -> & Es).
    destruct (Hdl (drop 336 bs)) as (d & -> & Ed); [rewrite length_drop; lia|].
    destruct (Htl (drop (28 * 336) (drop 336 bs))) as (t & -> & Et);
      [rewrite !length_drop; lia|].
    eexists. split; [now rewrite !drop_drop|].
    unfold data_bytes. cbn [singles doubles triples]. rewrite Es, Ed, Et.
    apply take3.
Qed.


(** The steps of [load_ltr] on a file of at least 9 bytes. *)
Lemma load_ltr_long (file : list byte) :
  (9 <= length file)%nat ->
  exists nl, file !! 8%nat = Some nl /\
    load_ltr big_endian file =
    if bool_decide (take 8 file = LTR_MAGIC) then
      if Z_of_byte nl =? NUM_LETTERS then
        match read_data big_endian (drop 9 file) with
        | Some (d, _) =>
            inr (Build_ltrfile (Build_ltr_header (take 8 file) (Z_of_byte nl)) d)
        | None => inl Truncated_table
        end
      else inl (Wrong_num_letters (Z_of_byte nl))
    else inl No_valid_header.
Proof.
  intros H.
  destruct file as [|m0 [|m1 [|m2 [|m3 [|m4 [|m5 [|m6 [|m7 [|nl rest]]]]]]]]];
    simpl in H; try lia.
  exists nl. split; reflexivity.
Qed.

Lemma load_ltr_short (file : list byte) :
  (length file < 9)%nat -> load_ltr big_endian file = inl No_valid_header.
Proof.
  intros H.
  destruct file as [|m0 [|m1 [|m2 [|m3 [|m4 [|m5 [|m6 [|m7 [|nl rest]]]]]]]]];
    simpl in H; try lia; reflexivity.
Qed.

Lemma num_letters_byte (nl : byte) : Z_of_byte nl = NUM_LETTERS <-> nl = x1c.
Proof.
  split; [|now intros ->].
  intros H. apply Z_of_byte_inj. now rewrite H.
Qed.

Lemma file_size_split :
  Z.to_nat FILE_SIZE = (9 + (336 + (28 * 336 + 28 * (28 * 336))))%nat.
Proof. unfold FILE_SIZE. lia. Qed.

(** What an accepted file is. *)
Lemma load_ltr_inr (file : list byte) (t : ltrfile) :
  load_ltr big_endian file = inr t ->
  FILE_SIZE <= Z.of_nat (length file) /\
  take 8 file = LTR_MAGIC /\ file !! 8%nat = Some x1c /\
  write_ltr big_endian t = take (Z.to_nat FILE_SIZE) file.
Proof.
  intros H.
  destruct (le_lt_dec 9 (length file)) as [L|L];
    [|rewrite load_ltr_short in H by exact L; discriminate H].
  destruct (load_ltr_long file L) as (nl & Hnl & E). rewrite E in H. clear E.
  case_bool_decide as Hmg; [|discriminate H].
  destruct (Z_of_byte nl =? NUM_LETTERS) eqn:En; [|discriminate H].
  apply Z.eqb_eq in En. pose proof (proj1 (num_letters_byte nl) En) as ->.
  destruct fixed_read_data as [Hs Hl].
  destruct (le_lt_dec (336 + (28 * 336 + 28 * (28 * 336))) (length (drop 9 file)))
    as [L2|L2]; [|rewrite Hs in H by exact L2; discriminate H].
  destruct (Hl _ L2) as (d & Ed & Hd). rewrite Ed in H.
  injection H as <-. rewrite length_drop in L2.
  split; [unfold FILE_SIZE; lia|]. split; [exact Hmg|]. split; [exact Hnl|].
  unfold write_ltr, header_bytes. cbn [header data magic num_letters].
  rewrite Hd, file_size_split, byte_of_Z_of_byte.
  rewrite <- (take_S_r _ _ _ Hnl). apply take_take_drop.
Qed.

End Readers.

(** X1. [load_ltr] accepts a file exactly when it has at least 273177 bytes,
    the first eight being the magic tag and the ninth 28; otherwise it dies
    with the message of the first check that fails: no valid header (fewer
    than 9 bytes, or another tag), wrong number of letters (the ninth byte,
    as a number), truncated table (fewer than 273177 bytes). *)
Theorem load_ltr_accepts (big_endian : bool) (file : list byte) :
  let len := Z.of_nat (length file) in
  ((exists t, load_ltr big_endian file = inr t) <->
   FILE_SIZE <= len /\ take 8 file = LTR_MAGIC /\ file !! 8%nat = Some x1c) /\
  (load_ltr big_endian file = inl No_valid_header <->
   len < 9 \/ take 8 file <> LTR_MAGIC) /\
  (forall n, load_ltr big_endian file = inl (Wrong_num_letters n) <->
   9 <= len /\ take 8 file = LTR_MAGIC /\ n <> NUM_LETTERS /\
   Z_of_byte <$> file !! 8%nat = Some n) /\
  (load_ltr big_endian file = inl Truncated_table <->
   9 <= len < FILE_SIZE /\ take 8 file = LTR_MAGIC /\ file !! 8%nat = Some x1c).
Proof.
  intros len. unfold len, FILE_SIZE.
  destruct (le_lt_dec 9 (length file)) as [L|L].
  - destruct (load_ltr_long big_endian file L) as (nl & Hnl & ->). rewrite Hnl.
    destruct (fixed_read_data big_endian) as [Hs Hl].
    case_bool_decide as Hmg.
    + destruct (Z_of_byte nl =? NUM_LETTERS) eqn:En.
      * apply Z.eqb_eq in En. pose proof (proj1 (num_letters_byte nl) En) as ->.
        destruct (le_lt_dec (336 + (28 * 336 + 28 * (28 * 336))) (length (drop 9 file)))
          as [L2|L2].
        -- destruct (Hl _ L2) as (d & -> & _). rewrite length_drop in L2.
           split; [split; [intros _; repeat split; [lia | exact Hmg] | eauto]|].
           split; [split; [discriminate | intros [?|?]; [lia | contradiction]]|].
           split; [intros n; split; [discriminate | intros (_ & _ & Hn & [= <-])];
                   now contradiction Hn|].
           split; [discriminate | lia].
        -- rewrite (Hs _ L2). rewrite length_drop in L2.
           split; [split; [intros [t Ht]; discriminate Ht | lia]|].
           split; [split; [discriminate | intros [?|?]; [lia | contradiction]]|].
           split; [intros n; split; [discriminate | intros (_ & _ & Hn & [= <-])];
                   now contradiction Hn|].
           split; [intros _; repeat split; [lia | lia | exact Hmg] | reflexivity].
      * apply Z.eqb_neq in En.
        assert (nl <> x1c) by (intros ->; now apply En).
        split; [split; [intros [t Ht]; discriminate Ht | intros (_ & _ & [= ?]); congruence]|].
        split; [split; [discriminate | intros [?|?]; [lia | contradiction]]|].
        split; [intros n; split;
                [intros [= <-]; repeat split; [lia | exact Hmg | exact En]
                | intros (_ & _ & _ & [= <-]); reflexivity]|].
        split; [discriminate | intros (_ & _ & [= ?]); congruence].
    + split; [split; [intros [t Ht]; discriminate Ht | intros (_ & ? & _); contradiction]|].
      split; [split; [intros _; now right | reflexivity]|].
      split; [intros n; split; [discriminate | intros (_ & ? & _); contradiction]|].
      split; [discriminate | intros (_ & ? & _); contradiction].
  - rewrite (load_ltr_short big_endian file L).
    split; [split; [intros [t Ht]; discriminate Ht | lia]|].
    split; [split; [intros _; left; lia | reflexivity]|].
    split; [intros n; split; [discriminate | lia]|].
    split; [discriminate | lia].
Qed.

(** X2. Nothing is lost in loading: the table that [load_ltr] read from a
    file is written back as the first 273177 bytes of that file, in either
    byte order, and nothing behind them is looked at. *)
Theorem load_write_back (big_endian : bool) (file : list byte) (t : ltrfile) :
  load_ltr big_endian file = inr t ->
  write_ltr big_endian t = take (Z.to_nat FILE_SIZE) file /\
  forall other, load_ltr big_endian (take (Z.to_nat FILE_SIZE) file ++ other) = inr t.
Proof.
  intros H. destruct (load_ltr_inr big_endian file t H) as (_ & _ & _ & E).
  split; [exact E|]. intros other. rewrite <- E.
  apply load_write_wf_app. exact (load_wf big_endian file t H).
Qed.

Lemma load_write_back_witness :
  load_ltr false (write_ltr false (built []) ++ [x00]) = inr (built []) /\
  write_ltr false (built [])
  = take (Z.to_nat FILE_SIZE) (write_ltr false (built []) ++ [x00]).
Proof.
  assert (H : load_ltr false (write_ltr false (built []) ++ [x00]) = inr (built []))
    by apply load_write_wf_app, wf_built.
  split; [exact H|].
  exact (proj1 (load_write_back false _ _ H)).
Defined.

(** X3. The file that [build_ltr] writes has 273177 bytes whatever the
    names are: the magic tag, the byte 28 and the 813 CDFs of 3 * 28 floats
    of 4 bytes. *)
Theorem built_file_size (big_endian : bool) (names : list (list byte)) :
  let '(t, file, _) := build_ltr big_endian names in
  Z.of_nat (length file) = FILE_SIZE /\
  take 9 file = LTR_MAGIC ++ [x1c] /\
  FILE_SIZE = 9 + (1 + 28 + 28 * 28) * (3 * 28 * 4).
Proof.
  unfold build_ltr. pose proof (wf_built names) as Hwf. unfold built in Hwf.
  destruct (build_table names) as [t log]. cbn [fst] in Hwf.
  pose proof (load_write_wf big_endian t Hwf) as Hl.
  destruct (load_ltr_inr big_endian _ t Hl) as (Hlen & Hmg & Hnl & E).
  split; [|split; [|reflexivity]].
  - apply (f_equal (@length byte)) in E. rewrite length_take in E.
    unfold FILE_SIZE in *. lia.
  - now rewrite (take_S_r _ _ _ Hnl), Hmg.
Qed.

(** ** Letters and their indices *)

Lemma idx_check (c : byte) :
  (idx c =? -1) ||
  ((0 <=? idx c) && (idx c <? 28) && Byte.eqb (at_ letters (idx c)) c) = true.
Proof. destruct c; reflexivity. Qed.

Lemma idx_valid (c : byte) :
  idx c <> -1 -> 0 <= idx c < NUM_LETTERS /\ at_ letters (idx c) = c.
Proof.
  intros H. pose proof (idx_check c) as E.
  apply orb_true_iff in E. destruct E as [E|E]; [apply Z.eqb_eq in E; contradiction|].
  apply andb_true_iff in E. destruct E as [E E3].
  apply andb_true_iff in E. destruct E as [E1 E2].
  apply Z.leb_le in E1. apply Z.ltb_lt in E2. apply Byte.byte_dec_bl in E3.
  unfold NUM_LETTERS. auto.
Qed.

Lemma idx_letter (i : nat) : (i < 28)%nat -> idx (letters !!! i) = Z.of_nat i.
Proof. intros H. do 28 (destruct i as [|i]; [reflexivity|]). lia. Qed.

Lemma idx_outside (c : byte) : idx c = -1 <-> ~ In c letters.
Proof.
  split.
  - intros E Hin. apply list_elem_of_In, list_elem_of_lookup in Hin.
    destruct Hin as [i Hi].
    pose proof (lookup_lt_Some _ _ _ Hi) as Hlt. change (length letters) with 28%nat in Hlt.
    pose proof (idx_letter i Hlt) as Hx.
    rewrite (list_lookup_total_correct _ _ _ Hi) in Hx. lia.
  - intros Hn. destruct (Z.eq_dec (idx c) (-1)) as [E|E]; [exact E|].
    exfalso. apply Hn. destruct (idx_valid c E) as [Hr Hc].
    apply list_elem_of_In. rewrite <- Hc. unfold at_.
    apply list_elem_of_lookup_total_2.
    change (length letters) with 28%nat. unfold NUM_LETTERS in Hr. lia.
Qed.

(** X4. [idx] and [letters] are inverse to each other: the letter at
    position [i < 28] has index [i], and a character whose index is not -1
    has an index in [[0, 28)] at which [letters] holds this character; the
    characters of index -1 are those that are not in [letters]. *)
Theorem idx_letters_inverse :
  (forall i, (i < 28)%nat -> idx (letters !!! i) = Z.of_nat i) /\
  (forall c, idx c <> -1 -> 0 <= idx c < NUM_LETTERS /\ at_ letters (idx c) = c) /\
  (forall c, idx c = -1 <-> ~ In c letters).
Proof.
  split; [exact idx_letter|]. split; [exact idx_valid | exact idx_outside].
Qed.

(** ** The totals of the counts *)

Lemma elt_alter (f : F32.f32 -> F32.f32) (a : list F32.f32) (i j : nat) :
  (i < length a)%nat ->
  elt (alter f i a) j = if decide (j = i) then f (elt a i) else elt a j.
Proof.
  intros Hi. unfold elt. destruct (decide (j = i)) as [->|Hne].
  - rewrite list_lookup_alter_eq.
    destruct (a !! i) eqn:E; [reflexivity|]. apply lookup_ge_None in E. lia.
  - now rewrite list_lookup_alter_ne by auto.
Qed.

Lemma to_int_add_one (w : F32.f32) :
  is_count w -> F32.to_int w < 2 ^ 24 ->
  F32.to_int (F32.add_one w) = F32.to_int w + 1.
Proof.
  intros [k Hk] Hlt. rewrite (to_int_count _ _ Hk) in *.
  rewrite (to_int_count _ _ (add_one_count _ _ Hk)). lia.
Qed.

Lemma is_count_elt (a : list F32.f32) (i : nat) : Forall is_count a -> is_count (elt a i).
Proof. intros H. eexists. apply (count_elt a H i). Qed.

Lemma array_total_incr (a : list F32.f32) (i : Z) (n : nat) :
  length a = 28%nat -> Forall is_count a -> 0 <= i < 28 ->
  F32.to_int (elt a (Z.to_nat i)) < 2 ^ 24 ->
  array_total n (incr i a)
  = array_total n a + (if decide (Z.to_nat i < n)%nat then 1 else 0).
Proof.
  intros Hl Hc Hi Hlt. unfold incr. induction n as [|n IH]; [reflexivity|].
  rewrite !array_total_S, IH, elt_alter by lia.
  destruct (decide (n = Z.to_nat i)) as [->|Hne].
  - rewrite to_int_add_one by (auto using is_count_elt).
    destruct (decide (Z.to_nat i < Z.to_nat i)%nat); [lia|].
    destruct (decide (Z.to_nat i < S (Z.to_nat i))%nat); lia.
  - destruct (decide (Z.to_nat i < n)%nat), (decide (Z.to_nat i < S n)%nat); lia.
Qed.

Lemma elt_le_total (a : list F32.f32) (i : nat) :
  length a = 28%nat -> Forall is_count a -> (i < 28)%nat ->
  F32.to_int (elt a i) <= array_total 28 a.
Proof.
  intros Hl Hc Hi.
  pose proof (array_total_mono a 28 Hl (le_n _) Hc (S i) 28 ltac:(lia)) as H1.
  pose proof (array_total_mono a 28 Hl (le_n _) Hc 0 i ltac:(lia)) as H2.
  rewrite array_total_S in H1. change (array_total 0 a) with 0 in H2. lia.
Qed.

(** A run of [+= 1.0] at indices of the array adds its length to the total,
    below the point where a float stops counting. *)
Lemma array_total_incrs (ixs : list Z) :
  forall a : list F32.f32,
    length a = 28%nat -> Forall is_count a ->
    Forall (fun i => 0 <= i < 28) ixs ->
    array_total 28 a + Z.of_nat (length ixs) <= 2 ^ 24 ->
    let a' := fold_left (fun a i => incr i a) ixs a in
    length a' = 28%nat /\ Forall is_count a' /\
    array_total 28 a' = array_total 28 a + Z.of_nat (length ixs).
Proof.
  induction ixs as [|i ixs IH]; intros a Hl Hc His Hb; cbn [fold_left length] in *.
  - repeat split; [exact Hl | exact Hc | lia].
  - inversion His as [|? ? Hi His']; subst.
    assert (Hl' : length (incr i a) = 28%nat) by (unfold incr; now rewrite length_alter).
    assert (Hc' : Forall is_count (incr i a))
      by (unfold incr; apply Forall_alter; auto using is_count_add_one).
    pose proof (elt_le_total a (Z.to_nat i) Hl Hc ltac:(lia)) as Hle.
    assert (Ht : array_total 28 (incr i a) = array_total 28 a + 1).
    { rewrite array_total_incr by (auto; lia).
      destruct (decide (Z.to_nat i < 28)%nat); lia. }
    destruct (IH (incr i a) Hl' Hc' His' ltac:(lia)) as (H1 & H2 & H3).
    repeat split; [exact H1 | exact H2 | lia].
Qed.

(** *** What a name adds to the arrays of [singles] *)

Lemma singles_middle_loop fuel buf2 q :
  forall p d,
    start (singles (middle_loop fuel buf2 p q d)) = start (singles d) /\
    end_ (singles (middle_loop fuel buf2 p q d)) = end_ (singles d).
Proof.
  induction fuel as [|fuel IH]; intros p d; simpl; [split; reflexivity|].
  destruct (p + 1 =? q - 2); [split; reflexivity|].
  destruct (IH (p + 1)
              (count3 on_middle (at_ buf2 (p + 1)) (at_ buf2 (p + 1 + 1))
                 (at_ buf2 (p + 1 + 2)) d)) as [-> ->].
  split; reflexivity.
Qed.

Lemma count_name_singles (w : list byte) (d : ltrdata) :
  start (singles (count_name w d)) = incr (idx (at_ w 0)) (start (singles d)) /\
  end_ (singles (count_name w d))
  = incr (idx (at_ w (Z.of_nat (length w) - 1))) (end_ (singles d)).
Proof.
  unfold count_name. destruct (_ =? 2).
  - split; reflexivity.
  - match goal with |- context [middle_loop ?f ?b ?p ?q ?d'] =>
      destruct (singles_middle_loop f b q p d') as [-> ->] end.
    split; reflexivity.
Qed.

Lemma fold_count3_arrays_fst (w : list byte) (l : list nat) :
  forall m,
    fst (fst (fold_left (fun m c => let '(c0, c1, c2) := window_at w c in
                                    count3_arrays c0 c1 c2 m) l m))
    = fold_left (fun a i => incr i a)
        (map (fun c => idx (at_ w (Z.of_nat c - 1))) l) (fst (fst m)).
Proof.
  induction l as [|c l IH]; intros [[s dd] t]; [reflexivity|].
  cbn [fold_left map]. rewrite IH. reflexivity.
Qed.

Lemma count_name_singles_middle (w : list byte) (d : ltrdata) :
  (3 <= length w)%nat ->
  middle (singles (count_name w d))
  = fold_left (fun a i => incr i a)
      (map (fun c => idx (at_ w (Z.of_nat c - 1))) (inner_positions (length w)))
      (middle (singles d)).
Proof.
  intros Hn.
  assert (Hend : forall x y z d',
             middles (on_triples x y (on_end (incr z))
                        (on_doubles y (on_end (incr z))
                           (on_singles (on_end (incr z)) d'))) = middles d').
  { intros. rewrite middles_on_triples_other, middles_on_doubles_other by reflexivity.
    reflexivity. }
  assert (Hmain : middles (count_name w d)
            = fold_left (fun m c => let '(c0, c1, c2) := window_at w c in
                                    count3_arrays c0 c1 c2 m)
                        (inner_positions (length w)) (middles d)).
  { unfold count_name, inner_positions.
    destruct (Z.of_nat (length w) - 1 - 0 =? 2) eqn:E.
    - apply Z.eqb_eq in E. replace (length w - 4)%nat with O by lia.
      simpl. now rewrite Hend, middles_count3_start.
    - apply Z.eqb_neq in E.
      rewrite (middle_loop_windows w _ (length w - 4)) by lia.
      now rewrite Hend, middles_count3_start. }
  change (middle (singles (count_name w d))) with (fst (fst (middles (count_name w d)))).
  rewrite Hmain. apply fold_count3_arrays_fst.
Qed.

(** *** Cleaned names are made of letters *)

Lemma clean_valid (buf : list byte) : Forall (fun c => valid c = true) (fst (clean buf)).
Proof.
  unfold clean. rewrite (proj1 (clean_loop_spec buf [] [] [])). simpl.
  apply Forall_forall. intros c Hc. apply list_elem_of_In, filter_In in Hc. tauto.
Qed.

Lemma idx_at_valid (w : list byte) (i : Z) :
  Forall (fun c => valid c = true) w -> 0 <= i < Z.of_nat (length w) ->
  0 <= idx (at_ w i) < 28.
Proof.
  intros Hw Hi. unfold at_.
  assert (Hin : w !!! Z.to_nat i ∈ w) by (apply list_elem_of_lookup_total_2; lia).
  pose proof (proj1 (Forall_forall _ _) Hw _ Hin) as Hv. unfold valid in Hv.
  apply negb_true_iff, Z.eqb_neq in Hv.
  exact (proj1 (idx_valid _ Hv)).
Qed.

(** *** The totals after all names *)

Lemma accepted_cons (buf : list byte) (names : list (list byte)) :
  accepted (buf :: names)
  = if Z.of_nat (length (fst (clean buf))) <? 3 then accepted names
    else fst (clean buf) :: accepted names.
Proof. unfold accepted. simpl. destruct (_ <? 3); reflexivity. Qed.

Lemma singles_arrays (d : ltrdata) :
  data_all is_count d ->
  (length (start (singles d)) = 28%nat /\ Forall is_count (start (singles d))) /\
  (length (middle (singles d)) = 28%nat /\ Forall is_count (middle (singles d))) /\
  (length (end_ (singles d)) = 28%nat /\ Forall is_count (end_ (singles d))).
Proof. intros (Hs & _). exact Hs. Qed.

Lemma count_name_totals (w : list byte) (d : ltrdata) :
  data_all is_count d -> Forall (fun c => valid c = true) w -> (3 <= length w)%nat ->
  (array_total 28 (start (singles d)) + 1 <= 2 ^ 24 ->
   array_total 28 (start (singles (count_name w d)))
   = array_total 28 (start (singles d)) + 1) /\
  (array_total 28 (end_ (singles d)) + 1 <= 2 ^ 24 ->
   array_total 28 (end_ (singles (count_name w d)))
   = array_total 28 (end_ (singles d)) + 1) /\
  (array_total 28 (middle (singles d)) + Z.of_nat (middle_windows w) <= 2 ^ 24 ->
   array_total 28 (middle (singles (count_name w d)))
   = array_total 28 (middle (singles d)) + Z.of_nat (middle_windows w)).
Proof.
  intros Hd Hw Hn.
  destruct (singles_arrays d Hd) as ([Ls Cs] & [Lm Cm] & [Le Ce]).
  destruct (count_name_singles w d) as [-> ->].
  rewrite (count_name_singles_middle w d Hn).
  split; [|split]; intros Hb.
  - apply (array_total_incrs [idx (at_ w 0)] (start (singles d)) Ls Cs);
      [|simpl; lia].
    constructor; [apply idx_at_valid; [exact Hw | lia] | constructor].
  - apply (array_total_incrs [idx (at_ w (Z.of_nat (length w) - 1))]
             (end_ (singles d)) Le Ce); [|simpl; lia].
    constructor; [apply idx_at_valid; [exact Hw | lia] | constructor].
  - unfold middle_windows in *.
    rewrite <- (length_map (fun c => idx (at_ w (Z.of_nat c - 1)))) in Hb |- *.
    apply (array_total_incrs _ (middle (singles d)) Lm Cm); [|exact Hb].
    apply Forall_map, Forall_forall. intros c Hc.
    apply list_elem_of_In in Hc. unfold inner_positions in Hc. apply in_seq in Hc.
    apply idx_at_valid; [exact Hw | lia].
Qed.

Lemma read_name_cases (d : ltrdata) (log : list build_msg) (buf : list byte) :
  read_name (d, log) buf
  = if Z.of_nat (length (fst (clean buf))) <? 3
    then (d, log ++ snd (clean buf) ++ [Name_too_short (fst (clean buf))])
    else (count_name (fst (clean buf)) d, log ++ snd (clean buf)).
Proof. unfold read_name. destruct (clean buf); reflexivity. Qed.

Lemma singles_totals_from (names : list (list byte)) :
  forall d log,
    data_all is_count d ->
    let d' := fst (fold_left read_name names (d, log)) in
    let ws := accepted names in
    (array_total 28 (start (singles d)) + Z.of_nat (length ws) <= 2 ^ 24 ->
     array_total 28 (start (singles d'))
     = array_total 28 (start (singles d)) + Z.of_nat (length ws)) /\
    (array_total 28 (end_ (singles d)) + Z.of_nat (length ws) <= 2 ^ 24 ->
     array_total 28 (end_ (singles d'))
     = array_total 28 (end_ (singles d)) + Z.of_nat (length ws)) /\
    (array_total 28 (middle (singles d)) + Z.of_nat (total_middle_windows ws) <= 2 ^ 24 ->
     array_total 28 (middle (singles d'))
     = array_total 28 (middle (singles d)) + Z.of_nat (total_middle_windows ws)).
Proof.
  induction names as [|buf names IH]; intros d log Hd; cbv zeta.
  - change (accepted []) with (@nil (list byte)).
    cbn [fold_left fst length].
    change (total_middle_windows []) with O.
    repeat split; intros; lia.
  - cbn [fold_left]. rewrite accepted_cons, read_name_cases.
    pose proof (clean_valid buf) as Hv.
    set (buf2 := fst (clean buf)) in *.
    destruct (Z.of_nat (length buf2) <? 3) eqn:E3.
    + specialize (IH d (log ++ snd (clean buf) ++ [Name_too_short buf2]) Hd).
      cbv zeta in IH. exact IH.
    + apply Z.ltb_ge in E3.
      pose proof (data_all_count_name is_count is_count_add_one buf2 d Hd) as Hd'.
      destruct (count_name_totals buf2 d Hd Hv ltac:(lia)) as (Ts & Te & Tm).
      specialize (IH (count_name buf2 d) (log ++ snd (clean buf)) Hd').
      cbv zeta in IH. destruct IH as (Is & Ie & Im).
      unfold total_middle_windows in *. cbn [length map] in *.
      change (list_sum (middle_windows buf2 :: map middle_windows (accepted names)))
        with (middle_windows buf2 + list_sum (map middle_windows (accepted names)))%nat.
      clearbody buf2.
      split; [|split]; intros Hb.
      * rewrite Nat2Z.inj_succ in *. specialize (Ts ltac:(lia)).
        rewrite Is; rewrite Ts; lia.
      * rewrite Nat2Z.inj_succ in *. specialize (Te ltac:(lia)).
        rewrite Ie; rewrite Te; lia.
      * rewrite Nat2Z.inj_add in *. specialize (Tm ltac:(lia)).
        rewrite Im; rewrite Tm; lia.
Qed.

Lemma array_total_zero_array : array_total 28 zero_array = 0.
Proof. vm_compute. reflexivity. Qed.

Lemma data_all_zero_count : data_all is_count zero_data.
Proof. apply data_all_zero. exact is_count_zero. Qed.

(** X5. The three totals that the first normalization loop computes for
    [singles]: [startcount] and [endcount] are the number of names that were
    counted (those left with at least three letters), [midcount] is the
    number of their middle windows, as long as these numbers do not exceed
    2^24, where a [float] stops counting. *)
Theorem singles_totals (names : list (list byte)) :
  let d := fst (count_names names) in
  let ws := accepted names in
  (Z.of_nat (length ws) <= 2 ^ 24 ->
   array_total 28 (start (singles d)) = Z.of_nat (length ws) /\
   array_total 28 (end_ (singles d)) = Z.of_nat (length ws)) /\
  (Z.of_nat (total_middle_windows ws) <= 2 ^ 24 ->
   array_total 28 (middle (singles d)) = Z.of_nat (total_middle_windows ws)) /\
  (forall w, In w ws ->
     (3 <= length w)%nat /\ Forall (fun c => In c letters) w /\
     middle_windows w = (length w - 4)%nat).
Proof.
  intros d ws.
  destruct (singles_totals_from names zero_data [] data_all_zero_count) as (Hs & He & Hm).
  fold (count_names names) in Hs, He, Hm. fold d ws in Hs, He, Hm.
  change (start (singles zero_data)) with zero_array in Hs.
  change (end_ (singles zero_data)) with zero_array in He.
  change (middle (singles zero_data)) with zero_array in Hm.
  rewrite array_total_zero_array in Hs, He, Hm.
  split; [intros Hb; split; [rewrite Hs | rewrite He]; lia|].
  split; [intros Hb; rewrite Hm; lia|].
  intros w Hw. unfold ws, accepted in Hw. apply filter_In in Hw.
  destruct Hw as [Hin Hlen]. apply in_map_iff in Hin. destruct Hin as (buf & <- & _).
  apply negb_true_iff, Z.ltb_ge in Hlen.
  split; [lia|]. split.
  - pose proof (clean_valid buf) as Hv. eapply Forall_impl; [exact Hv|].
    intros c Hc. simpl in Hc.
    destruct (idx_outside c) as [H1 H2].
    destruct (in_dec Byte.byte_eq_dec c letters) as [Hin|Hnin]; [exact Hin|].
    exfalso. unfold valid in Hc. apply negb_true_iff, Z.eqb_neq in Hc.
    apply Hc, H2, Hnin.
  - unfold middle_windows, inner_positions. apply length_seq.
Qed.

(** ** Input without a usable name *)

Lemma count_names_none (names : list (list byte)) :
  accepted names = [] ->
  forall d log, fst (fold_left read_name names (d, log)) = d.
Proof.
  induction names as [|buf names IH]; intros Ha d log; [reflexivity|].
  rewrite accepted_cons in Ha. cbn [fold_left]. unfold read_name at 2.
  destruct (clean buf) as [buf2 log']. cbn [fst] in Ha.
  destruct (Z.of_nat (length buf2) <? 3); [now apply IH | discriminate Ha].
Qed.

Lemma normalize_zero_data :
  normalize_data (Z.to_nat NUM_LETTERS) zero_data = zero_data.
Proof. vm_compute. reflexivity. Qed.

Lemma concat_replicate {A} (n k : nat) (x : A) :
  concat (replicate n (replicate k x)) = replicate (n * k) x.
Proof.
  induction n as [|n IH]; [reflexivity|].
  simpl. now rewrite IH, replicate_add.
Qed.

Lemma map_replicate {A B} (f : A -> B) (n : nat) (x : A) :
  map f (replicate n x) = replicate n (f x).
Proof. induction n as [|n IH]; [reflexivity | simpl; now rewrite IH]. Qed.

Lemma zero_data_bytes (big_endian : bool) :
  data_bytes big_endian zero_data = replicate (Z.to_nat DATA_SIZE) x00.
Proof.
  assert (Hc : cdf_bytes big_endian zero_cdf = replicate 336 x00)
    by (destruct big_endian; reflexivity).
  unfold data_bytes, zero_data. cbn [singles doubles triples].
  change (Z.to_nat NUM_LETTERS) with 28%nat.
  rewrite !map_replicate, Hc, !concat_replicate, <- !replicate_add.
  assert (E : (336 + (28 * 336 + 28 * (28 * 336)))%nat = Z.to_nat DATA_SIZE)
    by (unfold DATA_SIZE; lia).
  now rewrite E.
Qed.

Lemma built_none (names : list (list byte)) :
  accepted names = [] ->
  built names = Build_ltrfile (Build_ltr_header LTR_MAGIC NUM_LETTERS) zero_data.
Proof.
  intros Ha. unfold built, build_table.
  pose proof (count_names_none names Ha zero_data []) as Hd.
  fold (count_names names) in Hd.
  destruct (count_names names) as [d log]. cbn [fst] in *. subst d.
  cbn [num_letters]. now rewrite normalize_zero_data.
Qed.

(** X6. Input without a usable name (no name at all, or only names left
    with fewer than three letters): [build_ltr] leaves the table as
    [memset] made it, so the file is the header followed by 273168 zero
    bytes. *)
Theorem nothing_counted (big_endian : bool) (names : list (list byte)) :
  accepted names = [] ->
  built names = Build_ltrfile (Build_ltr_header LTR_MAGIC NUM_LETTERS) zero_data /\
  snd (fst (build_ltr big_endian names))
  = LTR_MAGIC ++ [x1c] ++ replicate (Z.to_nat DATA_SIZE) x00.
Proof.
  intros Ha. pose proof (built_none names Ha) as E.
  split; [exact E|].
  unfold build_ltr. unfold built in E.
  destruct (build_table names) as [t log]. cbn [fst snd] in *. subst t.
  unfold write_ltr, header_bytes. cbn [header data magic num_letters].
  rewrite zero_data_bytes, <- app_assoc. reflexivity.
Qed.

Lemma nothing_counted_witness :
  accepted [[x61; x62]; [x23; x61; x62; x63]; [x31; x32; x33; x34]] = [] /\
  built [[x61; x62]; [x23; x61; x62; x63]; [x31; x32; x33; x34]]
  = Build_ltrfile (Build_ltr_header LTR_MAGIC NUM_LETTERS) zero_data.
Proof.
  assert (H : accepted [[x61; x62]; [x23; x61; x62; x63]; [x31; x32; x33; x34]] = [])
    by reflexivity.
  split; [exact H|].
  exact (proj1 (nothing_counted false _ H)).
Defined.

(** ** The repair pass on a table that was just built *)

Lemma header_built (names : list (list byte)) :
  header (built names) = Build_ltr_header LTR_MAGIC NUM_LETTERS.
Proof. unfold built, build_table. now destruct (count_names names). Qed.

(** Each array of a built table, by its counts. *)
Lemma built_array (names : list (list byte)) (k : cdf_index) (p : position) :
  in_table k ->
  let a := array_of p (cdf_at (fst (count_names names)) k) in
  array_of p (cdf_at (data (built names)) k) = fst (normalize_array 28 a) /\
  length a = 28%nat /\ Forall is_count a.
Proof.
  intros Hk a.
  destruct (array_all_of is_count p _ (cdf_all_at is_count _ k (counted names) Hk))
    as [Hlen Hcount].
  split; [|split; [exact Hlen | exact Hcount]].
  rewrite data_built, (cdf_at_normalize is_count _ _ (counted names) Hk).
  apply array_of_normalize.
Qed.

(** A positive total leaves an entry within the tolerance; a total of zero
    leaves the zeros. *)
Lemma normalize_array_cases (a : list F32.f32) :
  length a = 28%nat -> Forall is_count a ->
  let a' := fst (normalize_array 28 a) in
  valid_cdf_array 28 a' /\
  (array_total 28 a = 0 -> all_zero 28 a') /\
  (array_total 28 a <> 0 -> ends_near_one 28 a' /\ ~ all_zero 28 a').
Proof.
  intros Hlen Hcount a'.
  destruct (normalize_array_valid a 28 Hlen (le_n _) Hcount) as [Hv H0].
  split; [exact Hv|]. split.
  - intros HT. destruct (H0 HT) as (E & Hz & _). unfold a'. now rewrite E.
  - intros HT.
    assert (Hnz : ~ all_zero 28 a').
    { pose proof (array_total_range a 28 Hlen (le_n _) Hcount 28%nat) as HR.
      assert (HT' : 0 < array_total 28 a) by lia.
      pose proof (for_loop_ind (norm_inv a 28) 28 (norm_array_body (array_total 28 a))
                    (a, F32.zero, O) (norm_inv_start a 28 Hlen (le_n _))
                    (fun i st Hi => norm_inv_step a 28 Hlen (le_n _) Hcount HT' i st Hi))
        as Hinv.
      unfold a', normalize_array.
      destruct (for_loop 28 _ _) as [[b s] nd]. cbn [fst].
      unfold norm_inv in Hinv.
      destruct Hinv as (_ & _ & _ & Hp & _ & _ & _ & _ & Hpos).
      destruct (Hpos HT') as (_ & last & Hl1 & Hl2 & _).
      intros Hz. destruct (Hp last Hl1 Hl2) as [Hn _].
      exact (normal_not_zero _ Hn (Hz last Hl1)). }
    split; [|exact Hnz].
    destruct Hv as [_ [Hz|[_ He]]]; [contradiction | exact He].
Qed.

Lemma near_one_all_zero (n : nat) (a : list F32.f32) :
  all_zero n a -> reaches_one n a = false.
Proof.
  intros Hz. apply reaches_one_false. intros i Hi. rewrite (Hz i Hi). reflexivity.
Qed.

Lemma near_one_ends (n : nat) (a : list F32.f32) :
  ends_near_one n a -> reaches_one n a = true.
Proof.
  intros (last & Hl & _ & Ht & _). apply reaches_one_true.
  exists last. split; [exact Hl | now apply near_one_in_tolerance].
Qed.

(** The walk over an array of zeros stores nothing. *)
Lemma repair_walk_zeros (raw : list F32.f32) :
  Forall (fun x => x = F32.zero) raw ->
  forall first acc prev off,
    repair_walk first acc prev off raw = (raw, acc).
Proof.
  induction 1 as [|x raw -> _ IH]; intros first acc prev off; [reflexivity|].
  cbn [repair_walk]. change (F32.ne_zero F32.zero) with false. cbv iota.
  now rewrite IH.
Qed.

Lemma all_zero_Forall (a : list F32.f32) :
  all_zero (length a) a -> Forall (fun x => x = F32.zero) a.
Proof.
  intros Hz. apply Forall_lookup. intros i x Hi.
  pose proof (lookup_lt_Some _ _ _ Hi) as Hlt.
  specialize (Hz i Hlt). unfold elt in Hz. now rewrite Hi in Hz.
Qed.

Lemma fix_table_zeros (which : position) (a : list F32.f32) :
  all_zero (length a) a ->
  fst (fix_table which (length a) a) = a /\
  forall x, In (Fix_warning x) (snd (fix_table which (length a) a)) <-> x = F32.zero.
Proof.
  intros Hz. apply all_zero_Forall in Hz.
  pose proof (repair_walk_zeros a Hz true F32.zero F32.zero F32.zero) as Hw.
  fold (walked a) in Hw.
  split.
  - unfold fix_table. cbn [fst]. now rewrite fix_run_table, Hw.
  - intros x. rewrite fix_table_warning, fix_run_accumulator, Hw. cbn [snd].
    split; [tauto|]. intros ->. split; reflexivity.
Qed.

Lemma ltrfile_ext (t1 t2 : ltrfile) :
  header t1 = header t2 ->
  start (singles (data t1)) = start (singles (data t2)) ->
  middle (singles (data t1)) = middle (singles (data t2)) ->
  end_ (singles (data t1)) = end_ (singles (data t2)) ->
  doubles (data t1) = doubles (data t2) ->
  triples (data t1) = triples (data t2) ->
  t1 = t2.
Proof.
  destruct t1 as [h1 [[s1 m1 e1] d1 r1]], t2 as [h2 [[s2 m2 e2] d2 r2]].
  simpl. now intros -> -> -> -> -> ->.
Qed.

Lemma built_singles_judged (names : list (list byte)) :
  let t := built names in
  let d := fst (count_names names) in
  Z.to_nat (num_letters (header t)) = 28%nat /\
  (judged_corrupt 2 t = true <-> array_total 28 (middle (singles d)) = 0) /\
  (judged_corrupt 1 t = true <-> array_total 28 (end_ (singles d)) = 0) /\
  (judged_corrupt 2 t = true ->
   fst (fix_table Middle 28 (middle (singles (data t)))) = middle (singles (data t)) /\
   forall x, In (Fix_warning x) (snd (fix_table Middle 28 (middle (singles (data t)))))
             <-> x = F32.zero) /\
  (judged_corrupt 1 t = true ->
   fst (fix_table End 28 (end_ (singles (data t)))) = end_ (singles (data t)) /\
   forall x, In (Fix_warning x) (snd (fix_table End 28 (end_ (singles (data t)))))
             <-> x = F32.zero).
Proof.
  intros t d.
  assert (Hn : Z.to_nat (num_letters (header t)) = 28%nat)
    by (unfold t; now rewrite header_built).
  destruct (built_array names Single Middle I) as (Em & Lm & Cm).
  destruct (built_array names Single End I) as (Ee & Le & Ce).
  cbn [cdf_at array_of] in Em, Lm, Cm, Ee, Le, Ce. fold t d in Em, Lm, Cm, Ee, Le, Ce.
  destruct (normalize_array_cases _ Lm Cm) as ((_ & _) & Zm & Pm).
  destruct (normalize_array_cases _ Le Ce) as ((_ & _) & Ze & Pe).
  cbv zeta in Zm, Pm, Ze, Pe. rewrite <- Em in Zm, Pm. rewrite <- Ee in Ze, Pe.
  assert (Lm' : length (middle (singles (data t))) = 28%nat).
  { destruct (wf_built names) as [_ ((_ & [H _] & _) & _)]. exact H. }
  assert (Le' : length (end_ (singles (data t))) = 28%nat).
  { destruct (wf_built names) as [_ ((_ & _ & [H _]) & _)]. exact H. }
  assert (Jm : judged_corrupt 2 t = true <-> array_total 28 (middle (singles d)) = 0).
  { rewrite judged_corrupt_middle, Hn, negb_true_iff. split.
    - intros Hr. destruct (Z.eq_dec (array_total 28 (middle (singles d))) 0) as [E|E];
        [exact E|]. rewrite (near_one_ends _ _ (proj1 (Pm E))) in Hr. discriminate Hr.
    - intros E. apply near_one_all_zero, Zm, E. }
  assert (Je : judged_corrupt 1 t = true <-> array_total 28 (end_ (singles d)) = 0).
  { rewrite judged_corrupt_end, Hn, negb_true_iff. split.
    - intros Hr. destruct (Z.eq_dec (array_total 28 (end_ (singles d))) 0) as [E|E];
        [exact E|]. rewrite (near_one_ends _ _ (proj1 (Pe E))) in Hr. discriminate Hr.
    - intros E. apply near_one_all_zero, Ze, E. }
  split; [exact Hn|]. split; [exact Jm|]. split; [exact Je|]. split.
  - intros J. rewrite <- Lm'. apply fix_table_zeros. rewrite Lm'.
    apply Zm, Jm, J.
  - intros J. rewrite <- Le'. apply fix_table_zeros. rewrite Le'.
    apply Ze, Je, J.
Qed.

Lemma repair_built (names : list (list byte)) : repair (built names) = built names.
Proof.
  destruct (built_singles_judged names) as (Hn & _ & _ & Fm & Fe).
  cbv zeta in Hn, Fm, Fe. set (t := built names) in *.
  destruct (fix_ltr_frame t) as (Hh & Hs & Hd & Ht).
  apply ltrfile_ext; try assumption.
  - rewrite fix_ltr_middle, Hn.
    destruct (judged_corrupt 2 t) eqn:J; [exact (proj1 (Fm eq_refl)) | reflexivity].
  - rewrite fix_ltr_end, Hn.
    destruct (judged_corrupt 1 t) eqn:J; [exact (proj1 (Fe eq_refl)) | reflexivity].
Qed.

(** X7. On a table that [build_ltr] has just made, [fix_ltr] changes
    nothing.  It judges [singles.middle] (and likewise [singles.end]) corrupt
    exactly when the array is empty, that is when the total of its counts
    was zero, and then prints the warning with the accumulator 0.0; no
    other warning is printed. *)
Theorem fix_built (names : list (list byte)) :
  let t := built names in
  let d := fst (count_names names) in
  repair t = t /\
  (judged_corrupt 2 t = true <-> array_total 28 (middle (singles d)) = 0) /\
  (judged_corrupt 1 t = true <-> array_total 28 (end_ (singles d)) = 0) /\
  (forall x, In (Fix_warning x) (snd (fix_ltr t)) <->
             x = F32.zero /\ (judged_corrupt 2 t = true \/ judged_corrupt 1 t = true)).
Proof.
  intros t d.
  destruct (built_singles_judged names) as (Hn & Jm & Je & Fm & Fe).
  fold t d in Hn, Jm, Je, Fm, Fe.
  split; [apply repair_built|split; [exact Jm | split; [exact Je|]]].
  intros x. rewrite fix_ltr_snd, Hn, !in_app_iff.
  destruct (judged_corrupt 2 t) eqn:J2, (judged_corrupt 1 t) eqn:J1;
    try rewrite (proj2 (Fm eq_refl) x); try rewrite (proj2 (Fe eq_refl) x);
    destruct (negb (detect t =? 0)); simpl; intuition congruence.
Qed.

(** ** The sampler draws only what the table supports *)

(** *** [nrand] is not negative *)

Lemma dec_sign (w : F32.f32) : F32.sign_field w = false -> nonneg_sf (F32.dec w).
Proof.
  intros Hs. unfold F32.dec. rewrite Hs.
  destruct (F32.exp_field w =? 0).
  - destruct (F32.frac_field w); reflexivity.
  - destruct (F32.exp_field w =? 255).
    + destruct (F32.frac_field w =? 0); reflexivity.
    + destruct (F32.frac_field w + 2 ^ 23); reflexivity.
Qed.

Lemma small_sign (w : Z) : 0 <= w < 2 ^ 31 -> F32.sign_field w = false.
Proof.
  intros H. unfold F32.sign_field. apply Z.testbit_false; [lia|].
  rewrite Z.div_small by exact H. reflexivity.
Qed.

Lemma enc_sign (x : spec_float) : nonneg_sf x -> F32.sign_field (F32.enc x) = false.
Proof.
  intros Hx. apply small_sign.
  assert (H8 : forall z, 0 <= z mod 2 ^ 8 < 256) by (intros; apply Z.mod_pos_bound; lia).
  assert (H23 : forall z, 0 <= z mod 2 ^ 23 < 8388608)
    by (intros; apply Z.mod_pos_bound; lia).
  change (2 ^ 31) with 2147483648.
  destruct x as [s|s| |s m e]; simpl in Hx; try subst s; unfold F32.enc, F32.sign_bit;
    change (2 ^ 23) with 8388608 in *; change (2 ^ 22) with 4194304; try lia.
  destruct (Z.pos (digits2_pos m) =? F32.prec).
  - specialize (H8 (e + 150)). specialize (H23 (Z.pos m)).
    change (2 ^ 23) with 8388608 in *. lia.
  - specialize (H23 (Z.pos m)). change (2 ^ 23) with 8388608 in *. lia.
Qed.

Lemma round_aux_nonneg prec emax m e l :
  nonneg_sf (binary_round_aux prec emax false m e l).
Proof.
  unfold binary_round_aux.
  destruct (shr_fexp prec emax m e l) as [mrs' e'].
  destruct (shr_fexp prec emax _ e' loc_Exact) as [mrs'' e''].
  destruct (shr_m mrs''); [reflexivity | | exact I].
  destruct (e'' <=? emax - prec); reflexivity.
Qed.

Lemma normalize_nonneg prec emax n e :
  0 <= n -> nonneg_sf (binary_normalize prec emax n e false).
Proof.
  intros Hn. destruct n as [|p|p]; [reflexivity | | lia].
  unfold binary_normalize, binary_round.
  destruct (shl_align p e _) as [mz ez]. apply round_aux_nonneg.
Qed.

Lemma div_nonneg prec emax x y :
  nonneg_sf x -> nonneg_sf y -> nonneg_sf (SFdiv prec emax x y).
Proof.
  intros Hx Hy.
  destruct x as [sx|sx| |sx mx ex], y as [sy|sy| |sy my ey]; simpl in *;
    try subst sx; try subst sy; try reflexivity; try exact I.
  destruct (SFdiv_core_binary _ _ _ _ _ _) as [[mz ez] lz].
  apply round_aux_nonneg.
Qed.

Lemma of_int_nonneg (n : Z) : 0 <= n -> nonneg_sf (F32.dec (F32.of_int n)).
Proof.
  intros Hn. apply dec_sign, enc_sign, normalize_nonneg, Hn.
Qed.

Lemma nrand_nonneg (RAND_MAX r : Z) :
  0 <= RAND_MAX -> 0 <= r -> nonneg_sf (F32.dec (nrand RAND_MAX r)).
Proof.
  intros HR Hr. unfold nrand, F32.div.
  apply dec_sign, enc_sign, div_nonneg; now apply of_int_nonneg.
Qed.

(** *** What exceeds a draw is positive *)

Lemma SF2Q_neg (m : positive) (e : Z) :
  (F32.SF2Q (S754_finite true m e) < 0)%Q.
Proof.
  unfold F32.SF2Q. cbn [cond_Zopp]. destruct e as [|p|p].
  - unfold Qlt. simpl. lia.
  - unfold Qlt. simpl. lia.
  - unfold Qlt. simpl. lia.
Qed.

Lemma SF2Q_nonneg (m : positive) (e : Z) :
  (0 < F32.SF2Q (S754_finite false m e))%Q.
Proof.
  rewrite SF2Q_pow. apply Qmult_lt_0_compat; [|apply pow2_pos].
  change 0%Q with (inject_Z 0). rewrite <- Zlt_Qlt. lia.
Qed.

Lemma lt_positive (p x : F32.f32) :
  nonneg_sf (F32.dec p) -> F32.lt p x = true -> F32.gt_zero x = true.
Proof.
  unfold F32.lt, F32.gt_zero, F32.SFltb_exact, F32.SFcompare_exact, F32.d_zero.
  destruct (F32.dec p) as [sp|sp| |sp mp ep], (F32.dec x) as [sx|sx| |sx mx ex];
    cbn -[F32.SF2Q Qcompare]; intros Hp; try subst sp; try discriminate;
    try (destruct sx; intros H; try discriminate H; reflexivity).
  destruct sx; [|reflexivity]. intros H. exfalso.
  destruct (Qcompare _ _) eqn:E; try discriminate H.
  pose proof (proj2 (Qlt_alt _ _) E) as L.
  pose proof (SF2Q_neg mx ex). pose proof (SF2Q_nonneg mp ep). lra.
Qed.

(** *** The walk stays within the supported words *)

Section Support.

Variable RAND_MAX : Z.
Variable ltr : ltrfile.
Hypothesis HR : 0 <= RAND_MAX.

Let n := Z.to_nat (num_letters (header ltr)).

Lemma scan_positive (r : Z) (a : list F32.f32) (i : nat) :
  0 <= r -> scan n (nrand RAND_MAX r) a = i -> (i < n)%nat ->
  F32.gt_zero (elt a i) = true.
Proof.
  intros Hr Hs Hi.
  destruct (proj2 (scan_first n _ a i) (conj Hs Hi)) as (_ & Hlt & _).
  eapply lt_positive; [apply nrand_nonneg | exact Hlt]; assumption.
Qed.

Lemma scan_found (r : Z) (a : list F32.f32) :
  0 <= r -> (scan n (nrand RAND_MAX r) a =? n)%nat = false ->
  (scan n (nrand RAND_MAX r) a < n)%nat /\
  F32.gt_zero (elt a (scan n (nrand RAND_MAX r) a)) = true.
Proof.
  intros Hr E. apply Nat.eqb_neq in E. pose proof (scan_le n (nrand RAND_MAX r) a).
  assert (L : (scan n (nrand RAND_MAX r) a < n)%nat) by lia.
  split; [exact L | now apply (scan_positive r)].
Qed.

Lemma drawn_length (w : list byte) : drawn ltr w -> (3 <= length w)%nat.
Proof. induction 1; rewrite ?length_app; simpl; lia. Qed.

Lemma drawn_removelast (w : list byte) :
  drawn ltr w -> (4 <= length w)%nat -> drawn ltr (removelast w).
Proof.
  intros H. destruct H.
  - simpl. lia.
  - intros _. now rewrite removelast_last.
Qed.

Lemma first_letters_drawn (rng : list Z) res rng' :
  Forall (fun r => 0 <= r) rng ->
  first_letters RAND_MAX ltr rng = Some (res, rng') ->
  Forall (fun r => 0 <= r) rng' /\
  match res with
  | Again => True
  | Continue w => drawn ltr (name w)
  | Done _ => False
  end.
Proof.
  intros Hrng. unfold first_letters. fold n.
  destruct rng as [|r1 rng]; [discriminate|].
  inversion Hrng as [|? ? Hr1 Hrng1]; subst.
  destruct (_ =? n)%nat eqn:E1; [intros [= <- <-]; now split|].
  destruct (scan_found r1 _ Hr1 E1) as [L1 G1].
  destruct rng as [|r2 rng]; [discriminate|].
  inversion Hrng1 as [|? ? Hr2 Hrng2]; subst.
  destruct (Nat.eqb (scan n (nrand RAND_MAX r2) _) n) eqn:E2;
    [intros [= <- <-]; now split|].
  destruct (scan_found r2 _ Hr2 E2) as [L2 G2].
  destruct rng as [|r3 rng]; [discriminate|].
  inversion Hrng2 as [|? ? Hr3 Hrng3]; subst.
  destruct (Nat.eqb (scan n (nrand RAND_MAX r3) _) n) eqn:E3;
    [intros [= <- <-]; now split|].
  destruct (scan_found r3 _ Hr3 E3) as [L3 G3].
  intros [= <- <-]. split; [exact Hrng3|].
  cbn [name app]. now apply drawn_start.
Qed.

Lemma extend_drawn (w : walk) (rng : list Z) res rng' :
  drawn ltr (name w) ->
  Forall (fun r => 0 <= r) rng ->
  extend RAND_MAX ltr w rng = Some (res, rng') ->
  Forall (fun r => 0 <= r) rng' /\
  match res with
  | Again => True
  | Continue w' => drawn ltr (name w')
  | Done (Returned s) =>
      exists i, (i < n)%nat /\
        F32.gt_zero (elt (end_ (context ltr (Build_walk (name w) 0))) i) = true /\
        s = capitalize (name w ++ [letters !!! i])
  | Done Buffer_overflow => True
  end.
Proof.
  intros Hw Hrng. pose proof (drawn_length _ Hw) as Hlen.
  unfold extend. fold n.
  destruct rng as [|r1 [|r2 rng]]; try discriminate.
  inversion Hrng as [|? ? Hr1 Hrng1]; subst.
  inversion Hrng1 as [|? ? Hr2 Hrng2]; subst.
  change (at_ (at_ (triples (data ltr)) (idx (p_2 w))) (idx (p_1 w)))
    with (context ltr (Build_walk (name w) 0)).
  set (c := context ltr (Build_walk (name w) 0)).
  destruct (Nat.ltb (if Z.rem r2 12 <=? Z.of_nat (length (name w))
                     then scan n (nrand RAND_MAX r1) (end_ c) else n) n) eqn:Ee.
  - apply Nat.ltb_lt in Ee.
    destruct (Z.rem r2 12 <=? Z.of_nat (length (name w))); [|lia].
    pose proof (scan_positive r1 (end_ c) _ Hr1 eq_refl Ee) as G.
    destruct (_ <? NAMEBUF_SIZE); intros [= <- <-]; (split; [exact Hrng2|]);
      [eexists; split; [exact Ee|]; split; [exact G | reflexivity] | exact I].
  - destruct (Nat.ltb (scan n (nrand RAND_MAX r1) (middle c)) n) eqn:Em.
    + apply Nat.ltb_lt in Em.
      pose proof (scan_positive r1 (middle c) _ Hr1 eq_refl Em) as G.
      destruct (_ <? NAMEBUF_SIZE); intros [= <- <-]; (split; [exact Hrng2|]);
        [|exact I].
      cbn [name]. now apply drawn_middle.
    + destruct (Z.of_nat (length (name w)) - 1 <? 3) eqn:E3;
        [intros [= <- <-]; now split|].
      destruct (attempts w + 1 >? 100); intros [= <- <-]; (split; [exact Hrng2|]);
        [exact I|].
      cbn [name]. apply Z.ltb_ge in E3. apply drawn_removelast; [exact Hw | lia].
Qed.

Lemma run_drawn (fuel : nat) :
  forall w rng s rng',
    (forall w', w = Some w' -> drawn ltr (name w')) ->
    Forall (fun r => 0 <= r) rng ->
    run RAND_MAX ltr fuel w rng = Some (Returned s, rng') ->
    exists w0 i, drawn ltr w0 /\ (i < n)%nat /\
      F32.gt_zero (elt (end_ (context ltr (Build_walk w0 0))) i) = true /\
      s = capitalize (w0 ++ [letters !!! i]).
Proof.
  induction fuel as [|fuel IH]; intros w rng s rng' Hw Hrng; simpl; [discriminate|].
  destruct w as [w|].
  - destruct (extend RAND_MAX ltr w rng) as [[res rng1]|] eqn:E; [|discriminate].
    destruct (extend_drawn _ _ _ _ (Hw w eq_refl) Hrng E) as [Hrng1 Hres].
    destruct res as [|w1|[s1|]].
    + apply IH; [intros ? [=] | exact Hrng1].
    + apply IH; [intros ? [= <-]; exact Hres | exact Hrng1].
    + intros [= <- <-]. destruct Hres as (i & Hi & G & ->).
      exists (name w), i. repeat split; auto.
    + discriminate.
  - destruct (first_letters RAND_MAX ltr rng) as [[res rng1]|] eqn:E; [|discriminate].
    destruct (first_letters_drawn _ _ _ Hrng E) as [Hrng1 Hres].
    destruct res as [|w1|o]; [| |contradiction].
    + apply IH; [intros ? [=] | exact Hrng1].
    + apply IH; [intros ? [= <-]; exact Hres | exact Hrng1].
Qed.

(** Without a positive entry in [singles.start] the label [again] is never
    left. *)
Lemma run_no_start (fuel : nat) :
  (forall i, (i < n)%nat -> F32.gt_zero (elt (start (singles (data ltr))) i) = false) ->
  forall rng, Forall (fun r => 0 <= r) rng -> run RAND_MAX ltr fuel None rng = None.
Proof.
  intros Hz. induction fuel as [|fuel IH]; intros rng Hrng; [reflexivity|].
  cbn [run]. unfold first_letters. fold n.
  destruct rng as [|r1 rng]; [reflexivity|].
  inversion Hrng as [|? ? Hr1 Hrng1]; subst.
  destruct (_ =? n)%nat eqn:E1; [now apply IH|].
  destruct (scan_found r1 _ Hr1 E1) as [L1 G1].
  rewrite Hz in G1 by exact L1. discriminate G1.
Qed.

End Support.

(** X8. Every name that [random_name] returns is supported by the table,
    letter by letter (before the first letter is capitalized): the first
    three letters have positive entries in [singles.start], in the [start]
    array of [doubles] for the first letter and in the [start] array of
    [triples] for the first two; every further letter but the last has a
    positive entry in the [middle] array of the two letters before it, and
    the last letter a positive entry in their [end] array.  An entry that is
    zero, negative or NaN is never drawn. *)
Theorem sampled_support (RAND_MAX : Z) (ltr : ltrfile) (draws : list Z)
    (s : list byte) (rng' : list Z) :
  0 <= RAND_MAX -> Forall (fun r => 0 <= r) draws ->
  random_name RAND_MAX ltr draws = Some (Returned s, rng') ->
  exists w i,
    drawn ltr w /\ (i < Z.to_nat (num_letters (header ltr)))%nat /\
    F32.gt_zero (elt (end_ (context ltr (Build_walk w 0))) i) = true /\
    s = capitalize (w ++ [letters !!! i]).
Proof.
  intros HR Hd Hr. unfold random_name in Hr.
  eapply (run_drawn RAND_MAX ltr HR); [|exact Hd | exact Hr].
  intros ? [=].
Qed.

Lemma sampled_support_witness :
  0 <= RAND_MAX_glibc /\ Forall (fun r => 0 <= r) [0; 0; 0; 0; 0] /\
  random_name RAND_MAX_glibc table_anna [0; 0; 0; 0; 0]
  = Some (Returned [x41; x6e; x6e; x61], []) /\
  exists w i,
    drawn table_anna w /\ (i < Z.to_nat (num_letters (header table_anna)))%nat /\
    F32.gt_zero (elt (end_ (context table_anna (Build_walk w 0))) i) = true /\
    [x41; x6e; x6e; x61] = capitalize (w ++ [letters !!! i]).
Proof.
  assert (H0 : 0 <= RAND_MAX_glibc) by (unfold RAND_MAX_glibc; lia).
  assert (HF : Forall (fun r => 0 <= r) [0; 0; 0; 0; 0])
    by (repeat apply List.Forall_cons; try apply List.Forall_nil; lia).
  assert (Hr : random_name RAND_MAX_glibc table_anna [0; 0; 0; 0; 0]
               = Some (Returned [x41; x6e; x6e; x61], []))
    by (vm_compute; reflexivity).
  split; [exact H0|]. split; [exact HF|]. split; [exact Hr|].
  exact (sampled_support _ _ _ _ _ H0 HF Hr).
Defined.

Lemma gt_zero_zero_array (i : nat) : F32.gt_zero (elt zero_array i) = false.
Proof.
  destruct (le_lt_dec 28 i) as [L|L].
  - rewrite elt_ge; [reflexivity|]. exact L.
  - do 28 (destruct i as [|i]; [reflexivity|]). lia.
Qed.

(** X9. A table whose [singles.start] has no positive entry gives no
    name: [random_name] goes back to the label [again] after every first
    draw and never returns, whatever the draws are.  This is the case of the
    table built from input without a usable name. *)
Theorem no_start_no_name (RAND_MAX : Z) (ltr : ltrfile) (draws : list Z) :
  0 <= RAND_MAX -> Forall (fun r => 0 <= r) draws ->
  ((forall i, (i < Z.to_nat (num_letters (header ltr)))%nat ->
      F32.gt_zero (elt (start (singles (data ltr))) i) = false) ->
   random_name RAND_MAX ltr draws = None) /\
  (forall names, accepted names = [] ->
     random_name RAND_MAX (built names) draws = None).
Proof.
  intros HR Hd. split.
  - intros Hz. unfold random_name. now apply run_no_start.
  - intros names Ha. unfold random_name. apply run_no_start; [exact HR | | exact Hd].
    intros i _. rewrite (built_none names Ha). apply gt_zero_zero_array.
Qed.

Lemma no_start_no_name_witness :
  0 <= RAND_MAX_glibc /\ Forall (fun r => 0 <= r) [0; 7; 2147483647] /\
  random_name RAND_MAX_glibc (built []) [0; 7; 2147483647] = None.
Proof.
  assert (H0 : 0 <= RAND_MAX_glibc) by (unfold RAND_MAX_glibc; lia).
  assert (HF : Forall (fun r => 0 <= r) [0; 7; 2147483647])
    by (repeat apply List.Forall_cons; try apply List.Forall_nil; lia).
  split; [exact H0|]. split; [exact HF|].
  exact (proj2 (no_start_no_name RAND_MAX_glibc (built []) _ H0 HF) [] eq_refl).
Defined.

(** ** Positive entries are counted letters *)

Lemma gt_zero_normal (w : F32.f32) : normal_pos w -> F32.gt_zero w = true.
Proof. intros (m & e & H & _). unfold F32.gt_zero. now rewrite H. Qed.

Lemma normalize_array_entries (a : list F32.f32) (i : nat) :
  length a = 28%nat -> Forall is_count a -> (i < 28)%nat ->
  let x := elt (fst (normalize_array 28 a)) i in
  (F32.to_int (elt a i) = 0 -> x = F32.zero) /\
  (0 < F32.to_int (elt a i) -> normal_pos x).
Proof.
  intros Hlen Hcount Hi x.
  destruct (Z.eq_dec (array_total 28 a) 0) as [HT|HT].
  - destruct (normalize_array_valid a 28 Hlen (le_n _) Hcount) as [_ H0].
    destruct (H0 HT) as (E & Hz & _). unfold x. rewrite E.
    split; [intros _; now apply Hz|].
    intros Hk. pose proof (array_total_zero a 28 Hlen (le_n _) Hcount 28 i HT Hi). lia.
  - pose proof (array_total_range a 28 Hlen (le_n _) Hcount 28%nat) as HR.
    assert (HT' : 0 < array_total 28 a) by lia.
    pose proof (for_loop_ind (norm_inv a 28) 28 (norm_array_body (array_total 28 a))
                  (a, F32.zero, O) (norm_inv_start a 28 Hlen (le_n _))
                  (fun i st Hi => norm_inv_step a 28 Hlen (le_n _) Hcount HT' i st Hi))
      as Hinv.
    unfold x, normalize_array.
    destruct (for_loop 28 _ _) as [[b s] nd]. cbn [fst].
    unfold norm_inv in Hinv.
    destruct Hinv as (_ & _ & Hz & Hp & _).
    split; [intros Hk; now apply Hz | intros Hk; now apply Hp].
Qed.

(** The test [> 0.0] on an entry of a built table, by its count. *)
Lemma built_gt_zero (names : list (list byte)) (k : cdf_index) (p : position)
    (i : nat) :
  in_table k -> (i < 28)%nat ->
  let count := F32.to_int (elt (array_of p (cdf_at (fst (count_names names)) k)) i) in
  let x := elt (array_of p (cdf_at (data (built names)) k)) i in
  0 <= count <= 2 ^ 24 /\
  (count = 0 -> x = F32.zero) /\
  (0 < count -> normal_pos x) /\
  F32.gt_zero x = (0 <? count).
Proof.
  intros Hk Hi count x.
  destruct (built_array names k p Hk) as (E & Hlen & Hcount). cbv zeta in *.
  pose proof (count_range _ Hcount i) as Hr. fold count in Hr.
  destruct (normalize_array_entries _ i Hlen Hcount Hi) as [Hz Hp].
  cbv zeta in Hz, Hp. rewrite <- E in Hz, Hp. fold count x in Hz, Hp.
  split; [exact Hr|]. split; [exact Hz|]. split; [exact Hp|].
  destruct (Z.eq_dec count 0) as [E0|E0].
  - rewrite (Hz E0), E0. reflexivity.
  - rewrite (gt_zero_normal _ (Hp ltac:(lia))). symmetry. apply Z.ltb_lt. lia.
Qed.

(** X10. An entry of a built table is +0.0 where the letter was never
    counted in that place, and a positive number where it was: the test
    [> 0.0] on an entry tells whether its count was positive. *)
Theorem built_positive (names : list (list byte)) (k : cdf_index) (p : position)
    (i : nat) :
  in_table k -> (i < 28)%nat ->
  let count := F32.to_int (elt (array_of p (cdf_at (fst (count_names names)) k)) i) in
  let x := elt (array_of p (cdf_at (data (built names)) k)) i in
  0 <= count <= 2 ^ 24 /\
  (count = 0 -> x = F32.zero) /\
  (0 < count -> normal_pos x) /\
  F32.gt_zero x = (0 <? count).
Proof.
  intros Hk Hi count x.
  destruct (built_array names k p Hk) as (E & Hlen & Hcount). cbv zeta in *.
  pose proof (count_range _ Hcount i) as Hr. fold count in Hr.
  destruct (normalize_array_entries _ i Hlen Hcount Hi) as [Hz Hp].
  cbv zeta in Hz, Hp. rewrite <- E in Hz, Hp. fold count x in Hz, Hp.
  split; [exact Hr|]. split; [exact Hz|]. split; [exact Hp|].
  destruct (Z.eq_dec count 0) as [E0|E0].
  - rewrite (Hz E0), E0. reflexivity.
  - rewrite (gt_zero_normal _ (Hp ltac:(lia))). symmetry. apply Z.ltb_lt. lia.
Qed.

Lemma built_positive_witness :
  in_table (Triple 0 13) /\ (13 < 28)%nat /\
  F32.gt_zero (elt (array_of Start (cdf_at (data (built [anna])) (Triple 0 13))) 13)
  = (0 <? F32.to_int
            (elt (array_of Start (cdf_at (fst (count_names [anna])) (Triple 0 13))) 13)).
Proof.
  assert (H1 : in_table (Triple 0 13)) by (unfold in_table, NUM_LETTERS; lia).
  assert (H2 : (13 < 28)%nat) by lia.
  split; [exact H1|]. split; [exact H2|].
  exact (proj2 (proj2 (proj2 (built_positive [anna] (Triple 0 13) Start 13 H1 H2)))).
Defined.

(** ** Names drawn from a built table *)

Lemma gt_zero_counts (names : list (list byte)) (k : cdf_index) (p : position)
    (i : nat) :
  in_table k -> (i < 28)%nat ->
  F32.gt_zero (elt (array_of p (cdf_at (data (built names)) k)) i) = true ->
  F32.gt_zero (elt (array_of p (cdf_at (data (counts_table names)) k)) i) = true /\
  0 < F32.to_int (elt (array_of p (cdf_at (data (counts_table names)) k)) i).
Proof.
  intros Hk Hi H.
  destruct (built_gt_zero names k p i Hk Hi) as (_ & _ & _ & E). cbv zeta in E.
  rewrite E in H. clear E.
  destruct (built_array names k p Hk) as (_ & _ & Hcount). cbv zeta in Hcount.
  change (data (counts_table names)) with (fst (count_names names)).
  rewrite (gt_zero_elt _ Hcount). split; [exact H | now apply Z.ltb_lt].
Qed.

Lemma built_letters (names : list (list byte)) :
  Z.to_nat (num_letters (header (built names))) = 28%nat /\
  Z.to_nat (num_letters (header (counts_table names))) = 28%nat.
Proof. rewrite header_built. split; reflexivity. Qed.

Lemma drawn_indices (ltr : ltrfile) (w : list byte) :
  Z.to_nat (num_letters (header ltr)) = 28%nat ->
  drawn ltr w -> Forall (fun c => 0 <= idx c < 28) w.
Proof.
  intros Hn. induction 1 as [i j k Hi Hj Hk _ _ _|w i _ IH Hi _]; rewrite Hn in *.
  - repeat constructor; rewrite idx_letter by assumption; lia.
  - apply Forall_app. split; [exact IH|].
    repeat constructor; rewrite idx_letter by assumption; lia.
Qed.

Lemma context_index (ltr : ltrfile) (w : list byte) :
  Forall (fun c => 0 <= idx c < 28) w -> (2 <= length w)%nat ->
  exists a b, context ltr (Build_walk w 0) = cdf_at (data ltr) (Triple a b) /\
              in_table (Triple a b) /\
              forall ltr', context ltr' (Build_walk w 0) = cdf_at (data ltr') (Triple a b).
Proof.
  intros Hw Hlen.
  exists (idx (p_2 (Build_walk w 0))), (idx (p_1 (Build_walk w 0))).
  split; [reflexivity|]. split; [|reflexivity].
  unfold in_table, NUM_LETTERS, p_1, p_2, at_. cbn [name].
  split; apply (proj1 (Forall_forall _ _) Hw); apply list_elem_of_lookup_total_2; lia.
Qed.

Lemma drawn_counts (names : list (list byte)) (w : list byte) :
  drawn (built names) w -> drawn (counts_table names) w.
Proof.
  destruct (built_letters names) as [Hb Hc].
  induction 1 as [i j k Hi Hj Hk G1 G2 G3|w i Hw IH Hi G].
  - rewrite Hb in Hi, Hj, Hk.
    apply drawn_start; rewrite ?Hc; try assumption.
    + exact (proj1 (gt_zero_counts names Single Start i I Hi G1)).
    + assert (Ht : in_table (Double (idx (letters !!! i))))
        by (unfold in_table, NUM_LETTERS; rewrite idx_letter by exact Hi; lia).
      exact (proj1 (gt_zero_counts names (Double _) Start j Ht Hj G2)).
    + destruct (context_index (built names) [letters !!! i; letters !!! j])
        as (a & b & E & Ht & E'); [|simpl; lia|].
      { repeat constructor; rewrite idx_letter by assumption; lia. }
      rewrite E in G3. rewrite E'.
      exact (proj1 (gt_zero_counts names (Triple a b) Start k Ht Hk G3)).
  - rewrite Hb in Hi.
    apply drawn_middle; rewrite ?Hc; try assumption.
    destruct (context_index (built names) w) as (a & b & E & Ht & E').
    + exact (drawn_indices _ _ Hb Hw).
    + pose proof (drawn_length _ _ Hw). lia.
    + rewrite E in G. rewrite E'.
      exact (proj1 (gt_zero_counts names (Triple a b) Middle i Ht Hi G)).
Qed.

(** X11. A name generated from a built table is made of transitions that
    the training names show: its first three letters were counted as the
    start of a name, each further letter but the last was counted in the
    middle after the two letters before it, and the last letter was counted
    at the end after the two before it. *)
Theorem sampled_from_counts (RAND_MAX : Z) (names : list (list byte))
    (draws : list Z) (s : list byte) (rng' : list Z) :
  0 <= RAND_MAX -> Forall (fun r => 0 <= r) draws ->
  random_name RAND_MAX (built names) draws = Some (Returned s, rng') ->
  exists w i,
    drawn (counts_table names) w /\ (i < 28)%nat /\
    0 < F32.to_int (elt (end_ (context (counts_table names) (Build_walk w 0))) i) /\
    s = capitalize (w ++ [letters !!! i]).
Proof.
  intros HR Hd Hr. unfold random_name in Hr.
  destruct (run_drawn RAND_MAX (built names) HR _ None draws s rng'
              ltac:(intros ? [=]) Hd Hr) as (w & i & Hw & Hi & G & ->).
  destruct (built_letters names) as [Hb Hc]. rewrite Hb in Hi.
  exists w, i. split; [now apply drawn_counts|]. split; [exact Hi|].
  split; [|reflexivity].
  destruct (context_index (built names) w) as (a & b & E & Ht & E').
  - exact (drawn_indices _ _ Hb Hw).
  - pose proof (drawn_length _ _ Hw). lia.
  - rewrite E in G. rewrite E'.
    exact (proj2 (gt_zero_counts names (Triple a b) End i Ht Hi G)).
Qed.

Lemma sampled_from_counts_witness :
  0 <= RAND_MAX_glibc /\ Forall (fun r => 0 <= r) [0; 0; 0; 0; 0] /\
  random_name RAND_MAX_glibc (built [anna]) [0; 0; 0; 0; 0]
  = Some (Returned [x41; x6e; x6e; x61], []) /\
  exists w i,
    drawn (counts_table [anna]) w /\ (i < 28)%nat /\
    0 < F32.to_int (elt (end_ (context (counts_table [anna]) (Build_walk w 0))) i) /\
    [x41; x6e; x6e; x61] = capitalize (w ++ [letters !!! i]).
Proof.
  assert (H0 : 0 <= RAND_MAX_glibc) by (unfold RAND_MAX_glibc; lia).
  assert (HF : Forall (fun r => 0 <= r) [0; 0; 0; 0; 0])
    by (repeat apply List.Forall_cons; try apply List.Forall_nil; lia).
  assert (Hr : random_name RAND_MAX_glibc (built [anna]) [0; 0; 0; 0; 0]
               = Some (Returned [x41; x6e; x6e; x61], []))
    by (vm_compute; reflexivity).
  split; [exact H0|]. split; [exact HF|]. split; [exact Hr|].
  exact (sampled_from_counts _ _ _ _ _ H0 HF Hr).
Defined.

(** ** The listing *)




Lemma last_positive_cases (a : list F32.f32) (k : nat) :
  last_positive a k = F32.zero /\
  (forall j, (j < k)%nat -> F32.gt_zero (elt a j) = false) \/
  exists j, (j < k)%nat /\ F32.gt_zero (elt a j) = true /\
            last_positive a k = elt a j /\
            forall j', (j < j' < k)%nat -> F32.gt_zero (elt a j') = false.
Proof.
  induction k as [|k IH].
  - left. split; [reflexivity | intros; lia].
  - cbn [last_positive]. destruct (F32.gt_zero (elt a k)) eqn:E.
    + right. exists k. repeat split; [lia | exact E | intros; lia].
    + destruct IH as [[Hz Hn]|(j & Hj & Gj & Hl & Hn)].
      * left. split; [exact Hz|]. intros j Hj.
        destruct (decide (j = k)) as [->|]; [exact E | apply Hn; lia].
      * right. exists j. repeat split; [lia | exact Gj | exact Hl|].
        intros j' Hj'. destruct (decide (j' = k)) as [->|]; [exact E | apply Hn; lia].
Qed.


(** ** The listing of a built table *)

(** *** Differences of entries *)

Lemma to_double_plus (x : F32.f32) (m : positive) (e : Z) :
  F32.dec x = S754_finite false m e -> Z.pos (digits2_pos m) = 24 ->
  plus_double (F32.to_double x).
Proof.
  intros Hx Hd. pose proof (proj1 (proj2 (dec_finite x _ _ _ Hx))) as He.
  unfold F32.to_double. rewrite Hx.
  destruct (binary_round_spec 53 1024 ltac:(lia) m e)
    as (m2 & e2 & M & Hr & _); rewrite ?Hd; try lia.
  right. now exists m2, e2.
Qed.

Lemma scale_le_inv (a b e : Z) :
  (inject_Z a * 2 ^ e <= inject_Z b * 2 ^ e)%Q -> a <= b.
Proof.
  intros H. destruct (Z_le_gt_dec a b) as [L|L]; [exact L|].
  exfalso. apply (Qle_not_lt _ _ H). apply scale_lt. lia.
Qed.

Lemma aligned_value (m : positive) (e ez : Z) :
  ez <= e ->
  (inject_Z (Z.pos (fst (shl_align m e ez))) * 2 ^ ez == inject_Z (Z.pos m) * 2 ^ e)%Q.
Proof.
  intros H. rewrite (shl_align_fst m e ez H).
  rewrite <- (scale_pow2 (Z.pos m) ez (e - ez)) by lia.
  now replace (ez + (e - ez)) with e by lia.
Qed.

Lemma sub_plus (x s : F32.f32) (mx ms : positive) (ex es : Z) :
  F32.dec x = S754_finite false mx ex -> Z.pos (digits2_pos mx) = 24 ->
  F32.dec s = S754_finite false ms es -> Z.pos (digits2_pos ms) = 24 ->
  -60 <= ex <= 60 -> -60 <= es <= 60 ->
  (val s <= val x)%Q ->
  plus_double (F32.to_double (f32_sub x s)).
Proof.
  intros Hx Hdx Hs Hds Hex Hes Hle.
  rewrite (val_finite _ _ _ Hx), (val_finite _ _ _ Hs) in Hle.
  unfold f32_sub. rewrite Hx, Hs. unfold SFsub. cbn [cond_Zopp].
  set (ez := Z.min ex es).
  pose proof (aligned_value mx ex ez ltac:(lia)) as Ha.
  pose proof (aligned_value ms es ez ltac:(lia)) as Hb.
  set (a' := fst (shl_align mx ex ez)) in *.
  set (b' := fst (shl_align ms es ez)) in *.
  rewrite <- Ha, <- Hb in Hle. apply scale_le_inv in Hle.
  destruct (Z.pos a' - Z.pos b') as [|d|d] eqn:Ed; [left; reflexivity | | lia].
  cbn [binary_normalize].
  pose proof (magnitude d ez) as [Ml Mu].
  pose proof (normal_bounds mx ex Hdx) as [_ Xu]. rewrite <- Ha in Xu.
  assert (Hda : (inject_Z (Z.pos d) * 2 ^ ez <= inject_Z (Z.pos a') * 2 ^ ez)%Q)
    by (apply scale_le; lia).
  assert (Hmag : Z.pos (digits2_pos d) + ez - 1 < 24 + ex).
  { apply pow2_lt_inv. eapply Qle_lt_trans; [exact Ml|].
    eapply Qle_lt_trans; [exact Hda | exact Xu]. }
  assert (Hd1 : 1 <= Z.pos (digits2_pos d)) by lia.
  destruct (binary_round_spec 24 128 ltac:(lia) d ez)
    as (m3 & e3 & M & Hr & Hd3 & He3 & _); try lia.
  unfold F32.prec, F32.emax. rewrite Hr.
  apply (to_double_plus _ m3 e3); [|exact Hd3].
  apply dec_enc_normal; [exact Hd3 | lia].
Qed.

Lemma sub_zero_plus (x : F32.f32) (m : positive) (e : Z) :
  F32.dec x = S754_finite false m e -> Z.pos (digits2_pos m) = 24 ->
  plus_double (F32.to_double (f32_sub x F32.zero)).
Proof.
  intros Hx Hd. pose proof (proj1 (proj2 (dec_finite x _ _ _ Hx))) as He.
  unfold f32_sub. rewrite Hx. change (F32.dec F32.zero) with (S754_zero false).
  cbn [SFsub]. apply (to_double_plus _ m e); [|exact Hd].
  now apply dec_enc_normal.
Qed.

Lemma eq_zero_normal (x : F32.f32) (m : positive) (e : Z) :
  F32.dec x = S754_finite false m e -> F32.eq_zero x = false.
Proof. intros H. unfold F32.eq_zero. now rewrite H. Qed.

(** *** The entries of a normalized array, with their exponents *)

Lemma normalize_array_exponents (a : list F32.f32) :
  length a = 28%nat -> Forall is_count a ->
  forall j, (j < 28)%nat ->
    let x := elt (fst (normalize_array 28 a)) j in
    x = F32.zero \/
    exists m e, F32.dec x = S754_finite false m e /\
                Z.pos (digits2_pos m) = 24 /\ -54 <= e <= 59.
Proof.
  intros Hlen Hcount j Hj x.
  destruct (Z.eq_dec (array_total 28 a) 0) as [HT|HT].
  - left. destruct (normalize_array_valid a 28 Hlen (le_n _) Hcount) as [_ H0].
    destruct (H0 HT) as (E & Hz & _). unfold x. rewrite E. now apply Hz.
  - pose proof (array_total_range a 28 Hlen (le_n _) Hcount) as HR.
    assert (HT' : 0 < array_total 28 a) by (specialize (HR 28%nat); lia).
    pose proof (count_range a Hcount) as Hk.
    set (P := fun (i : nat) (st : list F32.f32 * F32.f32 * nat) =>
                norm_inv a 28 i st /\
                forall j, (j < i)%nat -> 0 < F32.to_int (elt a j) ->
                  exists m e, F32.dec (elt (fst (fst st)) j) = S754_finite false m e /\
                              Z.pos (digits2_pos m) = 24 /\ -54 <= e <= 59).
    assert (Hinv : P 28%nat (for_loop 28 (norm_array_body (array_total 28 a))
                               (a, F32.zero, O))).
    { apply (for_loop_ind P); unfold P.
      - split; [apply (norm_inv_start a 28 Hlen (le_n _)) | intros; lia].
      - intros i st Hi [Hn Hx].
        pose proof (norm_inv_step a 28 Hlen (le_n _) Hcount HT' i st Hi Hn) as Hn'.
        split; [exact Hn'|]. intros j' Hj' Hkj.
        destruct st as [[b s] nd]. cbn [fst] in Hx.
        assert (Hb : length b = 28%nat)
          by (unfold norm_inv in Hn; destruct Hn as (L & _); lia).
        destruct (decide (j' = i)) as [->|Hne].
        + destruct (norm_array_body (array_total 28 a) i (b, s, nd)) as [[b' s'] nd'].
          cbn [fst]. unfold norm_inv in Hn'.
          destruct Hn' as (_ & _ & _ & _ & _ & _ & _ & _ & Hpos).
          assert (HRS : 0 < array_total (S i) a).
          { rewrite array_total_S. specialize (HR i). lia. }
          destruct (Hpos HRS) as ((m & e & Hs & Hd & He) & last & Hl1 & Hl2 & Hl3 & Hl4).
          assert (last = i).
          { destruct (decide (last = i)) as [E|E]; [exact E|].
            specialize (Hl4 i ltac:(lia)). lia. }
          subst last. rewrite Hl3. exists m, e. repeat split; try assumption; lia.
        + unfold norm_array_body.
          destruct (F32.gt_zero (elt b i)); cbn [fst];
            [rewrite elt_insert_ne by auto|]; apply Hx; try assumption; lia. }
    unfold P in Hinv. destruct Hinv as [Hn Hx]. unfold x, normalize_array.
    destruct (for_loop 28 _ _) as [[b s] nd]. cbn [fst] in *.
    destruct (Z.eq_dec (F32.to_int (elt a j)) 0) as [E|E].
    + left. unfold norm_inv in Hn. destruct Hn as (_ & _ & Hz & _). now apply Hz.
    + right. apply Hx; [exact Hj | specialize (Hk j); lia].
Qed.

(** *** The cells of a line *)

Lemma built_cell (names : list (list byte)) (k : cdf_index) (p : position) (i : nat) :
  in_table k -> (i < 28)%nat ->
  let a := array_of p (cdf_at (data (built names)) k) in
  let c := print_cell_of (elt a i) (last_positive a i) in
  plus_double (cell_cdf c) /\ plus_double (cell_p c).
Proof.
  intros Hk Hi a c.
  destruct (built_array names k p Hk) as (E & Hlen & Hcount). cbv zeta in E, Hlen, Hcount.
  fold a in E.
  destruct (normalize_array_valid _ 28 Hlen (le_n _) Hcount) as [Hv _].
  rewrite <- E in Hv.
  pose proof (normalize_array_exponents _ Hlen Hcount) as Hx.
  cbv zeta in Hx. rewrite <- E in Hx.
  unfold c, print_cell_of. cbn [cell_cdf cell_p].
  destruct (Hx i Hi) as [Hz|(m & e & Hd & Hdig & He)].
  - rewrite Hz. split; left; reflexivity.
  - rewrite (eq_zero_normal _ _ _ Hd).
    split; [exact (to_double_plus _ _ _ Hd Hdig)|].
    destruct (last_positive_cases a i) as [[-> _]|(j & Hj & Gj & -> & _)].
    + exact (sub_zero_plus _ _ _ Hd Hdig).
    + assert (Hnz : forall w, F32.gt_zero w = true -> w <> F32.zero)
        by (intros w Hw ->; discriminate Hw).
      destruct (Hx j ltac:(lia)) as [Hzj|(mj & ej & Hdj & Hdigj & Hej)];
        [exfalso; exact (Hnz _ Gj Hzj)|].
      apply (sub_plus _ _ m mj e ej); try assumption; try lia.
      destruct Hv as [_ [Hall|[Hmono _]]].
      * exfalso. rewrite (Hall i Hi) in Hd. discriminate Hd.
      * apply Hmono; [lia | now apply Hnz |].
        intros Hzi. rewrite Hzi in Hd. discriminate Hd.
Qed.

Lemma built_row (names : list (list byte)) (prefix : list byte) (k : cdf_index)
    (i : nat) :
  in_table k -> (i < 28)%nat ->
  let r := row_of prefix (cdf_at (data (built names)) k) i in
  (plus_double (cell_cdf (row_start r)) /\ plus_double (cell_p (row_start r))) /\
  (plus_double (cell_cdf (row_middle r)) /\ plus_double (cell_p (row_middle r))) /\
  (plus_double (cell_cdf (row_end r)) /\ plus_double (cell_p (row_end r))).
Proof.
  intros Hk Hi. split; [|split].
  - exact (built_cell names k Start i Hk Hi).
  - exact (built_cell names k Middle i Hk Hi).
  - exact (built_cell names k End i Hk Hi).
Qed.

(** X13. The listing of a table that [build_ltr] made shows no negative
    number and no NaN: on every line the six values are +0.0 or positive
    numbers; in particular the difference of an entry and the positive
    entry before it, which is the probability of the letter, is never below
    zero. *)
Theorem built_listing (names : list (list byte)) :
  Forall (fun r =>
            (plus_double (cell_cdf (row_start r)) /\ plus_double (cell_p (row_start r))) /\
            (plus_double (cell_cdf (row_middle r)) /\ plus_double (cell_p (row_middle r))) /\
            (plus_double (cell_cdf (row_end r)) /\ plus_double (cell_p (row_end r))))
         (table_rows (built names)).
Proof.
  apply Forall_forall. intros r Hr. apply list_elem_of_In in Hr.
  unfold table_rows in Hr. rewrite header_built in Hr.
  change (Z.to_nat (num_letters (Build_ltr_header LTR_MAGIC NUM_LETTERS)))
    with 28%nat in Hr.
  unfold rows_of in Hr.
  apply in_app_or in Hr. destruct Hr as [Hr|Hr]; [|apply in_app_or in Hr; destruct Hr as [Hr|Hr]].
  - apply in_map_iff in Hr. destruct Hr as (i & <- & Hi). apply in_seq in Hi.
    apply (built_row names [] Single i I). lia.
  - apply in_flat_map in Hr. destruct Hr as (i & Hi & Hr). apply in_seq in Hi.
    apply in_map_iff in Hr. destruct Hr as (j & <- & Hj). apply in_seq in Hj.
    apply (built_row names _ (Double (Z.of_nat i)) j); [|lia].
    unfold in_table, NUM_LETTERS. lia.
  - apply in_flat_map in Hr. destruct Hr as (i & Hi & Hr). apply in_seq in Hi.
    apply in_flat_map in Hr. destruct Hr as (j & Hj & Hr). apply in_seq in Hj.
    apply in_map_iff in Hr. destruct Hr as (k & <- & Hk). apply in_seq in Hk.
    apply (built_row names _ (Triple (Z.of_nat i) (Z.of_nat j)) k); [|lia].
    unfold in_table, NUM_LETTERS. lia.
Qed.

(** ** The command line *)

Section CommandLineFacts.

Variable sscanf : list byte -> list byte -> scanned.

Lemma parse_body_flag (f : flag) (argv : list (list byte)) (i : nat) (c : cfg.t) :
  flag_value f (fst (parse_body sscanf argv i c))
  = Z.lor (flag_value f c) (Z.b2z (flag_given f (arg argv i))).
Proof.
  unfold parse_body.
  destruct (sscanf (arg argv i) Lit.seed_d), (sscanf (arg argv i) Lit.generate_d),
    (streq (arg argv i) Lit.s), (streq (arg argv i) Lit.generate),
    (streq (arg argv i) Lit.g), (sscanf (arg argv (S i)) Lit.d);
    destruct f; reflexivity.
Qed.

Lemma parse_body_next (argv : list (list byte)) (i : nat) (c : cfg.t) :
  snd (parse_body sscanf argv i c) = i \/
  snd (parse_body sscanf argv i c) = S i /\ arg argv i = Lit.g /\
  exists v, sscanf (arg argv (S i)) Lit.d = Assigned v.
Proof.
  unfold parse_body.
  destruct (sscanf (arg argv i) Lit.generate_d); cbn [snd]; auto;
    destruct (streq (arg argv i) Lit.generate); cbn [snd]; auto;
    (destruct (streq (arg argv i) Lit.g) eqn:G; cbn [snd]; auto;
     apply bool_decide_eq_true in G;
     destruct (sscanf (arg argv (S i)) Lit.d) eqn:D; cbn [snd]; eauto).
Qed.

Lemma lor_flag (x : Z) (b : bool) :
  (x = 0 \/ x = 1) ->
  (Z.lor x (Z.b2z b) = 0 \/ Z.lor x (Z.b2z b) = 1) /\
  (Z.lor x (Z.b2z b) = 1 <-> x = 1 \/ b = true).
Proof.
  intros [-> | ->]; destruct b; cbn; split; auto; split; auto; intros [H|H]; auto; discriminate.
Qed.

(** The loop from [i] on: a flag stays 0 or 1; it is 1 at the end when it
    was before or an option met sets it; every [j] from [i] on that is not
    the number of a [-g] is met. *)
Lemma parse_loop_flag (f : flag) (argv : list (list byte)) (fuel i : nat) (c : cfg.t) :
  (1 <= i)%nat -> (length argv <= fuel + i)%nat ->
  flag_value f c = 0 \/ flag_value f c = 1 ->
  let c' := parse_loop sscanf fuel argv i c in
  (flag_value f c' = 0 \/ flag_value f c' = 1) /\
  (flag_value f c' = 1 ->
   flag_value f c = 1 \/
   exists j, (i <= j /\ S j < length argv)%nat /\ flag_given f (arg argv j) = true) /\
  (flag_value f c = 1 -> flag_value f c' = 1) /\
  (forall j, (i <= j /\ S j < length argv)%nat ->
             flag_given f (arg argv j) = true ->
             j = i \/ ~ taken_by_g sscanf argv j ->
             flag_value f c' = 1).
Proof.
  revert i c. induction fuel as [|fuel IH]; intros i c H1i Hf H01.
  - cbn. split; [exact H01|]. split; [auto|]. split; [auto|]. intros j Hj. lia.
  - cbn [parse_loop]. destruct (S i <? length argv)%nat eqn:Hi.
    2:{ apply Nat.ltb_ge in Hi. cbv zeta. split; [exact H01|]. split; [auto|].
        split; [auto|]. intros j Hj. lia. }
    apply Nat.ltb_lt in Hi.
    pose proof (parse_body_flag f argv i c) as Hb.
    pose proof (parse_body_next argv i c) as Hn.
    destruct (parse_body sscanf argv i c) as [c1 i1]. cbn [fst snd] in Hb, Hn.
    destruct (lor_flag _ (flag_given f (arg argv i)) H01) as [H01' H1]. rewrite <- Hb in H01', H1.
    assert (Hi1 : (i <= i1 <= S i)%nat) by (destruct Hn as [->|[-> _]]; lia).
    specialize (IH (S i1) c1 ltac:(lia) ltac:(lia) H01'). cbv zeta in IH |- *.
    destruct IH as (IH0 & IH1 & IH2 & IH3).
    split; [exact IH0|]. split; [|split].
    + intros E. destruct (IH1 E) as [E1|(j & Hj & Gj)].
      * apply H1 in E1. destruct E1 as [E1|E1]; [now left|].
        right. exists i. split; [lia|exact E1].
      * right. exists j. split; [lia|exact Gj].
    + intros E. apply IH2, H1. now left.
    + intros j Hj Gj Hv.
      destruct (Nat.eq_dec j i) as [->|Hne].
      { apply IH2, H1. now right. }
      destruct Hv as [Hv|Hv]; [contradiction|].
      destruct (Nat.eq_dec j (S i1)) as [->|Hne1].
      { apply (IH3 (S i1)); [lia|exact Gj|now left]. }
      destruct Hn as [->|(-> & Hg & v & Hs)].
      * apply (IH3 j); [lia|exact Gj|now right].
      * destruct (Nat.eq_dec j (S i)) as [->|Hne2].
        -- exfalso. apply Hv. split; [lia|]. split.
           ++ replace (S i - 1)%nat with i by lia. exact Hg.
           ++ now exists v.
        -- apply (IH3 j); [lia|exact Gj|now right].
Qed.

Lemma parse_cmdline_cases (argv : list (list byte)) :
  let c := cfg.set_ltrfile (arg argv (length argv - 1))
             (parse_loop sscanf (length argv) argv 1 cfg.zero) in
  (length argv < 3)%nat /\ parse_cmdline sscanf argv = inl Help \/
  (3 <= length argv)%nat /\
  (cfg.print c = 0 /\ cfg.build c = 0 /\ cfg.generate c = 0 /\
   parse_cmdline sscanf argv = inl Need_at_least_one \/
   (cfg.print c <> 0 \/ cfg.build c <> 0 \/ cfg.generate c <> 0) /\
   parse_cmdline sscanf argv = inr c).
Proof.
  intros c. unfold parse_cmdline. fold c.
  destruct (length argv <? 3)%nat eqn:E.
  - left. apply Nat.ltb_lt in E. now split.
  - right. apply Nat.ltb_ge in E. split; [exact E|].
    destruct (cfg.print c =? 0) eqn:Ep; [apply Z.eqb_eq in Ep|apply Z.eqb_neq in Ep];
      [|right; split; [now left|reflexivity]].
    destruct (cfg.build c =? 0) eqn:Eb; [apply Z.eqb_eq in Eb|apply Z.eqb_neq in Eb];
      [|right; split; [right; now left|reflexivity]].
    destruct (cfg.generate c =? 0) eqn:Eg; [apply Z.eqb_eq in Eg|apply Z.eqb_neq in Eg];
      [|right; split; [right; now right|reflexivity]].
    left. cbn. auto.
Qed.

Lemma flag_value_set_ltrfile (f : flag) (v : list byte) (c : cfg.t) :
  flag_value f (cfg.set_ltrfile v c) = flag_value f c.
Proof. now destruct f. Qed.

End CommandLineFacts.

(** X14. [parse_cmdline] ends the program with the help text in two cases:
    when there are fewer than three arguments (with the program name), and,
    after the line "Need at least one of -p, -b, -g", when there are three
    or more and the loop over the options leaves [print], [build] and
    [generate] all zero; in every other case the program goes on.  When it
    goes on, the last argument is the file name, whatever it looks like, and
    is never taken as an option; [print], [build] and [nofix] end as 0 or 1;
    such a flag is 1 only if one of the two spellings of its option stands
    between the program name and the file name, and it is 1 whenever one
    stands there that is not a number taken by a [-g] just before it.  With
    such a [-p] or [-b] the program goes on; when it goes on, one of
    [print], [build] and [generate] is not zero. *)
Theorem parse_cmdline_flags (sscanf : list byte -> list byte -> scanned)
    (argv : list (list byte)) :
  let argc := length argv in
  let option_at f i := (1 <= i /\ S i < argc)%nat /\ flag_given f (arg argv i) = true in
  let after_loop := parse_loop sscanf argc argv 1 cfg.zero in
  (parse_cmdline sscanf argv = inl Help <-> (argc < 3)%nat) /\
  (parse_cmdline sscanf argv = inl Need_at_least_one <->
     (3 <= argc)%nat /\ cfg.print after_loop = 0 /\ cfg.build after_loop = 0 /\
     cfg.generate after_loop = 0) /\
  (forall c, parse_cmdline sscanf argv = inr c ->
     c = cfg.set_ltrfile (arg argv (argc - 1)) after_loop /\
     cfg.ltrfile c = arg argv (argc - 1) /\
     (cfg.print c <> 0 \/ cfg.build c <> 0 \/ cfg.generate c <> 0) /\
     forall f,
       (flag_value f c = 0 \/ flag_value f c = 1) /\
       (flag_value f c = 1 -> exists i, option_at f i) /\
       (forall i, option_at f i -> ~ taken_by_g sscanf argv i -> flag_value f c = 1)) /\
  (forall i f, option_at f i -> ~ taken_by_g sscanf argv i -> f <> Flag_nofix ->
     exists c, parse_cmdline sscanf argv = inr c).
Proof.
  intros argc option_at after_loop.
  pose proof (parse_cmdline_cases sscanf argv) as Hc. cbv zeta in Hc. fold argc in Hc.
  fold after_loop in Hc.
  assert (Hl : forall f,
             let c' := parse_loop sscanf argc argv 1 cfg.zero in
             (flag_value f c' = 0 \/ flag_value f c' = 1) /\
             (flag_value f c' = 1 -> exists i, option_at f i) /\
             (forall i, option_at f i -> ~ taken_by_g sscanf argv i ->
                        flag_value f c' = 1)).
  { intros f.
    destruct (parse_loop_flag sscanf f argv argc 1 cfg.zero) as (H0 & H1 & _ & H3);
      [lia|unfold argc; lia|left; now destruct f|].
    cbv zeta. split; [exact H0|]. split.
    - intros E. destruct (H1 E) as [E0|(j & Hj & Gj)].
      + destruct f; discriminate E0.
      + exists j. now split.
    - intros i (Hi & Hg) Hn. apply (H3 i Hi Hg). now right. }
  split; [|split; [|split]].
  - destruct Hc as [(Hlt & ->)|(Hge & [(_ & _ & _ & ->)|(_ & ->)])]; split; try lia;
      try discriminate; auto.
  - destruct Hc as [(Hlt & ->)|(Hge & [(Zp & Zb & Zg & ->)|(Hnz & ->)])].
    + split; [discriminate|]. intros [? _]. lia.
    + split; [|reflexivity]. intros _. cbn in Zp, Zb, Zg. auto.
    + split; [discriminate|]. intros (_ & Zp & Zb & Zg). exfalso.
      cbn in Hnz. tauto.
  - intros c Hp.
    destruct Hc as [(Hlt & E)|(Hge & [(_ & _ & _ & E)|(Hnz & E)])];
      rewrite E in Hp; try discriminate Hp.
    injection Hp as <-. split; [reflexivity|]. split; [reflexivity|]. split; [exact Hnz|].
    intros f. rewrite flag_value_set_ltrfile. apply Hl.
  - intros i f Hm Hn Hf. unfold after_loop in Hc.
    destruct Hc as [(Hlt & E)|(Hge & [(Zp & Zb & _ & E)|(Hnz & E)])].
    + destruct Hm as [[? ?] _]. fold argc in Hlt. lia.
    + exfalso. destruct (Hl f) as (_ & _ & H1).
      pose proof (H1 i Hm Hn) as E1.
      destruct f; cbn in E1, Zp, Zb; try congruence; lia.
    + eauto.
Qed.

(** ** The program *)

Section ProgramFacts.

Variable big_endian : bool.
Variable RAND_MAX : Z.
Variable time_NULL : Z.
Variable rand_after : Z -> list Z.
Variable stdin_words : list (list byte).
Variable creatable : list byte -> bool.

Lemma build_ltr_built :
  build_ltr big_endian stdin_words
  = (built stdin_words, write_ltr big_endian (built stdin_words),
     snd (build_table stdin_words)).
Proof.
  unfold build_ltr, built. now destruct (build_table stdin_words).
Qed.

(** After [build_ltr] the repair pass leaves the table as it is, so that
    the listing and the names do not depend on [cfg.nofix]. *)
Lemma main_table_built (c : cfg.t) (v : Z) (rng : list Z) :
  let r := main_table RAND_MAX c (built stdin_words) rng in
  let r' := main_table RAND_MAX (cfg.set_nofix v c) (built stdin_words) rng in
  fst (fst r') = fst (fst r) /\ snd r' = snd r /\
  fst (fst r)
  = map Listing (if cfg.print c =? 0 then [] else print_ltr (built stdin_words))
    ++ fst (generate_loop RAND_MAX (S (Z.to_nat (cfg.generate c))) (cfg.generate c)
              (built stdin_words) rng).
Proof.
  assert (H : forall c,
             fst (fst (main_table RAND_MAX c (built stdin_words) rng))
             = map Listing (if cfg.print c =? 0 then [] else print_ltr (built stdin_words))
               ++ fst (generate_loop RAND_MAX (S (Z.to_nat (cfg.generate c)))
                         (cfg.generate c) (built stdin_words) rng) /\
             snd (main_table RAND_MAX c (built stdin_words) rng)
             = snd (generate_loop RAND_MAX (S (Z.to_nat (cfg.generate c)))
                      (cfg.generate c) (built stdin_words) rng)).
  { intros c0. unfold main_table.
    assert (E : (if cfg.nofix c0 =? 0 then fix_ltr (built stdin_words)
                 else (built stdin_words, []))
                = (built stdin_words,
                   if cfg.nofix c0 =? 0 then snd (fix_ltr (built stdin_words)) else [])).
    { destruct (cfg.nofix c0 =? 0); [|reflexivity].
      pose proof (repair_built stdin_words) as R. unfold repair in R.
      destruct (fix_ltr (built stdin_words)) as [t l]. cbn [fst snd] in *. now rewrite R. }
    rewrite E.
    destruct (generate_loop RAND_MAX _ _ _ _) as [names e]. now split. }
  cbv zeta. destruct (H c) as [H1 H2], (H (cfg.set_nofix v c)) as [H1' H2'].
  rewrite H1, H1', H2, H2'. cbn [cfg.set_nofix cfg.print cfg.generate]. auto.
Qed.

End ProgramFacts.

(** X15. With [-b] the table that is listed and from which the names are
    drawn is the one just built, as it was written to the file: the repair
    pass changes nothing, so [-n] makes no difference to what [main] prints
    on stdout, to the file and to how the run ends; and the old content of
    the file is never read. *)
Theorem build_run (big_endian : bool) (RAND_MAX time_NULL : Z)
    (rand_after : Z -> list Z) (stdin_words : list (list byte))
    (readable : list byte -> option (list byte)) (creatable : list byte -> bool)
    (c : cfg.t) :
  cfg.build c <> 0 ->
  let run := main_cfg big_endian RAND_MAX time_NULL rand_after stdin_words in
  let r := run readable creatable c in
  (forall v, let r' := run readable creatable (cfg.set_nofix v c) in
             stdout r' = stdout r /\ written r' = written r /\ ended r' = ended r) /\
  (forall readable', run readable' creatable c = r) /\
  (creatable (cfg.ltrfile c) = true ->
   written r = Some (write_ltr big_endian (built stdin_words)) /\
   stdout r
   = map Listing (if cfg.print c =? 0 then [] else print_ltr (built stdin_words))
     ++ fst (generate_loop RAND_MAX (S (Z.to_nat (cfg.generate c))) (cfg.generate c)
               (built stdin_words)
               (rand_after (if cfg.seed c =? 0 then time_NULL else cfg.seed c)))) /\
  (creatable (cfg.ltrfile c) = false ->
   written r = None /\ stdout r = [] /\ ended r = Exit (-1)).
Proof.
  intros Hb run r. apply Z.eqb_neq in Hb.
  assert (Hr : forall rd c', (cfg.build c' =? 0) = false ->
             run rd creatable c'
             = if creatable (cfg.ltrfile c') then
                 let m := main_table RAND_MAX c' (built stdin_words)
                            (rand_after (if cfg.seed c' =? 0 then time_NULL
                                         else cfg.seed c')) in
                 Build_run_result (fst (fst m))
                   (map Build_msg (snd (build_table stdin_words)) ++ snd (fst m))
                   (Some (write_ltr big_endian (built stdin_words))) (snd m)
               else Build_run_result []
                      (map Build_msg (snd (build_table stdin_words))
                       ++ [Died Unable_to_create]) None (Exit (Z.lnot 0))).
  { intros rd c' E. unfold run, main_cfg. rewrite E, build_ltr_built.
    destruct (creatable (cfg.ltrfile c')); [|reflexivity].
    now destruct (main_table _ _ _ _) as [[o e] en]. }
  split; [|split; [|split]].
  - intros v r'. unfold r', r. rewrite !Hr by (cbn; exact Hb).
    cbn [cfg.set_nofix cfg.ltrfile cfg.seed].
    destruct (creatable (cfg.ltrfile c)); cbn [stdout written ended]; [|auto].
    destruct (main_table_built RAND_MAX stdin_words c v
                (rand_after (if cfg.seed c =? 0 then time_NULL else cfg.seed c)))
      as (H1 & H2 & _).
    cbv zeta in H1, H2. cbn [cfg.set_nofix] in H1, H2. auto.
  - intros rd. unfold r. now rewrite !Hr by exact Hb.
  - intros Hc. unfold r. rewrite Hr by exact Hb. rewrite Hc. cbn [stdout written].
    split; [reflexivity|].
    destruct (main_table_built RAND_MAX stdin_words c 0
                (rand_after (if cfg.seed c =? 0 then time_NULL else cfg.seed c)))
      as (_ & _ & H3).
    exact H3.
  - intros Hc. unfold r. rewrite Hr by exact Hb. rewrite Hc. cbn. auto.
Qed.

Lemma build_run_witness :
  cfg.build (cfg.Build 1 0 0 2 7 [x61]) <> 0 /\
  stdout (main_cfg false 32767 0 (fun _ => []) [] (fun _ => None) (fun _ => true)
            (cfg.set_nofix 1 (cfg.Build 1 0 0 2 7 [x61])))
  = stdout (main_cfg false 32767 0 (fun _ => []) [] (fun _ => None) (fun _ => true)
              (cfg.Build 1 0 0 2 7 [x61])).
Proof.
  assert (H : cfg.build (cfg.Build 1 0 0 2 7 [x61]) <> 0) by (cbn; lia).
  split; [exact H|].
  exact (proj1 (proj1 (build_run false 32767 0 (fun _ => []) [] (fun _ => None)
                         (fun _ => true) (cfg.Build 1 0 0 2 7 [x61]) H) 1)).
Defined.

(** ** The names that are printed *)

Section Alphabet.

Variable RAND_MAX : Z.
Variable ltr : ltrfile.
Let n := Z.to_nat (num_letters (header ltr)).
Hypothesis Hn : (n <= 28)%nat.

Lemma letter_in (i : nat) : (i < n)%nat -> In (letters !!! i) letters.
Proof.
  intros Hi. apply list_elem_of_In, list_elem_of_lookup_total_2.
  change (length letters) with 28%nat. lia.
Qed.

Lemma scan_letter (prob : F32.f32) (a : list F32.f32) :
  (scan n prob a =? n)%nat = false -> In (letters !!! scan n prob a) letters.
Proof.
  intros E. apply Nat.eqb_neq in E. pose proof (scan_le n prob a).
  apply letter_in. lia.
Qed.

Lemma first_letters_spelled (rng : list Z) res rng' :
  first_letters RAND_MAX ltr rng = Some (res, rng') ->
  match res with
  | Again => True
  | Continue w => spelled (name w)
  | Done _ => False
  end.
Proof.
  unfold first_letters. fold n.
  destruct rng as [|r1 rng]; [discriminate|].
  destruct (_ =? n)%nat eqn:E1; [now intros [= <- <-]|].
  destruct rng as [|r2 rng]; [discriminate|].
  destruct (Nat.eqb (scan n (nrand RAND_MAX r2) _) n) eqn:E2; [now intros [= <- <-]|].
  destruct rng as [|r3 rng]; [discriminate|].
  destruct (Nat.eqb (scan n (nrand RAND_MAX r3) _) n) eqn:E3; [now intros [= <- <-]|].
  intros [= <- <-]. cbn [name app]. split; [|simpl; lia].
  repeat apply List.Forall_cons; try apply List.Forall_nil; now apply scan_letter.
Qed.

Lemma spelled_removelast (w : list byte) :
  spelled w -> (4 <= length w)%nat -> spelled (removelast w).
Proof.
  intros [Hf Hl] H4. destruct (exists_last (l := w)) as (w' & x & ->).
  { intros ->. simpl in H4. lia. }
  rewrite removelast_last. rewrite length_app in H4. simpl in H4.
  apply Forall_app in Hf. split; [tauto|lia].
Qed.

Lemma extend_spelled (w : walk) (rng : list Z) res rng' :
  spelled (name w) ->
  extend RAND_MAX ltr w rng = Some (res, rng') ->
  match res with
  | Again => True
  | Continue w' => spelled (name w')
  | Done (Returned s) => shaped_name s
  | Done Buffer_overflow => True
  end.
Proof.
  intros [Hf Hl]. unfold extend. fold n.
  destruct rng as [|r1 [|r2 rng]]; try discriminate.
  set (c := at_ (at_ (triples (data ltr)) (idx (p_2 w))) (idx (p_1 w))).
  destruct (Nat.ltb (if Z.rem r2 12 <=? Z.of_nat (length (name w))
                     then scan n (nrand RAND_MAX r1) (end_ c) else n) n) eqn:Ee.
  - apply Nat.ltb_lt in Ee.
    destruct (_ <? NAMEBUF_SIZE) eqn:Eb; intros [= <- <-]; [|exact I].
    apply Z.ltb_lt in Eb. unfold NAMEBUF_SIZE in Eb.
    destruct (name w) as [|x rest] eqn:Ew; [simpl in Hl; lia|].
    inversion Hf as [|? ? Hx Hrest]; subst.
    exists x, (rest ++ [letters !!! (if Z.rem r2 12 <=? Z.of_nat (length (x :: rest))
                                     then scan n (nrand RAND_MAX r1) (end_ c) else n)]).
    split; [reflexivity|]. split; [exact Hx|]. split.
    + apply Forall_app. split; [exact Hrest|].
      apply List.Forall_cons; [|apply List.Forall_nil]. now apply letter_in.
    + rewrite length_app. simpl in *. lia.
  - destruct (Nat.ltb (scan n (nrand RAND_MAX r1) (middle c)) n) eqn:Em.
    + apply Nat.ltb_lt in Em.
      destruct (_ <? NAMEBUF_SIZE); intros [= <- <-]; [|exact I].
      cbn [name]. split.
      * apply Forall_app. split; [exact Hf|].
        apply List.Forall_cons; [|apply List.Forall_nil]. now apply letter_in.
      * rewrite length_app. simpl. lia.
    + destruct (Z.of_nat (length (name w)) - 1 <? 3) eqn:E3; [now intros [= <- <-]|].
      destruct (attempts w + 1 >? 100); intros [= <- <-]; [exact I|].
      cbn [name]. apply Z.ltb_ge in E3. apply spelled_removelast; [now split | lia].
Qed.

Lemma run_spelled (fuel : nat) :
  forall w rng s rng',
    (forall w', w = Some w' -> spelled (name w')) ->
    run RAND_MAX ltr fuel w rng = Some (Returned s, rng') ->
    shaped_name s.
Proof.
  induction fuel as [|fuel IH]; intros w rng s rng' Hw; simpl; [discriminate|].
  destruct w as [w|].
  - destruct (extend RAND_MAX ltr w rng) as [[res rng1]|] eqn:E; [|discriminate].
    pose proof (extend_spelled _ _ _ _ (Hw w eq_refl) E) as Hres.
    destruct res as [|w1|[s1|]].
    + apply IH. intros ? [=].
    + apply IH. intros ? [= <-]. exact Hres.
    + now intros [= <- <-].
    + discriminate.
  - destruct (first_letters RAND_MAX ltr rng) as [[res rng1]|] eqn:E; [|discriminate].
    pose proof (first_letters_spelled _ _ _ E) as Hres.
    destruct res as [|w1|o]; [| |contradiction].
    + apply IH. intros ? [=].
    + apply IH. intros ? [= <-]. exact Hres.
Qed.


End Alphabet.





(** ** Generated names as training input *)

Lemma letters_forall (P : byte -> bool) :
  forallb P letters = true -> forall x, In x letters -> P x = true.
Proof. intros H x Hx. rewrite forallb_forall in H. now apply H. Qed.

(** A letter of the alphabet, as it is or in upper case, passes the
    cleaning and comes out in lower case. *)
Lemma letter_cleaned (x : byte) :
  In x letters ->
  tolower x = x /\ tolower (toupper x) = x /\ valid x = true /\
  Byte.eqb x x23 = false /\ Byte.eqb (toupper x) x23 = false.
Proof.
  intros Hx.
  pose proof (letters_forall
                (fun x => Byte.eqb (tolower x) x && Byte.eqb (tolower (toupper x)) x
                          && valid x && negb (Byte.eqb x x23)
                          && negb (Byte.eqb (toupper x) x23))
                ltac:(vm_compute; reflexivity) x Hx) as H.
  cbv beta in H. rewrite !andb_true_iff, !negb_true_iff in H.
  destruct H as ((((H1 & H2) & H3) & H4) & H5).
  apply Byte.byte_dec_bl in H1, H2. auto.
Qed.

Lemma before_hash_none (s : list byte) :
  Forall (fun x => Byte.eqb x x23 = false) s -> before_hash s = s.
Proof.
  induction 1 as [|x s Hx _ IH]; [reflexivity|].
  cbn [before_hash]. now rewrite Hx, IH.
Qed.

Lemma filter_all {A} (p : A -> bool) (l : list A) :
  Forall (fun x => p x = true) l ->
  List.filter p l = l /\ List.filter (fun x => negb (p x)) l = [].
Proof.
  induction 1 as [|x l Hx _ [IH1 IH2]]; [now split|].
  cbn [List.filter]. now rewrite Hx, IH1, IH2.
Qed.

Lemma shaped_name_cleaned (s : list byte) :
  shaped_name s ->
  clean s = (map tolower s, []) /\
  (4 <= length (map tolower s))%nat /\
  Forall (fun x => In x letters) (map tolower s) /\
  capitalize (map tolower s) = s.
Proof.
  intros (c & rest & -> & Hc & Hrest & Hlen).
  destruct (letter_cleaned c Hc) as (_ & Ec & Vc & _ & Nc).
  assert (Hr : map tolower rest = rest).
  { clear Hlen. induction Hrest as [|x l Hx _ IH]; [reflexivity|].
    cbn [map]. rewrite IH. now destruct (letter_cleaned x Hx) as (-> & _). }
  assert (Hm : map tolower (toupper c :: rest) = c :: rest)
    by (cbn [map]; now rewrite Ec, Hr).
  assert (Hh : before_hash (toupper c :: rest) = toupper c :: rest).
  { apply before_hash_none. apply List.Forall_cons; [exact Nc|].
    eapply Forall_impl; [exact Hrest|]. intros x Hx.
    now destruct (letter_cleaned x Hx) as (_ & _ & _ & N & _). }
  assert (Hv : Forall (fun x => valid x = true) (c :: rest)).
  { apply List.Forall_cons; [exact Vc|].
    eapply Forall_impl; [exact Hrest|]. intros x Hx.
    now destruct (letter_cleaned x Hx) as (_ & _ & V & _). }
  destruct (filter_all valid _ Hv) as [F1 F2].
  destruct (clean_loop_spec (toupper c :: rest) [] [] []) as [H1 (msgs & H2 & _ & H4)].
  fold (clean (toupper c :: rest)) in H1, H2.
  rewrite Hh, Hm in H1, H4. rewrite F1 in H1. rewrite F2 in H4.
  destruct msgs; [|discriminate H4].
  rewrite Hm. split.
  - destruct (clean (toupper c :: rest)) as [b l]. cbn [fst snd] in *. now subst.
  - split; [cbn [length]; lia|]. split; [now apply List.Forall_cons|reflexivity].
Qed.

(** X17. What [random_name] returns is valid input for [build_ltr]: the
    cleaning turns the first letter back to lower case, drops nothing and
    prints no message, and the name is counted (it has at least four
    letters, all of the alphabet).  So the names that the program prints can
    be fed back to [-b] as they are. *)
Theorem returned_name_accepted (RAND_MAX : Z) (ltr : ltrfile) (draws : list Z)
    (s : list byte) (rng' : list Z) :
  (Z.to_nat (num_letters (header ltr)) <= 28)%nat ->
  random_name RAND_MAX ltr draws = Some (Returned s, rng') ->
  clean s = (map tolower s, []) /\
  accepted [s] = [map tolower s] /\
  (4 <= length (map tolower s))%nat /\
  Forall (fun x => In x letters) (map tolower s) /\
  capitalize (map tolower s) = s.
Proof.
  intros Hn Hr. unfold random_name in Hr.
  assert (Hs : shaped_name s).
  { eapply (run_spelled RAND_MAX ltr Hn _ None); [|exact Hr]. intros ? [=]. }
  destruct (shaped_name_cleaned s Hs) as (Hc & Hl & Hf & Hcap).
  split; [exact Hc|]. split; [|auto].
  unfold accepted. cbn [map]. rewrite Hc. cbn [fst List.filter].
  destruct (Z.of_nat (length (map tolower s)) <? 3) eqn:E; [|reflexivity].
  apply Z.ltb_lt in E. lia.
Qed.

Lemma returned_name_accepted_witness :
  (Z.to_nat (num_letters (header table_anna)) <= 28)%nat /\
  random_name RAND_MAX_glibc table_anna [0; 0; 0; 0; 0]
  = Some (Returned [x41; x6e; x6e; x61], []) /\
  accepted [[x41; x6e; x6e; x61]] = [map tolower [x41; x6e; x6e; x61]].
Proof.
  assert (Hn : (Z.to_nat (num_letters (header table_anna)) <= 28)%nat)
    by (vm_compute; lia).
  assert (Hr : random_name RAND_MAX_glibc table_anna [0; 0; 0; 0; 0]
               = Some (Returned [x41; x6e; x6e; x61], []))
    by (vm_compute; reflexivity).
  split; [exact Hn|]. split; [exact Hr|].
  exact (proj1 (proj2 (returned_name_accepted _ _ _ _ _ Hn Hr))).
Defined.

(** ** The order of the names *)

Lemma run_increments_app (os1 os2 : list increment) (d : ltrdata) :
  run_increments (os1 ++ os2) d = run_increments os2 (run_increments os1 d).
Proof. unfold run_increments. apply fold_left_app. Qed.

Lemma count3_increments (p : position) (c0 c1 c2 : byte) (d : ltrdata) :
  count3 (on_pos p) c0 c1 c2 d = run_increments (increments3 p c0 c1 c2) d.
Proof. reflexivity. Qed.

Lemma middle_loop_increments (fuel : nat) (buf2 : list byte) :
  forall p q d,
    middle_loop fuel buf2 p q d = run_increments (middle_increments fuel buf2 p q) d.
Proof.
  induction fuel as [|fuel IH]; intros p q d; [reflexivity|].
  cbn [middle_loop middle_increments].
  destruct (p + 1 =? q - 2); [reflexivity|].
  rewrite run_increments_app, IH. reflexivity.
Qed.

Lemma count_name_increments (buf2 : list byte) (d : ltrdata) :
  count_name buf2 d = run_increments (name_increments buf2) d.
Proof.
  unfold count_name, name_increments. cbv zeta.
  rewrite !run_increments_app.
  destruct (Z.of_nat (length buf2) - 1 - 0 =? 2); [reflexivity|].
  rewrite middle_loop_increments. reflexivity.
Qed.

Lemma read_name_increments (d : ltrdata) (log : list build_msg) (buf : list byte) :
  read_name (d, log) buf
  = (run_increments (word_increments buf) d, log ++ word_messages buf).
Proof.
  unfold read_name, word_increments, word_messages.
  destruct (clean buf) as [buf2 log']. cbn [fst].
  destruct (Z.of_nat (length buf2) <? 3); [reflexivity|].
  now rewrite count_name_increments.
Qed.

Lemma count_names_increments (names : list (list byte)) :
  forall d log,
    fold_left read_name names (d, log)
    = (run_increments (flat_map word_increments names) d,
       log ++ flat_map word_messages names).
Proof.
  induction names as [|buf names IH]; intros d log; cbn [fold_left flat_map].
  - now rewrite app_nil_r.
  - rewrite read_name_increments, IH, run_increments_app, app_assoc. reflexivity.
Qed.

Lemma alter_comm {A} (f g : A -> A) (i j : nat) (l : list A) :
  (forall x, f (g x) = g (f x)) ->
  alter f i (alter g j l) = alter g j (alter f i l).
Proof.
  intros H. revert i j. induction l as [|x l IH]; intros [|i] [|j]; simpl;
    try reflexivity; [now rewrite H | f_equal; apply IH].
Qed.

Lemma on_pos_comm (p p' : position) (i j : Z) (c : cdf) :
  on_pos p (incr i) (on_pos p' (incr j) c) = on_pos p' (incr j) (on_pos p (incr i) c).
Proof.
  destruct c as [s m e].
  destruct p, p'; try reflexivity;
    unfold on_pos, on_start, on_middle, on_end, set_start, set_middle, set_end, incr;
    cbn [start middle end_].
  all: rewrite (alter_comm F32.add_one F32.add_one (Z.to_nat i) (Z.to_nat j)) by reflexivity;
    reflexivity.
Qed.

Lemma run_increment_comm (o1 o2 : increment) (d : ltrdata) :
  run_increment o1 (run_increment o2 d) = run_increment o2 (run_increment o1 d).
Proof.
  destruct d as [s ds ts].
  destruct o1 as [p i|p i j|p i j k], o2 as [p' i'|p' i' j'|p' i' j' k'];
    cbn [run_increment on_singles on_doubles on_triples singles doubles triples];
    try reflexivity; unfold on_singles, on_doubles, on_triples;
    cbn [singles doubles triples].
  - now rewrite on_pos_comm.
  - rewrite (alter_comm (on_pos p (incr j)) (on_pos p' (incr j')));
      [reflexivity|]. intros c. apply on_pos_comm.
  - rewrite (alter_comm (alter (on_pos p (incr k)) (Z.to_nat j))
               (alter (on_pos p' (incr k')) (Z.to_nat j')));
      [reflexivity|]. intros row. apply alter_comm. intros c. apply on_pos_comm.
Qed.

Lemma run_increments_comm1 (o : increment) (os : list increment) :
  forall d, run_increments os (run_increment o d) = run_increment o (run_increments os d).
Proof.
  induction os as [|o' os IH]; intros d; [reflexivity|].
  cbn [run_increments fold_left]. fold (run_increments os).
  now rewrite run_increment_comm, IH.
Qed.

Lemma run_increments_perm (os os' : list increment) :
  Permutation os os' -> forall d, run_increments os d = run_increments os' d.
Proof.
  induction 1 as [|o os os' _ IH|o1 o2 os|os1 os2 os3 _ IH1 _ IH2]; intros d.
  - reflexivity.
  - cbn [run_increments fold_left]. apply IH.
  - cbn [run_increments fold_left]. now rewrite run_increment_comm.
  - now rewrite IH1.
Qed.

(** X18. The table that [build_ltr] makes, and so the file it writes, does
    not depend on the order of the names on stdin: counting is a sequence
    of [+= 1.0] on single floats, and any two of them commute.  Only the
    messages on stderr come in another order. *)
Theorem build_order (big_endian : bool) (names names' : list (list byte)) :
  Permutation names names' ->
  built names = built names' /\
  snd (fst (build_ltr big_endian names)) = snd (fst (build_ltr big_endian names')) /\
  Permutation (snd (build_ltr big_endian names)) (snd (build_ltr big_endian names')).
Proof.
  intros Hp.
  assert (Hc : fst (count_names names) = fst (count_names names') /\
               Permutation (snd (count_names names)) (snd (count_names names'))).
  { unfold count_names. rewrite !count_names_increments. cbn [fst snd app]. split.
    - apply run_increments_perm. now apply Permutation_flat_map.
    - now apply Permutation_flat_map. }
  destruct Hc as [Hd Hl].
  assert (Hb : build_table names = (built names, snd (count_names names))).
  { unfold built, build_table. now destruct (count_names names). }
  assert (Hb' : build_table names' = (built names', snd (count_names names'))).
  { unfold built, build_table. now destruct (count_names names'). }
  assert (E : built names = built names').
  { unfold built, build_table.
    destruct (count_names names) as [d l], (count_names names') as [d' l'].
    cbn [fst] in *. now subst. }
  unfold build_ltr. rewrite Hb, Hb'. cbn [fst snd]. rewrite E. auto.
Qed.

Lemma build_order_witness :
  Permutation [anna; cody] [cody; anna] /\
  built [anna; cody] = built [cody; anna].
Proof.
  assert (H : Permutation [anna; cody] [cody; anna]) by apply perm_swap.
  split; [exact H|]. exact (proj1 (build_order false _ _ H)).
Defined.

(** ** The first three letters on a built table *)

(** Reading after an increment. *)
Lemma lookup_total_alter_cases {A} `{Inhabited A} (f : A -> A) (l : list A) (i j : nat) :
  alter f j l !!! i = l !!! i \/
  (i = j /\ (j < length l)%nat /\ alter f j l !!! i = f (l !!! i)).
Proof.
  revert i j. induction l as [|x l IH]; intros [|i] [|j]; simpl; auto.
  - right. repeat split; auto. lia.
  - destruct (IH i j) as [E|(-> & L & E)]; [now left|].
    right. repeat split; auto. lia.
Qed.

Lemma lookup_total_alter_same {A} `{Inhabited A} (f : A -> A) (l : list A) (i : nat) :
  (i < length l)%nat -> alter f i l !!! i = f (l !!! i).
Proof.
  revert i. induction l as [|x l IH]; intros [|i] L; simpl in *; try lia; auto.
  apply IH. lia.
Qed.

Lemma elt_alter_cases (f : F32.f32 -> F32.f32) (a : list F32.f32) (i j : nat) :
  elt (alter f j a) i = elt a i \/ (i = j /\ elt (alter f j a) i = f (elt a i)).
Proof.
  unfold elt. revert i j. induction a as [|x a IH]; intros [|i] [|j]; cbn; auto.
  destruct (IH i j) as [E|[-> E]]; auto.
Qed.

Lemma array_of_on_pos_same (p : position) (g : list F32.f32 -> list F32.f32) (c : cdf) :
  array_of p (on_pos p g c) = g (array_of p c).
Proof. now destruct p. Qed.

Lemma array_of_on_pos_other (p p' : position) (g : list F32.f32 -> list F32.f32)
    (c : cdf) :
  p <> p' -> array_of p (on_pos p' g c) = array_of p c.
Proof. destruct p, p'; intros Hne; try reflexivity; contradiction. Qed.

Lemma array_of_on_pos_cases (p p' : position) (g : list F32.f32 -> list F32.f32)
    (c : cdf) :
  array_of p (on_pos p' g c) = array_of p c \/
  (p = p' /\ array_of p (on_pos p' g c) = g (array_of p c)).
Proof. destruct p, p'; auto. Qed.

(** An increment leaves a CDF as it is or applies its [+= 1.0] to it. *)
Lemma cdf_at_run_increment (o : increment) (d : ltrdata) (k : cdf_index) :
  cdf_at (run_increment o d) k = cdf_at d k \/
  (match o, k with
   | Incr1 _ _, Single => True
   | Incr2 _ a _, Double a' => Z.to_nat a' = Z.to_nat a
   | Incr3 _ a b _, Triple a' b' => Z.to_nat a' = Z.to_nat a /\ Z.to_nat b' = Z.to_nat b
   | _, _ => False
   end /\
   cdf_at (run_increment o d) k
   = on_pos (increment_position o) (incr (increment_letter o)) (cdf_at d k)).
Proof.
  destruct o as [p i|p i j|p i j l], k as [|a|a b];
    cbn [run_increment cdf_at on_singles on_doubles on_triples singles doubles triples
         increment_position increment_letter]; auto; unfold at_.
  - destruct (lookup_total_alter_cases (on_pos p (incr j)) (doubles d)
                (Z.to_nat a) (Z.to_nat i)) as [E|(Ea & _ & E)]; rewrite E; auto.
  - destruct (lookup_total_alter_cases (alter (on_pos p (incr l)) (Z.to_nat j)) (triples d)
                (Z.to_nat a) (Z.to_nat i)) as [E|(Ea & _ & E)]; rewrite E; auto.
    destruct (lookup_total_alter_cases (on_pos p (incr l)) (triples d !!! Z.to_nat a)
                (Z.to_nat b) (Z.to_nat j)) as [E'|(Eb & _ & E')]; rewrite E'; auto.
Qed.

Lemma cdf_at_run_increment_hit (o : increment) (d : ltrdata) :
  data_all is_count d -> in_table (increment_cdf o) ->
  cdf_at (run_increment o d) (increment_cdf o)
  = on_pos (increment_position o) (incr (increment_letter o)) (cdf_at d (increment_cdf o)).
Proof.
  intros (_ & [Ld _] & [Lt Ht]) Hk.
  destruct o as [p i|p i j|p i j l];
    cbn [run_increment cdf_at on_singles on_doubles on_triples singles doubles triples
         increment_position increment_letter increment_cdf in_table] in *;
    [reflexivity| |]; unfold at_, NUM_LETTERS in *.
  - apply lookup_total_alter_same. lia.
  - rewrite lookup_total_alter_same by lia.
    apply lookup_total_alter_same.
    assert (Hi : (Z.to_nat i < length (triples d))%nat) by lia.
    destruct (lookup_lt_is_Some_2 _ _ Hi) as [row Hrow].
    rewrite (list_lookup_total_correct _ _ _ Hrow).
    rewrite Forall_lookup in Ht. destruct (Ht _ _ Hrow) as [Lr _]. lia.
Qed.

Lemma cell_run_increment (o : increment) (d : ltrdata) (k : cdf_index) (p : position)
    (i : nat) :
  cell (run_increment o d) k p i = cell d k p i \/
  (hits o k p i /\ cell (run_increment o d) k p i = F32.add_one (cell d k p i)).
Proof.
  unfold cell, hits.
  destruct (cdf_at_run_increment o d k) as [E|[Hk E]]; rewrite E; [now left|].
  destruct (array_of_on_pos_cases p (increment_position o) (incr (increment_letter o))
              (cdf_at d k)) as [E'|[Hp E']]; rewrite E'; [now left|].
  destruct (elt_alter_cases F32.add_one (array_of p (cdf_at d k)) i
              (Z.to_nat (increment_letter o))) as [E2|[Hi E2]]; [now left|].
  right. unfold incr. auto.
Qed.

Lemma cell_run_increment_other (o : increment) (d : ltrdata) (k : cdf_index)
    (p : position) (i : nat) :
  ~ hits o k p i -> cell (run_increment o d) k p i = cell d k p i.
Proof.
  intros Hn. destruct (cell_run_increment o d k p i) as [E|[H _]]; [exact E|contradiction].
Qed.

Lemma cell_is_count (d : ltrdata) (k : cdf_index) (p : position) (i : nat) :
  data_all is_count d -> in_table k -> is_count (cell d k p i).
Proof.
  intros Hd Hk. unfold cell. apply is_count_elt.
  exact (proj2 (array_all_of is_count p _ (cdf_all_at is_count d k Hd Hk))).
Qed.

Lemma add_one_positive (w : F32.f32) : is_count w -> 0 < F32.to_int (F32.add_one w).
Proof.
  intros [k Hk]. pose proof (add_one_count w k Hk) as H.
  rewrite (to_int_count _ _ H). destruct Hk as [[? ?] _]. lia.
Qed.

Lemma add_one_keeps (w : F32.f32) :
  is_count w -> F32.to_int w <= F32.to_int (F32.add_one w).
Proof.
  intros [k Hk]. pose proof (add_one_count w k Hk) as H.
  rewrite (to_int_count _ _ H), (to_int_count _ _ Hk). destruct Hk as [[? ?] _]. lia.
Qed.

(** What was counted stays counted. *)
Lemma counted_at_run_increment (o : increment) (d : ltrdata) (k : cdf_index)
    (p : position) (i : nat) :
  data_all is_count d -> in_table k ->
  counted_at d k p i -> counted_at (run_increment o d) k p i.
Proof.
  intros Hd Hk Hc. unfold counted_at in *.
  destruct (cell_run_increment o d k p i) as [E|[_ E]]; rewrite E; [exact Hc|].
  apply add_one_positive, cell_is_count; assumption.
Qed.

(** The letter of an increment is counted after it. *)
Lemma counted_at_hit (o : increment) (d : ltrdata) :
  data_all is_count d -> in_table (increment_cdf o) -> 0 <= increment_letter o < 28 ->
  counted_at (run_increment o d) (increment_cdf o) (increment_position o)
    (Z.to_nat (increment_letter o)).
Proof.
  intros Hd Hk Hl. unfold counted_at, cell.
  rewrite (cdf_at_run_increment_hit o d Hd Hk), array_of_on_pos_same.
  destruct (array_all_of is_count (increment_position o) _
              (cdf_all_at is_count d _ Hd Hk)) as [Hlen Hcount].
  unfold incr. rewrite elt_alter by (unfold NUM_LETTERS in Hlen; lia).
  destruct (decide _) as [_|Hne]; [|contradiction].
  apply add_one_positive, is_count_elt, Hcount.
Qed.

Lemma data_all_run_increment (o : increment) (d : ltrdata) :
  data_all is_count d -> data_all is_count (run_increment o d).
Proof.
  assert (Hc : forall p i c, cdf_all is_count c -> cdf_all is_count (on_pos p (incr i) c)).
  { intros p i c Hcdf.
    destruct p; [apply cdf_all_on_start|apply cdf_all_on_middle|apply cdf_all_on_end];
      try exact Hcdf; intros a Ha; apply array_all_incr; try exact Ha;
      apply is_count_add_one. }
  intros Hd. destruct o; cbn [run_increment];
    [apply data_all_on_singles|apply data_all_on_doubles|apply data_all_on_triples];
    try exact Hd; apply Hc.
Qed.

Lemma data_all_run_increments (os : list increment) :
  forall d, data_all is_count d -> data_all is_count (run_increments os d).
Proof.
  induction os as [|o os IH]; intros d Hd; [exact Hd|].
  apply IH, data_all_run_increment, Hd.
Qed.

Lemma counted_at_run_increments (os : list increment) (k : cdf_index) (p : position)
    (i : nat) :
  in_table k ->
  forall d, data_all is_count d ->
    counted_at d k p i -> counted_at (run_increments os d) k p i.
Proof.
  intros Hk. induction os as [|o os IH]; intros d Hd Hc; [exact Hc|].
  apply IH; [apply data_all_run_increment, Hd|].
  now apply counted_at_run_increment.
Qed.

(** Increments of the middles and the ends leave the starts alone. *)
Lemma start_cells_run_increments (os : list increment) :
  Forall (fun o => increment_position o <> Start) os ->
  forall d k i, cell (run_increments os d) k Start i = cell d k Start i.
Proof.
  induction 1 as [|o os Ho _ IH]; intros d k i; [reflexivity|].
  cbn [run_increments fold_left]. fold (run_increments os). rewrite IH.
  apply cell_run_increment_other. intros (Hp & _). now symmetry in Hp.
Qed.

Lemma starts_linked_ext (d d' : ltrdata) :
  (forall k i, cell d' k Start i = cell d k Start i) ->
  starts_linked d -> starts_linked d'.
Proof.
  intros E [H1 H2]. unfold starts_linked, counted_at in *. split.
  - intros i Hi Hc. rewrite E in Hc. destruct (H1 i Hi Hc) as (j & Hj & Hcj).
    exists j. now rewrite E.
  - intros i j Hi Hj Hc. rewrite E in Hc. destruct (H2 i j Hi Hj Hc) as (k & Hk & Hck).
    exists k. now rewrite E.
Qed.

(** The three increments for the first three letters of a name. *)
Lemma starts_linked_increments3 (i0 i1 i2 : Z) (d : ltrdata) :
  0 <= i0 < 28 -> 0 <= i1 < 28 -> 0 <= i2 < 28 ->
  data_all is_count d -> starts_linked d ->
  let d' := run_increments [Incr1 Start i0; Incr2 Start i0 i1; Incr3 Start i0 i1 i2] d in
  starts_linked d' /\ counted_at d' Single Start (Z.to_nat i0).
Proof.
  intros H0 H1 H2 Hd [L1 L2]. cbn [run_increments fold_left].
  set (o1 := Incr1 Start i0). set (o2 := Incr2 Start i0 i1). set (o3 := Incr3 Start i0 i1 i2).
  set (d1 := run_increment o1 d). set (d2 := run_increment o2 d1).
  set (d3 := run_increment o3 d2). cbv zeta.
  assert (Hd1 : data_all is_count d1) by now apply data_all_run_increment.
  assert (Hd2 : data_all is_count d2) by now apply data_all_run_increment.
  assert (K1 : in_table (Double i0)) by (cbn; unfold NUM_LETTERS; lia).
  assert (K2 : in_table (Triple i0 i1)) by (cbn; unfold NUM_LETTERS; lia).
  assert (C1 : counted_at d3 Single Start (Z.to_nat i0)).
  { apply counted_at_run_increment; [exact Hd2|exact I|].
    apply counted_at_run_increment; [exact Hd1|exact I|].
    apply (counted_at_hit o1 d Hd I H0). }
  assert (C2 : counted_at d3 (Double i0) Start (Z.to_nat i1)).
  { apply counted_at_run_increment; [exact Hd2|exact K1|].
    apply (counted_at_hit o2 d1 Hd1 K1 H1). }
  assert (C3 : counted_at d3 (Triple i0 i1) Start (Z.to_nat i2))
    by apply (counted_at_hit o3 d2 Hd2 K2 H2).
  assert (M : forall k p i, in_table k -> counted_at d k p i -> counted_at d3 k p i).
  { intros k p i Hk Hc.
    apply counted_at_run_increment; [exact Hd2|exact Hk|].
    apply counted_at_run_increment; [exact Hd1|exact Hk|].
    now apply counted_at_run_increment. }
  split; [|exact C1]. split.
  - intros i Hi Hc. destruct (Nat.eq_dec i (Z.to_nat i0)) as [->|Hne].
    + exists (Z.to_nat i1). split; [lia|]. now rewrite Z2Nat.id by lia.
    + assert (E : cell d3 Single Start i = cell d Single Start i).
      { unfold d3, d2, d1.
        rewrite !cell_run_increment_other; [reflexivity| | |];
          unfold hits; cbn; intros (_ & ? & ?); auto. }
      unfold counted_at in Hc. rewrite E in Hc.
      destruct (L1 i Hi Hc) as (j & Hj & Hcj). exists j. split; [exact Hj|].
      apply M; [cbn; unfold NUM_LETTERS; lia|exact Hcj].
  - intros i j Hi Hj Hc.
    destruct (Nat.eq_dec i (Z.to_nat i0)) as [->|Hne];
      [destruct (Nat.eq_dec j (Z.to_nat i1)) as [->|Hne]|].
    + exists (Z.to_nat i2). split; [lia|]. now rewrite !Z2Nat.id by lia.
    + assert (E : cell d3 (Double (Z.of_nat (Z.to_nat i0))) Start j
                  = cell d (Double (Z.of_nat (Z.to_nat i0))) Start j).
      { unfold d3, d2, d1.
        rewrite !cell_run_increment_other; [reflexivity| | |];
          unfold hits; cbn; intros (_ & ? & ?); auto. }
      unfold counted_at in Hc. rewrite E in Hc.
      destruct (L2 _ j Hi Hj Hc) as (k & Hk & Hck). exists k. split; [exact Hk|].
      apply M; [cbn; unfold NUM_LETTERS; lia|exact Hck].
    + assert (E : cell d3 (Double (Z.of_nat i)) Start j = cell d (Double (Z.of_nat i)) Start j).
      { unfold d3, d2, d1.
        rewrite !cell_run_increment_other; [reflexivity| | |];
          unfold hits; cbn; intros (_ & ? & ?); auto. lia. }
      unfold counted_at in Hc. rewrite E in Hc.
      destruct (L2 i j Hi Hj Hc) as (k & Hk & Hck). exists k. split; [exact Hk|].
      apply M; [cbn; unfold NUM_LETTERS; lia|exact Hck].
Qed.

Lemma starts_linked_zero : starts_linked zero_data.
Proof.
  assert (Hz : forall k p i, in_table k -> ~ counted_at zero_data k p i).
  { intros k p i Hk Hc. unfold counted_at, cell in Hc.
    pose proof (data_all_zero (fun x => x = F32.zero) eq_refl) as Hd.
    destruct (array_all_of _ p _ (cdf_all_at _ zero_data k Hd Hk)) as [_ Hf].
    assert (Z0 : F32.to_int F32.zero = 0) by reflexivity.
    unfold elt in Hc. destruct (array_of p (cdf_at zero_data k) !! i) as [x|] eqn:E.
    - rewrite Forall_lookup in Hf. rewrite (Hf _ _ E) in Hc.
      change (0 < F32.to_int F32.zero) in Hc. lia.
    - change (0 < F32.to_int F32.zero) in Hc. lia. }
  split.
  - intros i Hi Hc. destruct (Hz Single Start i I Hc).
  - intros i j Hi Hj Hc. exfalso. apply (Hz (Double (Z.of_nat i)) Start j); [|exact Hc].
    cbn. unfold NUM_LETTERS. lia.
Qed.

Lemma middle_increments_positions (fuel : nat) (buf2 : list byte) :
  forall p q,
    Forall (fun o => increment_position o <> Start) (middle_increments fuel buf2 p q).
Proof.
  induction fuel as [|fuel IH]; intros p q; cbn [middle_increments]; [constructor|].
  destruct (p + 1 =? q - 2); [constructor|].
  unfold increments3. cbn [app].
  repeat (apply List.Forall_cons; [cbn; discriminate|]). apply IH.
Qed.

(** One name of at least three letters of the alphabet. *)
Lemma starts_linked_name (buf2 : list byte) (d : ltrdata) :
  Forall (fun c => valid c = true) buf2 -> (3 <= length buf2)%nat ->
  data_all is_count d -> starts_linked d ->
  let d' := run_increments (name_increments buf2) d in
  data_all is_count d' /\ starts_linked d' /\
  exists i, (i < 28)%nat /\ counted_at d' Single Start i.
Proof.
  intros Hv Hl Hd Hs d'.
  split; [now apply data_all_run_increments|].
  unfold d', name_increments. cbv zeta. unfold increments3.
  rewrite run_increments_app.
  set (i0 := idx (at_ buf2 0)). set (i1 := idx (at_ buf2 1)). set (i2 := idx (at_ buf2 2)).
  assert (H0 : 0 <= i0 < 28) by (apply idx_at_valid; [exact Hv|lia]).
  assert (H1 : 0 <= i1 < 28) by (apply idx_at_valid; [exact Hv|lia]).
  assert (H2 : 0 <= i2 < 28) by (apply idx_at_valid; [exact Hv|lia]).
  destruct (starts_linked_increments3 i0 i1 i2 d H0 H1 H2 Hd Hs) as [Hs1 Hc1].
  set (d1 := run_increments [Incr1 Start i0; Incr2 Start i0 i1; Incr3 Start i0 i1 i2] d) in *.
  assert (Hd1 : data_all is_count d1) by now apply data_all_run_increments.
  match goal with
  | |- starts_linked (run_increments ?os d1) /\ _ =>
      assert (Hp : Forall (fun o => increment_position o <> Start) os)
  end.
  { repeat (apply List.Forall_cons; [cbn; discriminate|]).
    destruct (_ =? 2); [constructor|apply middle_increments_positions]. }
  split.
  - eapply starts_linked_ext; [|exact Hs1]. intros k i.
    now apply start_cells_run_increments.
  - exists (Z.to_nat i0). split; [lia|].
    unfold counted_at. rewrite start_cells_run_increments by exact Hp. exact Hc1.
Qed.

(** All the words of the input. *)
Lemma starts_linked_words (names : list (list byte)) :
  forall d,
    data_all is_count d -> starts_linked d ->
    let d' := run_increments (flat_map word_increments names) d in
    data_all is_count d' /\ starts_linked d' /\
    ((exists i, (i < 28)%nat /\ counted_at d Single Start i) \/ accepted names <> [] ->
     exists i, (i < 28)%nat /\ counted_at d' Single Start i).
Proof.
  induction names as [|buf names IH]; intros d Hd Hs; cbn [flat_map].
  - cbn. split; [exact Hd|]. split; [exact Hs|]. intros [H|H]; [exact H|contradiction].
  - cbv zeta. rewrite run_increments_app, accepted_cons. unfold word_increments.
    pose proof (clean_valid buf) as Hv.
    set (buf2 := fst (clean buf)) in *.
    destruct (Z.of_nat (length buf2) <? 3) eqn:E3.
    + cbn [run_increments fold_left]. fold (run_increments (flat_map word_increments names)).
      apply (IH d Hd Hs).
    + apply Z.ltb_ge in E3.
      destruct (starts_linked_name buf2 d Hv ltac:(lia) Hd Hs) as (Hd1 & Hs1 & Hc1).
      destruct (IH _ Hd1 Hs1) as (Hd2 & Hs2 & Hc2).
      split; [exact Hd2|]. split; [exact Hs2|]. intros _. apply Hc2. now left.
Qed.

Lemma count_names_linked (names : list (list byte)) :
  let d := fst (count_names names) in
  starts_linked d /\
  (accepted names <> [] -> exists i, (i < 28)%nat /\ counted_at d Single Start i).
Proof.
  unfold count_names. rewrite count_names_increments. cbn [fst].
  destruct (starts_linked_words names zero_data data_all_zero_count starts_linked_zero)
    as (_ & Hs & Hc).
  split; [exact Hs|]. intros Ha. apply Hc. now right.
Qed.

(** [prob < 0.9999] and [x >= 0.9999] give [prob < x]. *)
Lemma lt_below_near_one (p x : F32.f32) :
  F32.lt_d p F32.d_0_9999 = true -> F32.near_one x = true -> F32.lt p x = true.
Proof.
  unfold F32.near_one, F32.ge_d, F32.le_d. rewrite andb_true_iff. intros Hp [Hx _].
  revert Hp Hx.
  unfold F32.lt, F32.lt_d, F32.SFltb_exact, F32.SFleb_exact, F32.SFcompare_exact,
    F32.d_0_9999.
  destruct (F32.dec p) as [sp|sp| |sp mp ep], (F32.dec x) as [sx|sx| |sx mx ex];
    cbn -[F32.SF2Q Qcompare]; try discriminate;
    try (destruct sp; discriminate); try (destruct sx; discriminate);
    try (destruct sp, sx; discriminate).
  - destruct sx; intros _ H; [discriminate H|reflexivity].
  - intros _ Hx. destruct sx; [|reflexivity]. exfalso.
    destruct (Qcompare _ _) eqn:E in Hx; try discriminate Hx.
    + apply Qeq_alt in E. pose proof (SF2Q_neg mx ex).
      assert (0 < F32.SF2Q (S754_finite false 9006298534815518 (-53)))%Q by reflexivity.
      lra.
    + apply (proj2 (Qlt_alt _ _)) in E. pose proof (SF2Q_neg mx ex).
      assert (0 < F32.SF2Q (S754_finite false 9006298534815518 (-53)))%Q by reflexivity.
      lra.
  - destruct sp, sx; intros H1 H2; try discriminate H1; try discriminate H2; reflexivity.
  - intros H _. exact H.
  - destruct sx; intros _ H; [discriminate H|reflexivity].
  - intros Hp Hx.
    destruct (Qcompare (F32.SF2Q (S754_finite sp mp ep)) _) eqn:E1 in Hp;
      try discriminate Hp.
    apply (proj2 (Qlt_alt _ _)) in E1.
    assert (L : (F32.SF2Q (S754_finite false 9006298534815518 (-53))
                 <= F32.SF2Q (S754_finite sx mx ex))%Q).
    { destruct (Qcompare _ (F32.SF2Q (S754_finite sx mx ex))) eqn:E2 in Hx;
        try discriminate Hx.
      - apply Qeq_alt in E2. rewrite E2. apply Qle_refl.
      - apply (proj2 (Qlt_alt _ _)) in E2. now apply Qlt_le_weak. }
    assert (L2 : (F32.SF2Q (S754_finite sp mp ep) < F32.SF2Q (S754_finite sx mx ex))%Q)
      by (eapply Qlt_le_trans; eassumption).
    apply (proj1 (Qlt_alt _ _)) in L2. now rewrite L2.
Qed.

Lemma scan_below (prob : F32.f32) (a : list F32.f32) :
  F32.lt_d prob F32.d_0_9999 = true -> ends_near_one 28 a ->
  (scan 28 prob a < 28)%nat.
Proof.
  intros Hp (last & Hl & _ & Ht & _).
  apply near_one_in_tolerance in Ht.
  pose proof (lt_below_near_one prob _ Hp Ht) as Hlt.
  pose proof (scan_le 28 prob a) as Hle.
  destruct (Nat.eq_dec (scan 28 prob a) 28%nat) as [E|E]; [|lia].
  apply scan_none in E. rewrite (E last Hl) in Hlt. discriminate Hlt.
Qed.

(** An array of the built table in which a letter was counted ends near
    one. *)
Lemma built_array_live (names : list (list byte)) (k : cdf_index) (p : position)
    (i : nat) :
  in_table k -> (i < 28)%nat -> counted_at (fst (count_names names)) k p i ->
  ends_near_one 28 (array_of p (cdf_at (data (built names)) k)).
Proof.
  intros Hk Hi Hc. destruct (built_array names k p Hk) as (E & Hlen & Hcount).
  cbv zeta in E, Hlen, Hcount. rewrite E.
  destruct (normalize_array_cases _ Hlen Hcount) as (_ & _ & Hp). cbv zeta in Hp.
  apply Hp. pose proof (elt_le_total _ i Hlen Hcount Hi) as Ht.
  unfold counted_at, cell in Hc. lia.
Qed.

Lemma built_counted (names : list (list byte)) (k : cdf_index) (p : position) (i : nat) :
  in_table k -> (i < 28)%nat ->
  F32.gt_zero (elt (array_of p (cdf_at (data (built names)) k)) i) = true ->
  counted_at (fst (count_names names)) k p i.
Proof.
  intros Hk Hi Hg. destruct (built_gt_zero names k p i Hk Hi) as (_ & _ & _ & E).
  cbv zeta in E. rewrite E in Hg. apply Z.ltb_lt in Hg. exact Hg.
Qed.

Lemma in_table_double (i : nat) : (i < 28)%nat -> in_table (Double (Z.of_nat i)).
Proof. cbn. unfold NUM_LETTERS. lia. Qed.

Lemma in_table_triple (i j : nat) :
  (i < 28)%nat -> (j < 28)%nat -> in_table (Triple (Z.of_nat i) (Z.of_nat j)).
Proof. cbn. unfold NUM_LETTERS. lia. Qed.

(** One scan of the start of a name on the built table. *)
Lemma scan_start_found (RAND_MAX : Z) (names : list (list byte)) (k : cdf_index)
    (r : Z) (j : nat) :
  0 <= RAND_MAX -> in_table k -> (j < 28)%nat ->
  counted_at (fst (count_names names)) k Start j ->
  below_0_9999 RAND_MAX r ->
  let i := scan 28 (nrand RAND_MAX r) (start (cdf_at (data (built names)) k)) in
  (i < 28)%nat /\ (i =? 28)%nat = false /\
  F32.gt_zero (elt (start (cdf_at (data (built names)) k)) i) = true /\
  counted_at (fst (count_names names)) k Start i.
Proof.
  intros HR Hk Hj Hc [Hr Hp] i.
  pose proof (built_array_live names k Start j Hk Hj Hc) as Hlive.
  pose proof (scan_below _ _ Hp Hlive) as Hi. cbn [array_of] in Hi. fold i in Hi.
  assert (Hg : F32.gt_zero (elt (start (cdf_at (data (built names)) k)) i) = true).
  { destruct (proj2 (scan_first 28 _ _ i) (conj eq_refl Hi)) as (_ & Hlt & _).
    apply (lt_positive (nrand RAND_MAX r)); [now apply nrand_nonneg | exact Hlt]. }
  split; [exact Hi|]. split; [apply Nat.eqb_neq; lia|]. split; [exact Hg|].
  now apply (built_counted names k Start i Hk Hi).
Qed.

(** X19. On a table that [build_ltr] made from at least one usable name,
    [random_name] finds the first three letters without going back to
    [again] whenever each of its three values of [prob] is below 0.9999: a
    letter that was counted at the start of a name is always followed by a
    counted second and third letter, and every array with a count ends
    within the tolerance of one.  The three letters are the start of a name
    that was counted. *)
Theorem first_letters_found (RAND_MAX : Z) (names : list (list byte))
    (r1 r2 r3 : Z) (rng : list Z) :
  accepted names <> [] -> 0 <= RAND_MAX ->
  below_0_9999 RAND_MAX r1 -> below_0_9999 RAND_MAX r2 -> below_0_9999 RAND_MAX r3 ->
  let d := fst (count_names names) in
  exists i j k,
    (i < 28)%nat /\ (j < 28)%nat /\ (k < 28)%nat /\
    first_letters RAND_MAX (built names) (r1 :: r2 :: r3 :: rng)
    = Some (Continue (Build_walk [letters !!! i; letters !!! j; letters !!! k] 0), rng) /\
    counted_at d Single Start i /\
    counted_at d (Double (Z.of_nat i)) Start j /\
    counted_at d (Triple (Z.of_nat i) (Z.of_nat j)) Start k.
Proof.
  intros Ha HR B1 B2 B3 d.
  destruct (count_names_linked names) as [[L1 L2] Hc]. fold d in L1, L2, Hc.
  destruct (Hc Ha) as (i0 & Hi0 & Hc0).
  destruct (scan_start_found RAND_MAX names Single r1 i0 HR I Hi0 Hc0 B1)
    as (Hi & Ei & _ & Ci).
  set (i := scan 28 (nrand RAND_MAX r1) (start (cdf_at (data (built names)) Single))) in *.
  destruct (L1 i Hi Ci) as (j0 & Hj0 & Cj0).
  pose proof (in_table_double i Hi) as K1.
  destruct (scan_start_found RAND_MAX names _ r2 j0 HR K1 Hj0 Cj0 B2)
    as (Hj & Ej & _ & Cj).
  set (j := scan 28 (nrand RAND_MAX r2)
              (start (cdf_at (data (built names)) (Double (Z.of_nat i))))) in *.
  destruct (L2 i j Hi Hj Cj) as (k0 & Hk0 & Ck0).
  pose proof (in_table_triple i j Hi Hj) as K2.
  destruct (scan_start_found RAND_MAX names _ r3 k0 HR K2 Hk0 Ck0 B3)
    as (Hk & Ek & _ & Ck).
  set (k := scan 28 (nrand RAND_MAX r3)
              (start (cdf_at (data (built names))
                        (Triple (Z.of_nat i) (Z.of_nat j))))) in *.
  exists i, j, k. repeat (split; [assumption|]). split; [|auto].
  unfold first_letters. rewrite (proj1 (built_letters names)).
  change (start (singles (data (built names))))
    with (start (cdf_at (data (built names)) Single)).
  fold i. rewrite Ei.
  change (p_1 (Build_walk [letters !!! i] 0)) with (letters !!! i).
  rewrite (idx_letter i Hi).
  change (start (at_ (doubles (data (built names))) (Z.of_nat i)))
    with (start (cdf_at (data (built names)) (Double (Z.of_nat i)))).
  fold j. rewrite Ej. cbn [name app].
  change (p_2 (Build_walk [letters !!! i; letters !!! j] 0)) with (letters !!! i).
  change (p_1 (Build_walk [letters !!! i; letters !!! j] 0)) with (letters !!! j).
  rewrite (idx_letter i Hi), (idx_letter j Hj).
  change (start (at_ (at_ (triples (data (built names))) (Z.of_nat i)) (Z.of_nat j)))
    with (start (cdf_at (data (built names)) (Triple (Z.of_nat i) (Z.of_nat j)))).
  fold k. rewrite Ek. reflexivity.
Qed.

Lemma first_letters_found_witness :
  accepted [anna] <> [] /\ below_0_9999 RAND_MAX_glibc 0 /\
  exists i j k,
    (i < 28)%nat /\ (j < 28)%nat /\ (k < 28)%nat /\
    first_letters RAND_MAX_glibc (built [anna]) [0; 0; 0]
    = Some (Continue (Build_walk [letters !!! i; letters !!! j; letters !!! k] 0), []) /\
    counted_at (fst (count_names [anna])) Single Start i /\
    counted_at (fst (count_names [anna])) (Double (Z.of_nat i)) Start j /\
    counted_at (fst (count_names [anna])) (Triple (Z.of_nat i) (Z.of_nat j)) Start k.
Proof.
  assert (Ha : accepted [anna] <> []) by (vm_compute; discriminate).
  assert (HR : 0 <= RAND_MAX_glibc) by (unfold RAND_MAX_glibc; lia).
  assert (Hb : below_0_9999 RAND_MAX_glibc 0)
    by (split; [lia | vm_compute; reflexivity]).
  split; [exact Ha|]. split; [exact Hb|].
  exact (first_letters_found RAND_MAX_glibc [anna] 0 0 0 [] Ha HR Hb Hb Hb).
Defined.

(** ** The range of [nrand] *)

(** *** The direction of the rounding *)

Lemma shr_1_rs (mrs : shr_record) :
  0 <= shr_m mrs ->
  shr_r (shr_1 mrs) = Z.odd (shr_m mrs) /\
  shr_s (shr_1 mrs) = shr_r mrs || shr_s mrs.
Proof.
  destruct mrs as [m r s]. cbn [shr_m shr_r shr_s]. intros Hm.
  destruct m as [|[p|p|]|p]; cbn [shr_1 shr_r shr_s]; try lia; auto.
Qed.

Lemma mod_pow2_succ (m k : Z) :
  0 <= k -> m mod 2 ^ (k + 1) = m mod 2 ^ k + 2 ^ k * ((m / 2 ^ k) mod 2).
Proof.
  intros Hk. rewrite Z.pow_add_r, Z.pow_1_r by lia.
  apply Z.rem_mul_r; [|lia]. apply Z.pow_nonzero; lia.
Qed.

Lemma iter_shr_rs (k : nat) (m : Z) :
  0 <= m ->
  shr_r (Nat.iter (S k) shr_1 (Build_shr_record m false false))
  = Z.odd (m / 2 ^ Z.of_nat k) /\
  shr_s (Nat.iter (S k) shr_1 (Build_shr_record m false false))
  = negb (m mod 2 ^ Z.of_nat k =? 0).
Proof.
  intros Hm. induction k as [|k [IHr IHs]].
  - change (Nat.iter 1 shr_1 (Build_shr_record m false false))
      with (shr_1 (Build_shr_record m false false)).
    destruct (shr_1_rs (Build_shr_record m false false) Hm) as [Hr Hs].
    cbn [shr_m shr_r shr_s] in Hr, Hs. rewrite Hr, Hs.
    change (2 ^ Z.of_nat 0) with 1. rewrite Z.div_1_r, Z.mod_1_r. auto.
  - set (mrs := Nat.iter (S k) shr_1 (Build_shr_record m false false)) in *.
    change (Nat.iter (S (S k)) shr_1 (Build_shr_record m false false)) with (shr_1 mrs).
    destruct (iter_shr_m (S k) (Build_shr_record m false false) Hm) as [Hmk Hpos].
    fold mrs in Hmk, Hpos. cbn [shr_m] in Hmk.
    destruct (shr_1_rs mrs Hpos) as [Hr Hs].
    rewrite Hr, Hs, Hmk, IHr, IHs. clearbody mrs. split; [reflexivity|].
    assert (Hp : 0 < 2 ^ Z.of_nat k) by (apply Z.pow_pos_nonneg; lia).
    pose proof (Z.mod_pos_bound m (2 ^ Z.of_nat k) Hp) as Hb.
    clear IHr IHs Hmk Hpos Hr Hs mrs.
    rewrite Nat2Z.inj_succ. unfold Z.succ.
    rewrite (mod_pow2_succ m (Z.of_nat k)) by lia.
    rewrite (Zmod_odd (m / 2 ^ Z.of_nat k)).
    destruct (Z.odd (m / 2 ^ Z.of_nat k)), (Z.eqb_spec (m mod 2 ^ Z.of_nat k) 0) as [E0|E0];
      cbn [orb negb]; symmetry;
      [apply negb_true_iff, Z.eqb_neq | apply negb_true_iff, Z.eqb_neq
      | apply negb_false_iff, Z.eqb_eq | apply negb_true_iff, Z.eqb_neq]; lia.
Qed.

Lemma shifted_spec (m n : Z) :
  0 <= m -> 0 <= n ->
  shr_m (shifted m n) = m / 2 ^ n /\
  (n = 0 -> shr_r (shifted m n) = false /\ shr_s (shifted m n) = false) /\
  (0 < n -> shr_r (shifted m n) = Z.odd (m / 2 ^ (n - 1)) /\
            shr_s (shifted m n) = negb (m mod 2 ^ (n - 1) =? 0)).
Proof.
  intros Hm Hn. unfold shifted.
  destruct (shr_spec (Build_shr_record m false false) 0 n Hn Hm) as (_ & H1 & _).
  cbn [shr_m] in H1. split; [exact H1|]. split.
  - intros ->. cbn. auto.
  - intros Hp. unfold shr. destruct n as [|p|p]; try lia. cbn [fst].
    rewrite iter_pos_nat.
    destruct (Pos2Nat.is_succ p) as [k Hk]. rewrite Hk.
    replace (Z.pos p - 1) with (Z.of_nat k) by lia.
    apply (iter_shr_rs k m Hm).
Qed.

Lemma rounded_spec (m n : Z) :
  0 <= m -> 0 <= n -> rounded m n = m / 2 ^ n + Z.b2z (round_up m n).
Proof.
  intros Hm Hn. destruct (shifted_spec m n Hm Hn) as (HM & H0 & Hp).
  unfold rounded, round_up. rewrite HM. set (M := m / 2 ^ n).
  destruct (Z.eq_dec n 0) as [->|Hne].
  - destruct (H0 eq_refl) as [Hr Hs].
    destruct (shifted m 0) as [m' r s]. cbn [shr_r shr_s] in Hr, Hs. subst r s.
    cbn [loc_of_shr_record round_nearest_even].
    rewrite Z.pow_0_r, Z.mod_1_r. clearbody M.
    change (1 <? 2 * 0) with false. change (2 * 0 =? 1) with false.
    cbn [orb andb Z.b2z]. lia.
  - destruct (Hp ltac:(lia)) as [Hr Hs].
    assert (Hh : 0 < 2 ^ (n - 1)) by (apply Z.pow_pos_nonneg; lia).
    assert (H2 : 2 ^ n = 2 * 2 ^ (n - 1)).
    { replace n with (n - 1 + 1) at 1 by lia. rewrite Z.pow_add_r by lia. lia. }
    pose proof (mod_pow2_succ m (n - 1) ltac:(lia)) as Ha.
    replace (n - 1 + 1) with n in Ha by lia.
    pose proof (Z.mod_pos_bound m (2 ^ (n - 1)) Hh) as Hb.
    rewrite (Zmod_odd (m / 2 ^ (n - 1))) in Ha.
    set (a := m mod 2 ^ n) in *. set (h := 2 ^ (n - 1)) in *.
    set (l := m mod h) in *.
    assert (Hev : Z.even M = negb (Z.odd M)) by (rewrite <- Z.negb_even; now destruct (Z.even M)).
    destruct (shifted m n) as [m' r s]. cbn [shr_r shr_s] in Hr, Hs. subst r s.
    rewrite H2. clearbody a h l M.
    destruct (Z.odd (m / h)); destruct (Z.eqb_spec l 0) as [E0|E0];
      cbn [negb loc_of_shr_record round_nearest_even].
    + (* half a unit *)
      replace (2 * h <? 2 * a) with false by (symmetry; apply Z.ltb_ge; lia).
      replace (2 * a =? 2 * h) with true by (symmetry; apply Z.eqb_eq; lia).
      rewrite Hev. cbn [orb andb]. destruct (Z.odd M); cbn; lia.
    + replace (2 * h <? 2 * a) with true by (symmetry; apply Z.ltb_lt; lia).
      cbn. lia.
    + replace (2 * h <? 2 * a) with false by (symmetry; apply Z.ltb_ge; lia).
      replace (2 * a =? 2 * h) with false by (symmetry; apply Z.eqb_neq; lia).
      cbn. lia.
    + replace (2 * h <? 2 * a) with false by (symmetry; apply Z.ltb_ge; lia).
      replace (2 * a =? 2 * h) with false by (symmetry; apply Z.eqb_neq; lia).
      cbn. lia.
Qed.

Lemma rounded_cases (m n : Z) :
  0 <= m -> 0 <= n -> rounded m n = m / 2 ^ n \/ rounded m n = m / 2 ^ n + 1.
Proof.
  intros Hm Hn. rewrite (rounded_spec m n Hm Hn). destruct (round_up m n); cbn; lia.
Qed.

(** Rounding does not change the order. *)
Lemma rounded_mono (m1 m2 n : Z) :
  0 <= m1 <= m2 -> 0 <= n -> rounded m1 n <= rounded m2 n.
Proof.
  intros Hm Hn. rewrite !rounded_spec by lia.
  assert (Hp : 0 < 2 ^ n) by (apply Z.pow_pos_nonneg; lia).
  pose proof (Z.div_le_mono m1 m2 (2 ^ n) Hp ltac:(lia)) as HM.
  destruct (Z.eq_dec (m1 / 2 ^ n) (m2 / 2 ^ n)) as [E|E].
  2:{ destruct (round_up m1 n), (round_up m2 n); cbn; lia. }
  unfold round_up. rewrite E.
  pose proof (Z.div_mod m1 (2 ^ n) ltac:(lia)) as D1.
  pose proof (Z.div_mod m2 (2 ^ n) ltac:(lia)) as D2.
  rewrite E in D1.
  set (a1 := m1 mod 2 ^ n) in *. set (a2 := m2 mod 2 ^ n) in *.
  set (P := 2 ^ n) in *. set (X := P * (m2 / P)) in *.
  destruct (Z.odd (m2 / P)); clearbody a1 a2 P X;
    destruct (Z.ltb_spec P (2 * a1)), (Z.ltb_spec P (2 * a2)),
      (Z.eqb_spec (2 * a1) P), (Z.eqb_spec (2 * a2) P); cbn; lia.
Qed.

Lemma shr_fst (mrs : shr_record) (e n : Z) : fst (shr mrs e n) = fst (shr mrs 0 n).
Proof. unfold shr. now destruct n. Qed.

Section RoundNearest.

Variables prec emax : Z.
Hypothesis Hprec : 0 < prec.

(** Rounding of the integer mantissa [m], of at least [prec] digits, at the
    exponent [e]: the mantissa that comes out is [m] rounded to nearest. *)
Lemma binary_round_aux_rounded (m : positive) (e : Z) :
  let d := Z.pos (digits2_pos m) in
  let E := d + e - prec in
  prec <= d ->
  3 - emax - prec <= E ->
  E + 1 <= emax - prec ->
  exists m2 e2,
    binary_round_aux prec emax false (Z.pos m) e loc_Exact = S754_finite false m2 e2 /\
    Z.pos (digits2_pos m2) = prec /\ E <= e2 <= E + 1 /\
    Z.pos m2 * 2 ^ (e2 - E) = rounded (Z.pos m) (d - prec).
Proof.
  intros d E Hd Hmin Hmax.
  pose proof (digits_bounds m) as [Dl Du]. fold d in Dl, Du.
  assert (Hn : 0 <= d - prec) by lia.
  assert (Hpn : 0 < 2 ^ (d - prec)) by (apply Z.pow_pos_nonneg; lia).
  set (M := Z.pos m / 2 ^ (d - prec)).
  assert (HM : 2 ^ (prec - 1) <= M < 2 ^ prec).
  { unfold M. split.
    - apply Z.div_le_lower_bound; [lia|].
      rewrite <- Z.pow_add_r by lia.
      replace (d - prec + (prec - 1)) with (d - 1) by lia. exact Dl.
    - apply Z.div_lt_upper_bound; [lia|].
      rewrite <- Z.pow_add_r by lia.
      replace (d - prec + prec) with d by lia. exact Du. }
  assert (Hp1 : 0 < 2 ^ (prec - 1)) by (apply Z.pow_pos_nonneg; lia).
  assert (Hrr : rounded (Z.pos m) (d - prec) = M \/ rounded (Z.pos m) (d - prec) = M + 1)
    by (apply rounded_cases; lia).
  assert (Hsh : fst (shr (shr_record_of_loc (Z.pos m) loc_Exact) e (d - prec))
                = shifted (Z.pos m) (d - prec))
    by (unfold shifted; rewrite shr_fst; reflexivity).
  unfold binary_round_aux, shr_fexp.
  change (Zdigits2 (Z.pos m)) with d.
  rewrite (fexp_normal prec emax (d + e)) by (fold E; lia).
  replace (d + e - prec - e) with (d - prec) by lia.
  destruct (shr_spec (shr_record_of_loc (Z.pos m) loc_Exact) e (d - prec) Hn)
    as (He' & _); [rewrite shr_record_of_loc_m; lia|].
  destruct (shr (shr_record_of_loc (Z.pos m) loc_Exact) e (d - prec)) as [mrs' e'].
  cbn [fst snd] in He', Hsh. subst e' mrs'.
  replace (e + (d - prec)) with E by (unfold E; lia).
  fold (rounded (Z.pos m) (d - prec)).
  set (r := rounded (Z.pos m) (d - prec)) in *. clearbody r.
  destruct r as [|pr|pr]; [lia| |lia].
  destruct (Z_lt_le_dec (Z.pos pr) (2 ^ prec)) as [Hlt|Hge].
  - (* no carry *)
    assert (Hdr : Z.pos (digits2_pos pr) = prec) by (apply digits_unique; lia).
    cbn [Zdigits2]. rewrite Hdr.
    rewrite (fexp_normal prec emax (prec + E)) by lia.
    replace (prec + E - prec - E) with 0 by lia.
    cbn [shr shr_record_of_loc shr_m].
    replace (E <=? emax - prec) with true by (symmetry; apply Z.leb_le; lia).
    exists pr, E. rewrite Z.sub_diag, Z.pow_0_r, Z.mul_1_r.
    repeat split; try lia; auto.
  - (* the mantissa was rounded up to 2^prec *)
    assert (Hpr : Z.pos pr = 2 ^ prec) by lia.
    assert (Hdr : Z.pos (digits2_pos pr) = prec + 1).
    { apply digits_unique. replace (prec + 1 - 1) with prec by lia.
      rewrite Z.pow_add_r by lia. lia. }
    cbn [Zdigits2]. rewrite Hdr.
    rewrite (fexp_normal prec emax (prec + 1 + E)) by lia.
    replace (prec + 1 + E - prec - E) with 1 by lia.
    cbn [shr shr_record_of_loc SpecFloat.iter_pos].
    assert (Hhalf : shr_m (shr_1 {| shr_m := Z.pos pr; shr_r := false; shr_s := false |})
                    = 2 ^ (prec - 1)).
    { destruct (shr_1_m {| shr_m := Z.pos pr; shr_r := false; shr_s := false |})
        as [H _]; [cbn; lia|].
      rewrite H. cbn [shr_m]. rewrite Hpr.
      replace prec with (prec - 1 + 1) at 1 by lia.
      rewrite Z.pow_add_r by lia. now rewrite Z.div_mul by lia. }
    rewrite Hhalf.
    destruct (2 ^ (prec - 1)) as [|ph|ph] eqn:Eh; [lia| |lia].
    replace (E + 1 <=? emax - prec) with true by (symmetry; apply Z.leb_le; lia).
    exists ph, (E + 1).
    replace (E + 1 - E) with 1 by lia.
    assert (Hph : Z.pos ph * 2 ^ 1 = 2 ^ prec).
    { rewrite <- Eh, <- Z.pow_add_r by lia. f_equal. lia. }
    repeat split; try lia; auto.
    apply digits_unique. rewrite <- Eh.
    split; [lia|]. apply Z.pow_lt_mono_r; lia.
Qed.

End RoundNearest.

(** *** [(float)k] *)

Lemma of_int_float_of (k : Z) :
  0 < k < 2 ^ 31 ->
  exists m e,
    F32.dec (F32.of_int k) = S754_finite false m e /\
    Z.pos (digits2_pos m) = 24 /\ -23 <= e <= 8 /\
    (inject_Z (Z.pos m) * 2 ^ e == inject_Z (float_of k))%Q.
Proof.
  intros Hk. unfold float_of. destruct (Z.ltb_spec k (2 ^ 24)) as [Hlt|Hge].
  - destruct (of_int_count k ltac:(lia)) as (m & e & H1 & H2 & H3 & H4).
    exists m, e. repeat split; try assumption; lia.
  - destruct k as [|k|k]; try lia. cbn [Zdigits2].
    pose proof (digits_bounds k) as [Dl Du].
    set (d := Z.pos (digits2_pos k)) in *.
    assert (Hd : 25 <= d <= 31).
    { split.
      - destruct (Z_le_gt_dec 25 d) as [L|L]; [exact L|].
        assert (2 ^ d <= 2 ^ 24) by (apply Z.pow_le_mono_r; lia). lia.
      - destruct (Z_le_gt_dec d 31) as [L|L]; [exact L|].
        assert (2 ^ 31 <= 2 ^ (d - 1)) by (apply Z.pow_le_mono_r; lia). lia. }
    destruct (binary_round_aux_rounded 24 128 ltac:(lia) k 0)
      as (m2 & e2 & Hr & Hd2 & He2 & Hv); fold d; try lia.
    fold d in Hr, He2, Hv. rewrite Z.add_0_r in He2, Hv.
    exists m2, e2.
    assert (Ho : F32.of_int (Z.pos k) = F32.enc (S754_finite false m2 e2)).
    { unfold F32.of_int, binary_normalize, binary_round, F32.prec, F32.emax.
      change (Z.pos (digits2_pos k)) with d.
      rewrite (fexp_normal 24 128 (d + 0)) by lia.
      unfold shl_align. destruct (d + 0 - 24 - 0) as [|p|p] eqn:En; try lia;
        now rewrite Hr. }
    rewrite Ho, dec_enc_normal by lia.
    repeat split; try assumption; try lia.
    rewrite <- Hv. replace e2 with (d - 24 + (e2 - (d - 24))) at 1 by lia.
    rewrite scale_pow2 by lia. rewrite inject_Z_mult, (pow2_Z (d - 24)) by lia. reflexivity.
Qed.

Lemma Zdigits2_bounds (k : Z) :
  0 < k -> 2 ^ (Zdigits2 k - 1) <= k < 2 ^ Zdigits2 k /\ 1 <= Zdigits2 k.
Proof.
  intros Hk. destruct k as [|k|k]; try lia. cbn [Zdigits2].
  split; [apply digits_bounds | lia].
Qed.

Lemma Zdigits2_mono (r R : Z) : 0 < r <= R -> Zdigits2 r <= Zdigits2 R.
Proof.
  intros H. destruct (Zdigits2_bounds r ltac:(lia)) as [[Lr Ur] Pr].
  destruct (Zdigits2_bounds R ltac:(lia)) as [[LR UR] PR].
  destruct (Z_le_gt_dec (Zdigits2 r) (Zdigits2 R)) as [L|L]; [exact L|].
  assert (2 ^ Zdigits2 R <= 2 ^ (Zdigits2 r - 1)) by (apply Z.pow_le_mono_r; lia).
  lia.
Qed.

(** The mantissa of a number of [d >= 24] digits, cut or rounded to 24 bits. *)
Lemma rounded_bounds (k : Z) :
  2 ^ 24 <= k ->
  let n := Zdigits2 k - 24 in
  1 <= n /\ 2 ^ 23 <= k / 2 ^ n < 2 ^ 24 /\
  k / 2 ^ n <= rounded k n <= k / 2 ^ n + 1.
Proof.
  intros Hk n. destruct (Zdigits2_bounds k ltac:(lia)) as [[L U] P].
  assert (Hn : 1 <= n).
  { unfold n. destruct (Z_le_gt_dec 25 (Zdigits2 k)) as [H|H]; [lia|].
    assert (2 ^ Zdigits2 k <= 2 ^ 24) by (apply Z.pow_le_mono_r; lia). lia. }
  assert (Hp : 0 < 2 ^ n) by (apply Z.pow_pos_nonneg; lia).
  split; [exact Hn|]. split.
  - split.
    + apply Z.div_le_lower_bound; [lia|]. rewrite <- Z.pow_add_r by lia.
      replace (n + 23) with (Zdigits2 k - 1) by (unfold n; lia). exact L.
    + apply Z.div_lt_upper_bound; [lia|]. rewrite <- Z.pow_add_r by lia.
      replace (n + 24) with (Zdigits2 k) by (unfold n; lia). exact U.
  - destruct (rounded_cases k n ltac:(lia) ltac:(lia)) as [E|E]; rewrite E; lia.
Qed.

(** The conversion keeps the order of the integers. *)
Lemma float_of_mono (r R : Z) : 0 < r <= R -> float_of r <= float_of R.
Proof.
  intros H. unfold float_of.
  destruct (Z.ltb_spec r (2 ^ 24)) as [Hr|Hr], (Z.ltb_spec R (2 ^ 24)) as [HR|HR];
    try lia.
  - destruct (rounded_bounds R HR) as (Hn & HM & Hv). cbv zeta in *.
    set (n := Zdigits2 R - 24) in *.
    assert (Hp : 2 <= 2 ^ n).
    { change 2 with (2 ^ 1) at 1. apply Z.pow_le_mono_r; lia. }
    change (2 ^ 23) with 8388608 in *. change (2 ^ 24) with 16777216 in *.
    clearbody n. nia.
  - pose proof (Zdigits2_mono r R H) as Hd.
    destruct (rounded_bounds r Hr) as (Hn1 & HM1 & Hv1).
    destruct (rounded_bounds R HR) as (Hn2 & HM2 & Hv2). cbv zeta in *.
    set (n1 := Zdigits2 r - 24) in *. set (n2 := Zdigits2 R - 24) in *.
    assert (Hp1 : 0 < 2 ^ n1) by (apply Z.pow_pos_nonneg; lia).
    destruct (Z.eq_dec n1 n2) as [E|E].
    + rewrite <- E. apply Z.mul_le_mono_nonneg_r; [lia|].
      apply rounded_mono; lia.
    + assert (Hlt : n1 + 1 <= n2) by (unfold n1, n2 in *; lia).
      assert (Hpp : 2 * 2 ^ n1 <= 2 ^ n2).
      { replace (2 * 2 ^ n1) with (2 ^ (n1 + 1)) by (rewrite Z.pow_add_r; lia).
        apply Z.pow_le_mono_r; lia. }
      change (2 ^ 23) with 8388608 in *. change (2 ^ 24) with 16777216 in *.
      clearbody n1 n2. nia.
Qed.

(** *** The quotient of two floats *)

Lemma new_location_zero (n : Z) : new_location n 0 = loc_Exact.
Proof. unfold new_location. now destruct (Z.even n). Qed.

(** The quotient is one of the two neighbours of the exact quotient, the
    lower one being [M * 2^E]; it is exact when the mantissas are equal. *)
Lemma div_neighbours (a b : F32.f32) (m1 m2 : positive) (e1 e2 : Z) :
  F32.dec a = S754_finite false m1 e1 -> Z.pos (digits2_pos m1) = 24 ->
  F32.dec b = S754_finite false m2 e2 -> Z.pos (digits2_pos m2) = 24 ->
  -100 <= e1 - e2 <= 100 ->
  exists m3 e3 M E,
    F32.dec (F32.div a b) = S754_finite false m3 e3 /\
    Z.pos (digits2_pos m3) = 24 /\ E <= e3 <= E + 1 /\
    2 ^ 23 <= M < 2 ^ 24 /\
    (inject_Z M * 2 ^ E * (inject_Z (Z.pos m2) * 2 ^ e2)
     <= inject_Z (Z.pos m1) * 2 ^ e1)%Q /\
    (Z.pos m3 * 2 ^ (e3 - E) = M \/ Z.pos m3 * 2 ^ (e3 - E) = M + 1) /\
    (m1 = m2 -> Z.pos m3 * 2 ^ (e3 - E) = M /\ M = 2 ^ 23 /\ E = e1 - e2 - 23).
Proof.
  intros Ha Hd1 Hb Hd2 He.
  pose proof (digits_bounds m1) as [Dl1 Du1]. rewrite Hd1 in Dl1, Du1.
  pose proof (digits_bounds m2) as [Dl2 Du2]. rewrite Hd2 in Dl2, Du2.
  change (2 ^ (24 - 1)) with 8388608 in *. change (2 ^ 24) with 16777216 in *.
  change (2 ^ 23) with 8388608.
  unfold F32.div. rewrite Ha, Hb. unfold SFdiv, SFdiv_core_binary.
  cbn [xorb Zdigits2]. rewrite Hd1, Hd2.
  unfold F32.prec, F32.emax.
  rewrite (fexp_normal 24 128) by lia.
  replace (Z.min (24 + e1 - (24 + e2) - 24) (e1 - e2)) with (e1 - e2 - 24) by lia.
  replace (e1 - e2 - (e1 - e2 - 24)) with 24 by lia.
  cbv iota. rewrite Z.shiftl_mul_pow2 by lia.
  change (2 ^ 24) with 16777216.
  set (e' := e1 - e2 - 24).
  pose proof (Z_div_mod_eq_full (Z.pos m1 * 16777216) (Z.pos m2)) as Hdm.
  pose proof (Z.mod_pos_bound (Z.pos m1 * 16777216) (Z.pos m2) ltac:(lia)) as Hmod.
  unfold Z.div, Z.modulo in Hdm, Hmod.
  destruct (Z.div_eucl (Z.pos m1 * 16777216) (Z.pos m2)) as [q r].
  assert (Hq : 8388608 <= q < 33554432) by nia.
  destruct q as [|q|q]; try lia.
  pose proof (digits_bounds q) as [Dlq Duq].
  set (d := Z.pos (digits2_pos q)) in *.
  assert (Hd : 24 <= d <= 25).
  { split.
    - destruct (Z_le_gt_dec 24 d) as [L|L]; [exact L|].
      assert (2 ^ d <= 2 ^ 23) by (apply Z.pow_le_mono_r; lia).
      change (2 ^ 23) with 8388608 in *. lia.
    - destruct (Z_le_gt_dec d 25) as [L|L]; [exact L|].
      assert (2 ^ 25 <= 2 ^ (d - 1)) by (apply Z.pow_le_mono_r; lia).
      change (2 ^ 25) with 33554432 in *. lia. }
  destruct (binary_round_aux_spec 24 128 ltac:(lia) q e' (new_location (Z.pos m2) r))
    as (m3 & e3 & Hr & Hd3 & He3 & HM & Hv & Hex); fold d; try lia.
  fold d in He3, HM, Hv, Hex. rewrite Hr.
  set (E := d + e' - 24) in *. set (M := Z.pos q / 2 ^ (d - 24)) in *.
  pose proof (dec_enc_normal m3 e3 Hd3 ltac:(unfold E, e' in *; lia)) as Hdec.
  change (2 ^ (24 - 1)) with 8388608 in HM. change (2 ^ 24) with 16777216 in HM.
  exists m3, e3, M, E.
  split; [exact Hdec|]. split; [exact Hd3|]. split; [exact He3|]. split; [exact HM|].
  assert (Hpd : 0 < 2 ^ (d - 24)) by (apply Z.pow_pos_nonneg; lia).
  assert (HMq : M * 2 ^ (d - 24) <= Z.pos q < (M + 1) * 2 ^ (d - 24)).
  { unfold M. pose proof (Z_div_mod_eq_full (Z.pos q) (2 ^ (d - 24))).
    pose proof (Z.mod_pos_bound (Z.pos q) (2 ^ (d - 24)) Hpd). lia. }
  split; [|split; [exact Hv|]].
  - set (B := (inject_Z (Z.pos m2) * 2 ^ e2)%Q).
    assert (Hgrid : (inject_Z M * 2 ^ E * B ==
                     inject_Z (M * Z.pos m2 * 2 ^ (d - 24)) * 2 ^ (e1 - 24))%Q).
    { rewrite <- (scale_pow2 (M * Z.pos m2) (e1 - 24) (d - 24)) by lia.
      replace (e1 - 24 + (d - 24)) with (E + e2) by (unfold E, e'; lia).
      rewrite pow2_add, inject_Z_mult. unfold B. ring. }
    assert (HA : (inject_Z (Z.pos m1) * 2 ^ e1
                  == inject_Z (Z.pos m1 * 16777216) * 2 ^ (e1 - 24))%Q).
    { replace e1 with (e1 - 24 + 24) at 1 by lia.
      now rewrite (scale_pow2 (Z.pos m1) (e1 - 24) 24) by lia. }
    rewrite Hgrid, HA. apply scale_le. nia.
  - intros Em.
    assert (Eq : Z.pos q = 16777216 /\ r = 0).
    { subst m2. destruct (Z.lt_trichotomy (Z.pos q) 16777216) as [L|[L|L]].
      - assert (Z.pos m1 * Z.pos q <= Z.pos m1 * (16777216 - 1))
          by (apply Z.mul_le_mono_nonneg_l; lia). lia.
      - rewrite L in Hdm. lia.
      - assert (Z.pos m1 * (16777216 + 1) <= Z.pos m1 * Z.pos q)
          by (apply Z.mul_le_mono_nonneg_l; lia). lia. }
    destruct Eq as [Eq ->].
    assert (Ed : d = 25).
    { unfold d. apply digits_unique. change (2 ^ (25 - 1)) with 16777216.
      change (2 ^ 25) with 33554432. lia. }
    assert (EM : M = 8388608).
    { unfold M. rewrite Eq, Ed. reflexivity. }
    split; [|split; [exact EM | unfold E, e'; lia]].
    apply Hex; [apply new_location_zero|]. rewrite Eq, Ed. reflexivity.
Qed.

(** A float divided by one that is not smaller is at most one, and exactly
    one when they are equal. *)
Lemma div_le_one (a b : F32.f32) (m1 m2 : positive) (e1 e2 : Z) :
  F32.dec a = S754_finite false m1 e1 -> Z.pos (digits2_pos m1) = 24 ->
  F32.dec b = S754_finite false m2 e2 -> Z.pos (digits2_pos m2) = 24 ->
  -100 <= e1 - e2 <= 100 ->
  (inject_Z (Z.pos m1) * 2 ^ e1 <= inject_Z (Z.pos m2) * 2 ^ e2)%Q ->
  normal_pos (F32.div a b) /\ (val (F32.div a b) <= 1)%Q /\
  ((inject_Z (Z.pos m1) * 2 ^ e1 == inject_Z (Z.pos m2) * 2 ^ e2)%Q ->
   (val (F32.div a b) == 1)%Q).
Proof.
  intros Ha Hd1 Hb Hd2 He Hle.
  destruct (div_neighbours a b m1 m2 e1 e2 Ha Hd1 Hb Hd2 He)
    as (m3 & e3 & M & E & Hdec & Hd3 & He3 & HM & Hlo & Hv & Hex).
  split; [exists m3, e3; now split|].
  rewrite (val_finite _ _ _ Hdec).
  set (A := (inject_Z (Z.pos m1) * 2 ^ e1)%Q) in *.
  set (B := (inject_Z (Z.pos m2) * 2 ^ e2)%Q) in *.
  assert (HB : (0 < B)%Q).
  { apply Qmult_lt_0_compat; [|apply pow2_pos].
    change 0%Q with (inject_Z 0). rewrite <- Zlt_Qlt. lia. }
  assert (X : (inject_Z (Z.pos m3) * 2 ^ e3
               == inject_Z (Z.pos m3 * 2 ^ (e3 - E)) * 2 ^ E)%Q).
  { replace e3 with (E + (e3 - E)) at 1 by lia. apply scale_pow2. lia. }
  assert (Hone : (A == B)%Q -> (inject_Z (Z.pos m3) * 2 ^ e3 == 1)%Q).
  { intros Eq. destruct (canonical_unique 24 m1 m2 e1 e2 Hd1 Hd2 Eq) as [Em Ee].
    destruct (Hex Em) as (Hv1 & EM & EE). rewrite X, Hv1, EM, EE, Ee.
    replace (e2 - e2 - 23) with (-23) by lia. reflexivity. }
  split; [|exact Hone].
  destruct (Qlt_le_dec A B) as [Hlt|Hge].
  - (* below one: the upper neighbour is at most one *)
    assert (H1 : (inject_Z M * 2 ^ E < 1)%Q).
    { destruct (Qlt_le_dec (inject_Z M * 2 ^ E) 1) as [L|L]; [exact L|].
      exfalso. apply (Qmult_le_compat_r _ _ B) in L; [|now apply Qlt_le_weak].
      lra. }
    assert (HE : E <= -24).
    { assert (L : (2 ^ (23 + E) < 2 ^ 0)%Q).
      { eapply Qle_lt_trans; [|exact H1].
        rewrite (Z.add_comm 23 E), pow2_scale by lia. apply scale_le. lia. }
      apply pow2_lt_inv in L. lia. }
    rewrite X.
    apply Qle_trans with (inject_Z (2 ^ 24) * 2 ^ E)%Q.
    + apply scale_le. destruct Hv as [-> | ->]; lia.
    + rewrite <- pow2_scale by lia. change 1%Q with (2 ^ 0)%Q. apply pow2_le. lia.
  - rewrite Hone; [apply Qle_refl|]. apply Qle_antisym; assumption.
Qed.

(** X20. [nrand] gives a number from 0 to 1, both included: for
    [0 <= rand() <= RAND_MAX], with [RAND_MAX] an [int] of 32 bits, [prob]
    is +0.0 when [rand()] is 0 and otherwise a positive normal float that
    is at most 1.0, and it is exactly 1.0 when [rand()] is [RAND_MAX]
    (both conversions to [float] and the division round to nearest, and
    keep the order).  So a [prob] can come out that is below no entry of a
    CDF ending at 1.0. *)
Theorem nrand_range (RAND_MAX r : Z) :
  0 < RAND_MAX < 2 ^ 31 -> 0 <= r <= RAND_MAX ->
  (r = 0 -> nrand RAND_MAX r = F32.zero) /\
  (0 < r -> normal_pos (nrand RAND_MAX r)) /\
  (0 <= val (nrand RAND_MAX r) <= 1)%Q /\
  (r = RAND_MAX -> (val (nrand RAND_MAX r) == 1)%Q).
Proof.
  intros HR Hr. unfold nrand.
  destruct (of_int_float_of RAND_MAX HR) as (m2 & e2 & Hb & Hd2 & He2 & Hv2).
  assert (Hz : F32.div (F32.of_int 0) (F32.of_int RAND_MAX) = F32.zero).
  { unfold F32.div. rewrite Hb. reflexivity. }
  destruct (Z.eq_dec r 0) as [->|Hne].
  - rewrite Hz. split; [reflexivity|]. split; [lia|]. split.
    + rewrite val_zero. split; [apply Qle_refl | discriminate].
    + intros <-. lia.
  - assert (Hr' : 0 < r < 2 ^ 31) by lia.
    destruct (of_int_float_of r Hr') as (m1 & e1 & Ha & Hd1 & He1 & Hv1).
    pose proof (float_of_mono r RAND_MAX ltac:(lia)) as Hm.
    assert (Hle : (inject_Z (Z.pos m1) * 2 ^ e1 <= inject_Z (Z.pos m2) * 2 ^ e2)%Q)
      by (rewrite Hv1, Hv2, <- Zle_Qle; exact Hm).
    destruct (div_le_one _ _ m1 m2 e1 e2 Ha Hd1 Hb Hd2 ltac:(lia) Hle)
      as (Hn & H1 & Hone).
    split; [intros E; contradiction|]. split; [intros _; exact Hn|]. split.
    + split; [apply Qlt_le_weak, val_pos, Hn | exact H1].
    + intros E. apply Hone. rewrite Hv1, Hv2, E. reflexivity.
Qed.

Lemma nrand_range_witness :
  0 < RAND_MAX_glibc < 2 ^ 31 /\ 0 <= 2147483600 <= RAND_MAX_glibc /\
  (0 <= val (nrand RAND_MAX_glibc 2147483600) <= 1)%Q.
Proof.
  assert (HR : 0 < RAND_MAX_glibc < 2 ^ 31) by (unfold RAND_MAX_glibc; lia).
  assert (Hr : 0 <= 2147483600 <= RAND_MAX_glibc) by (unfold RAND_MAX_glibc; lia).
  split; [exact HR|]. split; [exact Hr|].
  exact (proj1 (proj2 (proj2 (nrand_range RAND_MAX_glibc 2147483600 HR Hr)))).
Defined.

(** ** The middle counts, entry by entry *)

Lemma hitb_hits (k : cdf_index) (p : position) (i : nat) (o : increment) :
  hitb k p i o = true <-> hits o k p i.
Proof.
  unfold hitb, hits. rewrite !andb_true_iff, Nat.eqb_eq.
  assert (Hp : (match p, increment_position o with
                | Start, Start | Middle, Middle | End, End => true
                | _, _ => false
                end) = true <-> p = increment_position o)
    by (destruct p, (increment_position o); split; congruence).
  rewrite Hp.
  destruct o as [q a|q a b|q a b c], k as [|a'|a' b'];
    rewrite ?andb_true_iff, ?Nat.eqb_eq; intuition congruence.
Qed.

(** An increment that writes an entry adds one to it. *)
Lemma cell_run_increment_hit (o : increment) (d : ltrdata) (k : cdf_index)
    (p : position) (i : nat) :
  data_all is_count d -> in_table k -> (i < 28)%nat -> hits o k p i ->
  cell (run_increment o d) k p i = F32.add_one (cell d k p i).
Proof.
  intros Hd Hk Hi (Hp & Hl & Ho). unfold cell.
  assert (E : cdf_at (run_increment o d) k
              = on_pos p (incr (increment_letter o)) (cdf_at d k)).
  { destruct Hd as (_ & [Ld _] & [Lt Ht]). subst p.
    destruct o as [q a|q a b|q a b c], k as [|a'|a' b']; try contradiction;
      cbn [run_increment cdf_at on_singles on_doubles on_triples singles doubles triples
           increment_position increment_letter in_table] in *;
      [reflexivity| |]; unfold at_, NUM_LETTERS in *.
    - rewrite Ho. apply lookup_total_alter_same. lia.
    - destruct Ho as [Ea Eb]. rewrite Ea, Eb.
      rewrite lookup_total_alter_same by lia.
      apply lookup_total_alter_same.
      assert (Hlt : (Z.to_nat a < length (triples d))%nat) by lia.
      destruct (lookup_lt_is_Some_2 _ _ Hlt) as [row Hrow].
      rewrite (list_lookup_total_correct _ _ _ Hrow).
      rewrite Forall_lookup in Ht. destruct (Ht _ _ Hrow) as [Lr _]. lia. }
  rewrite E, array_of_on_pos_same.
  destruct (array_all_of is_count p _ (cdf_all_at is_count d k Hd Hk)) as [Hlen _].
  unfold incr. rewrite <- Hl.
  rewrite elt_alter by (unfold NUM_LETTERS in Hlen; lia).
  destruct (decide _) as [_|Hne]; [reflexivity|contradiction].
Qed.

Lemma of_int_to_int (x : F32.f32) : is_count x -> x = F32.of_int (F32.to_int x).
Proof. intros [k Hk]. rewrite (to_int_count _ _ Hk). exact (proj2 Hk). Qed.

Lemma to_int_add_one_min (x : F32.f32) :
  is_count x -> F32.to_int (F32.add_one x) = Z.min (F32.to_int x + 1) (2 ^ 24).
Proof.
  intros [k Hk]. rewrite (to_int_count _ _ (add_one_count _ _ Hk)).
  now rewrite (to_int_count _ _ Hk).
Qed.

Lemma to_int_range (x : F32.f32) : is_count x -> 0 <= F32.to_int x <= 2 ^ 24.
Proof. intros [k Hk]. rewrite (to_int_count _ _ Hk). exact (proj1 Hk). Qed.

(** After a sequence of increments an entry holds its count before plus the
    number of increments that wrote it, as far as a float counts. *)
Lemma cell_run_increments_count (k : cdf_index) (p : position) (i : nat)
    (os : list increment) :
  in_table k -> (i < 28)%nat ->
  forall d, data_all is_count d ->
    F32.to_int (cell (run_increments os d) k p i)
    = Z.min (2 ^ 24)
        (F32.to_int (cell d k p i) + Z.of_nat (length (List.filter (hitb k p i) os))).
Proof.
  intros Hk Hi. induction os as [|o os IH]; intros d Hd.
  - cbn [run_increments fold_left List.filter length].
    pose proof (to_int_range _ (cell_is_count d k p i Hd Hk)). lia.
  - cbn [run_increments fold_left]. fold (run_increments os (run_increment o d)).
    rewrite (IH _ (data_all_run_increment o d Hd)).
    cbn [List.filter]. pose proof (to_int_range _ (cell_is_count d k p i Hd Hk)) as Hr.
    destruct (hitb k p i o) eqn:E.
    + apply hitb_hits in E.
      rewrite (cell_run_increment_hit o d k p i Hd Hk Hi E).
      rewrite (to_int_add_one_min _ (cell_is_count d k p i Hd Hk)).
      cbn [length]. lia.
    + rewrite cell_run_increment_other; [reflexivity|].
      intros H. apply hitb_hits in H. congruence.
Qed.

(** The increments of the middle loop, window by window. *)
Lemma middle_increments_windows (buf2 : list byte) (q : Z) (k : nat) :
  forall (fuel : nat) (p : Z),
    0 <= p -> p + 1 + Z.of_nat k = q - 2 -> (k < fuel)%nat ->
    middle_increments fuel buf2 p q
    = flat_map (fun c => let '(c0, c1, c2) := window_at buf2 c in
                         increments3 Middle c0 c1 c2)
               (seq (Z.to_nat p + 2) k).
Proof.
  induction k as [|k IH]; intros fuel p Hp Hq Hf;
    (destruct fuel as [|fuel]; [lia|]); cbn [middle_increments seq flat_map].
  - replace (p + 1 =? q - 2) with true by (symmetry; apply Z.eqb_eq; lia).
    reflexivity.
  - replace (p + 1 =? q - 2) with false by (symmetry; apply Z.eqb_neq; lia).
    rewrite IH by lia.
    replace (Z.to_nat (p + 1) + 2)%nat with (S (Z.to_nat p + 2)) by lia.
    f_equal. unfold window_at.
    replace (Z.of_nat (Z.to_nat p + 2) - 1) with (p + 1) by lia.
    replace (Z.of_nat (Z.to_nat p + 2)) with (p + 1 + 1) by lia.
    replace (p + 1 + 1 + 1) with (p + 1 + 2) by lia.
    reflexivity.
Qed.

Lemma name_increments_windows (w : list byte) :
  (3 <= length w)%nat ->
  exists os,
    length os = 6%nat /\ Forall (fun o => increment_position o <> Middle) os /\
    name_increments w
    = os ++ flat_map (fun c => let '(c0, c1, c2) := window_at w c in
                               increments3 Middle c0 c1 c2)
                     (inner_positions (length w)).
Proof.
  intros Hn. unfold name_increments. cbv zeta.
  set (q := Z.of_nat (length w) - 1).
  exists (increments3 Start (at_ w 0) (at_ w 1) (at_ w 2)
          ++ [Incr1 End (idx (at_ w q));
              Incr2 End (idx (at_ w (q - 1))) (idx (at_ w q));
              Incr3 End (idx (at_ w (q - 2))) (idx (at_ w (q - 1))) (idx (at_ w q))]).
  split; [reflexivity|]. split.
  { unfold increments3. cbn [app].
    repeat (apply List.Forall_cons; [cbn; discriminate|]). constructor. }
  rewrite <- app_assoc. do 2 f_equal. unfold inner_positions.
  unfold q. destruct (Z.of_nat (length w) - 1 - 0 =? 2) eqn:E.
  - apply Z.eqb_eq in E. replace (length w - 4)%nat with O by lia. reflexivity.
  - apply Z.eqb_neq in E.
    now rewrite (middle_increments_windows w _ (length w - 4)) by lia.
Qed.

Lemma filter_length_flat_map {A B} (P : B -> bool) (Q : A -> bool) (f : A -> list B)
    (l : list A) :
  (forall x, In x l -> length (List.filter P (f x)) = if Q x then 1%nat else O) ->
  length (List.filter P (flat_map f l)) = length (List.filter Q l).
Proof.
  induction l as [|x l IH]; intros H; [reflexivity|].
  cbn [flat_map List.filter]. rewrite List.filter_app, length_app.
  rewrite (H x (or_introl eq_refl)), IH by (intros y Hy; apply H; now right).
  destruct (Q x); reflexivity.
Qed.

Lemma filter_length_map {A B} (P : B -> bool) (g : A -> B) (l : list A) :
  length (List.filter P (map g l)) = length (List.filter (fun x => P (g x)) l).
Proof.
  induction l as [|x l IH]; [reflexivity|]. cbn [map List.filter].
  destruct (P (g x)); cbn [length]; now rewrite IH.
Qed.

Lemma filter_none {A} (P : A -> bool) (l : list A) :
  Forall (fun x => P x = false) l -> List.filter P l = [].
Proof.
  induction 1 as [|x l Hx _ IH]; [reflexivity|]. cbn [List.filter]. now rewrite Hx.
Qed.

(** A character of [letters] is the letter at position [i] exactly when
    its index is [i]. *)
Lemma eqb_letter (x : byte) (i : nat) :
  In x letters -> (i < 28)%nat ->
  Byte.eqb x (letters !!! i) = (i =? Z.to_nat (idx x))%nat /\ 0 <= idx x < 28.
Proof.
  intros Hx Hi. apply list_elem_of_In, list_elem_of_lookup in Hx.
  destruct Hx as [m Hm].
  pose proof (lookup_lt_Some _ _ _ Hm) as Hlt. change (length letters) with 28%nat in Hlt.
  pose proof (idx_letter m Hlt) as Em.
  rewrite (list_lookup_total_correct _ _ _ Hm) in Em. rewrite Em.
  split; [|lia]. rewrite Nat2Z.id.
  destruct (Nat.eqb_spec i m) as [->|Hne].
  - apply Byte.byte_dec_lb. now rewrite (list_lookup_total_correct _ _ _ Hm).
  - destruct (Byte.eqb x (letters !!! i)) eqn:E; [|reflexivity].
    apply Byte.byte_dec_bl in E. exfalso. apply Hne.
    pose proof (idx_letter i Hi) as Ei. rewrite <- E, Em in Ei. lia.
Qed.

Lemma window_letters (w : list byte) (c : nat) :
  Forall (fun x => In x letters) w -> In c (inner_positions (length w)) ->
  let '(c0, c1, c2) := window_at w c in
  In c0 letters /\ In c1 letters /\ In c2 letters.
Proof.
  intros Hw Hc. unfold inner_positions in Hc. apply in_seq in Hc.
  assert (H : forall z, 0 <= z < Z.of_nat (length w) -> In (at_ w z) letters).
  { intros z Hz. unfold at_.
    assert (Hin : w !!! Z.to_nat z ∈ w) by (apply list_elem_of_lookup_total_2; lia).
    exact (proj1 (Forall_forall _ _) Hw _ Hin). }
  unfold window_at. repeat split; apply H; lia.
Qed.

(** The increments of a name that write a middle entry, counted by the
    windows of the name. *)
Lemma middle_hits_windows (w : list byte) (k : cdf_index) (i : nat) (cs : list byte) :
  (3 <= length w)%nat -> Forall (fun x => In x letters) w ->
  (forall c0 c1 c2, In c0 letters -> In c1 letters -> In c2 letters ->
     length (List.filter (hitb k Middle i) (increments3 Middle c0 c1 c2))
     = if begins cs (c0, c1, c2) then 1%nat else O) ->
  Z.of_nat (length (List.filter (hitb k Middle i) (name_increments w)))
  = windows_with cs w.
Proof.
  intros Hn Hw Hone.
  destruct (name_increments_windows w Hn) as (os & _ & Hos & ->).
  rewrite List.filter_app, length_app.
  rewrite (filter_none (hitb k Middle i) os).
  2:{ eapply List.Forall_impl; [|exact Hos]. intros o Ho. cbn beta in Ho.
      unfold hitb. destruct (increment_position o); try reflexivity. contradiction. }
  cbn [length Nat.add]. unfold windows_with, interior_windows.
  rewrite filter_length_map. f_equal.
  apply filter_length_flat_map. intros c Hc.
  pose proof (window_letters w c Hw Hc) as Hl.
  destruct (window_at w c) as [[c0 c1] c2]. destruct Hl as (H0 & H1 & H2).
  now apply Hone.
Qed.

Lemma window_hits_single (i : nat) (c0 c1 c2 : byte) :
  (i < 28)%nat -> In c0 letters -> In c1 letters -> In c2 letters ->
  length (List.filter (hitb Single Middle i) (increments3 Middle c0 c1 c2))
  = if begins [letters !!! i] (c0, c1, c2) then 1%nat else O.
Proof.
  intros Hi H0 H1 H2. destruct (eqb_letter c0 i H0 Hi) as [E0 _].
  unfold increments3, begins, hitb. cbn [List.filter increment_position increment_letter andb].
  rewrite E0, ?andb_false_r, ?andb_true_r. cbn [andb].
  destruct (i =? Z.to_nat (idx c0))%nat; reflexivity.
Qed.

Lemma window_hits_double (i j : nat) (c0 c1 c2 : byte) :
  (i < 28)%nat -> (j < 28)%nat -> In c0 letters -> In c1 letters -> In c2 letters ->
  length (List.filter (hitb (Double (Z.of_nat i)) Middle j) (increments3 Middle c0 c1 c2))
  = if begins [letters !!! i; letters !!! j] (c0, c1, c2) then 1%nat else O.
Proof.
  intros Hi Hj H0 H1 H2.
  destruct (eqb_letter c0 i H0 Hi) as [E0 _]. destruct (eqb_letter c1 j H1 Hj) as [E1 _].
  unfold increments3, begins, hitb. cbn [List.filter increment_position increment_letter andb].
  rewrite E0, E1, ?andb_false_r, ?andb_true_r, ?Nat2Z.id. cbn [andb].
  destruct (j =? Z.to_nat (idx c1))%nat, (i =? Z.to_nat (idx c0))%nat; reflexivity.
Qed.

Lemma window_hits_triple (i j k : nat) (c0 c1 c2 : byte) :
  (i < 28)%nat -> (j < 28)%nat -> (k < 28)%nat ->
  In c0 letters -> In c1 letters -> In c2 letters ->
  length (List.filter (hitb (Triple (Z.of_nat i) (Z.of_nat j)) Middle k)
            (increments3 Middle c0 c1 c2))
  = if begins [letters !!! i; letters !!! j; letters !!! k] (c0, c1, c2)
    then 1%nat else O.
Proof.
  intros Hi Hj Hk H0 H1 H2.
  destruct (eqb_letter c0 i H0 Hi) as [E0 _]. destruct (eqb_letter c1 j H1 Hj) as [E1 _].
  destruct (eqb_letter c2 k H2 Hk) as [E2 _].
  unfold increments3, begins, hitb. cbn [List.filter increment_position increment_letter andb].
  rewrite E0, E1, E2, ?andb_false_r, ?andb_true_r, ?Nat2Z.id. cbn [andb].
  destruct (k =? Z.to_nat (idx c2))%nat, (i =? Z.to_nat (idx c0))%nat,
    (j =? Z.to_nat (idx c1))%nat; reflexivity.
Qed.

(** A middle entry after a name: the float of its count before plus the
    number of interior windows that name it. *)
Lemma middle_cell_count (w : list byte) (d : ltrdata) (k : cdf_index) (i : nat)
    (cs : list byte) :
  (3 <= length w)%nat -> Forall (fun x => In x letters) w -> data_all is_count d ->
  in_table k -> (i < 28)%nat ->
  (forall c0 c1 c2, In c0 letters -> In c1 letters -> In c2 letters ->
     length (List.filter (hitb k Middle i) (increments3 Middle c0 c1 c2))
     = if begins cs (c0, c1, c2) then 1%nat else O) ->
  cell (count_name w d) k Middle i
  = F32.of_int (Z.min (2 ^ 24) (F32.to_int (cell d k Middle i) + windows_with cs w)).
Proof.
  intros Hn Hw Hd Hk Hi Hone.
  rewrite <- (middle_hits_windows w k i cs Hn Hw Hone).
  rewrite <- (cell_run_increments_count k Middle i (name_increments w) Hk Hi d Hd).
  rewrite <- count_name_increments.
  apply of_int_to_int, cell_is_count; [|exact Hk].
  apply data_all_count_name; [exact is_count_add_one | exact Hd].
Qed.

(** C6. For every cleaned name [w] of n >= 3 characters, the counting adds
    to the middle arrays exactly one occurrence of each window of three
    characters that lies strictly between the start window (the first three
    characters) and the end window (the last three): the windows whose
    middle character is at a position other than the first two and the last
    two.  One occurrence of the window [c0 c1 c2] is one [+= 1.0] on each of
    [singles.middle[c0]], [doubles[c0].middle[c1]] and
    [triples[c0][c1].middle[c2]]: on a table of counts, every entry of
    [singles.middle] ends as the float of its count before plus the number
    of these windows that begin with its letter, every entry of a
    [doubles[.].middle] as that plus the number of windows that begin with
    its two letters, every entry of a [triples[.][.].middle] as that plus
    the number of windows that are its three letters (a float holds a count
    up to 2^24 and stays there).  A name of exactly 3 characters changes no
    middle array. *)
Theorem middle_counts (w : list byte) (d : ltrdata) :
  (3 <= length w)%nat ->
  (middles (count_name w d)
   = fold_left (fun m c => let '(c0, c1, c2) := window_at w c in
                           count3_arrays c0 c1 c2 m)
               (inner_positions (length w)) (middles d) /\
   (forall c, In c (inner_positions (length w)) <-> (2 <= c /\ c + 3 <= length w)%nat) /\
   (length w = 3%nat -> middles (count_name w d) = middles d)) /\
  (Forall (fun c => In c letters) w -> data_all is_count d ->
   forall i j k : nat, (i < 28)%nat -> (j < 28)%nat -> (k < 28)%nat ->
     let d' := count_name w d in
     let a := letters !!! i in
     let b := letters !!! j in
     let c := letters !!! k in
     elt (middle (singles d')) i
     = F32.of_int (Z.min (2 ^ 24)
         (F32.to_int (elt (middle (singles d)) i) + windows_with [a] w)) /\
     elt (middle (at_ (doubles d') (Z.of_nat i))) j
     = F32.of_int (Z.min (2 ^ 24)
         (F32.to_int (elt (middle (at_ (doubles d) (Z.of_nat i))) j)
          + windows_with [a; b] w)) /\
     elt (middle (at_ (at_ (triples d') (Z.of_nat i)) (Z.of_nat j))) k
     = F32.of_int (Z.min (2 ^ 24)
         (F32.to_int (elt (middle (at_ (at_ (triples d) (Z.of_nat i)) (Z.of_nat j))) k)
          + windows_with [a; b; c] w))).
Proof.
  intros Hn. split; [exact (middles_count_name w d Hn)|].
  intros Hw Hd i j k Hi Hj Hk d' a b c. split; [|split].
  - apply (middle_cell_count w d Single i [a] Hn Hw Hd I Hi).
    intros c0 c1 c2. now apply window_hits_single.
  - apply (middle_cell_count w d (Double (Z.of_nat i)) j [a; b] Hn Hw Hd
             (in_table_double i Hi) Hj).
    intros c0 c1 c2. now apply window_hits_double.
  - apply (middle_cell_count w d (Triple (Z.of_nat i) (Z.of_nat j)) k [a; b; c] Hn Hw Hd
             (in_table_triple i j Hi Hj) Hk).
    intros c0 c1 c2. now apply window_hits_triple.
Qed.

(** The name "abcbcd" on the empty table: its interior windows are [bcb] and
    [cbc]; [doubles[b].middle[c]] is counted once, [singles.middle[a]] not
    at all. *)
Lemma middle_counts_witness :
  (3 <= length [x61; x62; x63; x62; x63; x64])%nat /\
  interior_windows [x61; x62; x63; x62; x63; x64]
  = [(x62, x63, x62); (x63, x62, x63)] /\
  elt (middle (at_ (doubles (count_name [x61; x62; x63; x62; x63; x64] zero_data)) 1)) 2
  = F32.of_int 1 /\
  elt (middle (singles (count_name [x61; x62; x63; x62; x63; x64] zero_data))) 0
  = F32.of_int 0.
Proof.
  assert (Hn : (3 <= length [x61; x62; x63; x62; x63; x64])%nat) by (simpl; lia).
  assert (Hw : Forall (fun c => In c letters) [x61; x62; x63; x62; x63; x64])
    by (repeat (apply List.Forall_cons; [vm_compute; tauto|]); constructor).
  assert (Hd : data_all is_count zero_data) by exact (counted []).
  split; [exact Hn|]. split; [reflexivity|].
  pose proof (proj2 (middle_counts [x61; x62; x63; x62; x63; x64] zero_data Hn)
                Hw Hd 0%nat 1%nat 2%nat ltac:(lia) ltac:(lia) ltac:(lia)) as H0.
  pose proof (proj2 (middle_counts [x61; x62; x63; x62; x63; x64] zero_data Hn)
                Hw Hd 1%nat 2%nat 0%nat ltac:(lia) ltac:(lia) ltac:(lia)) as H1.
  cbv zeta in H0, H1. split.
  - exact (proj1 (proj2 H1)).
  - exact (proj1 H0).
Defined.

(** ** The round that ends a name *)







(** ** Dead ends, and whether a name is returned *)




(** ** Reading the names: what [scanf] delivers *)







(** ** Reading the names: the cleaning *)





